(** * The state-synchronisation core of folding-control (server.js)

    A shallow embedding of [normalizePropertyKey], [applyStateUpdate],
    the connection registry ([fahConnections], [machineData],
    [getFAHConnection] and its event handlers) and the command router
    ([fahWebSocketCommand], [fahRequest]), with the properties the
    specification states about them; and of the endpoints [fahRequest]
    answers from the synchronized document, the list of instances with
    its file and its routes, and the reading of table cells in the
    Extreme Overclocking route, with further properties of the code.

    The embedding is presented in two layers.  Module [JS] fixes the
    fragment of JavaScript the code runs on: JSON data, the coercions
    the code triggers on it, and own-property access on arrays and plain
    objects.  The later modules translate the functions of server.js
    line by line on top of it. *)

From Stdlib Require Import ZArith QArith Ascii String.
From stdpp Require Import base option list gmap strings pretty.

Open Scope Z_scope.

(** ** The JavaScript fragment *)

Module JS.

(** Values reachable from [JSON.parse], plus [undefined].

    - A number is a finite fraction [n # d]; the integers are the
      fractions whose denominator divides the numerator.  Infinities and
      NaN are not values of the fragment.
    - A string is its sequence of code units, limited to the units
      0..255 that [ascii] offers, so [String.length] is [.length].
    - An array is its list of elements; a hole is [VUndef].
    - A plain object is the association list of its own properties in
      insertion order, with pairwise distinct keys.  (JavaScript
      enumerates canonical numeric keys first; nothing below depends on
      the enumeration order.) *)
#[local] Unset Elimination Schemes.
Inductive value : Type :=
  | VUndef
  | VNull
  | VBool (b : bool)
  | VNum (q : Q)
  | VStr (s : string)
  | VArr (elems : list value)
  | VObj (props : list (string * value)).
#[local] Set Elimination Schemes.

(** Integer literals as values. *)
Definition VInt (z : Z) : value := VNum (inject_Z z).

(** What evaluating an expression can do: return, raise an exception
    of type [E], or leave the fragment.  [Unmodelled] marks the places
    where the code leaves it (the prototype chain, properties of arrays
    other than indices and [length], numeric strings that are not
    canonical integers, the printing of numbers that are no integers
    below 2^53); it is never confused with a JavaScript exception. *)
Inductive js_error : Type := TypeError | RangeError | SyntaxError.

Inductive result (E A : Type) : Type :=
  | Ret (a : A)
  | Throw (e : E)
  | Unmodelled.
Arguments Ret {E A} a.
Arguments Throw {E A} e.
Arguments Unmodelled {E A}.

(** On values an exception is the error raised. *)
Abbreviation res := (result js_error).

#[global] Instance res_ret {E} : MRet (result E) := λ A, Ret.
#[global] Instance res_bind {E} : MBind (result E) := λ A B f m,
  match m with
  | Ret a => f a
  | Throw e => Throw e
  | Unmodelled => Unmodelled
  end.
#[global] Instance res_fmap {E} : FMap (result E) := λ A B f m,
  match m with
  | Ret a => Ret (f a)
  | Throw e => Throw e
  | Unmodelled => Unmodelled
  end.

(** *** Numbers *)

(** [Number.isInteger] on a finite number. *)
Definition is_integer (q : Q) : bool := Qnum q mod Zpos (Qden q) =? 0.

(** The integer part towards minus infinity. *)
Definition floor (q : Q) : Z := Qnum q / Zpos (Qden q).

(** [q === z] for an integer literal [z]. *)
Definition num_eqb (q : Q) (z : Z) : bool := Qnum q =? z * Zpos (Qden q).

(** [Number.isInteger(v)]: false on everything that is not a number. *)
Definition Number_isInteger (v : value) : bool :=
  match v with
  | VNum q => is_integer q
  | _ => false
  end.

(** [v === z] for an integer literal [z] (strict equality: no coercion). *)
Definition strict_eq_int (v : value) (z : Z) : bool :=
  match v with
  | VNum q => num_eqb q z
  | _ => false
  end.

(** [Number::toString] on an integer: its decimal digits.  From 2^53
    on not every integer is a number, and JavaScript prints the shortest
    digits that read back as the number, with zeros after them. *)
Definition int_to_string (z : Z) : res string :=
  if Z.abs z <? 2 ^ 53 then Ret (pretty z) else Unmodelled.

Definition number_to_string (q : Q) : res string :=
  if is_integer q then int_to_string (floor q) else Unmodelled.

(** *** Strings *)

Definition hyphen : ascii := "-"%char.
Definition underscore : ascii := "_"%char.

(** [s.replace(/-/g, '_')]. *)
Fixpoint replace_hyphens (s : string) : string :=
  match s with
  | EmptyString => EmptyString
  | String c s' =>
      String (if Ascii.eqb c hyphen then underscore else c) (replace_hyphens s')
  end.

Fixpoint has_hyphen (s : string) : bool :=
  match s with
  | EmptyString => false
  | String c s' => Ascii.eqb c hyphen || has_hyphen s'
  end.

Definition digit_of (c : ascii) : option N :=
  let n := N_of_ascii c in
  if (48 <=? n)%N && (n <=? 57)%N then Some (n - 48)%N else None.

Fixpoint parse_digits (acc : N) (s : string) : option N :=
  match s with
  | EmptyString => Some acc
  | String c s' =>
      match digit_of c with
      | Some d => parse_digits (10 * acc + d)%N s'
      | None => None
      end
  end.

(** The natural number a string is the canonical decimal form of:
    digits only, no sign, no leading zero. *)
Definition canonical_nat (s : string) : option N :=
  match s with
  | EmptyString => None
  | _ =>
      match parse_digits 0 s with
      | Some n => if String.eqb (pretty n) s then Some n else None
      | None => None
      end
  end.

(** The integer a string is the canonical decimal form of. *)
Definition canonical_int (s : string) : option Z :=
  match s with
  | String c s' =>
      if Ascii.eqb c hyphen then
        match canonical_nat s' with
        | Some n => if (n =? 0)%N then None else Some (- Z.of_N n)
        | None => None
        end
      else Z.of_N <$> canonical_nat s
  | EmptyString => None
  end.

(** An array index is a property key that is the canonical form of an
    integer below 2^32 - 1. *)
Definition array_index (k : string) : option nat :=
  match canonical_nat k with
  | Some n => if (n <? 2 ^ 32 - 1)%N then Some (N.to_nat n) else None
  | None => None
  end.

Definition is_ascii_letter (c : ascii) : bool :=
  let n := N_of_ascii c in
  ((65 <=? n)%N && (n <=? 90)%N) || ((97 <=? n)%N && (n <=? 122)%N).

(** [StringToNumber], with [None] for NaN.  The empty string is 0; a
    canonical integer of magnitude below 2^53 is itself; a string that
    starts with a letter other than [I] is no numeric literal.  The
    rest of the numeric grammar (blanks, signs, fractions, exponents,
    radix prefixes, [Infinity]) is outside the fragment. *)
Definition string_to_number (s : string) : res (option Q) :=
  match s with
  | EmptyString => Ret (Some 0%Q)
  | String c _ =>
      match canonical_int s with
      | Some z => if Z.abs z <? 2 ^ 53 then Ret (Some (inject_Z z)) else Unmodelled
      | None =>
          if is_ascii_letter c && negb (Ascii.eqb c "I"%char)
          then Ret None else Unmodelled
      end
  end.

(** *** Own properties *)

(** The property table of an object and the element list of an array,
    whatever the slots hold ([V] is [value] here and a reference or a
    primitive in the store of module [Store]). *)
Section Slots.
Context {V : Type}.

Fixpoint lookup_prop (k : string) (props : list (string * V)) : option V :=
  match props with
  | [] => None
  | (k', v) :: rest => if String.eqb k k' then Some v else lookup_prop k rest
  end.

Definition has_own (k : string) (props : list (string * V)) : bool :=
  match lookup_prop k props with Some _ => true | None => false end.

(** Replace the value of an own property, keeping its position. *)
Fixpoint replace_prop (k : string) (v : V) (props : list (string * V))
  : list (string * V) :=
  match props with
  | [] => []
  | (k', v') :: rest =>
      if String.eqb k k' then (k', v) :: rest
      else (k', v') :: replace_prop k v rest
  end.

Fixpoint remove_prop (k : string) (props : list (string * V))
  : list (string * V) :=
  match props with
  | [] => []
  | (k', v') :: rest =>
      if String.eqb k k' then rest else (k', v') :: remove_prop k rest
  end.

(** [elems[i] = v]: in range the element is replaced; past the end
    the array grows, leaving holes in between. *)
Definition array_store (hole : V) (i : nat) (v : V) (elems : list V) : list V :=
  if (i <? length elems)%nat then <[i := v]> elems
  else elems ++ replicate (i - length elems) hole ++ [v].
End Slots.

(** *** Coercions *)

(** [ToString].  An array joins its elements with commas, writing
    nothing for [null] and [undefined]; a plain object is
    ["[object Object]"] unless an own [toString] property, which in JSON
    data is never callable, shadows the inherited method: the
    conversion then fails with a [TypeError]. *)
Fixpoint to_string (v : value) : res string :=
  match v with
  | VUndef => Ret "undefined"
  | VNull => Ret "null"
  | VBool true => Ret "true"
  | VBool false => Ret "false"
  | VNum q => number_to_string q
  | VStr s => Ret s
  | VArr elems =>
      (fix join (l : list value) : res string :=
         match l with
         | [] => Ret ""
         | x :: rest =>
             s ← match x with
                 | VUndef | VNull => Ret ""
                 | _ => to_string x
                 end;
             match rest with
             | [] => Ret s
             | _ => r ← join rest; Ret (s +:+ "," +:+ r)
             end
         end) elems
  | VObj props =>
      if has_own "toString" props then Throw TypeError
      else Ret "[object Object]"
  end.

(** [ToPropertyKey]: the string under which [obj[key]] looks. *)
Definition to_property_key (key : value) : res string := to_string key.

(** [ToNumber], with [None] for NaN.  Arrays and objects convert
    through their string. *)
Definition to_number (v : value) : res (option Q) :=
  match v with
  | VUndef => Ret None
  | VNull => Ret (Some 0%Q)
  | VBool true => Ret (Some 1%Q)
  | VBool false => Ret (Some 0%Q)
  | VNum q => Ret (Some q)
  | VStr s => string_to_number s
  | VArr _ | VObj _ => s ← to_string v; string_to_number s
  end.

(** Truthiness ([!v] is its negation). *)
Definition truthy (v : value) : bool :=
  match v with
  | VUndef | VNull => false
  | VBool b => b
  | VNum q => negb (Qnum q =? 0)
  | VStr s => negb (String.eqb s "")
  | VArr _ | VObj _ => true
  end.

(** [typeof v === 'object'] (true of [null] as well). *)
Definition typeof_object (v : value) : bool :=
  match v with
  | VNull | VArr _ | VObj _ => true
  | _ => false
  end.

Definition Array_isArray (v : value) : bool :=
  match v with VArr _ => true | _ => false end.

Definition is_null (v : value) : bool :=
  match v with VNull => true | _ => false end.

Definition is_undefined (v : value) : bool :=
  match v with VUndef => true | _ => false end.

(** *** Property access on arrays and plain objects *)

(** Names a plain object inherits from [Object.prototype]. *)
Definition object_prototype_names : list string :=
  [ "constructor"; "__defineGetter__"; "__defineSetter__"; "hasOwnProperty";
    "__lookupGetter__"; "__lookupSetter__"; "isPrototypeOf";
    "propertyIsEnumerable"; "toString"; "valueOf"; "__proto__";
    "toLocaleString" ]%string.

Definition inherited (k : string) : bool :=
  existsb (String.eqb k) object_prototype_names.

(** [obj[k]] read, [k] already a property key.  A miss on a plain
    object is [undefined] unless the name is an inherited one; an array
    answers for its indices (a hole or an index past the end reads
    [undefined]) and for [length]. *)
Definition get_own (obj : value) (k : string) : res value :=
  match obj with
  | VObj props =>
      match lookup_prop k props with
      | Some v => Ret v
      | None => if inherited k then Unmodelled else Ret VUndef
      end
  | VArr elems =>
      if String.eqb k "length" then Ret (VInt (Z.of_nat (length elems)))
      else match array_index k with
           | Some i => Ret (default VUndef (elems !! i))
           | None => Unmodelled
           end
  | VUndef | VNull => Throw TypeError
  | _ => Unmodelled
  end.

(** [elems.length = v]: [v] must convert to an integer in 0 .. 2^32-1,
    or a [RangeError] is raised; the array is cut or padded with holes. *)
Definition array_set_length (elems : list value) (v : value) : res value :=
  n ← to_number v;
  match n with
  | Some q =>
      if is_integer q && (0 <=? floor q) && (floor q <? 2 ^ 32)
      then Ret (VArr (resize (Z.to_nat (floor q)) VUndef elems))
      else Throw RangeError
  | None => Throw RangeError
  end.

(** [obj[k] = v], returning the container after the assignment.  On a
    plain object an own property keeps its position and a new one goes
    last; [__proto__] that is not an own property is the inherited
    setter. *)
Definition set_own (obj : value) (k : string) (v : value) : res value :=
  match obj with
  | VObj props =>
      if has_own k props then Ret (VObj (replace_prop k v props))
      else if String.eqb k "__proto__" then Unmodelled
      else Ret (VObj (props ++ [(k, v)]))
  | VArr elems =>
      if String.eqb k "length" then array_set_length elems v
      else match array_index k with
           | Some i => Ret (VArr (array_store VUndef i v elems))
           | None => Unmodelled
           end
  | VUndef | VNull => Throw TypeError
  | _ => Unmodelled
  end.

(** [delete obj[k]] on a plain object: the own property goes, a
    missing one is not an error. *)
Definition delete_own (obj : value) (k : string) : res value :=
  match obj with
  | VObj props => Ret (VObj (remove_prop k props))
  | VUndef | VNull => Throw TypeError
  | _ => Unmodelled
  end.

(** *** JSON round trip *)

(** What [JSON.parse] reads back from [JSON.stringify(v)] for a [v]
    other than [undefined]: holes of arrays come back as [null],
    properties holding [undefined] are dropped. *)
Fixpoint json_value (v : value) : value :=
  match v with
  | VArr elems =>
      VArr (List.map (λ x, match x with VUndef => VNull | _ => json_value x end) elems)
  | VObj props =>
      VObj ((fix go (l : list (string * value)) : list (string * value) :=
               match l with
               | [] => []
               | (k, x) :: rest =>
                   match x with
                   | VUndef => go rest
                   | _ => (k, json_value x) :: go rest
                   end
               end) props)
  | _ => v
  end.

(** [JSON.parse(JSON.stringify(v))].  [JSON.stringify(undefined)] is
    [undefined], which [JSON.parse] rejects. *)
Definition json_clone (v : value) : res value :=
  match v with
  | VUndef => Throw SyntaxError
  | _ => Ret (json_value v)
  end.

End JS.

(** ** The document patcher *)

Module Patcher.
Import JS.

(** [normalizePropertyKey] (server.js, lines 68-76). *)
Definition normalizePropertyKey (key : value) : value :=
  match key with
  | VStr s =>
      if (0 <? String.length s)%nat && (String.length s <=? 16)%nat
      then VStr (replace_hyphens s)
      else key
  | _ => key
  end.

(** The guard of lines 113-114 and 136-137:
    [o === null || o === undefined ||
     (typeof o !== 'object' && !Array.isArray(o))]. *)
Definition not_container (o : value) : bool :=
  is_null o || is_undefined o || (negb (typeof_object o) && negb (Array_isArray o)).

(** Lines 141-173: the update at the target location.  The result is
    the container after the update. *)
Definition apply_final (currentObject targetKey newValue : value) : res value :=
  match currentObject with
  | VArr elems =>
      if strict_eq_int targetKey (-1) then
        Ret (VArr (elems ++ [newValue]))
      else if strict_eq_int targetKey (-2) then
        match newValue with
        | VArr items => Ret (VArr (elems ++ items))
        | _ => Ret currentObject
        end
      else if is_null newValue then
        n ← to_number targetKey;
        match n with
        | Some q =>
            if (0 <=? floor q) && (floor q <? Z.of_nat (length elems))
            then Ret (VArr (delete (Z.to_nat (floor q)) elems))
            else Ret currentObject
        | None => Ret currentObject
        end
      else
        k ← to_property_key targetKey;
        set_own currentObject k newValue
  | _ =>
      k ← to_property_key targetKey;
      if is_null newValue then delete_own currentObject k
      else set_own currentObject k newValue
  end.

(** The slot of [parent] under key [k] now holds [child]: the effect
    on the parent of the in-place changes made below it. *)
Definition put_back (parent : value) (k : string) (child : value) : value :=
  match parent with
  | VObj props => VObj (replace_prop k child props)
  | VArr elems =>
      match array_index k with
      | Some i => VArr (<[i := child]> elems)
      | None => parent
      end
  | _ => parent
  end.

(** Lines 108-139: the traversal from [currentObject] along what is
    left of the update array, then the final update.  [None] is the
    early [return currentState]; [Some o] is [currentObject] after all
    the changes made in and below it. *)
Fixpoint descend (currentObject : value) (rest : list value) : res (option value) :=
  match rest with
  | [key; newValue] =>
      if not_container currentObject then Ret None
      else
        let targetKey := normalizePropertyKey key in
        Some <$> apply_final currentObject targetKey newValue
  | key :: ((nextElement :: _) as rest') =>
      let pathKey := normalizePropertyKey key in
      if not_container currentObject then Ret None
      else
        k ← to_property_key pathKey;
        child ← get_own currentObject k;
        step ← (if is_undefined child || is_null child then
                  let created :=
                    if Number_isInteger nextElement then VArr [] else VObj [] in
                  o ← set_own currentObject k created; Ret (o, created)
                else Ret (currentObject, child));
        let '(parent, child) := step in
        if is_null child || is_undefined child then Ret None
        else
          r ← descend child rest';
          match r with
          | Some child' => Ret (Some (put_back parent k child'))
          | None => Ret None
          end
  | _ => Ret None
  end.

(** [applyStateUpdate] (server.js, lines 87-176). *)
Definition applyStateUpdate (currentState updateArray : value) : res value :=
  match updateArray with
  | VArr ops =>
      if (length ops <? 2)%nat then Ret currentState
      else
        let currentState :=
          if negb (truthy currentState) || negb (typeof_object currentState)
             || Array_isArray currentState
          then VObj [] else currentState in
        state ← json_clone currentState;
        r ← descend state ops;
        Ret (default currentState r)
  | _ => Ret currentState
  end.

End Patcher.

(** ** The patcher on a store of mutable objects

    [applyStateUpdate] once more, this time with arrays and objects as
    mutable cells of a store and variables holding references to them:
    the assignments, [push], [splice] and [delete] of the source change
    a cell in place, and the value an update installs is shared with
    the update array.  This is the level at which "the input document
    is not mutated" is a statement. *)

Module Store.
Import JS Patcher.

Definition loc : Type := positive.

(** What a variable or a slot holds: a primitive, or a reference. *)
Inductive ref_value : Type :=
  | RUndef
  | RNull
  | RBool (b : bool)
  | RNum (q : Q)
  | RStr (s : string)
  | RRef (l : loc).

Inductive cell : Type :=
  | CArr (elems : list ref_value)
  | CObj (props : list (string * ref_value)).

Abbreviation store := (gmap loc cell).

(** The JSON tree below a value, following at most [fuel] references
    in a row. *)
Fixpoint read (fuel : nat) (h : store) (v : ref_value) : option value :=
  match v with
  | RUndef => Some VUndef
  | RNull => Some VNull
  | RBool b => Some (VBool b)
  | RNum q => Some (VNum q)
  | RStr s => Some (VStr s)
  | RRef l =>
      match fuel with
      | O => None
      | S fuel' =>
          match h !! l with
          | Some (CArr elems) => VArr <$> mapM (read fuel' h) elems
          | Some (CObj props) =>
              VObj <$> mapM (λ kv, pair kv.1 <$> read fuel' h kv.2) props
          | None => None
          end
      end
  end.

(** A chain of more references than the store has cells comes back
    to a cell it has visited: with this much fuel, [read] fails exactly
    on circular structures. *)
Definition tree_of (h : store) (v : ref_value) : option value :=
  read (S (size h)) h v.

(** A new cell. *)
Definition alloc_cell (c : cell) (h : store) : loc * store :=
  let l := fresh (dom h) in (l, <[l := c]> h).

(** The object graph [JSON.parse] builds for a tree: one new cell for
    each array and each object. *)
Fixpoint alloc (t : value) (h : store) : ref_value * store :=
  match t with
  | VUndef => (RUndef, h)
  | VNull => (RNull, h)
  | VBool b => (RBool b, h)
  | VNum q => (RNum q, h)
  | VStr s => (RStr s, h)
  | VArr elems =>
      let '(rs, h) :=
        (fix go (l : list value) (h : store) : list ref_value * store :=
           match l with
           | [] => ([], h)
           | x :: l' =>
               let '(r, h) := alloc x h in
               let '(rs, h) := go l' h in
               (r :: rs, h)
           end) elems h in
      let '(l, h) := alloc_cell (CArr rs) h in
      (RRef l, h)
  | VObj props =>
      let '(rs, h) :=
        (fix go (l : list (string * value)) (h : store)
           : list (string * ref_value) * store :=
           match l with
           | [] => ([], h)
           | (k, x) :: l' =>
               let '(r, h) := alloc x h in
               let '(rs, h) := go l' h in
               ((k, r) :: rs, h)
           end) props h in
      let '(l, h) := alloc_cell (CObj rs) h in
      (RRef l, h)
  end.

(** The two inner loops of [alloc], by name. *)
Fixpoint alloc_list (l : list value) (h : store) : list ref_value * store :=
  match l with
  | [] => ([], h)
  | x :: l' =>
      let '(r, h) := alloc x h in
      let '(rs, h) := alloc_list l' h in
      (r :: rs, h)
  end.

Fixpoint alloc_props (l : list (string * value)) (h : store)
  : list (string * ref_value) * store :=
  match l with
  | [] => ([], h)
  | (k, x) :: l' =>
      let '(r, h) := alloc x h in
      let '(rs, h) := alloc_props l' h in
      ((k, r) :: rs, h)
  end.

(** What the slots of a cell hold. *)
Definition slots (c : cell) : list ref_value :=
  match c with
  | CArr elems => elems
  | CObj props => props.*2
  end.

(** [v] is not a reference to a cell of [h0]. *)
Definition outside (h0 : store) (v : ref_value) : Prop :=
  match v with
  | RRef l => h0 !! l = None
  | _ => True
  end.

(** [h] has the cells of [h0] as they were, and its other cells hold
    no reference to a cell of [h0]. *)
Definition extends (h0 h : store) : Prop :=
  (∀ l c, h0 !! l = Some c → h !! l = Some c)
  ∧ (∀ l c, h !! l = Some c → h0 !! l = None → Forall (outside h0) (slots c)).

(** What a step on the store can do: an exception comes with the
    store it is raised in. *)
Abbreviation sres := (result (js_error * store)).

(** An expression on values, evaluated in the store [h]. *)
Definition lift {A : Type} (h : store) (r : res A) : sres A :=
  match r with
  | Ret a => Ret a
  | Throw e => Throw (e, h)
  | Unmodelled => Unmodelled
  end.

(** [JSON.parse(JSON.stringify(v))]: [JSON.stringify] raises a
    [TypeError] on a circular structure. *)
Definition json_clone (h : store) (v : ref_value) : sres (ref_value * store) :=
  match tree_of h v with
  | Some t => t' ← lift h (JS.json_clone t); Ret (alloc t' h)
  | None => Throw (TypeError, h)
  end.

(** The coercions read the tree below the value.  (How [join] treats
    an array that contains itself is outside the fragment.) *)
Definition tree (h : store) (v : ref_value) : sres value :=
  match tree_of h v with
  | Some t => Ret t
  | None => Unmodelled
  end.

Definition to_property_key (h : store) (key : ref_value) : sres string :=
  t ← tree h key; lift h (JS.to_property_key t).

Definition to_number (h : store) (v : ref_value) : sres (option Q) :=
  t ← tree h v; lift h (JS.to_number t).

Definition normalizePropertyKey (key : ref_value) : ref_value :=
  match key with
  | RStr s =>
      if (0 <? String.length s)%nat && (String.length s <=? 16)%nat
      then RStr (replace_hyphens s)
      else key
  | _ => key
  end.

Definition Number_isInteger (v : ref_value) : bool :=
  match v with RNum q => is_integer q | _ => false end.

Definition strict_eq_int (v : ref_value) (z : Z) : bool :=
  match v with RNum q => num_eqb q z | _ => false end.

Definition is_null (v : ref_value) : bool :=
  match v with RNull => true | _ => false end.

Definition is_undefined (v : ref_value) : bool :=
  match v with RUndef => true | _ => false end.

(** The cell behind a value that passes the guard of lines 113-114
    and 136-137: not [null], not [undefined], and an object by
    [typeof]. *)
Definition container (h : store) (o : ref_value) : option (loc * cell) :=
  match o with
  | RRef l => pair l <$> h !! l
  | _ => None
  end.

(** [obj[k]] read, on the cell of [obj]. *)
Definition get_own (c : cell) (k : string) : sres ref_value :=
  match c with
  | CObj props =>
      match lookup_prop k props with
      | Some v => Ret v
      | None => if inherited k then Unmodelled else Ret RUndef
      end
  | CArr elems =>
      if String.eqb k "length" then Ret (RNum (inject_Z (Z.of_nat (length elems))))
      else match array_index k with
           | Some i => Ret (default RUndef (elems !! i))
           | None => Unmodelled
           end
  end.

Definition array_set_length (h : store) (elems : list ref_value) (v : ref_value)
  : sres cell :=
  n ← to_number h v;
  match n with
  | Some q =>
      if is_integer q && (0 <=? floor q) && (floor q <? 2 ^ 32)
      then Ret (CArr (resize (Z.to_nat (floor q)) RUndef elems))
      else Throw (RangeError, h)
  | None => Throw (RangeError, h)
  end.

(** [obj[k] = v]: the cell of [obj] after the assignment. *)
Definition set_own (h : store) (c : cell) (k : string) (v : ref_value) : sres cell :=
  match c with
  | CObj props =>
      if has_own k props then Ret (CObj (replace_prop k v props))
      else if String.eqb k "__proto__" then Unmodelled
      else Ret (CObj (props ++ [(k, v)]))
  | CArr elems =>
      if String.eqb k "length" then array_set_length h elems v
      else match array_index k with
           | Some i => Ret (CArr (array_store RUndef i v elems))
           | None => Unmodelled
           end
  end.

(** Lines 141-173 on the cell [c] at [l]; the store with that cell
    updated in place. *)
Definition apply_final (h : store) (l : loc) (c : cell)
    (targetKey newValue : ref_value) : sres store :=
  match c with
  | CArr elems =>
      if strict_eq_int targetKey (-1) then
        Ret (<[l := CArr (elems ++ [newValue])]> h)
      else if strict_eq_int targetKey (-2) then
        match container h newValue with
        | Some (_, CArr items) => Ret (<[l := CArr (elems ++ items)]> h)
        | _ => Ret h
        end
      else if is_null newValue then
        n ← to_number h targetKey;
        match n with
        | Some q =>
            if (0 <=? floor q) && (floor q <? Z.of_nat (length elems))
            then Ret (<[l := CArr (delete (Z.to_nat (floor q)) elems)]> h)
            else Ret h
        | None => Ret h
        end
      else
        k ← to_property_key h targetKey;
        c' ← set_own h c k newValue;
        Ret (<[l := c']> h)
  | CObj props =>
      k ← to_property_key h targetKey;
      if is_null newValue then Ret (<[l := CObj (remove_prop k props)]> h)
      else c' ← set_own h c k newValue; Ret (<[l := c']> h)
  end.

(** Lines 108-139 and the final update; the flag is [false] for the
    early [return currentState]. *)
Fixpoint descend (h : store) (currentObject : ref_value) (rest : list ref_value)
  : sres (store * bool) :=
  match rest with
  | [key; newValue] =>
      match container h currentObject with
      | None => Ret (h, false)
      | Some (l, c) =>
          let targetKey := normalizePropertyKey key in
          h ← apply_final h l c targetKey newValue;
          Ret (h, true)
      end
  | key :: ((nextElement :: _) as rest') =>
      let pathKey := normalizePropertyKey key in
      match container h currentObject with
      | None => Ret (h, false)
      | Some (l, c) =>
          k ← to_property_key h pathKey;
          child ← get_own c k;
          step ← (if is_undefined child || is_null child then
                    let '(n, h) :=
                      alloc_cell (if Number_isInteger nextElement
                                  then CArr [] else CObj []) h in
                    c' ← set_own h c k (RRef n);
                    Ret (<[l := c']> h, RRef n)
                  else Ret (h, child));
          let '(h, child) := step in
          if is_null child || is_undefined child then Ret (h, false)
          else descend h child rest'
      end
  | _ => Ret (h, false)
  end.

(** Line 94: [!currentState || typeof currentState !== 'object' ||
    Array.isArray(currentState)]. *)
Definition needs_init (h : store) (currentState : ref_value) : bool :=
  match container h currentState with
  | Some (_, CObj _) => false
  | _ => true
  end.

(** [applyStateUpdate] (lines 87-176): the value returned and the
    store after the call, or the exception and the store it is raised
    in. *)
Definition applyStateUpdate (h : store) (currentState updateArray : ref_value)
  : sres (ref_value * store) :=
  match container h updateArray with
  | Some (_, CArr ops) =>
      if (length ops <? 2)%nat then Ret (currentState, h)
      else
        let '(currentState, h) :=
          if needs_init h currentState then
            let '(l, h) := alloc_cell (CObj []) h in (RRef l, h)
          else (currentState, h) in
        '(state, h) ← json_clone h currentState;
        '(h, completed) ← descend h state ops;
        Ret (if completed : bool then state else currentState, h)
  | _ => Ret (currentState, h)
  end.

End Store.

(** ** Trees in the store

    When a value of the store stands for a JSON tree, and when it holds
    that tree in cells of its own: what relates the patcher on the
    store to the patcher on trees. *)

Module Repr.
Import JS Store.

(** The longest chain of containers in a tree. *)
Fixpoint depth (t : value) : nat :=
  match t with
  | VArr elems => S (foldr (λ x n, Nat.max (depth x) n) 0%nat elems)
  | VObj props => S (foldr (λ kx n, Nat.max (depth kx.2) n) 0%nat props)
  | _ => 0
  end.

(** The number of values in a tree. *)
Fixpoint nodes (t : value) : nat :=
  match t with
  | VArr elems => S (foldr (λ x n, (nodes x + n)%nat) 0%nat elems)
  | VObj props => S (foldr (λ kx n, (nodes kx.2 + n)%nat) 0%nat props)
  | _ => 1
  end.

(** [v] stands for the tree [t] in the store [h]. *)
Definition represents (h : store) (v : ref_value) (t : value) : Prop :=
  ∃ fuel, read fuel h v = Some t.

(** The slots of the cell [c] stand, one by one, for the entries of
    the container [t]. *)
Definition cell_rep (h : store) (c : cell) (t : value) : Prop :=
  match c, t with
  | CArr es, VArr ts => Forall2 (represents h) es ts
  | CObj ps, VObj kts =>
      Forall2 (λ p kt, p.1 = kt.1 ∧ represents h p.2 kt.2) ps kts
  | _, _ => False
  end.

(** Two lists related entry by entry, each pair on cells of its own. *)
Inductive sep_list {A B : Type} (P : gset loc → A → B → Prop)
  : gset loc → list A → list B → Prop :=
  | sep_nil : sep_list P ∅ [] []
  | sep_cons F1 F2 a b la lb :
      P F1 a b → sep_list P F2 la lb → F1 ## F2 →
      sep_list P (F1 ∪ F2) (a :: la) (b :: lb).

(** [v] holds the tree [t] in the cells [F] of [h]: one cell for each
    container of [t], none of them reached twice.  This is what
    [JSON.parse] builds. *)
#[local] Unset Elimination Schemes.
Inductive owns (h : store) : gset loc → ref_value → value → Prop :=
  | owns_undef : owns h ∅ RUndef VUndef
  | owns_null : owns h ∅ RNull VNull
  | owns_bool b : owns h ∅ (RBool b) (VBool b)
  | owns_num q : owns h ∅ (RNum q) (VNum q)
  | owns_str s : owns h ∅ (RStr s) (VStr s)
  | owns_arr l es ts F :
      h !! l = Some (CArr es) → sep_list (owns h) F es ts → l ∉ F →
      owns h ({[l]} ∪ F) (RRef l) (VArr ts)
  | owns_obj l ps kts F :
      h !! l = Some (CObj ps) →
      sep_list (λ F p kt, p.1 = kt.1 ∧ owns h F p.2 kt.2) F ps kts → l ∉ F →
      owns h ({[l]} ∪ F) (RRef l) (VObj kts).
#[local] Set Elimination Schemes.

(** The position of the first of [keys] equal to [k]. *)
Fixpoint key_index (k : string) (keys : list string) : option nat :=
  match keys with
  | [] => None
  | k' :: rest => if String.eqb k k' then Some 0%nat else S <$> key_index k rest
  end.

End Repr.

(** ** The connection registry *)

Module Registry.
Import JS Patcher.

(** [ws.readyState]. *)
Inductive readyState : Type := CONNECTING | OPEN | CLOSING | CLOSED.

Definition is_open (s : readyState) : bool :=
  match s with OPEN => true | _ => false end.

(** A WebSocket object: its identity and the state of its transport. *)
Record socket : Type := { sock_id : nat; sock_state : readyState }.

(** An [Error] raised by the transport: [error.code] and [error.message]. *)
Record conn_error : Type := { err_code : option string; err_message : string }.

(** What the process does to the outside, oldest first. *)
Inductive io_event : Type :=
  | NewWebSocket (url : string)
  | WsSend (sock : nat) (frame : value)
  | WsClose (sock : nat)
  | HttpRequest (method url : string) (body : option value).

(** The module-level state of server.js: the two [Map]s of lines 59
    and 61, and the record of what was sent. *)
Record world : Type := {
  fahConnections : gmap string socket;
  machineData : gmap string value;
  trace : list io_event;
}.

Definition is_http (ev : io_event) : bool :=
  match ev with HttpRequest _ _ _ => true | _ => false end.

Definition emit (ev : io_event) (w : world) : world :=
  {| fahConnections := fahConnections w;
     machineData := machineData w;
     trace := trace w ++ [ev] |}.

(** [`${instanceId}:${host}:${port}`]. *)
Definition conn_key (instanceId host : string) (port : Z) : string :=
  instanceId +:+ ":" +:+ host +:+ ":" +:+ pretty port.

(** [`ws://${host}:${port}/api/websocket`]. *)
Definition ws_url (host : string) (port : Z) : string :=
  "ws://" +:+ host +:+ ":" +:+ pretty port +:+ "/api/websocket".

(** [fahConnections.delete(key); machineData.delete(key)]
    (lines 189-190, 255-256 and 260-261). *)
Definition forget (key : string) (w : world) : world :=
  {| fahConnections := delete key (fahConnections w);
     machineData := delete key (machineData w);
     trace := trace w |}.

(** [machineData.get(key)]: [undefined] when the key is absent. *)
Definition currentDocument (key : string) (w : world) : value :=
  default VUndef (machineData w !! key).

(** [messageHandler] (lines 204-232) on the document table.  The frame
    is what [JSON.parse] made of the text, [None] when it rejected it.
    Whatever is thrown inside the [try] is caught and leaves the table
    as it was; the console output is not part of the model. *)
Definition messageHandler (key : string) (rawData : option value)
    (md : gmap string value) : res (gmap string value) :=
  match rawData with
  | None => Ret md
  | Some data =>
      let currentState := default VUndef (md !! key) in
      let currentState :=
        if negb (truthy currentState) || negb (typeof_object currentState)
        then VObj [] else currentState in
      let body : res (gmap string value) :=
        if Array_isArray data then
          stateCopy ← json_clone currentState;
          updatedState ← applyStateUpdate stateCopy data;
          Ret (if truthy updatedState then <[key := updatedState]> md else md)
        else if truthy data && typeof_object data then
          Ret (<[key := data]> md)
        else Ret md in
      match body with
      | Throw _ => Ret md
      | r => r
      end
  end.

(** What the transport of the connection under [key] can deliver. *)
Inductive inbound : Type :=
  | Message (rawData : option value)
  | CloseEvent
  | ErrorEvent
  | StateChange (s : readyState).

(** The handlers attached in the [open] callback (lines 239, 254-262);
    a change of [readyState] is the socket's own. *)
Definition deliver (key : string) (ev : inbound) (w : world) : res world :=
  match ev with
  | Message rawData =>
      md ← messageHandler key rawData (machineData w);
      Ret {| fahConnections := fahConnections w;
             machineData := md;
             trace := trace w |}
  | CloseEvent => Ret (forget key w)
  | ErrorEvent => Ret (forget key w)
  | StateChange s =>
      Ret {| fahConnections :=
               alter (λ c, {| sock_id := sock_id c; sock_state := s |}) key
                     (fahConnections w);
             machineData := machineData w;
             trace := trace w |}
  end.

Fixpoint deliver_all (key : string) (evs : list inbound) (w : world) : res world :=
  match evs with
  | [] => Ret w
  | ev :: evs' => w' ← deliver key ev w; deliver_all key evs' w'
  end.

(** How the handshake of a new WebSocket ends. *)
Inductive connect_outcome : Type :=
  | Opened
  | ConnectError (e : conn_error)
  | ConnectTimeout.

Definition timeout_error : conn_error :=
  {| err_code := None; err_message := "WebSocket connection timeout" |}.

(** [{cmd: 'log', time: ..., enable: true}] (lines 243-247). *)
Definition logEnableRequest (now : string) : value :=
  VObj [("cmd", VStr "log"); ("time", VStr now); ("enable", VBool true)]%string.

(** [getFAHConnection] (lines 180-272): the promise settles with the
    socket or with the error; [now] is the clock reading used for the
    log frame and [outcome] what the handshake does if one is started. *)
Definition getFAHConnection (instanceId host : string) (port : Z)
    (now : string) (outcome : connect_outcome) (w : world)
  : (conn_error + socket) * world :=
  let key := conn_key instanceId host port in
  let live :=
    match fahConnections w !! key with
    | Some conn => if is_open (sock_state conn) then Some conn else None
    | None => None
    end in
  match live with
  | Some conn => (inr conn, w)
  | None =>
      let w :=
        match fahConnections w !! key with
        | Some _ => forget key w
        | None => w
        end in
      let ws := {| sock_id := length (trace w); sock_state := CONNECTING |} in
      let w := emit (NewWebSocket (ws_url host port)) w in
      match outcome with
      | Opened =>
          let ws := {| sock_id := sock_id ws; sock_state := OPEN |} in
          let w := {| fahConnections := <[key := ws]> (fahConnections w);
                      machineData := machineData w;
                      trace := trace w |} in
          let w := emit (WsSend (sock_id ws) (logEnableRequest now)) w in
          (inr ws, w)
      | ConnectError e => (inl e, w)
      | ConnectTimeout => (inl timeout_error, emit (WsClose (sock_id ws)) w)
      end
  end.

End Registry.

(** ** The command router *)

Module Router.
Import JS Patcher Registry.

(** [{ success: true, data }] or [{ success: false, error }]. *)
Inductive result : Type :=
  | Success (data : value)
  | Failure (error : string).

Definition succeeded (r : result) : bool :=
  match r with Success _ => true | Failure _ => false end.

(** How one [axios(config)] call ends: a response body, or an error
    with its [code], its [response] status and status text when the
    server answered, and its message. *)
Inductive http_outcome : Type :=
  | HttpOk (data : value)
  | HttpFail (code : option string) (response : option (Z * string))
             (message : string).

(** What the outside does during one request: the clock, the fate of a
    handshake if one is started, what the socket delivers while the
    caller sleeps, and the answer of each URL. *)
Record env : Type := {
  now : string;
  handshake : connect_outcome;
  arrivals : list inbound;
  http : string → http_outcome;
}.

(** [s.includes(t)]. *)
Definition includes (t s : string) : bool :=
  match String.index 0 t s with Some _ => true | None => false end.

(** Define an own data property, as object literals and object
    spread do. *)
Definition define_prop (k : string) (v : value) (props : list (string * value))
  : list (string * value) :=
  if has_own k props then replace_prop k v props else props ++ [(k, v)].

Fixpoint chars (s : string) : list value :=
  match s with
  | EmptyString => []
  | String c s' => VStr (String c EmptyString) :: chars s'
  end.

(** The own enumerable properties [{...data}] copies. *)
Definition spread_source (data : value) : list (string * value) :=
  match data with
  | VObj props => props
  | VArr elems => imap (λ i x, (pretty i, x)) elems
  | VStr s => imap (λ i x, (pretty i, x)) (chars s)
  | _ => []
  end.

(** [{ cmd: command, time: now, ...data }] (lines 282-286). *)
Definition command_request (command now : string) (data : value) : value :=
  VObj (foldl (λ props kv, define_prop kv.1 kv.2 props)
              [("cmd", VStr command); ("time", VStr now)]%string
              (spread_source data)).

(** [fahWebSocketCommand] (lines 276-309). *)
Definition fahWebSocketCommand (instanceId host : string) (port : Z)
    (command : string) (data : value) (e : env) (w : world)
  : res (result * world) :=
  let key := conn_key instanceId host port in
  match getFAHConnection instanceId host port (now e) (handshake e) w with
  | (inr ws, w) =>
      let request := command_request command (now e) data in
      let w := emit (WsSend (sock_id ws) request) w in
      w ← deliver_all key (arrivals e) w;
      let currentState := currentDocument key w in
      if truthy currentState then Ret (Success currentState, w)
      else Ret (Failure "No machine state available", w)
  | (inl error, w) =>
      if bool_decide (err_code error = Some "ECONNREFUSED"%string)
         || includes "timeout" (err_message error)
      then Ret (Failure "Connection refused or timed out", w)
      else Ret (Failure (err_message error), w)
  end.

(** The candidate URLs of the HTTP fallback (lines 451-455). *)
Definition fallback_urls (host : string) (port : Z) (endpoint : string)
  : list string :=
  let base := "http://" +:+ host +:+ ":" +:+ pretty port in
  [ base +:+ "/api/" +:+ endpoint;
    base +:+ "/" +:+ endpoint;
    base +:+ "/api/v1/" +:+ endpoint ].

(** [endpoints.indexOf(url)], for a [url] of the list. *)
Fixpoint indexOf (url : string) (l : list string) : nat :=
  match l with
  | [] => 0
  | u :: l' => if String.eqb url u then 0%nat else S (indexOf url l')
  end.

(** The loop of lines 457-488 over the URLs still to try. *)
Fixpoint try_urls (endpoints todo : list string) (method : string)
    (data : value) (e : env) (w : world) : option result * world :=
  match todo with
  | [] => (None, w)
  | url :: todo' =>
      let body := if truthy data then Some data else None in
      let w := emit (HttpRequest method url body) w in
      match http e url with
      | HttpOk d => (Some (Success d), w)
      | HttpFail code response message =>
          if (indexOf url endpoints =? length endpoints - 1)%nat then
            if bool_decide (code = Some "ECONNREFUSED"%string)
               || bool_decide (code = Some "ETIMEDOUT"%string)
            then (Some (Failure "Connection refused or timed out"), w)
            else match response with
                 | Some (status, statusText) =>
                     (Some (Failure ("HTTP " +:+ pretty status +:+ ": "
                                     +:+ statusText)), w)
                 | None => (Some (Failure message), w)
                 end
          else try_urls endpoints todo' method data e w
      end
  end.

(** Lines 450-490. *)
Definition http_fallback (host : string) (port : Z) (endpoint method : string)
    (data : value) (e : env) (w : world) : result * world :=
  let endpoints := fallback_urls host port endpoint in
  match try_urls endpoints endpoints method data e w with
  | (Some r, w) => (r, w)
  | (None, w) => (Failure "All connection attempts failed", w)
  end.

(** The endpoints [fahRequest] answers from the synchronised document
    (lines 327-392 and 399-444), and the empty endpoint, for which
    [command] is falsy. *)
Definition reads_document (endpoint : string) : bool :=
  String.eqb endpoint "log" || String.prefix "queue/" endpoint
  || String.eqb endpoint "units" || String.eqb endpoint "slots"
  || String.eqb endpoint "info" || String.eqb endpoint "".

(** [fahRequest] (lines 312-491) for the endpoints that send a
    command: [pause], [unpause], and every endpoint that is not one of
    the document reads.  The projections of the document reads are not
    part of the model. *)
Definition fahRequest (instanceId host : string) (port : Z)
    (endpoint method : string) (data : value) (e : env) (w : world)
  : res (result * world) :=
  if reads_document endpoint then Unmodelled
  else
    let command := endpoint in
    let commandData := if truthy data then data else VObj [] in
    let '(command, commandData) :=
      if String.eqb endpoint "pause" || String.eqb endpoint "unpause" then
        ("state"%string,
         VObj [("state"%string,
                VStr (if String.eqb endpoint "pause" then "pause" else "fold"))])
      else (command, commandData) in
    '(r, w) ← fahWebSocketCommand instanceId host port command commandData e w;
    if succeeded r then Ret (r, w)
    else Ret (http_fallback host port endpoint method data e w).

(** An entry of [instances]. *)
Record instance : Type := {
  inst_id : string;
  inst_host : string;
  inst_port : Z;
  inst_enabled : bool;
}.

(** What a route handler sends back: the status and the JSON body. *)
Record response : Type := { status : Z; body : value }.

(** [instances.find(i => i.id === instanceId)]. *)
Definition find_instance (instances : list instance) (instanceId : string)
  : option instance :=
  List.find (λ i, String.eqb (inst_id i) instanceId) instances.

Definition error_body (message : string) : value :=
  VObj [("error", VBool true); ("message", VStr message);
        ("connected", VBool false)]%string.

(** The handler of [/api/fah/:instanceId/*] (lines 539-601); [reqBody]
    is [req.body].  [const { config } = req.body] reads the own
    property. *)
Definition proxy_route (instances : list instance) (instanceId endpoint
    method : string) (reqBody : value) (e : env) (w : world)
  : res (response * world) :=
  match find_instance instances instanceId with
  | None =>
      Ret ({| status := 404;
              body := VObj [("error", VStr "Instance not found")]%string |}, w)
  | Some inst =>
      if negb (inst_enabled inst) then
        Ret ({| status := 400;
                body := VObj [("error", VStr "Instance is disabled")]%string |}, w)
      else if String.eqb endpoint "config" && String.eqb method "POST" then
        config ← (match get_own reqBody "config" with
                  | Throw _ => Unmodelled
                  | r => r
                  end);
        if negb (truthy config) then
          Ret ({| status := 400;
                  body := VObj [("error", VStr "Config object required")]%string |}, w)
        else
          '(r, w) ← fahWebSocketCommand instanceId (inst_host inst) (inst_port inst)
                      "config" (VObj [("config"%string, config)]) e w;
          match r with
          | Success _ =>
              Ret ({| status := 200;
                      body := VObj [("success"%string, VBool true)] |}, w)
          | Failure error =>
              Ret ({| status := 200;
                      body := error_body (if String.eqb error "" then
                                            "Failed to save config" else error) |}, w)
          end
      else
        '(r, w) ← fahRequest instanceId (inst_host inst) (inst_port inst)
                    endpoint method reqBody e w;
        match r with
        | Success data => Ret ({| status := 200; body := data |}, w)
        | Failure error => Ret ({| status := 200; body := error_body error |}, w)
        end
  end.

End Router.

(** ** Vocabulary of the specification *)

Module Doc.
Import JS Patcher.

(** JSON data, as [JSON.parse] delivers it: no [undefined] inside. *)
Fixpoint is_json (v : value) : bool :=
  match v with
  | VUndef => false
  | VArr elems => forallb is_json elems
  | VObj props => forallb (λ '(_, x), is_json x) props
  | _ => true
  end.

(** The normalized-key rule: the key is not a string of at most 16
    units that contains a hyphen. *)
Definition normalized_key (k : string) : bool :=
  negb ((String.length k <=? 16)%nat && has_hyphen k).

(** Every map key anywhere in the value satisfies the rule. *)
Fixpoint keys_normalized (v : value) : bool :=
  match v with
  | VArr elems => forallb keys_normalized elems
  | VObj props => forallb (λ '(k, x), normalized_key k && keys_normalized x) props
  | _ => true
  end.

(** A key whose string form the patcher does not touch, and which
    therefore has to satisfy the rule by itself. *)
Definition key_respects_rule (key : value) : Prop :=
  match key with
  | VStr _ => True
  | _ => ∀ k, to_property_key key = Ret k → normalized_key k = true
  end.

(** [ToString] succeeds on the value: no map with an own [toString]
    property is converted. *)
Fixpoint converts (v : value) : bool :=
  match v with
  | VArr elems => forallb converts elems
  | VObj props => negb (has_own "toString" props)
  | _ => true
  end.

(** The value found by following the path segments from [cur], each
    through an existing entry of a map or a list. *)
Fixpoint resolve (cur : value) (path : list value) : option value :=
  match path with
  | [] => Some cur
  | key :: path' =>
      if not_container cur then None
      else
        match to_property_key (normalizePropertyKey key) with
        | Ret k =>
            match get_own cur k with
            | Ret child =>
                if is_undefined child || is_null child then None
                else resolve child path'
            | _ => None
            end
        | _ => None
        end
  end.

(** [cur] with the value at the end of the path replaced. *)
Fixpoint plug (cur : value) (path : list value) (new : value) : value :=
  match path with
  | [] => new
  | key :: path' =>
      match to_property_key (normalizePropertyKey key) with
      | Ret k =>
          match get_own cur k with
          | Ret child => put_back cur k (plug child path' new)
          | _ => cur
          end
      | _ => cur
      end
  end.

(** The container line 123 makes for a missing segment. *)
Definition created_for (nextElement : value) : value :=
  if Number_isInteger nextElement then VArr [] else VObj [].

(** A key that finds its own entry and nothing else: once normalized,
    a string that names nothing a plain object inherits, or a number
    that is an array index. *)
Definition plain_key (key : value) : bool :=
  match normalizePropertyKey key with
  | VStr s => negb (inherited s)
  | VNum q => is_integer q && (0 <=? floor q) && (floor q <? 2 ^ 32 - 1)
  | _ => false
  end.

(** A plain key, or one of the two sentinels of the appends. *)
Definition plain_final_key (key : value) : bool :=
  plain_key key || strict_eq_int key (-1) || strict_eq_int key (-2).

(** The copy of a stored document that [applyStateUpdate] works on
    (lines 94-99): the document, or the empty map when it is no plain
    object, as [JSON.parse(JSON.stringify(...))] returns it. *)
Definition working_copy (doc : value) : value :=
  json_value (if negb (truthy doc) || negb (typeof_object doc) || Array_isArray doc
              then VObj [] else doc).

(** The final key of an update is applied to a list, and makes no map
    key, when it is an integer and the path ahead of it does not lead to
    a map of the document: the list is there, or the traversal creates
    one for the integer. *)
Definition final_key_at_list (doc : value) (path : list value) (key : value) : Prop :=
  Number_isInteger key = true ∧ ∀ props, resolve doc path ≠ Some (VObj props).

(** A frame that brings no raw hyphenated key of its own into the
    document it meets: a full-state map with normalized keys only, or
    an update whose value has normalized keys only and whose keys that
    are not strings, which the patcher does not touch, either satisfy
    the rule in their string form or are a final key applied to a
    list. *)
Definition well_keyed (doc : value) (rawData : option value) : Prop :=
  match rawData with
  | Some (VArr ops) =>
      ∀ path key v, ops = path ++ [key; v] →
        Forall key_respects_rule path ∧ keys_normalized v = true
        ∧ (key_respects_rule key ∨ final_key_at_list (working_copy doc) path key)
  | Some data => keys_normalized data = true
  | None => True
  end.

(** Every frame of the sequence is well keyed for the document it
    meets. *)
Fixpoint well_keyed_run (key : string) (frames : list (option value))
    (md : gmap string value) : Prop :=
  match frames with
  | [] => True
  | f :: frames' =>
      well_keyed (default VUndef (md !! key)) f
      ∧ ∀ md', Registry.messageHandler key f md = Ret md' →
               well_keyed_run key frames' md'
  end.

(** The path of the update comes to a value that is no container, and
    the update is dropped (lines 113-116 and 136-138). *)
Definition blocked (doc : value) (ops : list value) : Prop :=
  ∃ path tail target,
    ops = path ++ tail ∧ (2 ≤ length tail)%nat
    ∧ resolve doc path = Some target ∧ not_container target = true.

(** Both arrays, or both plain objects. *)
Definition same_kind (a b : value) : Prop :=
  match a, b with
  | VArr _, VArr _ => True
  | VObj _, VObj _ => True
  | _, _ => False
  end.

(** What an element of an array contributes to the string of the
    array. *)
Definition to_string_elem (x : value) : res string :=
  match x with
  | VUndef | VNull => Ret ""%string
  | _ => to_string x
  end.

(** The value converts to a number that is no length of a list: NaN,
    a fraction, a negative number, or 2^32 and more. *)
Definition not_a_length (v : value) : Prop :=
  ∃ n, to_number v = Ret n
       ∧ match n with
         | Some q => is_integer q && (0 <=? floor q) && (floor q <? 2 ^ 32) = false
         | None => True
         end.

(** The two ways an update can make [applyStateUpdate] raise [e] on the
    working copy [doc]: a [TypeError] from converting one of its
    elements, or a [RangeError] from a final key that names [length],
    at a list the path leads to, with a value that is no length. *)
Definition raises_for (doc : value) (ops : list value) (e : js_error) : Prop :=
  (e = TypeError ∧ ∃ x, x ∈ ops ∧ converts x = false)
  ∨ (e = RangeError
     ∧ ∃ path key v elems, ops = path ++ [key; v]
         ∧ resolve doc path = Some (VArr elems)
         ∧ to_property_key (normalizePropertyKey key) = Ret "length"%string
         ∧ is_null v = false
         ∧ not_a_length v).

(** A daemon that accepts the WebSocket, sends nothing, and refuses
    HTTP; and the state of a server that has not talked to anyone. *)
Definition refusing_daemon : Router.env :=
  {| Router.now := "2024-01-01T00:00:00.000Z";
     Router.handshake := Registry.Opened;
     Router.arrivals := [];
     Router.http := λ _, Router.HttpFail (Some "ECONNREFUSED"%string) None
                           "connect ECONNREFUSED" |}.

Definition idle_world : Registry.world :=
  {| Registry.fahConnections := ∅;
     Registry.machineData := ∅;
     Registry.trace := [] |}.

(** "Looks like a non-negative integer index", in the words of the
    specification. *)
Definition nonnegative_integer (v : value) : bool :=
  match v with
  | VNum q => is_integer q && (0 <=? floor q)
  | _ => false
  end.

(** The documents a connection can come to store: [messageHandler]
    folded over the frames received. *)
Fixpoint fold_frames (key : string) (frames : list (option value))
    (md : gmap string value) : res (gmap string value) :=
  match frames with
  | [] => Ret md
  | f :: frames' => md' ← Registry.messageHandler key f md; fold_frames key frames' md'
  end.

End Doc.

(** ** Built-in functions the rest of server.js calls *)

Module Builtins.
Import JS.

(** *** Strings *)

(** The white space and line terminators of [trim] and [parseInt],
    among the code units 0..255: TAB, LF, VT, FF, CR, SP and NBSP. *)
Definition is_white_space (c : ascii) : bool :=
  let n := N_of_ascii c in
  ((9 <=? n)%N && (n <=? 13)%N) || (n =? 32)%N || (n =? 160)%N.

Fixpoint trim_start (s : string) : string :=
  match s with
  | EmptyString => EmptyString
  | String c s' => if is_white_space c then trim_start s' else s
  end.

Fixpoint trim_end (s : string) : string :=
  match s with
  | EmptyString => EmptyString
  | String c s' =>
      match trim_end s' with
      | EmptyString => if is_white_space c then EmptyString else String c EmptyString
      | t => String c t
      end
  end.

(** [s.trim()]. *)
Definition trim (s : string) : string := trim_end (trim_start s).

(** [s.replace(/,/g, '')]. *)
Fixpoint remove_commas (s : string) : string :=
  match s with
  | EmptyString => EmptyString
  | String c s' =>
      if Ascii.eqb c ","%char then remove_commas s' else String c (remove_commas s')
  end.

(** Whether [>] occurs in the string. *)
Fixpoint has_gt (s : string) : bool :=
  match s with
  | EmptyString => false
  | String c s' => Ascii.eqb c ">"%char || has_gt s'
  end.

(** [s.replace(/<[^>]*>/g, '')], read from left to right.  A match
    starts at a [<] that has a [>] somewhere after it and runs to the
    first such [>]; [inside] is true between the two.  A [<] with no
    [>] after it starts no match, and neither does anything behind
    it. *)
Fixpoint strip_from (inside : bool) (s : string) : string :=
  match s with
  | EmptyString => EmptyString
  | String c s' =>
      if inside then
        if Ascii.eqb c ">"%char then strip_from false s' else strip_from true s'
      else if Ascii.eqb c "<"%char then
        if has_gt s' then strip_from true s' else s
      else String c (strip_from false s')
  end.

Definition strip_tags (s : string) : string := strip_from false s.

(** [s.split(sep)] for a separator of one code unit. *)
Fixpoint split (sep : ascii) (s : string) : list string :=
  match s with
  | EmptyString => [EmptyString]
  | String c s' =>
      if Ascii.eqb c sep then EmptyString :: split sep s'
      else match split sep s' with
           | seg :: rest => String c seg :: rest
           | [] => [String c EmptyString]
           end
  end.

(** *** [parseInt] *)

(** The value of a digit in the radix, if it is one. *)
Definition digit_in (radix : N) (c : ascii) : option N :=
  let n := N_of_ascii c in
  let d := if (48 <=? n)%N && (n <=? 57)%N then Some (n - 48)%N
           else if (97 <=? n)%N && (n <=? 122)%N then Some (n - 87)%N
           else if (65 <=? n)%N && (n <=? 90)%N then Some (n - 55)%N
           else None in
  match d with
  | Some d => if (d <? radix)%N then Some d else None
  | None => None
  end.

(** The number written by the longest prefix of digits; [acc] is the
    number read so far, [None] before the first digit. *)
Fixpoint leading_digits (radix : N) (acc : option N) (s : string) : option N :=
  match s with
  | EmptyString => acc
  | String c s' =>
      match digit_in radix c with
      | Some d => leading_digits radix (Some (radix * default 0%N acc + d)%N) s'
      | None => acc
      end
  end.

(** [parseInt(s)] on a string, with [None] for NaN: leading white space
    is skipped, a sign is read, the prefix [0x] or [0X] selects radix 16,
    and the digits up to the first code unit that is none are the
    number.  The result is exact below 2^53; beyond, the rounding of the
    engine is not part of the model.  The zero read after a minus sign
    is the number 0 here. *)
Definition parseInt_string (s : string) : res (option Q) :=
  let s := trim_start s in
  let '(negative, s) :=
    match s with
    | String c s' =>
        if Ascii.eqb c "-"%char then (true, s')
        else if Ascii.eqb c "+"%char then (false, s')
        else (false, s)
    | EmptyString => (false, s)
    end in
  let '(radix, s) :=
    match s with
    | String c (String x s') =>
        if Ascii.eqb c "0"%char && (Ascii.eqb x "x"%char || Ascii.eqb x "X"%char)
        then (16%N, s') else (10%N, s)
    | _ => (10%N, s)
    end in
  match leading_digits radix None s with
  | None => Ret None
  | Some n =>
      if (n <? 2 ^ 53)%N
      then Ret (Some (inject_Z (if negative : bool then - Z.of_N n else Z.of_N n)))
      else Unmodelled
  end.

(** [parseInt(v)]: the argument is converted to a string first. *)
Definition parseInt (v : value) : res (option Q) :=
  s ← to_string v; parseInt_string s.

(** [n || d] for the result of [parseInt]: NaN and 0 give [d]. *)
Definition number_or (n : option Q) (d : Q) : Q :=
  match n with
  | Some q => if Qnum q =? 0 then d else q
  | None => d
  end.

(** *** Values *)

(** [a || b]. *)
Definition or_else (a b : value) : value := if truthy a then a else b.

(** [v === s] for a string [s]. *)
Definition strict_eq_str (v : value) (s : string) : bool :=
  match v with
  | VStr s' => String.eqb s' s
  | _ => false
  end.

(** [v === n] for the result [n] of [parseInt]: NaN equals nothing. *)
Definition strict_eq_num (v : value) (n : option Q) : bool :=
  match v, n with
  | VNum q, Some q' => Qeq_bool q q'
  | _, _ => false
  end.

(** The names the code reads as members of JSON data and that the
    prototypes of [Object], [Array], [String], [Number] and [Boolean]
    do not define. *)
Definition data_names : list string :=
  [ "id"; "name"; "host"; "port"; "enabled"; "log"; "units"; "groups";
    "slots"; "slot" ]%string.

(** [v.name] for such a name: the own property of a plain object,
    [undefined] on any other value, and a [TypeError] on [null] and
    [undefined]. *)
Definition member (v : value) (name : string) : res value :=
  if negb (existsb (String.eqb name) data_names) then Unmodelled
  else match v with
       | VUndef | VNull => Throw TypeError
       | VObj props => Ret (default VUndef (lookup_prop name props))
       | _ => Ret VUndef
       end.

(** The elements [...v] spreads: those of an array, the units of a
    string; anything else is not iterable. *)
Definition spread (v : value) : res (list value) :=
  match v with
  | VArr elems => Ret elems
  | VStr s => Ret (Router.chars s)
  | _ => Throw TypeError
  end.

(** One step of an insertion sort by index. *)
Fixpoint insert_by_index (e : nat * value) (l : list (nat * value))
  : list (nat * value) :=
  match l with
  | [] => [e]
  | e' :: l' => if (e.1 <=? e'.1)%nat then e :: l else e' :: insert_by_index e l'
  end.

(** The own properties of a plain object in the order [for ... in]
    visits them: the array indices in ascending order, then the other
    keys in the order of their creation. *)
Definition enumerate (props : list (string * value)) : list (string * value) :=
  let indexed :=
    foldr (λ kv acc,
             match array_index kv.1 with
             | Some i => insert_by_index (i, kv.2) acc
             | None => acc
             end) [] props in
  List.map (λ e, (pretty e.1, e.2)) indexed
  ++ List.filter (λ kv, match array_index kv.1 with Some _ => false | None => true end)
       props.

(** The values [for (const k in v) ... v[k]] visits: the properties of
    a plain object, the elements of an array that are no holes, the
    units of a string; a number or a boolean has none. *)
Definition for_in_values (v : value) : res (list value) :=
  match v with
  | VObj props => Ret (enumerate props).*2
  | VArr elems => Ret (List.filter (λ x, negb (is_undefined x)) elems)
  | VStr s => Ret (Router.chars s)
  | VNum _ | VBool _ => Ret []
  | VUndef | VNull => Ret []
  end.

End Builtins.

(** ** The endpoints answered from the document *)

Module Endpoints.
Import JS Patcher Registry Router Builtins.

(** [units.filter(u => u.slot === slotIndex)] (lines 363 and 426):
    [filter] is a method of arrays only, and it does not visit
    holes. *)
Fixpoint filter_slot (slotIndex : option Q) (elems : list value)
  : res (list value) :=
  match elems with
  | [] => Ret []
  | u :: elems' =>
      if is_undefined u then filter_slot slotIndex elems'
      else
        slot ← member u "slot";
        rest ← filter_slot slotIndex elems';
        Ret (if strict_eq_num slot slotIndex then u :: rest else rest)
  end.

(** Lines 359-365 and 423-428: the work units, all of them or those
    of the slot named by [queue/N]. *)
Definition read_units (endpoint : string) (machineState : value) : res value :=
  units ← member machineState "units";
  let units := or_else units (VArr []) in
  if String.prefix "queue/" endpoint then
    slotIndex ← parseInt (match split "/" endpoint !! 1%nat with
                          | Some seg => VStr seg
                          | None => VUndef
                          end);
    match units with
    | VArr elems => VArr <$> filter_slot slotIndex elems
    | _ => Throw TypeError
    end
  else Ret units.

(** The loop of lines 378-383 and 415-420 over the groups still to
    visit. *)
Fixpoint push_slots (slots : list value) (groups : list value) : res (list value) :=
  match groups with
  | [] => Ret slots
  | group :: groups' =>
      s ← member group "slots";
      if truthy s then
        xs ← spread s;
        push_slots (slots ++ xs) groups'
      else push_slots slots groups'
  end.

(** Lines 376-384 and 413-421: the slots of all groups. *)
Definition read_slots (machineState : value) : res value :=
  groups ← member machineState "groups";
  let groups := or_else groups (VObj []) in
  visited ← for_in_values groups;
  slots ← push_slots [] visited;
  Ret (VArr slots).

(** [machineState.log || []] (lines 349 and 433). *)
Definition read_log (machineState : value) : res value :=
  log ← member machineState "log";
  Ret (or_else log (VArr [])).

(** What the first part of [fahRequest] answers from a document that
    is there (lines 347-351, 357-366, 372-388). *)
Definition read_stored (endpoint : string) (machineState : value) : res value :=
  if String.eqb endpoint "log" then read_log machineState
  else if String.prefix "queue/" endpoint || String.eqb endpoint "units"
  then read_units endpoint machineState
  else if String.eqb endpoint "slots" then read_slots machineState
  else Ret machineState.

(** What the second part answers from the document that has arrived
    (lines 411-437). *)
Definition read_arrived (endpoint : string) (machineState : value) : res value :=
  if String.eqb endpoint "slots" then read_slots machineState
  else if String.eqb endpoint "units" || String.prefix "queue/" endpoint
  then read_units endpoint machineState
  else if String.eqb endpoint "info" then Ret machineState
  else if String.eqb endpoint "log" then read_log machineState
  else Ret machineState.

(** Lines 399-444: connect if need be, wait, and answer from the
    document if one has arrived.  The message of an error the engine
    raises while the answer is built is not part of the model. *)
Definition await_state (instanceId host : string) (port : Z) (endpoint : string)
    (e : env) (w : world) : res (result * world) :=
  let key := conn_key instanceId host port in
  match getFAHConnection instanceId host port (now e) (handshake e) w with
  | (inr _, w) =>
      w ← deliver_all key (arrivals e) w;
      let machineState := currentDocument key w in
      if truthy machineState then
        match read_arrived endpoint machineState with
        | Ret data => Ret (Success data, w)
        | _ => Unmodelled
        end
      else Ret (Failure "Timeout waiting for initial state", w)
  | (inl error, w) => Ret (Failure (err_message error), w)
  end.

(** Lines 329-345: the [log] endpoint first asks for log streaming on
    the connection, if there is one to be had, and waits. *)
Definition enable_log (instanceId host : string) (port : Z) (e : env) (w : world)
  : res world :=
  let key := conn_key instanceId host port in
  let w :=
    match getFAHConnection instanceId host port (now e) (handshake e) w with
    | (inr ws, w) => emit (WsSend (sock_id ws) (logEnableRequest (now e))) w
    | (inl _, w) => w
    end in
  deliver_all key (arrivals e) w.

(** [fahRequest] (lines 312-491) on all endpoints.  [e] is what the
    outside does during the first wait of the call and [e'] during the
    second, which only the [log] endpoint can come to.  An endpoint that
    sends a command is handled as in [Router.fahRequest]; an endpoint
    answered from the document reaches the HTTP fallback only when
    building the answer from a stored document raises. *)
Definition fahRequest (instanceId host : string) (port : Z)
    (endpoint method : string) (data : value) (e e' : env) (w : world)
  : res (result * world) :=
  let key := conn_key instanceId host port in
  if negb (reads_document endpoint) then
    Router.fahRequest instanceId host port endpoint method data e w
  else if String.eqb endpoint "" then
    await_state instanceId host port endpoint e w
  else
    w ← (if String.eqb endpoint "log" then enable_log instanceId host port e w
         else Ret w);
    match machineData w !! key with
    | Some machineState =>
        match read_stored endpoint machineState with
        | Ret data => Ret (Success data, w)
        | Throw _ => Ret (http_fallback host port endpoint method data e w)
        | Unmodelled => Unmodelled
        end
    | None =>
        await_state instanceId host port endpoint
          (if String.eqb endpoint "log" then e' else e) w
    end.

End Endpoints.

(** ** The list of instances *)

Module Instances.
Import JS Router Builtins.

(** [instances.find(i => i.id === id)]: the first element with that
    id, [None] for [undefined]. *)
Fixpoint find_by_id (id : string) (instances : list value) : res (option value) :=
  match instances with
  | [] => Ret None
  | i :: rest =>
      v ← member i "id";
      if strict_eq_str v id then Ret (Some i) else find_by_id id rest
  end.

(** [instances.findIndex(i => i.id === id)], [None] for -1. *)
Fixpoint findIndex_by_id (id : string) (instances : list value) : res (option nat) :=
  match instances with
  | [] => Ret None
  | i :: rest =>
      v ← member i "id";
      if strict_eq_str v id then Ret (Some 0%nat)
      else r ← findIndex_by_id id rest; Ret (option_map S r)
  end.

(** [l.filter(i => i.id !== 'local')] on the elements of an array
    without holes, as [instances] and what [JSON.parse] returns are. *)
Fixpoint without_local (l : list value) : res (list value) :=
  match l with
  | [] => Ret []
  | i :: rest =>
      v ← member i "id";
      kept ← without_local rest;
      Ret (if strict_eq_str v "local" then kept else i :: kept)
  end.

(** The file [instances.json]: absent, unreadable, or holding a text,
    given by what [JSON.parse] makes of it ([None] when it rejects
    it). *)
Inductive file_state : Type :=
  | Missing
  | Unreadable
  | Holds (parsed : option value).

(** The state of the module: the [instances] array (line 23) and the
    file. *)
Record state : Type := { instances : list value; file : file_state }.

(** The entry of line 24. *)
Definition local_instance : value :=
  VObj [("id", VStr "local"); ("name", VStr "Local Instance");
        ("host", VStr "127.0.0.1"); ("port", VInt 7396);
        ("enabled", VBool true)]%string.

Definition initial : list value := [local_instance].

(** [loadInstances] (lines 28-44).  Whatever is raised inside the
    [try] leaves [instances] as it was. *)
Definition loadInstances (st : state) : res state :=
  match file st with
  | Holds (Some saved) =>
      let body : res (list value) :=
        localInstance ← find_by_id "local" (instances st);
        match saved with
        | VArr elems =>
            kept ← without_local elems;
            Ret (default VUndef localInstance :: kept)
        | _ => Throw TypeError
        end in
      match body with
      | Ret l => Ret {| instances := l; file := file st |}
      | Throw _ => Ret st
      | Unmodelled => Unmodelled
      end
  | _ => Ret st
  end.

(** How [fs.writeFile] ends: the text is in the file, or the call
    failed and left the file in some state. *)
Inductive write_outcome : Type :=
  | Written
  | WriteFailed (after : file_state).

(** [saveInstances] (lines 47-56).  After a successful write the
    file holds the text of [JSON.stringify], which parses to the JSON
    round trip of what was saved.  Whatever is raised inside the [try]
    is caught. *)
Definition saveInstances (written : write_outcome) (st : state) : res state :=
  match without_local (instances st) with
  | Ret instancesToSave =>
      Ret {| instances := instances st;
             file := match written with
                     | Written => Holds (Some (json_value (VArr instancesToSave)))
                     | WriteFailed after => after
                     end |}
  | Throw _ => Ret st
  | Unmodelled => Unmodelled
  end.

(** [GET /api/instances] (lines 494-496). *)
Definition get_instances (st : state) : response :=
  {| status := 200; body := VArr (instances st) |}.

(** [POST /api/instances] (lines 499-517).  [reqBody] is [req.body],
    [now_ms] is [Date.now()]. *)
Definition post_instance (reqBody : value) (now_ms : Z) (written : write_outcome)
    (st : state)
  : res (response * state) :=
  name ← member reqBody "name";
  host ← member reqBody "host";
  port ← member reqBody "port";
  let port := if is_undefined port then VInt 7396 else port in
  if negb (truthy name) || negb (truthy host) then
    Ret ({| status := 400;
            body := VObj [("error", VStr "Name and host are required")]%string |}, st)
  else
    stamp ← int_to_string now_ms;
    parsed ← parseInt port;
    let newInstance :=
      VObj [("id", VStr ("instance-" +:+ stamp)); ("name", name); ("host", host);
            ("port", VNum (number_or parsed 7396)); ("enabled", VBool true)]%string in
    st ← saveInstances written {| instances := instances st ++ [newInstance];
                                  file := file st |};
    Ret ({| status := 200; body := newInstance |}, st).

(** [DELETE /api/instances/:id] (lines 520-536). *)
Definition delete_instance (id : string) (written : write_outcome) (st : state)
  : res (response * state) :=
  index ← findIndex_by_id id (instances st);
  match index with
  | None =>
      Ret ({| status := 404;
              body := VObj [("error", VStr "Instance not found")]%string |}, st)
  | Some index =>
      found ← member (default VUndef (instances st !! index)) "id";
      if strict_eq_str found "local" then
        Ret ({| status := 400;
                body := VObj [("error", VStr "Cannot remove local instance")]%string |},
             st)
      else
        st ← saveInstances written {| instances := delete index (instances st);
                                      file := file st |};
        Ret ({| status := 200; body := VObj [("success"%string, VBool true)] |}, st)
  end.

(** A request on the list of instances. *)
Inductive request : Type :=
  | Post (reqBody : value) (now_ms : Z) (written : write_outcome)
  | Delete (id : string) (written : write_outcome).

Definition serve (r : request) (st : state) : res (response * state) :=
  match r with
  | Post reqBody now_ms written => post_instance reqBody now_ms written st
  | Delete id written => delete_instance id written st
  end.

(** The state after a sequence of requests, served one after the
    other. *)
Fixpoint serve_all (rs : list request) (st : state) : res state :=
  match rs with
  | [] => Ret st
  | r :: rs' => '(_, st) ← serve r st; serve_all rs' st
  end.

End Instances.

(** ** The numbers of the Extreme Overclocking page *)

Module Eoc.
Import JS Builtins.

(** [cell.replace(/<[^>]*>/g, '').trim()] (lines 885, 975-977, 998,
    1036 and the like): the text of a table cell. *)
Definition cell_text (cell : string) : string := trim (strip_tags cell).

(** [parseInt(text.replace(/,/g, '')) || 0] (lines 889-897). *)
Definition cell_number (text : string) : res Q :=
  n ← parseInt_string (remove_commas text);
  Ret (number_or n 0).

(** Lines 1037-1038 and the like, and lines 986-987:
    [parseInt(cell.replace(/<[^>]*>/g, '').replace(/,/g, '').trim()) || 0]. *)
Definition cell_count (cell : string) : res Q :=
  n ← parseInt_string (trim (remove_commas (strip_tags cell)));
  Ret (number_or n 0).

End Eoc.

(** ** Notions used by the further properties *)

Module Notions.
Import JS Patcher Builtins.

(** A sequence of updates applied one after the other, each to the
    document the one before returned. *)
Fixpoint apply_all (D : value) (updates : list value) : res value :=
  match updates with
  | [] => Ret D
  | u :: updates' => D' ← applyStateUpdate D u; apply_all D' updates'
  end.

(** The same on the store: each update array is applied to the value
    the call before returned, in the store that call left. *)
Fixpoint apply_all_store (h : Store.store) (D : Store.ref_value)
    (updates : list Store.ref_value)
  : Store.sres (Store.ref_value * Store.store) :=
  match updates with
  | [] => Ret (D, h)
  | u :: updates' =>
      '(D', h') ← Store.applyStateUpdate h D u; apply_all_store h' D' updates'
  end.

(** A [<] with a [>] somewhere after it: the string has a tag. *)
Fixpoint has_tag (s : string) : bool :=
  match s with
  | EmptyString => false
  | String c s' => (Ascii.eqb c "<"%char && has_gt s') || has_tag s'
  end.

(** Whether a work unit is one of slot [n]: its [slot] is that
    number. *)
Definition in_slot (n : Q) (u : value) : bool :=
  match u with
  | VObj props =>
      match lookup_prop "slot" props with
      | Some (VNum q) => Qeq_bool q n
      | _ => false
      end
  | _ => false
  end.

(** Whether an instance has the id [id]. *)
Definition id_is (id : string) (i : value) : bool :=
  match i with
  | VObj props =>
      match lookup_prop "id" props with
      | Some (VStr s) => String.eqb s id
      | _ => false
      end
  | _ => false
  end.

(** An element of [instances] whose [id] can be read: anything but
    [null] and [undefined]. *)
Definition readable (i : value) : bool := negb (is_null i) && negb (is_undefined i).

(** The slots a group lists. *)
Definition group_slots (group : value) : list value :=
  match group with
  | VObj props =>
      match lookup_prop "slots" props with
      | Some (VArr slots) => slots
      | _ => []
      end
  | _ => []
  end.

End Notions.

(** ** Properties *)

Import JS Patcher Doc.

Section ValueInduction.
Variable P : value → Prop.
Hypothesis Hundef : P VUndef.
Hypothesis Hnull : P VNull.
Hypothesis Hbool : ∀ b, P (VBool b).
Hypothesis Hnum : ∀ q, P (VNum q).
Hypothesis Hstr : ∀ s, P (VStr s).
Hypothesis Harr : ∀ elems, Forall P elems → P (VArr elems).
Hypothesis Hobj : ∀ props, Forall (λ kv, P kv.2) props → P (VObj props).

(** Structural induction on values, with the induction hypothesis
    for every element of an array and every property of an object. *)
Lemma value_induction : ∀ v, P v.
Proof using All.
  fix IH 1. intros [| |b|q|s|elems|props].
  - exact Hundef.
  - exact Hnull.
  - apply Hbool.
  - apply Hnum.
  - apply Hstr.
  - apply Harr. induction elems as [|x l IHl]; constructor; [apply IH | exact IHl].
  - apply Hobj. induction props as [|[k x] l IHl]; constructor; [apply IH | exact IHl].
Qed.
End ValueInduction.

(** *** Malformed operations *)

(** C5. An update that is not an array, or an array of fewer than two
    elements, is a no-op: [applyStateUpdate] returns the document it
    was given and raises nothing. *)
Theorem C5_malformed_operation_is_noop (D op : value) :
  (Array_isArray op = false ∨ ∃ ops, op = VArr ops ∧ (length ops < 2)%nat) →
  applyStateUpdate D op = Ret D.
Proof.
  intros [Hshape | (ops & -> & Hlen)].
  - destruct op; simpl in Hshape; try discriminate; reflexivity.
  - unfold applyStateUpdate.
    destruct (Nat.ltb_spec (length ops) 2) as [_ | Hge]; [reflexivity | lia].
Qed.

Lemma C5_malformed_operation_is_noop_witness :
  applyStateUpdate (VObj [("a"%string, VInt 1)]) (VArr [VStr "a"])
  = Ret (VObj [("a"%string, VInt 1)]).
Proof.
  apply C5_malformed_operation_is_noop.
  right. exists [VStr "a"]. split; [reflexivity | simpl; lia].
Defined.

(** *** Following a path *)

Lemma bind_Ret {A B} (m : res A) (f : A → res B) (b : B) :
  m ≫= f = Ret b → ∃ a, m = Ret a ∧ f a = Ret b.
Proof. destruct m; simpl; [eauto | discriminate..]. Qed.

Lemma json_value_id v : is_json v = true → json_value v = v.
Proof.
  induction v as [| |b|q|s|elems IH|props IH] using value_induction; simpl; try done.
  - intros H. f_equal. induction elems as [|x l IHl]; [done|].
    simpl in H. apply andb_true_iff in H as [Hx Hl].
    inversion IH as [|? ? IHx IHl']; subst. simpl.
    rewrite (IHl IHl' Hl). f_equal.
    rewrite (IHx Hx). by destruct x.
  - intros H. f_equal. induction props as [|[k x] l IHl]; [done|].
    simpl in H. apply andb_true_iff in H as [Hx Hl].
    inversion IH as [|? ? IHx IHl']; subst. simpl in IHx.
    rewrite (IHl IHl' Hl), (IHx Hx). by destruct x.
Qed.

Lemma descend_step cur key next rest :
  rest ≠ [] →
  descend cur (key :: next :: rest) =
    let pathKey := normalizePropertyKey key in
    if not_container cur then Ret None
    else
      k ← to_property_key pathKey;
      child ← get_own cur k;
      step ← (if is_undefined child || is_null child then
                let created := if Number_isInteger next then VArr [] else VObj [] in
                o ← set_own cur k created; Ret (o, created)
              else Ret (cur, child));
      let '(parent, child) := step in
      if is_null child || is_undefined child then Ret None
      else
        r ← descend child (next :: rest);
        match r with
        | Some child' => Ret (Some (put_back parent k child'))
        | None => Ret None
        end.
Proof. destruct rest; [done | reflexivity]. Qed.

Lemma descend_final cur key v :
  descend cur [key; v] =
    if not_container cur then Ret None
    else Some <$> apply_final cur (normalizePropertyKey key) v.
Proof. reflexivity. Qed.

Lemma descend_not_container c tail :
  not_container c = true → descend c tail = Ret None.
Proof.
  intros Hc. destruct tail as [|a [|b [|d tail]]]; simpl; try done; by rewrite Hc.
Qed.

Lemma descend_resolve path : ∀ cur target tail,
  resolve cur path = Some target → (2 ≤ length tail)%nat →
  descend cur (path ++ tail) =
    r ← descend target tail;
    Ret (match r with Some t => Some (plug cur path t) | None => None end).
Proof.
  induction path as [|p path IH]; intros cur target tail Hres Hlen.
  - simpl in Hres. injection Hres as <-. simpl app.
    by destruct (descend cur tail) as [[?|]| |].
  - simpl in Hres.
    destruct (not_container cur) eqn:Hc; [done|].
    destruct (to_property_key (normalizePropertyKey p)) as [k| |] eqn:Hk; try done.
    destruct (get_own cur k) as [child| |] eqn:Hg; try done.
    destruct (is_undefined child || is_null child) eqn:Hn; [done|].
    assert (∃ next rest, path ++ tail = next :: rest ∧ rest ≠ [])
      as (next & rest & Heq & Hne).
    { destruct path as [|p' path']; simpl.
      - destruct tail as [|a [|b tail]]; simpl in Hlen; try lia. eauto.
      - exists p', (path' ++ tail). split; [done|].
        destruct path'; [|done]. destruct tail; simpl in *; [lia | done]. }
    change ((p :: path) ++ tail) with (p :: (path ++ tail)).
    rewrite Heq, descend_step by done. cbn zeta.
    rewrite Hc, Hk. cbn -[descend plug]. rewrite Hg. cbn -[descend plug].
    rewrite Hn. cbn -[descend plug].
    rewrite orb_comm, Hn. rewrite <- Heq, (IH _ _ _ Hres Hlen).
    destruct (descend target tail) as [[r|]| |]; cbn -[descend plug]; try done.
    cbn [plug]. by rewrite Hk, Hg.
Qed.

Lemma descend_resolve_final path cur target key v :
  resolve cur path = Some target → not_container target = false →
  descend cur (path ++ [key; v]) =
    r ← apply_final target (normalizePropertyKey key) v;
    Ret (Some (plug cur path r)).
Proof.
  intros Hres Hc. rewrite (descend_resolve _ _ _ _ Hres) by (simpl; lia).
  rewrite descend_final, Hc. by destruct (apply_final _ _ _).
Qed.

Lemma apply_unfold props ops :
  is_json (VObj props) = true → (2 ≤ length ops)%nat →
  applyStateUpdate (VObj props) (VArr ops) =
    r ← descend (VObj props) ops; Ret (default (VObj props) r).
Proof.
  intros Hj Hlen. unfold applyStateUpdate.
  destruct (Nat.ltb_spec (length ops) 2) as [?|_]; [lia|].
  cbn [truthy typeof_object Array_isArray negb orb].
  unfold json_clone. by rewrite (json_value_id _ Hj).
Qed.

Lemma lookup_replace_prop {V} k (x : V) props :
  has_own k props = true → lookup_prop k (replace_prop k x props) = Some x.
Proof.
  unfold has_own. induction props as [|[k' y] l IH]; simpl; [done|].
  destruct (String.eqb k k') eqn:E; simpl; rewrite E; [done|]. exact IH.
Qed.

Lemma replace_prop_id {V} k (x : V) props :
  lookup_prop k props = Some x → replace_prop k x props = props.
Proof.
  induction props as [|[k' y] l IH]; simpl; [done|].
  destruct (String.eqb k k') eqn:E.
  - by intros [= ->].
  - intros H. by rewrite IH.
Qed.

Lemma replace_prop_absent {V} k (x : V) props :
  lookup_prop k props = None → replace_prop k x props = props.
Proof.
  induction props as [|[k' y] l IH]; simpl; [done|].
  destruct (String.eqb k k') eqn:E; [done|]. intros H. by rewrite IH.
Qed.

Lemma remove_prop_absent {V} k (props : list (string * V)) :
  lookup_prop k props = None → remove_prop k props = props.
Proof.
  induction props as [|[k' y] l IH]; simpl; [done|].
  destruct (String.eqb k k') eqn:E; [done|]. intros H. by rewrite IH.
Qed.

Lemma not_container_false c :
  not_container c = false ↔ (∃ elems, c = VArr elems) ∨ (∃ props, c = VObj props).
Proof.
  split.
  - destruct c; try discriminate; eauto.
  - by intros [[? ->]|[? ->]].
Qed.

Lemma put_back_container cur k x :
  not_container cur = false → not_container (put_back cur k x) = false.
Proof.
  intros [[elems ->]|[props ->]]%not_container_false; simpl; [|done].
  by destruct (array_index k).
Qed.

(* the slot a non-nullish read came from *)
Lemma get_put_back cur k child x :
  not_container cur = false → get_own cur k = Ret child →
  is_undefined child || is_null child = false →
  (∀ n, child ≠ VNum n) →
  get_own (put_back cur k x) k = Ret x.
Proof.
  intros [[elems ->]|[props ->]]%not_container_false Hg Hn Hnum; simpl in *.
  - destruct (String.eqb k "length") eqn:El.
    { injection Hg as <-. by destruct (Hnum (inject_Z (Z.of_nat (length elems)))). }
    destruct (array_index k) as [i|] eqn:Ei; [|done]. simpl. rewrite El, Ei.
    destruct (elems !! i) as [y|] eqn:Ey; simpl in Hg.
    + rewrite list_lookup_insert_eq; [done|]. by eapply lookup_lt_Some.
    + injection Hg as <-. done.
  - destruct (lookup_prop k props) as [y|] eqn:Ey.
    + rewrite lookup_replace_prop; [done|]. unfold has_own. by rewrite Ey.
    + destruct (inherited k); [done|]. injection Hg as <-. done.
Qed.

Lemma put_back_id cur k child :
  get_own cur k = Ret child → put_back cur k child = cur.
Proof.
  destruct cur as [| | | | |elems|props]; simpl; try done.
  - destruct (String.eqb k "length") eqn:El.
    + intros _. destruct (array_index k) as [i|] eqn:Ei; [|done].
      apply String.eqb_eq in El. subst k. discriminate Ei.
    + destruct (array_index k) as [i|]; [|done].
      destruct (elems !! i) as [y|] eqn:Ey; simpl.
      * intros [= ->]. by rewrite list_insert_id.
      * intros _. by rewrite list_insert_ge by (by apply lookup_ge_None).
  - destruct (lookup_prop k props) as [y|] eqn:Ey.
    + intros [= ->]. by rewrite replace_prop_id.
    + intros _. by rewrite replace_prop_absent.
Qed.

Lemma resolve_container path cur target :
  resolve cur path = Some target → not_container target = false →
  not_container cur = false.
Proof.
  destruct path as [|p path]; simpl.
  - by intros [= ->].
  - by destruct (not_container cur).
Qed.

Lemma plug_id path : ∀ cur target,
  resolve cur path = Some target → plug cur path target = cur.
Proof.
  induction path as [|p path IH]; intros cur target; simpl.
  - by intros [= ->].
  - destruct (not_container cur); [done|].
    destruct (to_property_key _) as [k| |]; try done.
    destruct (get_own cur k) as [child| |] eqn:Hg; try done.
    destruct (is_undefined child || is_null child); [done|].
    intros Hres. rewrite (IH _ _ Hres). by apply put_back_id.
Qed.

Lemma plug_container path cur target r :
  resolve cur path = Some target → not_container target = false →
  not_container r = false → not_container (plug cur path r) = false.
Proof.
  destruct path as [|p path]; simpl; [done|].
  destruct (not_container cur) eqn:Hc; [done|].
  destruct (to_property_key _) as [k| |]; try done.
  destruct (get_own cur k) as [child| |]; try done.
  intros _ _ _. by apply put_back_container.
Qed.

Lemma container_not_nullish c :
  not_container c = false → is_undefined c || is_null c = false.
Proof. by intros [[? ->]|[? ->]]%not_container_false. Qed.

Lemma resolve_plug path : ∀ cur target r,
  resolve cur path = Some target → not_container target = false →
  not_container r = false → resolve (plug cur path r) path = Some r.
Proof.
  induction path as [|p path IH]; intros cur target r; simpl; [done|].
  destruct (not_container cur) eqn:Hc; [done|].
  destruct (to_property_key _) as [k| |] eqn:Hk; try done.
  destruct (get_own cur k) as [child| |] eqn:Hg; try done.
  destruct (is_undefined child || is_null child) eqn:Hn; [done|].
  intros Hres Ht Hr.
  pose proof (resolve_container _ _ _ Hres Ht) as Hchild.
  rewrite put_back_container by done.
  rewrite (get_put_back _ _ child); try done.
  - rewrite container_not_nullish by eauto using plug_container. eauto.
  - intros n ->. done.
Qed.

Lemma strict_eq_int_VInt z z' : strict_eq_int (VInt z) z' = (z =? z').
Proof. unfold strict_eq_int, VInt, num_eqb. simpl. by rewrite Z.mul_1_r. Qed.

Lemma floor_inject_Z z : floor (inject_Z z) = z.
Proof. unfold floor. simpl. apply Z.div_1_r. Qed.

Lemma is_integer_inject_Z z : is_integer (inject_Z z) = true.
Proof. unfold is_integer. simpl. by rewrite Z.mod_1_r. Qed.

(** *** Decimal numerals *)

Lemma digit_of_pretty_N_char d : (d < 10)%N → digit_of (pretty_N_char d) = Some d.
Proof.
  intros Hd.
  assert (d = 0 ∨ d = 1 ∨ d = 2 ∨ d = 3 ∨ d = 4 ∨ d = 5 ∨ d = 6 ∨ d = 7
          ∨ d = 8 ∨ d = 9)%N as Hcases by lia.
  repeat (destruct Hcases as [->|Hcases]; [reflexivity|]). by subst.
Qed.

Lemma parse_digits_pretty_go x :
  ∃ m, ∀ acc s, parse_digits acc (pretty_N_go x s) = parse_digits (acc * m + x)%N s.
Proof.
  induction (N.lt_wf_0 x) as [x _ IH].
  destruct (decide (x = 0)%N) as [->|Hx].
  { exists 1%N. intros acc s. rewrite pretty_N_go_0. f_equal. lia. }
  destruct (IH (x `div` 10)%N) as [m Hm]; [apply N.div_lt; lia|].
  exists (10 * m)%N. intros acc s. rewrite pretty_N_go_step by lia.
  rewrite Hm. simpl. rewrite digit_of_pretty_N_char by (apply N.mod_lt; lia).
  f_equal. pose proof (N.div_mod x 10). lia.
Qed.

Lemma pretty_N_go_length x : ∀ s, (String.length s ≤ String.length (pretty_N_go x s))%nat.
Proof.
  induction (N.lt_wf_0 x) as [x _ IH]; intros s.
  destruct (decide (x = 0)%N) as [->|Hx]; [by rewrite pretty_N_go_0|].
  rewrite pretty_N_go_step by lia.
  etrans; [|apply IH, N.div_lt; lia]. simpl. lia.
Qed.

Lemma parse_digits_pretty (n : N) : parse_digits 0 (pretty n) = Some n.
Proof.
  unfold pretty, pretty_N. destruct (decide (n = 0)%N) as [->|Hn]; [done|].
  destruct (parse_digits_pretty_go n) as [m Hm]. by rewrite Hm.
Qed.

Lemma pretty_N_nonempty (n : N) : pretty n ≠ ""%string.
Proof.
  unfold pretty, pretty_N. destruct (decide (n = 0)%N) as [->|Hn]; [done|].
  rewrite pretty_N_go_step by lia. intros Heq.
  pose proof (pretty_N_go_length (n `div` 10)
                (String (pretty_N_char (n `mod` 10)) "")) as Hlen.
  rewrite Heq in Hlen. simpl in Hlen. lia.
Qed.

Lemma canonical_nat_pretty (n : N) : canonical_nat (pretty n) = Some n.
Proof.
  unfold canonical_nat. pose proof (pretty_N_nonempty n).
  destruct (pretty n) as [|c s] eqn:E; [done|]. rewrite <- E.
  rewrite parse_digits_pretty, E. by rewrite String.eqb_refl.
Qed.

Lemma canonical_nat_inv s n : canonical_nat s = Some n → s = pretty n.
Proof.
  unfold canonical_nat. destruct s as [|c s]; [done|].
  destruct (parse_digits _ _) as [m|]; [|done].
  destruct (String.eqb _ _) eqn:E; [|done]. intros [= <-].
  by apply String.eqb_eq in E.
Qed.

Lemma pretty_Z_of_nat (i : nat) : pretty (Z.of_nat i) = pretty (N.of_nat i).
Proof. by destruct i. Qed.

Lemma array_index_pretty (i : nat) :
  (Z.of_nat i < 2 ^ 32 - 1) → array_index (pretty (Z.of_nat i)) = Some i.
Proof.
  intros Hi. unfold array_index. rewrite pretty_Z_of_nat, canonical_nat_pretty.
  destruct (N.ltb_spec (N.of_nat i) (2 ^ 32 - 1)) as [_|Hge]; [|lia].
  by rewrite Nat2N.id.
Qed.

Lemma to_property_key_VInt z :
  Z.abs z < 2 ^ 53 → to_property_key (VInt z) = Ret (pretty z).
Proof.
  intros Hz. unfold to_property_key, VInt. simpl. unfold number_to_string.
  rewrite is_integer_inject_Z, floor_inject_Z. unfold int_to_string.
  by destruct (Z.ltb_spec (Z.abs z) (2 ^ 53)); [|lia].
Qed.

Lemma apply_path props path target key v :
  is_json (VObj props) = true →
  resolve (VObj props) path = Some target → not_container target = false →
  applyStateUpdate (VObj props) (VArr (path ++ [key; v])) =
    r ← apply_final target (normalizePropertyKey key) v;
    Ret (plug (VObj props) path r).
Proof.
  intros Hj Hres Hc. rewrite apply_unfold; [|done|rewrite length_app; simpl; lia].
  rewrite (descend_resolve_final _ _ _ _ _ Hres Hc).
  by destruct (apply_final _ _ _).
Qed.

Lemma apply_final_bulk_other elems v :
  Array_isArray v = false → apply_final (VArr elems) (VInt (-2)) v = Ret (VArr elems).
Proof. by destruct v. Qed.

(** C6. When the path of an update ends at a list: the final key -1
    appends the value to the end of the list; the final key -2 with a
    list as value appends all the elements of that list, in order; the
    final key -2 with any other value changes nothing. *)
Theorem C6_list_append props path elems :
  is_json (VObj props) = true →
  resolve (VObj props) path = Some (VArr elems) →
  (∀ v, applyStateUpdate (VObj props) (VArr (path ++ [VInt (-1); v]))
          = Ret (plug (VObj props) path (VArr (elems ++ [v])))
        ∧ resolve (plug (VObj props) path (VArr (elems ++ [v]))) path
          = Some (VArr (elems ++ [v])))
  ∧ (∀ items, applyStateUpdate (VObj props) (VArr (path ++ [VInt (-2); VArr items]))
          = Ret (plug (VObj props) path (VArr (elems ++ items)))
        ∧ resolve (plug (VObj props) path (VArr (elems ++ items))) path
          = Some (VArr (elems ++ items)))
  ∧ (∀ v, Array_isArray v = false →
        applyStateUpdate (VObj props) (VArr (path ++ [VInt (-2); v]))
          = Ret (VObj props)).
Proof.
  intros Hj Hres. repeat split.
  - by rewrite (apply_path _ _ _ _ _ Hj Hres).
  - by apply (resolve_plug _ _ _ _ Hres).
  - by rewrite (apply_path _ _ _ _ _ Hj Hres).
  - by apply (resolve_plug _ _ _ _ Hres).
  - intros v Hv. rewrite (apply_path _ _ _ _ _ Hj Hres) by done.
    change (normalizePropertyKey (VInt (-2))) with (VInt (-2)).
    rewrite apply_final_bulk_other by done.
    cbn [mbind res_bind]. by rewrite (plug_id _ _ _ Hres).
Qed.

Lemma C6_list_append_witness :
  applyStateUpdate (VObj [("list"%string, VArr [VInt 1; VInt 2])])
                   (VArr [VStr "list"; VInt (-1); VInt 3])
  = Ret (VObj [("list"%string, VArr [VInt 1; VInt 2; VInt 3])])
  ∧ applyStateUpdate (VObj [("list"%string, VArr [VInt 1; VInt 2; VInt 3])])
                     (VArr [VStr "list"; VInt (-2); VArr [VInt 4; VInt 5]])
    = Ret (VObj [("list"%string, VArr [VInt 1; VInt 2; VInt 3; VInt 4; VInt 5])])
  ∧ applyStateUpdate (VObj [("list"%string, VArr [VInt 1; VInt 2])])
                     (VArr [VStr "list"; VInt (-2); VStr "tail"])
    = Ret (VObj [("list"%string, VArr [VInt 1; VInt 2])]).
Proof.
  pose proof (C6_list_append [("list"%string, VArr [VInt 1; VInt 2])]
                [VStr "list"] [VInt 1; VInt 2] eq_refl eq_refl) as (Ha & _ & Hc).
  pose proof (C6_list_append [("list"%string, VArr [VInt 1; VInt 2; VInt 3])]
                [VStr "list"] [VInt 1; VInt 2; VInt 3] eq_refl eq_refl) as (_ & Hb & _).
  split; [apply Ha | split; [apply Hb | by apply Hc]].
Defined.

Lemma lookup_remove_prop {V} k (props : list (string * V)) :
  NoDup props.*1 → lookup_prop k (remove_prop k props) = None.
Proof.
  induction props as [|[k' y] l IH]; simpl; [done|].
  intros [Hnotin Hnd]%NoDup_cons.
  destruct (String.eqb k k') eqn:E.
  - apply String.eqb_eq in E. subst k'. clear IH Hnd.
    induction l as [|[k2 y2] l IHl]; simpl; [done|].
    destruct (String.eqb k k2) eqn:E2.
    + apply String.eqb_eq in E2. subst. destruct Hnotin. simpl. left.
    + apply IHl. intros Hin. apply Hnotin. simpl. by right.
  - simpl. rewrite E. by apply IH.
Qed.

Lemma to_number_VInt z : to_number (VInt z) = Ret (Some (inject_Z z)).
Proof. reflexivity. Qed.

Lemma apply_final_delete_index elems (i : nat) :
  apply_final (VArr elems) (VInt (Z.of_nat i)) VNull =
    Ret (if decide (i < length elems)%nat then VArr (delete i elems) else VArr elems).
Proof.
  unfold apply_final. rewrite !strict_eq_int_VInt.
  destruct (Z.eqb_spec (Z.of_nat i) (-1)); [lia|].
  destruct (Z.eqb_spec (Z.of_nat i) (-2)); [lia|].
  cbn [is_null]. rewrite to_number_VInt. cbn [mbind res_bind].
  rewrite floor_inject_Z, Nat2Z.id.
  destruct (Z.leb_spec 0 (Z.of_nat i)); [|lia]. cbn [andb].
  destruct (Z.ltb_spec (Z.of_nat i) (Z.of_nat (length elems))), (decide (i < length elems)%nat);
    try done; lia.
Qed.

(** C7. Deleting with the null value.  At a map, the final key is
    removed, and deleting a key that is not there returns the document
    as it was.  At a list, an index within the list removes that
    element and the list is one shorter; an index past the end changes
    nothing. *)
Theorem C7_delete props path :
  is_json (VObj props) = true →
  (∀ entries s k,
     resolve (VObj props) path = Some (VObj entries) →
     normalizePropertyKey (VStr s) = VStr k →
     applyStateUpdate (VObj props) (VArr (path ++ [VStr s; VNull]))
       = Ret (plug (VObj props) path (VObj (remove_prop k entries)))
     ∧ (NoDup entries.*1 → lookup_prop k (remove_prop k entries) = None)
     ∧ (lookup_prop k entries = None →
        applyStateUpdate (VObj props) (VArr (path ++ [VStr s; VNull]))
          = Ret (VObj props)))
  ∧ (∀ elems (i : nat),
     resolve (VObj props) path = Some (VArr elems) →
     ((i < length elems)%nat →
        applyStateUpdate (VObj props) (VArr (path ++ [VInt (Z.of_nat i); VNull]))
          = Ret (plug (VObj props) path (VArr (delete i elems)))
        ∧ resolve (plug (VObj props) path (VArr (delete i elems))) path
          = Some (VArr (delete i elems))
        ∧ S (length (delete i elems)) = length elems)
     ∧ ((length elems ≤ i)%nat →
        applyStateUpdate (VObj props) (VArr (path ++ [VInt (Z.of_nat i); VNull]))
          = Ret (VObj props))).
Proof.
  intros Hj. split.
  - intros entries s k Hres Hk.
    assert (applyStateUpdate (VObj props) (VArr (path ++ [VStr s; VNull]))
            = Ret (plug (VObj props) path (VObj (remove_prop k entries)))) as Heq.
    { rewrite (apply_path _ _ _ _ _ Hj Hres) by done. by rewrite Hk. }
    split; [done|]. split; [apply lookup_remove_prop|].
    intros Habs. rewrite Heq, remove_prop_absent by done.
    by rewrite (plug_id _ _ _ Hres).
  - intros elems i Hres. split.
    + intros Hi. split; [|split].
      * rewrite (apply_path _ _ _ _ _ Hj Hres) by done.
        change (normalizePropertyKey (VInt (Z.of_nat i))) with (VInt (Z.of_nat i)).
        rewrite apply_final_delete_index. by rewrite decide_True.
      * by apply (resolve_plug _ _ _ _ Hres).
      * rewrite length_delete; [lia|]. by apply lookup_lt_is_Some.
    + intros Hi. rewrite (apply_path _ _ _ _ _ Hj Hres) by done.
      change (normalizePropertyKey (VInt (Z.of_nat i))) with (VInt (Z.of_nat i)).
      rewrite apply_final_delete_index, decide_False by lia.
      cbn [mbind res_bind]. by rewrite (plug_id _ _ _ Hres).
Qed.

Lemma C7_delete_witness :
  applyStateUpdate (VObj [("a"%string, VInt 1); ("b"%string, VInt 2)])
                   (VArr [VStr "b"; VNull])
  = Ret (VObj [("a"%string, VInt 1)])
  ∧ applyStateUpdate (VObj [("a"%string, VInt 1)]) (VArr [VStr "b"; VNull])
    = Ret (VObj [("a"%string, VInt 1)])
  ∧ applyStateUpdate (VObj [("q"%string, VArr [VStr "x"; VStr "y"; VStr "z"])])
                     (VArr [VStr "q"; VInt 1; VNull])
    = Ret (VObj [("q"%string, VArr [VStr "x"; VStr "z"])])
  ∧ applyStateUpdate (VObj [("q"%string, VArr [VStr "x"; VStr "y"; VStr "z"])])
                     (VArr [VStr "q"; VInt 3; VNull])
    = Ret (VObj [("q"%string, VArr [VStr "x"; VStr "y"; VStr "z"])]).
Proof.
  pose proof (C7_delete [("a"%string, VInt 1); ("b"%string, VInt 2)] [] eq_refl)
    as [Hmap _].
  pose proof (C7_delete [("a"%string, VInt 1)] [] eq_refl) as [Hmap' _].
  pose proof (C7_delete [("q"%string, VArr [VStr "x"; VStr "y"; VStr "z"])]
                [VStr "q"] eq_refl) as [_ Hlist].
  split; [|split; [|split]].
  - apply (Hmap [("a"%string, VInt 1); ("b"%string, VInt 2)] "b"%string "b"%string);
      reflexivity.
  - apply (Hmap' [("a"%string, VInt 1)] "b"%string "b"%string); reflexivity.
  - apply (Hlist [VStr "x"; VStr "y"; VStr "z"] 1%nat eq_refl). simpl. lia.
  - apply (Hlist [VStr "x"; VStr "y"; VStr "z"] 3%nat eq_refl). simpl. lia.
Defined.

Lemma same_kind_container a b : same_kind a b → not_container b = false.
Proof. by destruct a, b. Qed.

Lemma same_kind_trans a b c : same_kind a b → same_kind b c → same_kind a c.
Proof. by destruct a, b, c. Qed.

Lemma set_own_kind c k x o :
  not_container c = false → set_own c k x = Ret o → same_kind c o.
Proof.
  intros [[elems ->]|[props ->]]%not_container_false; simpl.
  - destruct (String.eqb k "length").
    + unfold array_set_length. destruct (to_number x) as [[q|]| |]; simpl; try done.
      destruct (_ && _); [|done]. by intros [= <-].
    + destruct (array_index k); [|done]. by intros [= <-].
  - destruct (has_own k props); [by intros [= <-]|].
    destruct (String.eqb k "__proto__"); [done|]. by intros [= <-].
Qed.

Lemma apply_final_kind c key v o :
  not_container c = false → apply_final c key v = Ret o → same_kind c o.
Proof.
  intros Hc. pose proof Hc as [[elems ->]|[props ->]]%not_container_false;
    unfold apply_final.
  - destruct (strict_eq_int key (-1)); [by intros [= <-]|].
    destruct (strict_eq_int key (-2)).
    { destruct v; by intros [= <-]. }
    destruct (is_null v).
    + destruct (to_number key) as [[q|]| |]; simpl; try done; [|by intros [= <-]].
      destruct (_ && _); by intros [= <-].
    + destruct (to_property_key key) as [k| |]; cbn [mbind res_bind]; try done.
      by apply set_own_kind.
  - destruct (to_property_key key) as [k| |]; cbn [mbind res_bind]; try done.
    destruct (is_null v); [by intros [= <-]|]. by apply set_own_kind.
Qed.

Lemma put_back_kind c k x : not_container c = false → same_kind c (put_back c k x).
Proof.
  intros [[elems ->]|[props ->]]%not_container_false; simpl; [|done].
  by destruct (array_index k).
Qed.

(** The descent leaves an array an array and an object an object. *)
Lemma descend_kind tail : ∀ c c',
  descend c tail = Ret (Some c') → same_kind c c'.
Proof.
  induction tail as [|a tail IH]; intros c c'; [done|].
  destruct tail as [|b tail]; [done|].
  destruct tail as [|d tail].
  - rewrite descend_final. destruct (not_container c) eqn:Hc; [done|].
    destruct (apply_final _ _ _) as [o| |] eqn:Hf; simpl; try done.
    intros [= <-]. by eapply apply_final_kind.
  - rewrite descend_step by done. cbn zeta.
    destruct (not_container c) eqn:Hc; [done|].
    destruct (to_property_key _) as [k| |]; cbn -[descend]; try done.
    destruct (get_own c k) as [child| |]; cbn -[descend]; try done.
    destruct (is_undefined child || is_null child).
    + destruct (set_own c k _) as [o| |] eqn:Hs; cbn -[descend]; try done.
      destruct (_ || _); [done|].
      destruct (descend _ _) as [[r|]| |]; cbn -[descend]; try done.
      intros [= <-]. eapply same_kind_trans; [by eapply set_own_kind|].
      apply put_back_kind. eapply same_kind_container. by eapply set_own_kind.
    + cbn -[descend]. destruct (_ || _); [done|].
      destruct (descend _ _) as [[r|]| |]; cbn -[descend]; try done.
      intros [= <-]. by apply put_back_kind.
Qed.

Lemma resolve_app path : ∀ cur tail,
  resolve cur (path ++ tail) = resolve cur path ≫= λ t, resolve t tail.
Proof.
  induction path as [|p path IH]; intros cur tail; simpl; [done|].
  destruct (not_container cur); [done|].
  destruct (to_property_key _) as [k| |]; try done.
  destruct (get_own cur k) as [child| |]; try done.
  destruct (_ || _); [done|]. apply IH.
Qed.

Lemma lookup_prop_app_new {V} k (x : V) props :
  lookup_prop k props = None → lookup_prop k (props ++ [(k, x)]) = Some x.
Proof.
  induction props as [|[k' y] l IH]; simpl.
  - by rewrite String.eqb_refl.
  - destruct (String.eqb k k'); [done|]. exact IH.
Qed.

(** Reading back the slot a container was just created in. *)
Lemma get_set_own c k child x o :
  not_container c = false → get_own c k = Ret child →
  is_undefined child || is_null child = true →
  set_own c k x = Ret o → get_own o k = Ret x.
Proof.
  intros [[elems ->]|[props ->]]%not_container_false; simpl.
  - destruct (String.eqb k "length") eqn:El; [by intros [= <-]|].
    destruct (array_index k) as [i|] eqn:Ei; [|done].
    intros _ _ [= <-]. simpl. rewrite El, Ei. unfold array_store.
    destruct (Nat.ltb_spec i (length elems)).
    + by rewrite list_lookup_insert_eq.
    + rewrite lookup_app_r by done. rewrite lookup_app_r; rewrite length_replicate; [|lia].
      by rewrite Nat.sub_diag.
  - unfold has_own. destruct (lookup_prop k props) as [y|] eqn:Ey.
    + intros _ _ [= <-]. simpl. rewrite lookup_replace_prop; [done|].
      unfold has_own. by rewrite Ey.
    + destruct (inherited k); [done|]. intros _ _.
      destruct (String.eqb k "__proto__"); [done|]. intros [= <-]. simpl.
      by rewrite lookup_prop_app_new.
Qed.

Lemma pretty_Z_not_length (z : Z) : pretty z ≠ "length"%string.
Proof.
  destruct z as [|p|p].
  - done.
  - change (pretty (Z.pos p)) with (pretty (N.pos p)). intros Heq.
    pose proof (parse_digits_pretty (N.pos p)) as Hp. by rewrite Heq in Hp.
  - change (pretty (Z.neg p)) with ("-" +:+ pretty (N.pos p))%string. done.
Qed.

Lemma to_property_key_integer q :
  is_integer q = true → Z.abs (floor q) < 2 ^ 53 →
  to_property_key (VNum q) = Ret (pretty (floor q)).
Proof.
  intros Hq Hz. unfold to_property_key. simpl. unfold number_to_string, int_to_string.
  rewrite Hq. by destruct (Z.ltb_spec (Z.abs (floor q)) (2 ^ 53)); [|lia].
Qed.

Lemma to_property_key_integer_inv q k :
  to_property_key (VNum q) = Ret k → k = pretty (floor q).
Proof.
  unfold to_property_key. simpl. unfold number_to_string, int_to_string.
  destruct (is_integer q); [|done]. destruct (_ <? _); [|done]. by intros [= <-].
Qed.

Lemma Number_isInteger_normalize_num key :
  Number_isInteger key = true → ∃ q, normalizePropertyKey key = VNum q ∧ key = VNum q
                                     ∧ is_integer q = true.
Proof. destruct key; try done. simpl. eauto. Qed.

Lemma get_own_created_list k child :
  k ≠ "length"%string → get_own (VArr []) k = Ret child → child = VUndef.
Proof.
  intros Hk. simpl. destruct (String.eqb_spec k "length"); [done|].
  destruct (array_index k); [|done]. by intros [= <-].
Qed.

(** Below a container that has just been made for the key at hand the
    traversal is not turned back. *)
Lemma descend_created rest : ∀ next,
  rest ≠ [] → descend (created_for next) (next :: rest) ≠ Ret None.
Proof.
  induction rest as [|n2 rest IH]; intros next Hne; [done|].
  assert (not_container (created_for next) = false) as Hc
    by (unfold created_for; by destruct (Number_isInteger next)).
  destruct rest as [|n3 rest].
  - rewrite descend_final, Hc. by destruct (apply_final _ _ _).
  - rewrite descend_step by done. cbn zeta. rewrite Hc.
    destruct (to_property_key _) as [k| |] eqn:Hk; cbn -[descend]; try done.
    destruct (get_own _ k) as [child| |] eqn:Hg; cbn -[descend]; try done.
    assert (child = VUndef) as ->.
    { unfold created_for in Hg. destruct (Number_isInteger next) eqn:Hint.
      - apply Number_isInteger_normalize_num in Hint as (q & Hq & _ & _).
        rewrite Hq in Hk. apply to_property_key_integer_inv in Hk as ->.
        eapply get_own_created_list; [apply pretty_Z_not_length|done].
      - simpl in Hg. by destruct (inherited k); [|injection Hg as <-]. }
    cbn -[descend].
    destruct (set_own _ k _) as [o| |]; cbn -[descend]; try done.
    fold (created_for n2).
    assert (is_null (created_for n2) || is_undefined (created_for n2) = false) as ->
      by (unfold created_for; by destruct (Number_isInteger n2)).
    specialize (IH n2 ltac:(done)).
    by destruct (descend (created_for n2) (n2 :: n3 :: rest)) as [[r|]| |].
Qed.

Lemma set_own_missing cur k child x :
  not_container cur = false → get_own cur k = Ret child →
  is_undefined child || is_null child = true →
  ∃ o, set_own cur k x = Ret o.
Proof.
  intros [[elems ->]|[props ->]]%not_container_false; simpl.
  - destruct (String.eqb k "length"); [by intros [= <-]|].
    destruct (array_index k); [eauto|done].
  - unfold has_own. destruct (lookup_prop k props); [eauto|].
    destruct (inherited k) eqn:Hi; [done|]. intros _ _.
    destruct (String.eqb_spec k "__proto__") as [->|]; [done|eauto].
Qed.

Lemma plain_key_cases key :
  plain_key key = true →
  (∃ s, normalizePropertyKey key = VStr s ∧ inherited s = false
        ∧ Number_isInteger key = false)
  ∨ (∃ q, key = VNum q ∧ is_integer q = true ∧ 0 ≤ floor q < 2 ^ 32 - 1).
Proof.
  unfold plain_key. destruct key as [| |b|q|s|elems|props]; try done.
  - intros H. right. exists q.
    apply andb_true_iff in H as [[H1 H2]%andb_true_iff H3]. split; [done|]. split; [done|]. lia.
  - intros H. left. simpl in *. destruct (_ && _); simpl in H; eexists; split; [done| |done|];
      split; try done; by apply negb_true_iff.
Qed.

Lemma array_index_floor q :
  0 ≤ floor q < 2 ^ 32 - 1 → array_index (pretty (floor q)) = Some (Z.to_nat (floor q)).
Proof.
  intros Hq. rewrite <- (Z2Nat.id (floor q)) at 1 by lia.
  apply array_index_pretty. lia.
Qed.

(** With plain keys the traversal below a container made for the first
    of them goes all the way. *)
Lemma descend_plain keys : ∀ key v,
  Forall (λ k, plain_key k = true) keys → plain_final_key key = true →
  ∃ r, descend (created_for (hd key keys)) (keys ++ [key; v]) = Ret (Some r).
Proof.
  induction keys as [|a keys IH]; intros key v Hkeys Hkey.
  - simpl hd. simpl app. rewrite descend_final.
    unfold created_for. destruct (Number_isInteger key) eqn:Hint.
    + apply Number_isInteger_normalize_num in Hint as (q & Hnq & -> & Hq).
      cbn [not_container is_null is_undefined typeof_object Array_isArray negb orb andb].
      rewrite Hnq. unfold apply_final.
      destruct (strict_eq_int (VNum q) (-1)) eqn:E1; [by eauto|].
      destruct (strict_eq_int (VNum q) (-2)) eqn:E2; [destruct v; by eauto|].
      unfold plain_final_key in Hkey. rewrite E1, E2, !orb_false_r in Hkey.
      apply plain_key_cases in Hkey as [(s & Hs & _)|(q' & [= <-] & _ & Hr)];
        [by rewrite Hnq in Hs|].
      destruct (is_null v); [simpl; by destruct (_ && _); eauto|].
      rewrite to_property_key_integer by (done || lia). cbn [mbind res_bind].
      simpl set_own. destruct (String.eqb_spec (pretty (floor q)) "length") as [E|_];
        [by destruct (pretty_Z_not_length _ E)|].
      rewrite array_index_floor by done. simpl. eauto.
    + unfold plain_final_key in Hkey.
      assert (strict_eq_int key (-1) = false ∧ strict_eq_int key (-2) = false) as [E1 E2].
      { destruct key as [| |b|q|s|elems|props]; try done. simpl in *.
        unfold num_eqb, is_integer in *. split.
        - destruct (Z.eqb_spec (Qnum q) (-1 * Z.pos (Qden q))) as [E|]; [|done].
          rewrite E, Z.mod_mul in Hint; done.
        - destruct (Z.eqb_spec (Qnum q) (-2 * Z.pos (Qden q))) as [E|]; [|done].
          rewrite E, Z.mod_mul in Hint; done. }
      rewrite E1, E2, !orb_false_r in Hkey.
      apply plain_key_cases in Hkey as [(s & Hs & Hi & _)|(q' & -> & Hq' & _)];
        [|simpl in Hint; congruence].
      cbn [not_container is_null is_undefined typeof_object Array_isArray negb orb andb].
      rewrite Hs. unfold apply_final. cbn [to_property_key to_string mbind res_bind].
      destruct (is_null v); [simpl; by eauto|].
      simpl. destruct (String.eqb_spec s "__proto__") as [->|]; [done|simpl; eauto].
  - inversion Hkeys as [|? ? Ha Hkeys']; subst. simpl hd.
    assert (∃ rest, keys ++ [key; v] = hd key keys :: rest ∧ rest ≠ []) as (rest & Heq & Hne).
    { destruct keys as [|b keys]; simpl; [by eauto|].
      exists (keys ++ [key; v]). split; [done|]. by destruct keys. }
    change ((a :: keys) ++ [key; v]) with (a :: (keys ++ [key; v])).
    destruct (IH key v Hkeys' Hkey) as [r Hr].
    assert (is_null (created_for (hd key keys)) || is_undefined (created_for (hd key keys))
            = false) as Hnn by (unfold created_for; by destruct (Number_isInteger _)).
    apply plain_key_cases in Ha as [(s & Hs & Hi & Hint)|(q & -> & Hq & Hr')].
    + assert (created_for a = VObj []) as -> by (unfold created_for; by rewrite Hint).
      rewrite Heq, descend_step by done. cbn zeta. rewrite <- Heq, Hs.
      cbn [not_container is_null is_undefined typeof_object Array_isArray negb orb andb].
      cbn [to_property_key to_string mbind res_bind get_own lookup_prop]. rewrite Hi.
      cbn [mbind res_bind is_undefined is_null orb set_own has_own lookup_prop].
      destruct (String.eqb_spec s "__proto__") as [->|]; [done|].
      cbn [mbind res_bind]. fold (created_for (hd key keys)).
      rewrite Hnn, Hr. cbn [mbind res_bind]. eauto.
    + assert (created_for (VNum q) = VArr []) as ->
        by (unfold created_for; simpl; by rewrite Hq).
      rewrite Heq, descend_step by done. cbn zeta. rewrite <- Heq.
      cbn [normalizePropertyKey].
      cbn [not_container is_null is_undefined typeof_object Array_isArray negb orb andb].
      rewrite to_property_key_integer by (done || lia). cbn [mbind res_bind get_own].
      destruct (String.eqb_spec (pretty (floor q)) "length") as [E|_];
        [by destruct (pretty_Z_not_length _ E)|].
      rewrite array_index_floor by done. rewrite lookup_nil.
      cbn [mbind res_bind default from_option is_undefined is_null orb set_own].
      destruct (String.eqb_spec (pretty (floor q)) "length") as [E|_];
        [by destruct (pretty_Z_not_length _ E)|].
      rewrite array_index_floor by done. cbn [mbind res_bind].
      fold (created_for (hd key keys)).
      rewrite Hnn, Hr. cbn [mbind res_bind]. eauto.
Qed.

Lemma created_container props path cur key k next rest doc' :
  is_json (VObj props) = true →
  resolve (VObj props) path = Some cur → not_container cur = false →
  to_property_key (normalizePropertyKey key) = Ret k →
  (get_own cur k = Ret VUndef ∨ get_own cur k = Ret VNull) →
  rest ≠ [] →
  applyStateUpdate (VObj props) (VArr (path ++ key :: next :: rest)) = Ret doc' →
  ∃ c, resolve doc' (path ++ [key]) = Some c ∧ same_kind (created_for next) c.
Proof.
  intros Hj Hres Hc Hk Hmiss Hrest Happ.
  assert (∃ child, get_own cur k = Ret child ∧ is_undefined child || is_null child = true)
    as (child & Hg & Hn) by (destruct Hmiss; eauto).
  rewrite apply_unfold in Happ; [|done|].
  2:{ rewrite length_app. simpl. lia. }
  rewrite (descend_resolve _ _ _ _ Hres) in Happ by (simpl; lia).
  rewrite descend_step in Happ by done. cbn zeta in Happ.
  rewrite Hc, Hk in Happ. cbn -[descend plug] in Happ.
  rewrite Hg in Happ. cbn -[descend plug] in Happ. rewrite Hn in Happ.
  fold (created_for next) in Happ. set (created := created_for next) in *.
  destruct (set_own cur k created) as [o| |] eqn:Hs; cbn -[descend plug] in Happ; try done.
  assert (not_container created = false) as Hcc
    by (subst created; unfold created_for; by destruct (Number_isInteger next)).
  rewrite orb_comm, (container_not_nullish _ Hcc) in Happ.
  pose proof (descend_created rest next Hrest) as Hnone. fold created in Hnone.
  destruct (descend created (next :: rest)) as [[r|]| |] eqn:Hd;
    cbn -[descend plug] in Happ; try done; injection Happ as <-.
  pose proof (descend_kind _ _ _ Hd) as Hkind.
  pose proof (set_own_kind _ _ _ _ Hc Hs) as Hko.
  exists r. split; [|done].
  rewrite resolve_app.
  rewrite (resolve_plug _ _ _ _ Hres Hc).
  2:{ apply put_back_container. by eapply same_kind_container. }
  cbn -[put_back].
  rewrite put_back_container, Hk by (by eapply same_kind_container).
  rewrite (get_put_back _ _ created).
  - by rewrite (container_not_nullish r) by (by eapply same_kind_container).
  - by eapply same_kind_container.
  - by apply (get_set_own cur k child created o).
  - by apply container_not_nullish.
  - intros n Hn'. subst created. unfold created_for in Hn'.
    by destruct (Number_isInteger next).
Qed.

Lemma created_container_returns props path cur key k next rest keys final v :
  is_json (VObj props) = true →
  resolve (VObj props) path = Some cur → not_container cur = false →
  to_property_key (normalizePropertyKey key) = Ret k →
  (get_own cur k = Ret VUndef ∨ get_own cur k = Ret VNull) →
  next :: rest = keys ++ [final; v] →
  Forall (λ x, plain_key x = true) keys → plain_final_key final = true →
  ∃ doc', applyStateUpdate (VObj props) (VArr (path ++ key :: next :: rest)) = Ret doc'.
Proof.
  intros Hj Hres Hc Hk Hmiss Heq Hkeys Hfinal.
  assert (∃ child, get_own cur k = Ret child ∧ is_undefined child || is_null child = true)
    as (child & Hg & Hn) by (destruct Hmiss; eauto).
  assert (rest ≠ [] ∧ next = hd final keys) as [Hrest ->].
  { destruct keys as [|a keys]; simpl in Heq; injection Heq as -> ->; [done|].
    split; [by destruct keys|done]. }
  rewrite apply_unfold; [|done|].
  2:{ rewrite length_app. simpl. lia. }
  rewrite (descend_resolve _ _ _ _ Hres) by (simpl; lia).
  rewrite descend_step by done. cbn zeta.
  rewrite Hc, Hk. cbn -[descend plug]. rewrite Hg. cbn -[descend plug]. rewrite Hn.
  fold (created_for (hd final keys)).
  destruct (set_own_missing cur k child (created_for (hd final keys)) Hc Hg Hn) as [o ->].
  cbn -[descend plug].
  assert (is_null (created_for (hd final keys)) || is_undefined (created_for (hd final keys))
          = false) as -> by (unfold created_for; by destruct (Number_isInteger _)).
  destruct (descend_plain keys final v Hkeys Hfinal) as [r Hr].
  rewrite Heq, Hr. cbn -[plug]. eauto.
Qed.




(** *** Paths that are turned back *)

Lemma descend_blocked ops : ∀ c,
  (2 ≤ length ops)%nat → descend c ops = Ret None ↔ blocked c ops.
Proof.
  intros c Hlen. split.
  - revert c Hlen. induction ops as [|key ops IH]; intros c Hlen; [simpl in Hlen; lia|].
    destruct ops as [|next rest]; [simpl in Hlen; lia|].
    destruct (not_container c) eqn:Hc.
    { intros _. by exists [], (key :: next :: rest), c. }
    destruct rest as [|x rest].
    + rewrite descend_final, Hc. by destruct (apply_final _ _ _).
    + rewrite descend_step by done. cbn zeta. rewrite Hc.
      destruct (to_property_key _) as [k| |] eqn:Hk; cbn -[descend]; try done.
      destruct (get_own c k) as [child| |] eqn:Hg; cbn -[descend]; try done.
      destruct (is_undefined child || is_null child) eqn:Hn.
      * destruct (set_own c k _) as [o| |]; cbn -[descend]; try done.
        fold (created_for next).
        assert (is_null (created_for next) || is_undefined (created_for next) = false) as ->
          by (unfold created_for; by destruct (Number_isInteger next)).
        pose proof (descend_created (x :: rest) next ltac:(done)) as Hnone.
        by destruct (descend (created_for next) _) as [[r|]| |].
      * cbn -[descend]. rewrite orb_comm, Hn.
        destruct (descend child (next :: x :: rest)) as [[r|]| |] eqn:Hd;
          cbn -[descend]; try done.
        intros _. destruct (IH child ltac:(simpl; lia) Hd)
          as (path & tail & target & Heq & Htail & Hres & Ht).
        exists (key :: path), tail, target. rewrite <- app_comm_cons, <- Heq.
        split; [done|]. split; [done|]. split; [|done].
        simpl. by rewrite Hc, Hk, Hg, Hn.
  - intros (path & tail & target & -> & Htail & Hres & Ht).
    rewrite (descend_resolve _ _ _ _ Hres Htail).
    by rewrite descend_not_container.
Qed.

Lemma not_blocked_empty ops : ¬ blocked (VObj []) ops.
Proof.
  intros (path & tail & target & _ & _ & Hres & Ht).
  destruct path as [|p path]; simpl in Hres; [by injection Hres as <-|].
  destruct (to_property_key _) as [k| |]; try done.
  simpl in Hres. by destruct (inherited k).
Qed.

(** *** What can be raised *)

Lemma string_to_number_no_throw s e : string_to_number s ≠ Throw e.
Proof.
  unfold string_to_number. destruct s as [|c s]; [done|].
  destruct (canonical_int _); [by destruct (_ <? _)|by destruct (_ && _)].
Qed.

Lemma number_to_string_no_throw q e : number_to_string q ≠ Throw e.
Proof.
  unfold number_to_string, int_to_string.
  destruct (is_integer q); [by destruct (_ <? _)|done].
Qed.

Lemma to_string_cons x l :
  to_string (VArr (x :: l)) =
    s ← to_string_elem x;
    match l with
    | [] => Ret s
    | _ => r ← to_string (VArr l); Ret (s +:+ "," +:+ r)
    end.
Proof. reflexivity. Qed.

Lemma to_string_throw v e : to_string v = Throw e → e = TypeError ∧ converts v = false.
Proof.
  induction v as [| |b|q|s|elems IH|props IH] using value_induction; try done.
  - by destruct b.
  - intros H. by destruct (number_to_string_no_throw q e).
  - induction elems as [|x l IHl]; [done|].
    inversion IH as [|? ? IHx IHl']; subst.
    rewrite to_string_cons. cbn [converts forallb].
    destruct (to_string_elem x) as [s| |] eqn:Hx; cbn [mbind res_bind].
    + destruct l as [|y l]; [done|].
      destruct (to_string (VArr (y :: l))) as [s'| |] eqn:Hl;
        cbn [mbind res_bind]; try done.
      intros [= <-]. destruct (IHl IHl' eq_refl) as [-> Hcl].
      split; [done|]. cbn [converts] in Hcl. rewrite Hcl. apply andb_false_r.
    + intros [= <-]. assert (to_string x = Throw e0) as Hx' by (by destruct x).
      destruct (IHx Hx') as [-> Hcx]. by rewrite Hcx.
    + done.
  - simpl. destruct (has_own "toString" props); [|done]. by intros [= <-].
Qed.

Lemma to_number_throw v e : to_number v = Throw e → e = TypeError ∧ converts v = false.
Proof.
  destruct v as [| |[]|q|s|elems|props]; try done.
  - intros H. by destruct (string_to_number_no_throw s e).
  - unfold to_number. destruct (to_string (VArr elems)) as [s| |] eqn:Hs; cbn [mbind res_bind].
    + intros H. by destruct (string_to_number_no_throw s e).
    + intros [= <-]. by apply to_string_throw.
    + done.
  - unfold to_number. destruct (to_string (VObj props)) as [s| |] eqn:Hs; cbn [mbind res_bind].
    + intros H. by destruct (string_to_number_no_throw s e).
    + intros [= <-]. by apply to_string_throw.
    + done.
Qed.

Lemma converts_normalize key : converts (normalizePropertyKey key) = converts key.
Proof. destruct key; try done. simpl. by destruct (_ && _). Qed.

Lemma get_own_no_throw c k e : not_container c = false → get_own c k ≠ Throw e.
Proof.
  intros [[elems ->]|[props ->]]%not_container_false; simpl.
  - destruct (String.eqb k "length"); [done|]. by destruct (array_index k).
  - destruct (lookup_prop k props); [done|]. by destruct (inherited k).
Qed.

Lemma init_state D :
  ∃ props, (if negb (truthy D) || negb (typeof_object D) || Array_isArray D
            then VObj [] else D) = VObj props.
Proof. destruct D as [| |b|q|s|elems|props]; simpl; rewrite ?orb_true_r; eauto. Qed.

Lemma blocked_path props path target tail :
  is_json (VObj props) = true →
  resolve (VObj props) path = Some target → not_container target = true →
  (2 ≤ length tail)%nat →
  applyStateUpdate (VObj props) (VArr (path ++ tail)) = Ret (VObj props).
Proof.
  intros Hj Hres Hc Hlen. rewrite apply_unfold; [|done|rewrite length_app; lia].
  rewrite (descend_resolve _ _ _ _ Hres Hlen).
  by rewrite descend_not_container.
Qed.

(** *** The normalized-key rule *)

Lemma has_hyphen_replace s : has_hyphen (replace_hyphens s) = false.
Proof.
  induction s as [|c s IH]; [done|]. simpl. rewrite IH, orb_false_r.
  destruct (Ascii.eqb c hyphen) eqn:E; [reflexivity | exact E].
Qed.

Lemma has_hyphen_short s : String.length s = 0%nat → has_hyphen s = false.
Proof. by destruct s. Qed.

Lemma normalize_key_ok key k :
  key_respects_rule key →
  to_property_key (normalizePropertyKey key) = Ret k → normalized_key k = true.
Proof.
  destruct key as [| |b|q|s|elems|props]; simpl; try (intros H; apply H).
  intros _. unfold normalized_key.
  destruct (Nat.ltb_spec 0 (String.length s)) as [Hpos|Hzero]; simpl.
  - destruct (Nat.leb_spec (String.length s) 16) as [Hle|Hgt]; simpl.
    + intros [= <-]. by rewrite has_hyphen_replace, andb_false_r.
    + intros [= <-]. destruct (Nat.leb_spec (String.length s) 16); [lia|done].
  - intros [= <-]. rewrite has_hyphen_short by lia. by rewrite andb_false_r.
Qed.

Local Abbreviation kn v := (keys_normalized v = true).

Lemma kn_arr elems : kn (VArr elems) ↔ Forall (λ v, kn v) elems.
Proof.
  simpl. rewrite forallb_forall, Forall_forall. split; intros H x Hx; apply H.
  - by apply list_elem_of_In.
  - by apply list_elem_of_In.
Qed.

Lemma kn_obj props :
  kn (VObj props) ↔ Forall (λ kv, normalized_key kv.1 = true ∧ kn kv.2) props.
Proof.
  simpl. rewrite forallb_forall, Forall_forall. split.
  - intros H [k x] Hx. apply list_elem_of_In, H in Hx. by apply andb_true_iff in Hx.
  - intros H [k x] Hx. apply list_elem_of_In, H in Hx. by apply andb_true_iff.
Qed.

Lemma lookup_prop_elem {V} k (props : list (string * V)) x :
  lookup_prop k props = Some x → ∃ k', (k', x) ∈ props.
Proof.
  induction props as [|[k' y] l IH]; simpl; [done|].
  destruct (String.eqb k k').
  - intros [= ->]. exists k'. left.
  - intros [k2 H]%IH. exists k2. by right.
Qed.

Lemma get_own_kn c k child : kn c → get_own c k = Ret child → kn child.
Proof.
  destruct c as [| | | | |elems|props]; try done; simpl get_own.
  - intros Hc%kn_arr. destruct (String.eqb k "length"); [by intros [= <-]|].
    destruct (array_index k) as [i|]; [|done].
    destruct (elems !! i) as [y|] eqn:Ey; simpl; intros [= <-]; [|done].
    rewrite Forall_forall in Hc. apply Hc. by eapply list_elem_of_lookup_2.
  - intros Hc%kn_obj. destruct (lookup_prop k props) as [y|] eqn:Ey.
    + intros [= <-]. apply lookup_prop_elem in Ey as [k' Hin].
      rewrite Forall_forall in Hc. by apply (Hc _ Hin).
    + destruct (inherited k); [done|]. by intros [= <-].
Qed.

Lemma kn_replace_prop props k x :
  kn (VObj props) → kn x → kn (VObj (replace_prop k x props)).
Proof.
  rewrite !kn_obj. intros Hp Hx.
  induction props as [|[k' y] l IH]; simpl; [done|].
  inversion Hp as [|? ? [Hk Hy] Hl]; subst. simpl in *.
  destruct (String.eqb k k'); constructor; auto.
Qed.

Lemma kn_remove_prop props k : kn (VObj props) → kn (VObj (remove_prop k props)).
Proof.
  rewrite !kn_obj. intros Hp.
  induction props as [|[k' y] l IH]; simpl; [done|].
  inversion Hp as [|? ? Hky Hl]; subst.
  destruct (String.eqb k k'); [done|]. constructor; auto.
Qed.

Lemma kn_insert elems i x : kn (VArr elems) → kn x → kn (VArr (<[i := x]> elems)).
Proof. rewrite !kn_arr. intros. by apply Forall_insert. Qed.

Lemma set_own_kn c k x o :
  kn c → normalized_key k = true → kn x → set_own c k x = Ret o → kn o.
Proof.
  destruct c as [| | | | |elems|props]; try done; simpl set_own; intros Hc Hk Hx.
  - destruct (String.eqb k "length").
    + unfold array_set_length. destruct (to_number x) as [[q|]| |]; simpl; try done.
      destruct (_ && _); [|done]. intros [= <-]. apply kn_arr in Hc. apply kn_arr.
      unfold resize. rewrite resize_spec. apply Forall_app. split.
      * by apply Forall_take.
      * by apply Forall_replicate.
    + destruct (array_index k) as [i|]; [|done]. intros [= <-]. unfold array_store.
      destruct (_ <? _)%nat; [by apply kn_insert|].
      apply kn_arr in Hc. apply kn_arr. rewrite !Forall_app. repeat split; [done| |by constructor].
      by apply Forall_replicate.
  - destruct (has_own k props); [intros [= <-]; by apply kn_replace_prop|].
    destruct (String.eqb k "__proto__"); [done|]. intros [= <-].
    apply kn_obj in Hc. apply kn_obj. apply Forall_app. split; [done|]. by constructor.
Qed.

Lemma put_back_kn parent k child : kn parent → kn child → kn (put_back parent k child).
Proof.
  destruct parent as [| | | | |elems|props]; try done; simpl put_back; intros Hp Hc.
  - destruct (array_index k); [by apply kn_insert|done].
  - by apply kn_replace_prop.
Qed.

Lemma apply_final_kn c key v o :
  not_container c = false → kn c → key_respects_rule key → kn v →
  apply_final c (normalizePropertyKey key) v = Ret o → kn o.
Proof.
  intros Hcont Hc Hkey Hv.
  pose proof Hcont as [[elems ->]|[props ->]]%not_container_false; unfold apply_final.
  - destruct (strict_eq_int _ (-1)).
    { intros [= <-]. apply kn_arr in Hc. apply kn_arr, Forall_app. split; [done|]. by constructor. }
    destruct (strict_eq_int _ (-2)).
    { destruct v as [| | | | |items|]; try (by intros [= <-]).
      intros [= <-]. apply kn_arr in Hc, Hv. by apply kn_arr, Forall_app. }
    destruct (is_null v).
    + destruct (to_number _) as [[q|]| |]; cbn [mbind res_bind]; try done; [|by intros [= <-]].
      destruct (_ && _); intros [= <-]; [|done].
      apply kn_arr in Hc. apply kn_arr. by apply Forall_delete.
    + destruct (to_property_key _) as [k| |] eqn:Hk; cbn [mbind res_bind]; try done.
      apply set_own_kn; eauto using normalize_key_ok.
  - destruct (to_property_key _) as [k| |] eqn:Hk; cbn [mbind res_bind]; try done.
    destruct (is_null v).
    + intros [= <-]. by apply kn_remove_prop.
    + apply set_own_kn; eauto using normalize_key_ok.
Qed.

Lemma apply_final_kn_list elems key v o :
  kn (VArr elems) → kn v → apply_final (VArr elems) key v = Ret o → kn o.
Proof.
  intros Hc Hv. unfold apply_final.
  destruct (strict_eq_int _ (-1)).
  { intros [= <-]. apply kn_arr in Hc. apply kn_arr, Forall_app. split; [done|]. by constructor. }
  destruct (strict_eq_int _ (-2)).
  { destruct v as [| | | | |items|]; try (by intros [= <-]).
    intros [= <-]. apply kn_arr in Hc, Hv. by apply kn_arr, Forall_app. }
  destruct (is_null v).
  - destruct (to_number _) as [[q|]| |]; cbn [mbind res_bind]; try done; [|by intros [= <-]].
    destruct (_ && _); intros [= <-]; [|done].
    apply kn_arr in Hc. apply kn_arr. by apply Forall_delete.
  - destruct (to_property_key _) as [k| |] eqn:Hk; cbn [mbind res_bind]; try done.
    simpl set_own. destruct (String.eqb k "length").
    + unfold array_set_length. destruct (to_number v) as [[q|]| |]; simpl; try done.
      destruct (_ && _); [|done]. intros [= <-]. apply kn_arr in Hc. apply kn_arr.
      unfold resize. rewrite resize_spec. apply Forall_app. split.
      * by apply Forall_take.
      * by apply Forall_replicate.
    + destruct (array_index k) as [i|]; [|done]. intros [= <-]. unfold array_store.
      destruct (_ <? _)%nat; [by apply kn_insert|].
      apply kn_arr in Hc. apply kn_arr. rewrite !Forall_app. repeat split; [done| |by constructor].
      by apply Forall_replicate.
Qed.

(** Below a container that has just been created nothing is found. *)
Lemma resolve_created created path x :
  created = VArr [] ∨ created = VObj [] → path ≠ [] →
  resolve created path = Some x → not_container x = true.
Proof.
  intros Hc Hp. destruct path as [|p path]; [done|]. simpl.
  destruct (not_container created); [done|].
  destruct (to_property_key _) as [k| |]; try done.
  destruct Hc as [-> | ->]; simpl.
  - destruct (String.eqb k "length").
    + simpl. destruct path; simpl; [by intros [= <-]|done].
    + by destruct (array_index k).
  - by destruct (inherited k).
Qed.

Lemma final_ok_created next path key v :
  hd VUndef (path ++ [key; v]) = next →
  key_respects_rule key
  ∨ final_key_at_list (if Number_isInteger next then VArr [] else VObj []) path key
  ↔ key_respects_rule key ∨ Number_isInteger key = true.
Proof.
  intros Hhd. split; (intros [?|H]; [by left|right]).
  - by destruct H.
  - split; [done|]. intros props Hres. destruct path as [|p path].
    + simpl in Hhd. subst next. rewrite H in Hres. done.
    + apply resolve_created in Hres; [done| |done].
      destruct (Number_isInteger next); auto.
Qed.

Lemma descend_kn path : ∀ c key v r,
  Forall key_respects_rule path → kn v → kn c →
  key_respects_rule key ∨ final_key_at_list c path key →
  descend c (path ++ [key; v]) = Ret (Some r) → kn r.
Proof.
  induction path as [|a path IH]; intros c key v r Hpath Hv Hc Hkey.
  - simpl app. rewrite descend_final. destruct (not_container c) eqn:Hcont; [done|].
    destruct (apply_final _ _ _) as [o| |] eqn:Hf; simpl; try done.
    intros [= <-]. destruct Hkey as [Hkey|[_ Hkey]].
    + exact (apply_final_kn c key v o Hcont Hc Hkey Hv Hf).
    + apply not_container_false in Hcont as [[elems ->]|[props ->]].
      * exact (apply_final_kn_list elems _ v o Hc Hv Hf).
      * by destruct (Hkey props).
  - inversion Hpath as [|? ? Ha Hpath']; subst.
    assert (∃ next rest, path ++ [key; v] = next :: rest ∧ rest ≠ []
                         ∧ hd VUndef (path ++ [key; v]) = next)
      as (next & rest & Heq & Hne & Hhd).
    { destruct path as [|p' path']; simpl; [by eauto|].
      exists p', (path' ++ [key; v]). split; [done|]. split; [by destruct path'|done]. }
    change ((a :: path) ++ [key; v]) with (a :: (path ++ [key; v])).
    rewrite Heq, descend_step by done. cbn zeta.
    destruct (not_container c) eqn:Hcont; [done|].
    destruct (to_property_key _) as [k| |] eqn:Hk; cbn -[descend]; try done.
    destruct (get_own c k) as [child| |] eqn:Hg; cbn -[descend]; try done.
    destruct (is_undefined child || is_null child) eqn:Hn.
    + set (created := if Number_isInteger next then VArr [] else VObj []).
      assert (kn created) as Hcr by (subst created; by destruct (Number_isInteger next)).
      assert (is_null created || is_undefined created = false) as Hnn
        by (subst created; by destruct (Number_isInteger next)).
      destruct (set_own c k created) as [o| |] eqn:Hs; cbn -[descend]; try done.
      rewrite Hnn. rewrite <- Heq.
      destruct (descend _ _) as [[r'|]| |] eqn:Hd; cbn -[descend]; try done.
      intros [= <-]. apply put_back_kn.
      * apply (set_own_kn c k created o); [done | by apply (normalize_key_ok a) | done..].
      * apply (IH created key v); [done..| |done].
        apply (proj2 (final_ok_created next path key v Hhd)).
        destruct Hkey as [?|[? _]]; auto.
    + cbn -[descend]. rewrite orb_comm, Hn. rewrite <- Heq.
      destruct (descend _ _) as [[r'|]| |] eqn:Hd; cbn -[descend]; try done.
      intros [= <-]. apply put_back_kn; [done|].
      apply (IH child key v); [done..|by apply (get_own_kn c k)| |done].
      destruct Hkey as [?|[Hint Hkey]]; [by left|right]. split; [done|].
      intros props Hres. apply (Hkey props). simpl.
      by rewrite Hcont, Hk, Hg, Hn.
Qed.

Lemma json_value_kn v : kn v → kn (json_value v).
Proof.
  induction v as [| |b|q|s|elems IH|props IH] using value_induction; try done.
  - intros H%kn_arr. simpl json_value. apply kn_arr.
    induction elems as [|x l IHl]; [done|].
    inversion IH; inversion H; subst. simpl. constructor; [|by apply IHl].
    destruct x; auto.
  - intros H%kn_obj. simpl json_value. apply kn_obj.
    induction props as [|[k x] l IHl]; [done|].
    inversion IH; inversion H as [|? ? [? ?] ?]; subst. simpl in *.
    destruct x; try (by apply IHl); constructor; auto.
Qed.

Lemma is_json_json_value v : v ≠ VUndef → is_json (json_value v) = true.
Proof.
  induction v as [| |b|q|s|elems IH|props IH] using value_induction; try done; intros _.
  - simpl. induction elems as [|x l IHl]; [done|].
    inversion IH as [|? ? IHx IHl']; subst. simpl. rewrite (IHl IHl'), andb_true_r.
    destruct x; try done; by apply IHx.
  - simpl. induction props as [|[k x] l IHl]; [done|].
    inversion IH as [|? ? IHx IHl']; subst. simpl in IHx.
    destruct x; try (by apply IHl); simpl; rewrite (IHl IHl'), andb_true_r;
      try done; by apply IHx.
Qed.

Lemma json_value_idem v : json_value (json_value v) = json_value v.
Proof.
  destruct v; try done; by apply json_value_id, is_json_json_value.
Qed.

Lemma split_last_two {A} (l : list A) :
  (2 ≤ length l)%nat → ∃ path key v, l = path ++ [key; v].
Proof.
  intros Hl. destruct (exists_last (l := l)) as (l1 & v & ->).
  { intros ->. simpl in Hl. lia. }
  rewrite length_app in Hl. simpl in Hl.
  destruct (exists_last (l := l1)) as (path & key & ->).
  { intros ->. simpl in Hl. lia. }
  exists path, key, v. by rewrite <- app_assoc.
Qed.

Lemma applyStateUpdate_kn D ops D' :
  kn D → well_keyed D (Some (VArr ops)) →
  applyStateUpdate D (VArr ops) = Ret D' → kn D'.
Proof.
  intros HD Hops. unfold applyStateUpdate.
  destruct (Nat.ltb_spec (length ops) 2) as [|Hlen]; [by intros [= <-]|].
  cbv zeta. simpl in Hops. unfold working_copy in Hops.
  set (cs := if _ : bool then VObj [] else D) in *.
  assert (kn cs) as Hcs by (subst cs; by destruct (_ || _)).
  destruct (init_state D) as [props Hp]. fold cs in Hp. rewrite Hp in *.
  cbn [json_clone mbind res_bind].
  destruct (descend _ ops) as [[r|]| |] eqn:Hd; cbn [mbind res_bind]; try done;
    intros [= <-]; [|done].
  destruct (split_last_two ops Hlen) as (path & key & v & ->).
  destruct (Hops path key v eq_refl) as (Hpath & Hv & Hkey).
  apply (descend_kn path (json_value (VObj props)) key v); [done..| |done|done].
  by apply json_value_kn.
Qed.

Lemma working_copy_clone cur :
  working_copy
    (json_value (if negb (truthy cur) || negb (typeof_object cur) then VObj [] else cur))
  = working_copy cur.
Proof.
  unfold working_copy.
  destruct cur as [| |b|q|s|elems|props];
    cbn [truthy typeof_object Array_isArray negb orb]; rewrite ?orb_true_r; try done.
  change (json_value (VObj props)) with (VObj (match json_value (VObj props) with
                                               | VObj p => p | _ => [] end)) at 1.
  cbn [truthy typeof_object Array_isArray negb orb].
  apply (json_value_idem (VObj props)).
Qed.

Lemma messageHandler_kn key frame md md' :
  (∀ doc, md !! key = Some doc → kn doc) →
  well_keyed (default VUndef (md !! key)) frame →
  Registry.messageHandler key frame md = Ret md' →
  ∀ doc, md' !! key = Some doc → kn doc.
Proof.
  intros Hmd Hf. unfold Registry.messageHandler.
  destruct frame as [data|]; [|by intros [= <-]].
  cbv zeta. set (cur := default VUndef (md !! key)) in *.
  set (cs := if _ : bool then VObj [] else cur).
  assert (kn cs ∧ cs ≠ VUndef) as [Hcs Hne].
  { subst cs cur. destruct (md !! key) as [d|] eqn:E; [|done].
    specialize (Hmd d eq_refl). simpl.
    destruct d; cbn [truthy typeof_object negb]; rewrite ?orb_true_r; done. }
  destruct data as [| |b|q|s|ops|props]; cbn [Array_isArray truthy typeof_object andb];
    try (rewrite ?andb_false_r; by intros [= <-]).
  - assert (JS.json_clone cs = Ret (json_value cs)) as -> by (by destruct cs).
    cbn [mbind res_bind].
    destruct (applyStateUpdate _ _) as [u| |] eqn:Hu; cbn [mbind res_bind];
      try (by intros [= <-]).
    intros [= <-] doc. destruct (truthy u); [|by apply Hmd].
    rewrite lookup_insert_eq. intros [= <-].
    apply (applyStateUpdate_kn (json_value cs) ops); [by apply json_value_kn| |done].
    simpl in Hf |- *. intros path k v Heq. subst cs. rewrite working_copy_clone. by apply Hf.
  - intros [= <-] doc. rewrite lookup_insert_eq. by intros [= <-].
Qed.

(** C2, as the code has it.  The stored document of a connection key
    has only normalized keys after any sequence of frames in which no
    frame brings a raw hyphenated key of its own into the document it
    meets: full-state maps and update values are stored as they arrive,
    and of the keys of an update the patcher normalizes the strings
    only.  A final key that is an integer and is applied to a list, as
    the sentinels -1 and -2 of the appends are, makes no map key. *)
Theorem C2_normalized_keys_preserved key frames : ∀ md md',
  (∀ doc, md !! key = Some doc → kn doc) →
  well_keyed_run key frames md →
  fold_frames key frames md = Ret md' →
  ∀ doc, md' !! key = Some doc → kn doc.
Proof.
  induction frames as [|f frames IH]; intros md md' Hmd Hfs; simpl.
  - by intros [= <-].
  - destruct Hfs as [Hf Hfs].
    destruct (Registry.messageHandler key f md) as [md1| |] eqn:Hm;
      cbn [mbind res_bind]; try done.
    apply IH; [|by apply Hfs]. by eapply messageHandler_kn.
Qed.

Lemma C2_normalized_keys_preserved_witness :
  ∃ md, fold_frames "local:127.0.0.1:7396"
          [Some (VObj [("log"%string, VArr [])]);
           Some (VArr [VStr "log"; VInt (-1); VStr "line"]);
           Some (VArr [VStr "config"; VStr "on-idle"; VBool true])] ∅ = Ret md
        ∧ md !! "local:127.0.0.1:7396"%string
          = Some (VObj [("log"%string, VArr [VStr "line"]);
                        ("config"%string, VObj [("on_idle"%string, VBool true)])])
        ∧ keys_normalized
            (VObj [("log"%string, VArr [VStr "line"]);
                   ("config"%string, VObj [("on_idle"%string, VBool true)])]) = true.
Proof.
  eexists. split; [reflexivity|]. split; [reflexivity|].
  eapply (C2_normalized_keys_preserved "local:127.0.0.1:7396"
            [Some (VObj [("log"%string, VArr [])]);
             Some (VArr [VStr "log"; VInt (-1); VStr "line"]);
             Some (VArr [VStr "config"; VStr "on-idle"; VBool true])] ∅).
  - intros doc. rewrite lookup_empty. done.
  - split; [reflexivity|]. intros md1 [= <-].
    split.
    { intros path k v Heq.
      assert (path = [VStr "log"] ∧ k = VInt (-1) ∧ v = VStr "line") as (-> & -> & ->).
      { change [VStr "log"; VInt (-1); VStr "line"]
          with ([VStr "log"] ++ [VInt (-1); VStr "line"]) in Heq.
        apply app_inj_2 in Heq as [<- [= <- <-]]; done. }
      split; [by repeat constructor|]. split; [done|]. right. split; [done|].
      intros props. vm_compute. discriminate. }
    intros md2 [= <-]. split.
    { intros path k v Heq.
      assert (path = [VStr "config"] ∧ k = VStr "on-idle" ∧ v = VBool true) as (-> & -> & ->).
      { change [VStr "config"; VStr "on-idle"; VBool true]
          with ([VStr "config"] ++ [VStr "on-idle"; VBool true]) in Heq.
        apply app_inj_2 in Heq as [<- [= <- <-]]; done. }
      split; [by repeat constructor|]. split; [done|]. by left. }
    done.
  - reflexivity.
  - reflexivity.
Defined.

(** The claim as the specification words it fails: a full-state
    frame is stored as it arrives, raw hyphenated keys included. *)
Lemma C2_counterexample :
  ∃ md doc,
    fold_frames "local:127.0.0.1:7396"
      [Some (VObj [("work-unit"%string, VInt 1)])] ∅ = Ret md
    ∧ md !! "local:127.0.0.1:7396"%string = Some doc
    ∧ keys_normalized doc = false.
Proof.
  exists {[ "local:127.0.0.1:7396"%string := VObj [("work-unit"%string, VInt 1)] ]},
         (VObj [("work-unit"%string, VInt 1)]).
  repeat split; reflexivity.
Qed.

Lemma array_set_length_cases elems v :
  (∀ e, array_set_length elems v = Throw e →
        (e = TypeError ∧ converts v = false) ∨ (e = RangeError ∧ not_a_length v))
  ∧ (not_a_length v → array_set_length elems v = Throw RangeError)
  ∧ (∀ q, to_number v = Ret (Some q) →
          is_integer q && (0 <=? floor q) && (floor q <? 2 ^ 32) = true →
          array_set_length elems v = Ret (VArr (resize (Z.to_nat (floor q)) VUndef elems))).
Proof.
  unfold array_set_length, not_a_length. split; [|split].
  - intros e. destruct (to_number v) as [[q|]| |] eqn:Hn; cbn [mbind res_bind]; try done.
    + destruct (_ && _) eqn:Hv; [done|]. intros [= <-]. right. split; [done|]. by exists (Some q).
    + intros [= <-]. right. split; [done|]. by exists None.
    + intros [= <-]. left. by apply to_number_throw.
  - intros (n & -> & Hn). cbn [mbind res_bind]. destruct n as [q|]; [by rewrite Hn|done].
  - intros q -> Hq. cbn [mbind res_bind]. by rewrite Hq.
Qed.

Lemma set_own_throw c k x e :
  not_container c = false → set_own c k x = Throw e →
  (∃ elems, c = VArr elems) ∧ k = "length"%string
  ∧ ((e = TypeError ∧ converts x = false) ∨ (e = RangeError ∧ not_a_length x)).
Proof.
  intros [[elems ->]|[props ->]]%not_container_false; simpl.
  - destruct (String.eqb_spec k "length") as [->|_].
    + intros H. split; [by eauto|]. split; [done|].
      by apply (proj1 (array_set_length_cases elems x)).
    + by destruct (array_index k).
  - destruct (has_own k props); [done|]. by destruct (String.eqb k "__proto__").
Qed.

Lemma apply_final_throw c key v e :
  not_container c = false → apply_final c (normalizePropertyKey key) v = Throw e →
  raises_for c [key; v] e.
Proof.
  intros Hc. pose proof Hc as [[elems ->]|[props ->]]%not_container_false;
    unfold apply_final.
  - destruct (strict_eq_int _ (-1)); [done|].
    destruct (strict_eq_int _ (-2)); [by destruct v|].
    destruct (is_null v) eqn:Hnull.
    + destruct (to_number _) as [[q|]| |] eqn:Hn; cbn [mbind res_bind]; try done.
      { by destruct (_ && _). }
      intros [= <-]. apply to_number_throw in Hn as [-> Hn]. left. split; [done|].
      exists key. rewrite converts_normalize in Hn. split; [|done]. set_solver.
    + destruct (to_property_key _) as [k| |] eqn:Hk; cbn [mbind res_bind]; try done.
      * intros Hs. apply set_own_throw in Hs as (_ & -> & [[-> Hv]|[-> Hv]]); [| |done].
        -- left. split; [done|]. exists v. split; [set_solver|done].
        -- right. split; [done|]. by exists [], key, v, elems.
      * intros [= <-]. apply to_string_throw in Hk as [-> Hk]. left. split; [done|].
        exists key. rewrite converts_normalize in Hk. split; [|done]. set_solver.
  - destruct (to_property_key _) as [k| |] eqn:Hk; cbn [mbind res_bind]; try done.
    + destruct (is_null v); [done|].
      intros Hs. by apply set_own_throw in Hs as [[? ?] _].
    + intros [= <-]. apply to_string_throw in Hk as [-> Hk]. left. split; [done|].
      exists key. rewrite converts_normalize in Hk. split; [|done]. set_solver.
Qed.

Lemma integer_key_not_length key :
  Number_isInteger key = true →
  to_property_key (normalizePropertyKey key) ≠ Ret "length"%string.
Proof.
  intros (q & -> & _ & _)%Number_isInteger_normalize_num Hk.
  apply to_property_key_integer_inv in Hk. by destruct (pretty_Z_not_length (floor q)).
Qed.

(** Nothing is raised by an assignment to [length] below a container
    that has just been made. *)
Lemma raises_for_created next rest e :
  raises_for (created_for next) (next :: rest) e →
  e = TypeError ∧ ∃ x, x ∈ next :: rest ∧ converts x = false.
Proof.
  intros [H|[-> (path & key & v & elems & Heq & Hres & Hk & _)]]; [done|exfalso].
  destruct path as [|p path].
  - simpl in Heq. injection Heq as -> ->. simpl in Hres. injection Hres as Hc.
    unfold created_for in Hc. destruct (Number_isInteger key) eqn:Hint; [|done].
    by destruct (integer_key_not_length key).
  - apply resolve_created in Hres; [done| |done].
    unfold created_for. destruct (Number_isInteger next); auto.
Qed.

Lemma raises_for_step c a k child tail e :
  not_container c = false →
  to_property_key (normalizePropertyKey a) = Ret k → get_own c k = Ret child →
  is_undefined child || is_null child = false →
  raises_for child tail e → raises_for c (a :: tail) e.
Proof.
  intros Hc Hk Hg Hn [[-> (x & Hx & Hcx)]|[-> (path & key & v & elems & -> & Hres & Hr)]].
  - left. split; [done|]. exists x. split; [set_solver|done].
  - right. split; [done|]. exists (a :: path), key, v, elems. split; [done|].
    split; [|done]. simpl. by rewrite Hc, Hk, Hg, Hn.
Qed.

Lemma descend_throw tail : ∀ c e, descend c tail = Throw e → raises_for c tail e.
Proof.
  induction tail as [|a tail IH]; intros c e; [done|].
  destruct tail as [|b tail]; [done|].
  destruct tail as [|d tail].
  - rewrite descend_final. destruct (not_container c) eqn:Hc; [done|].
    destruct (apply_final _ _ _) as [o| |] eqn:Hf; simpl; try done.
    intros [= <-]. by eapply apply_final_throw.
  - rewrite descend_step by done. cbn zeta.
    destruct (not_container c) eqn:Hc; [done|].
    destruct (to_property_key _) as [k| |] eqn:Hk; cbn -[descend]; try done.
    2:{ intros [= <-]. apply to_string_throw in Hk as [-> Hk]. left. split; [done|].
        exists a. rewrite converts_normalize in Hk. split; [set_solver|done]. }
    destruct (get_own c k) as [child| |] eqn:Hg; cbn -[descend]; try done.
    2:{ intros _. by destruct (get_own_no_throw c k e0 Hc). }
    destruct (is_undefined child || is_null child) eqn:Hn.
    + destruct (set_own c k _) as [o| |] eqn:Hs; cbn -[descend]; try done.
      * fold (created_for b).
        assert (is_null (created_for b) || is_undefined (created_for b) = false) as ->
          by (unfold created_for; by destruct (Number_isInteger b)).
        destruct (descend _ (b :: d :: tail)) as [[r|]| |] eqn:Hd; cbn -[descend]; try done.
        intros [= <-]. apply IH in Hd. apply raises_for_created in Hd as [-> (x & Hx & Hcx)].
        left. split; [done|]. exists x. split; [by right|done].
      * intros [= <-]. apply set_own_throw in Hs as ([elems ->] & -> & _); [|done].
        simpl in Hg. injection Hg as <-. done.
    + cbn -[descend]. rewrite orb_comm, Hn.
      destruct (descend _ (b :: d :: tail)) as [[r|]| |] eqn:Hd; cbn -[descend]; try done.
      intros [= <-]. apply (raises_for_step c a k child); try done. by eapply IH.
Qed.

Lemma applyStateUpdate_throw D op e :
  applyStateUpdate D op = Throw e →
  ∃ ops, op = VArr ops ∧ raises_for (working_copy D) ops e.
Proof.
  unfold applyStateUpdate. destruct op as [| | | | |ops|]; try done.
  destruct (length ops <? 2)%nat; [done|]. intros H. exists ops. split; [done|].
  cbv zeta in H. unfold working_copy. destruct (init_state D) as [props Hcs].
  rewrite Hcs in H |- *. cbn [json_clone mbind res_bind] in H.
  destruct (descend _ ops) as [r| |] eqn:Hd; cbn [mbind res_bind] in H; try done.
  injection H as <-. by eapply descend_throw.
Qed.

Lemma strict_eq_int_normalize key z :
  strict_eq_int (normalizePropertyKey key) z = strict_eq_int key z.
Proof. destruct key; try done. simpl. by destruct (_ && _). Qed.

Lemma final_at_map props path entries key k v :
  is_json (VObj props) = true →
  resolve (VObj props) path = Some (VObj entries) →
  to_property_key (normalizePropertyKey key) = Ret k →
  has_own k entries = true ∨ k ≠ "__proto__"%string ∨ is_null v = true →
  ∃ R, applyStateUpdate (VObj props) (VArr (path ++ [key; v])) = Ret R.
Proof.
  intros Hj Hres Hk Hok. rewrite (apply_path _ _ _ _ _ Hj Hres) by done.
  unfold apply_final. rewrite Hk. cbn [mbind res_bind].
  destruct (is_null v) eqn:Hnull; [simpl; by eauto|].
  simpl. destruct (has_own k entries); [simpl; by eauto|].
  destruct (String.eqb_spec k "__proto__") as [->|]; [|simpl; by eauto].
  by destruct Hok as [?|[?|?]].
Qed.

Lemma final_at_list props path elems key v :
  is_json (VObj props) = true →
  resolve (VObj props) path = Some (VArr elems) →
  strict_eq_int key (-1) = true ∨ strict_eq_int key (-2) = true
  ∨ (is_null v = true ∧ ∃ n, to_number (normalizePropertyKey key) = Ret n)
  ∨ (is_null v = false
     ∧ ∃ k i, to_property_key (normalizePropertyKey key) = Ret k ∧ array_index k = Some i) →
  ∃ R, applyStateUpdate (VObj props) (VArr (path ++ [key; v])) = Ret R.
Proof.
  intros Hj Hres Hok. rewrite (apply_path _ _ _ _ _ Hj Hres) by done.
  unfold apply_final. rewrite !strict_eq_int_normalize.
  destruct (strict_eq_int key (-1)) eqn:E1; [simpl; by eauto|].
  destruct (strict_eq_int key (-2)) eqn:E2; [destruct v; simpl; by eauto|].
  destruct Hok as [?|[?|[[Hnull (n & Hn)]|[Hnull (k & i & Hk & Hi)]]]]; try done.
  - rewrite Hnull, Hn. cbn [mbind res_bind]. destruct n as [q|]; [|simpl; by eauto].
    destruct (_ && _); simpl; by eauto.
  - rewrite Hnull, Hk. cbn [mbind res_bind set_own].
    destruct (String.eqb_spec k "length") as [->|_]; [done|]. rewrite Hi. simpl. by eauto.
Qed.

Lemma length_at_list props path elems key v :
  is_json (VObj props) = true →
  resolve (VObj props) path = Some (VArr elems) →
  to_property_key (normalizePropertyKey key) = Ret "length"%string →
  is_null v = false →
  (not_a_length v →
   applyStateUpdate (VObj props) (VArr (path ++ [key; v])) = Throw RangeError)
  ∧ (∀ q, to_number v = Ret (Some q) →
          is_integer q && (0 <=? floor q) && (floor q <? 2 ^ 32) = true →
          applyStateUpdate (VObj props) (VArr (path ++ [key; v]))
          = Ret (plug (VObj props) path
                   (VArr (resize (Z.to_nat (floor q)) VUndef elems)))).
Proof.
  intros Hj Hres Hk Hnull.
  assert (strict_eq_int key (-1) = false ∧ strict_eq_int key (-2) = false) as [E1 E2].
  { destruct key as [| |b|q|s|es|ps]; try done.
    assert (Number_isInteger (VNum q) = false) as Hni.
    { destruct (Number_isInteger (VNum q)) eqn:E; [|done].
      by destruct (integer_key_not_length _ E). }
    simpl in *. unfold num_eqb, is_integer in *. split.
    - destruct (Z.eqb_spec (Qnum q) (-1 * Z.pos (Qden q))) as [E|]; [|done].
      rewrite E, Z.mod_mul in Hni; done.
    - destruct (Z.eqb_spec (Qnum q) (-2 * Z.pos (Qden q))) as [E|]; [|done].
      rewrite E, Z.mod_mul in Hni; done. }
  rewrite (apply_path _ _ _ _ _ Hj Hres) by done.
  unfold apply_final. rewrite !strict_eq_int_normalize, E1, E2, Hnull, Hk.
  cbn [mbind res_bind set_own String.eqb Ascii.eqb Bool.eqb].
  destruct (array_set_length_cases elems v) as (_ & Hbad & Hgood). split.
  - intros Hv. by rewrite (Hbad Hv).
  - intros q Hq Hvalid. by rewrite (Hgood q Hq Hvalid).
Qed.

Lemma unconvertible_key props path target entries tail :
  is_json (VObj props) = true →
  resolve (VObj props) path = Some target → not_container target = false →
  has_own "toString" entries = true → tail ≠ [] →
  applyStateUpdate (VObj props) (VArr (path ++ VObj entries :: tail)) = Throw TypeError.
Proof.
  intros Hj Hres Hc Hts Htail.
  assert (to_property_key (VObj entries) = Throw TypeError) as Hk
    by (unfold to_property_key; simpl; by rewrite Hts).
  destruct tail as [|v tail]; [done|].
  rewrite apply_unfold; [|done|rewrite length_app; simpl; lia].
  rewrite (descend_resolve _ _ _ _ Hres) by (simpl; lia).
  destruct tail as [|x tail].
  - rewrite descend_final, Hc. cbn [normalizePropertyKey].
    apply not_container_false in Hc as [[elems ->]|[ps ->]]; unfold apply_final.
    + cbn [strict_eq_int]. destruct (is_null v).
      * unfold to_number. fold (to_property_key (VObj entries)). by rewrite Hk.
      * by rewrite Hk.
    + by rewrite Hk.
  - rewrite descend_step by done. cbn zeta. rewrite Hc. cbn [normalizePropertyKey].
    by rewrite Hk.
Qed.




(** *** The input document is not mutated *)
Section StoreFrame.
Import Store.

Lemma alloc_arr elems h :
  alloc (VArr elems) h =
    let '(rs, h) := alloc_list elems h in
    let '(l, h) := alloc_cell (CArr rs) h in (RRef l, h).
Proof. reflexivity. Qed.

Lemma alloc_obj props h :
  alloc (VObj props) h =
    let '(rs, h) := alloc_props props h in
    let '(l, h) := alloc_cell (CObj rs) h in (RRef l, h).
Proof. reflexivity. Qed.

Lemma extends_refl h : extends h h.
Proof. split; [done|]. intros l c H1 H2. congruence. Qed.

Lemma extends_insert h0 h l c :
  extends h0 h → h0 !! l = None → Forall (outside h0) (slots c) →
  extends h0 (<[l := c]> h).
Proof.
  intros [Hold Hnew] Hl Hc. split.
  - intros l' c' H'. rewrite lookup_insert_ne; [by apply Hold|]. congruence.
  - intros l' c'. rewrite lookup_insert. case_decide as E.
    + by intros [= <-] _.
    + by apply Hnew.
Qed.

Lemma extends_fresh h0 h : extends h0 h → h0 !! fresh (dom h) = None.
Proof.
  intros [Hold _]. destruct (h0 !! fresh (dom h)) as [c|] eqn:E; [|done].
  apply Hold in E. assert (fresh (dom h) ∈ dom h) as Hin by (apply elem_of_dom; eauto).
  by apply is_fresh in Hin.
Qed.

Lemma alloc_cell_extends h0 h c l h' :
  extends h0 h → Forall (outside h0) (slots c) → alloc_cell c h = (l, h') →
  extends h0 h' ∧ h0 !! l = None.
Proof.
  intros Hext Hc [= <- <-]. pose proof (extends_fresh _ _ Hext).
  split; [by apply extends_insert|done].
Qed.

Lemma alloc_extends h0 t : ∀ h r h',
  extends h0 h → alloc t h = (r, h') → extends h0 h' ∧ outside h0 r.
Proof.
  induction t as [| |b|q|s|elems IH|props IH] using value_induction;
    intros h r h' Hext; try (by intros [= <- <-]).
  - rewrite alloc_arr.
    assert (∀ h rs h1, extends h0 h → alloc_list elems h = (rs, h1) →
              extends h0 h1 ∧ Forall (outside h0) rs) as Hlist.
    { clear h r h' Hext. induction elems as [|x l IHl]; intros h rs h1 Hext; simpl.
      - by intros [= <- <-].
      - inversion IH as [|? ? IHx IHl']; subst.
        destruct (alloc x h) as [r1 h2] eqn:E1.
        destruct (alloc_list l h2) as [rs2 h3] eqn:E2. intros [= <- <-].
        destruct (IHx _ _ _ Hext E1) as [Hext2 Hr1].
        destruct (IHl IHl' _ _ _ Hext2 E2) as [Hext3 Hrs2]. by split; [|constructor]. }
    destruct (alloc_list elems h) as [rs h1] eqn:E.
    destruct (Hlist _ _ _ Hext E) as [Hext1 Hrs].
    destruct (alloc_cell (CArr rs) h1) as [l h2] eqn:E2. intros [= <- <-].
    by apply (alloc_cell_extends h0 h1 (CArr rs)).
  - rewrite alloc_obj.
    assert (∀ h rs h1, extends h0 h → alloc_props props h = (rs, h1) →
              extends h0 h1 ∧ Forall (outside h0) rs.*2) as Hlist.
    { clear h r h' Hext. induction props as [|[k x] l IHl]; intros h rs h1 Hext; simpl.
      - by intros [= <- <-].
      - inversion IH as [|? ? IHx IHl']; subst. simpl in IHx.
        destruct (alloc x h) as [r1 h2] eqn:E1.
        destruct (alloc_props l h2) as [rs2 h3] eqn:E2. intros [= <- <-].
        destruct (IHx _ _ _ Hext E1) as [Hext2 Hr1].
        destruct (IHl IHl' _ _ _ Hext2 E2) as [Hext3 Hrs2]. by split; [|constructor]. }
    destruct (alloc_props props h) as [rs h1] eqn:E.
    destruct (Hlist _ _ _ Hext E) as [Hext1 Hrs].
    destruct (alloc_cell (CObj rs) h1) as [l h2] eqn:E2. intros [= <- <-].
    by apply (alloc_cell_extends h0 h1 (CObj rs)).
Qed.

Lemma lookup_prop_slot {V} k (props : list (string * V)) x :
  lookup_prop k props = Some x → x ∈ props.*2.
Proof.
  induction props as [|[k' y] l IH]; simpl; [done|].
  destruct (String.eqb k k'); [intros [= ->]; left | intros; right; auto].
Qed.

Lemma get_own_outside h0 c k child :
  Forall (outside h0) (slots c) → Store.get_own c k = Ret child → outside h0 child.
Proof.
  intros Hc. destruct c as [elems|props]; simpl in *.
  - destruct (String.eqb k "length"); [by intros [= <-]|].
    destruct (array_index k) as [i|]; [|done].
    destruct (elems !! i) as [y|] eqn:Ey; simpl; intros [= <-]; [|done].
    rewrite Forall_forall in Hc. apply Hc. by eapply list_elem_of_lookup_2.
  - destruct (lookup_prop k props) as [y|] eqn:Ey.
    + intros [= <-]. rewrite Forall_forall in Hc. apply Hc. by eapply lookup_prop_slot.
    + destruct (inherited k); [done|]. by intros [= <-].
Qed.

Lemma replace_prop_slots {V} (P : V → Prop) k x props :
  Forall P props.*2 → P x → Forall P (replace_prop k x props).*2.
Proof.
  intros Hp Hx. induction props as [|[k' y] l IH]; simpl; [done|].
  inversion Hp; subst. destruct (String.eqb k k'); constructor; auto.
Qed.

Lemma remove_prop_slots {V} (P : V → Prop) k props :
  Forall P props.*2 → Forall P (remove_prop k props).*2.
Proof.
  intros Hp. induction props as [|[k' y] l IH]; simpl; [done|].
  inversion Hp; subst. destruct (String.eqb k k'); [done|]. constructor; auto.
Qed.

Lemma set_own_outside h0 h c k v c' :
  Forall (outside h0) (slots c) → outside h0 v →
  Store.set_own h c k v = Ret c' → Forall (outside h0) (slots c').
Proof.
  intros Hc Hv. destruct c as [elems|props]; simpl in *.
  - destruct (String.eqb k "length").
    + unfold Store.array_set_length.
      destruct (Store.to_number h v) as [[q|]| |]; cbn [mbind res_bind]; try done.
      destruct (_ && _); [|done]. intros [= <-]. simpl. by apply Forall_resize.
    + destruct (array_index k) as [i|]; [|done]. intros [= <-]. simpl.
      unfold array_store. destruct (_ <? _)%nat; [by apply Forall_insert|].
      rewrite !Forall_app. repeat split; [done| |by constructor].
      by apply Forall_replicate.
  - destruct (has_own k props); [intros [= <-]; by apply replace_prop_slots|].
    destruct (String.eqb k "__proto__"); [done|]. intros [= <-]. simpl.
    rewrite fmap_app. apply Forall_app. split; [done|]. by constructor.
Qed.

Lemma container_Some h o l c :
  container h o = Some (l, c) → o = RRef l ∧ h !! l = Some c.
Proof.
  destruct o; try done. simpl. destruct (h !! l0) eqn:E; [|done].
  by intros [= <- <-].
Qed.

(** The final update writes one cell, and that cell is not one of [h0]. *)
Lemma apply_final_frame h0 h l c key v h' :
  extends h0 h → h0 !! l = None →
  Store.apply_final h l c key v = Ret h' →
  ∀ l0 c0, h0 !! l0 = Some c0 → h' !! l0 = Some c0.
Proof.
  intros [Hold _] Hl Hf l0 c0 H0.
  assert (∀ c', <[l := c']> h !! l0 = Some c0) as Hins.
  { intros c'. rewrite lookup_insert_ne; [by apply Hold|]. congruence. }
  revert Hf. unfold Store.apply_final. destruct c as [elems|props].
  - destruct (Store.strict_eq_int key (-1)); [by intros [= <-]|].
    destruct (Store.strict_eq_int key (-2)).
    { destruct (container h v) as [[? [|]]|]; intros [= <-]; auto. }
    destruct (Store.is_null v).
    + destruct (Store.to_number h key) as [[q|]| |]; cbn [mbind res_bind]; try done.
      * destruct (_ && _); intros [= <-]; auto.
      * intros [= <-]; auto.
    + destruct (Store.to_property_key h key) as [k| |]; cbn [mbind res_bind]; try done.
      destruct (Store.set_own _ _ _ _) as [c'| |]; cbn [mbind res_bind]; try done.
      by intros [= <-].
  - destruct (Store.to_property_key h key) as [k| |]; cbn [mbind res_bind]; try done.
    destruct (Store.is_null v); [by intros [= <-]|].
    destruct (Store.set_own _ _ _ _) as [c'| |]; cbn [mbind res_bind]; try done.
    by intros [= <-].
Qed.

Lemma store_descend_step h cur key next rest :
  rest ≠ [] →
  Store.descend h cur (key :: next :: rest) =
    let pathKey := Store.normalizePropertyKey key in
    match container h cur with
    | None => Ret (h, false)
    | Some (l, c) =>
        k ← Store.to_property_key h pathKey;
        child ← Store.get_own c k;
        step ← (if Store.is_undefined child || Store.is_null child then
                  let '(n, h) :=
                    alloc_cell (if Store.Number_isInteger next
                                then CArr [] else CObj []) h in
                  c' ← Store.set_own h c k (RRef n);
                  Ret (<[l := c']> h, RRef n)
                else Ret (h, child));
        let '(h, child) := step in
        if Store.is_null child || Store.is_undefined child then Ret (h, false)
        else Store.descend h child (next :: rest)
    end.
Proof. destruct rest; [done | reflexivity]. Qed.

(** The traversal stays inside the cells made since [h0]. *)
Lemma descend_frame h0 rest : ∀ h cur h' b,
  extends h0 h → outside h0 cur →
  Store.descend h cur rest = Ret (h', b) →
  ∀ l0 c0, h0 !! l0 = Some c0 → h' !! l0 = Some c0.
Proof.
  induction rest as [|a rest IH]; intros h cur h' b Hext Hcur.
  { intros [= <- <-]. apply Hext. }
  destruct rest as [|b' rest]; [intros [= <- <-]; apply Hext|].
  destruct rest as [|d rest].
  - simpl. destruct (container h cur) as [[l c]|] eqn:Hcont; [|intros [= <- <-]; apply Hext].
    apply container_Some in Hcont as [-> Hl].
    destruct (Store.apply_final _ _ _ _ _) as [h1| |] eqn:Hf; cbn [mbind res_bind]; try done.
    intros [= <- <-]. by eapply apply_final_frame.
  - rewrite store_descend_step by done. cbn zeta.
    destruct (container h cur) as [[l c]|] eqn:Hcont; [|intros [= <- <-]; apply Hext].
    apply container_Some in Hcont as [-> Hl]. simpl in Hcur.
    pose proof (proj2 Hext _ _ Hl Hcur) as Hslots.
    destruct (Store.to_property_key _ _) as [k| |]; cbn -[Store.descend alloc_cell]; try done.
    destruct (Store.get_own c k) as [child| |] eqn:Hg; cbn -[Store.descend alloc_cell]; try done.
    destruct (Store.is_undefined child || Store.is_null child) eqn:Hn.
    + destruct (alloc_cell _ h) as [n h1] eqn:Ha.
      apply (alloc_cell_extends h0) in Ha as [Hext1 Hn0]; [|done|by destruct (Store.Number_isInteger _)].
      destruct (Store.set_own h1 c k (RRef n)) as [c'| |] eqn:Hs;
        cbn -[Store.descend]; try done.
      apply (IH _ (RRef n)); [|done].
      apply extends_insert; [done..|]. by apply (set_own_outside h0 h1 c k (RRef n)).
    + cbn -[Store.descend]. rewrite orb_comm, Hn.
      apply IH; [done|]. by apply (get_own_outside h0 c k).
Qed.

Lemma read_mono h h' fuel : ∀ v t,
  (∀ l c, h !! l = Some c → h' !! l = Some c) →
  read fuel h v = Some t → read fuel h' v = Some t.
Proof.
  induction fuel as [|fuel IH]; intros v t Hsub; destruct v; try done.
  simpl. destruct (h !! l) as [c|] eqn:Hl; [|done]. rewrite (Hsub _ _ Hl).
  assert (∀ v, read fuel h v ≫= (λ _, Some ()) = Some () → read fuel h' v = read fuel h v) as Hsame.
  { intros v. destruct (read fuel h v) eqn:E; [|done]. intros _. by apply IH. }
  destruct c as [elems|props].
  - destruct (mapM (read fuel h) elems) as [ts|] eqn:Hm; [|done]. intros [= <-].
    assert (mapM (read fuel h') elems = Some ts) as ->; [|done].
    apply mapM_Some in Hm. apply mapM_Some.
    eapply Forall2_impl; [exact Hm|]. intros. by apply IH.
  - destruct (mapM _ props) as [ts|] eqn:Hm; [|done]. intros [= <-].
    match goal with |- VObj <$> ?m = _ => assert (m = Some ts) as ->; [|done] end.
    apply mapM_Some in Hm. apply mapM_Some.
    eapply Forall2_impl; [exact Hm|]. intros [k v] [k' t'] Hkv. simpl in *.
    destruct (read fuel h v) as [t0|] eqn:E; [|done]. by rewrite (IH _ _ Hsub E).
Qed.

Lemma tree_of_object h l props t :
  h !! l = Some (CObj props) → tree_of h (RRef l) = Some t → ∃ ps, t = VObj ps.
Proof.
  unfold tree_of. simpl. intros ->. destruct (mapM _ props); [|done].
  intros [= <-]. eauto.
Qed.

Lemma alloc_object ps h r h' : alloc (VObj ps) h = (r, h') → ∃ l, r = RRef l.
Proof.
  rewrite alloc_obj. destruct (alloc_props ps h) as [rs h1].
  destruct (alloc_cell _ h1) as [l h2]. intros [= <- <-]. eauto.
Qed.

Lemma init_step h D cs h1 :
  (if needs_init h D
   then let '(l, h) := alloc_cell (CObj []) h in (RRef l, h)
   else (D, h)) = (cs, h1) →
  extends h h1
  ∧ ∃ lc props, cs = RRef lc ∧ h1 !! lc = Some (CObj props)
                ∧ (cs = D ∨ h !! lc = None).
Proof.
  unfold needs_init. destruct (container h D) as [[ld [es|ps]]|] eqn:HD.
  2:{ apply container_Some in HD as [-> HD]. intros [= <- <-].
      split; [apply extends_refl|]. exists ld, ps. auto. }
  all: simpl; intros [= <- <-].
  all: pose proof (extends_fresh h h (extends_refl h)) as Hfr.
  all: split; [by apply extends_insert; [apply extends_refl|..]|].
  all: exists (fresh (dom h)), []; by rewrite lookup_insert_eq; auto.
Qed.

(** Exceptions are raised before anything is written. *)
Lemma lift_throw {A} h (r : res A) e h' : lift h r = Throw (e, h') → h' = h.
Proof. destruct r; simpl; try done. by intros [= _ <-]. Qed.

Lemma to_property_key_raise h key e h' :
  Store.to_property_key h key = Throw (e, h') → h' = h.
Proof.
  unfold Store.to_property_key, tree. destruct (tree_of h key); [|done].
  cbn [mbind res_bind]. apply lift_throw.
Qed.

Lemma to_number_raise h v e h' : Store.to_number h v = Throw (e, h') → h' = h.
Proof.
  unfold Store.to_number, tree. destruct (tree_of h v); [|done].
  cbn [mbind res_bind]. apply lift_throw.
Qed.

Lemma set_own_raise h c k v e h' : Store.set_own h c k v = Throw (e, h') → h' = h.
Proof.
  destruct c as [elems|props]; simpl.
  - destruct (String.eqb k "length"); [|by destruct (array_index k)].
    unfold Store.array_set_length.
    destruct (Store.to_number h v) as [[q|]|[e0 h0]|] eqn:Hn; cbn [mbind res_bind]; try done.
    + destruct (_ && _); [done|]. by intros [= _ <-].
    + by intros [= _ <-].
    + intros [= -> ->]. by eapply to_number_raise.
  - destruct (has_own k props); [done|]. by destruct (String.eqb k "__proto__").
Qed.

Lemma apply_final_raise h l c key v e h' :
  Store.apply_final h l c key v = Throw (e, h') → h' = h.
Proof.
  unfold Store.apply_final. destruct c as [elems|props].
  - destruct (Store.strict_eq_int key (-1)); [done|].
    destruct (Store.strict_eq_int key (-2)).
    { by destruct (container h v) as [[? [|]]|]. }
    destruct (Store.is_null v).
    + destruct (Store.to_number h key) as [[q|]|[e0 h0]|] eqn:Hn; cbn [mbind res_bind];
        try done.
      * by destruct (_ && _).
      * intros [= -> ->]. by eapply to_number_raise.
    + destruct (Store.to_property_key h key) as [k|[e0 h0]|] eqn:Hk; cbn [mbind res_bind];
        try done.
      * destruct (Store.set_own _ _ _ _) as [c'|[e1 h1]|] eqn:Hs; cbn [mbind res_bind];
          try done.
        intros [= -> ->]. by eapply set_own_raise.
      * intros [= -> ->]. by eapply to_property_key_raise.
  - destruct (Store.to_property_key h key) as [k|[e0 h0]|] eqn:Hk; cbn [mbind res_bind];
      try done.
    + destruct (Store.is_null v); [done|].
      destruct (Store.set_own _ _ _ _) as [c'|[e1 h1]|] eqn:Hs; cbn [mbind res_bind];
        try done.
      intros [= -> ->]. by eapply set_own_raise.
    + intros [= -> ->]. by eapply to_property_key_raise.
Qed.

(** The traversal stays inside the cells made since [h0] when it
    raises as well. *)
Lemma descend_frame_raise h0 rest : ∀ h cur e h',
  extends h0 h → outside h0 cur →
  Store.descend h cur rest = Throw (e, h') →
  ∀ l0 c0, h0 !! l0 = Some c0 → h' !! l0 = Some c0.
Proof.
  induction rest as [|a rest IH]; intros h cur e h' Hext Hcur; [done|].
  destruct rest as [|b' rest]; [done|].
  destruct rest as [|d rest].
  - simpl. destruct (container h cur) as [[l c]|] eqn:Hcont; [|done].
    destruct (Store.apply_final _ _ _ _ _) as [h1|[e1 h1]|] eqn:Hf; cbn [mbind res_bind];
      try done.
    intros [= -> ->]. apply apply_final_raise in Hf as ->. apply Hext.
  - rewrite store_descend_step by done. cbn zeta.
    destruct (container h cur) as [[l c]|] eqn:Hcont; [|done].
    apply container_Some in Hcont as [-> Hl]. simpl in Hcur.
    pose proof (proj2 Hext _ _ Hl Hcur) as Hslots.
    destruct (Store.to_property_key _ _) as [k|[e1 h1]|] eqn:Hk;
      cbn -[Store.descend alloc_cell]; try done.
    2:{ intros [= -> ->]. apply to_property_key_raise in Hk as ->. apply Hext. }
    destruct (Store.get_own c k) as [child|[e1 h1]|] eqn:Hg;
      cbn -[Store.descend alloc_cell]; try done.
    2:{ by destruct c as [es|ps]; simpl in Hg;
          [destruct (String.eqb k "length"); [|destruct (array_index k)]
          |destruct (lookup_prop k ps); [|destruct (inherited k)]]. }
    destruct (Store.is_undefined child || Store.is_null child) eqn:Hn.
    + destruct (alloc_cell _ h) as [n h1] eqn:Ha.
      apply (alloc_cell_extends h0) in Ha as [Hext1 Hn0];
        [|done|by destruct (Store.Number_isInteger _)].
      destruct (Store.set_own h1 c k (RRef n)) as [c'|[e1 h2]|] eqn:Hs;
        cbn -[Store.descend]; try done.
      * apply (IH _ (RRef n)); [|done].
        apply extends_insert; [done..|]. by apply (set_own_outside h0 h1 c k (RRef n)).
      * intros [= -> ->]. apply set_own_raise in Hs as ->. apply Hext1.
    + cbn -[Store.descend]. rewrite orb_comm, Hn.
      apply IH; [done|]. by apply (get_own_outside h0 c k).
Qed.

(** What a call of [applyStateUpdate] leaves of the store it is given:
    every cell, whether the call returns or raises. *)
Lemma applyStateUpdate_frame h D op :
  (∀ r h', Store.applyStateUpdate h D op = Ret (r, h') →
     (∀ l c, h !! l = Some c → h' !! l = Some c)
     ∧ (r = D ∨ ∃ l, r = RRef l ∧ h !! l = None))
  ∧ (∀ e h', Store.applyStateUpdate h D op = Throw (e, h') →
       ∀ l c, h !! l = Some c → h' !! l = Some c).
Proof.
  unfold Store.applyStateUpdate.
  destruct (container h op) as [[lo [ops|ps]]|] eqn:Hop;
    try (split; [intros r h' [= <- <-]; by auto|done]).
  destruct (Nat.ltb_spec (length ops) 2) as [Hlt|Hge];
    [split; [intros r h' [= <- <-]; by auto|done]|].
  destruct (if needs_init h D then _ else _) as [cs h1] eqn:Hinit.
  apply init_step in Hinit as (Hext1 & lc & props & -> & Hlc & Hcs).
  unfold Store.json_clone.
  destruct (tree_of h1 (RRef lc)) as [t|] eqn:Ht.
  2:{ split; [done|]. intros e h' [= _ <-]. apply Hext1. }
  destruct (tree_of_object _ _ _ _ Hlc Ht) as [ps ->].
  cbn [JS.json_clone lift mbind res_bind].
  destruct (alloc (json_value (VObj ps)) h1) as [state h2] eqn:Hal.
  destruct (alloc_extends h _ _ _ _ Hext1 Hal) as [Hext2 Hst].
  apply alloc_object in Hal as [ls ->].
  destruct (Store.descend h2 (RRef ls) ops) as [[h3 b]|[e1 h3]|] eqn:Hd;
    cbn [mbind res_bind]; [|split; [done|]..|done].
  - split; [|done]. intros r h' [= <- <-]. split; [by eapply descend_frame|].
    destruct b; [right; eauto|]. destruct Hcs as [->|?]; [by left|right; eauto].
  - intros e h' [= -> ->]. by eapply descend_frame_raise.
Qed.

End StoreFrame.

(** *** The patcher on the store and the patcher on trees agree *)
Section Simulation.
Import Store Repr.
#[local] Set Warnings "-clear-no-such-hyp".

(** **** Reading a tree *)

Lemma read_ref fuel h l :
  read (S fuel) h (RRef l) =
    match h !! l with
    | Some (CArr elems) => VArr <$> mapM (read fuel h) elems
    | Some (CObj props) => VObj <$> mapM (λ kv, pair kv.1 <$> read fuel h kv.2) props
    | None => None
    end.
Proof. reflexivity. Qed.

Lemma read_fuel_mono h f : ∀ f' v t,
  read f h v = Some t → (f ≤ f')%nat → read f' h v = Some t.
Proof.
  induction f as [|f IH]; intros f' v t Hr Hle;
    destruct v as [| |b|q|s|l]; try (destruct f'; exact Hr); [done|].
  destruct f' as [|f']; [lia|]. rewrite read_ref in Hr. rewrite read_ref.
  destruct (h !! l) as [[elems|props]|]; [| |done].
  - destruct (mapM (read f h) elems) as [ts|] eqn:Hm; [|done].
    injection Hr as <-. apply mapM_Some in Hm.
    assert (mapM (read f' h) elems = Some ts) as ->; [|done].
    apply mapM_Some. eapply Forall2_impl; [exact Hm|]. intros. apply IH; [done|lia].
  - destruct (mapM _ props) as [ts|] eqn:Hm; [|done].
    injection Hr as <-. apply mapM_Some in Hm.
    match goal with |- VObj <$> ?m = _ => assert (m = Some ts) as ->; [|done] end.
    apply mapM_Some. eapply Forall2_impl; [exact Hm|]. intros [k v] [k' t'] Hkv. simpl in *.
    destruct (read f h v) as [t0|] eqn:E; [|done]. rewrite (IH f' _ _ E); [done|lia].
Qed.

Lemma read_det h f f' v t t' :
  read f h v = Some t → read f' h v = Some t' → t = t'.
Proof.
  intros H1 H2.
  apply (read_fuel_mono _ _ (f `max` f')) in H1; [|lia].
  apply (read_fuel_mono _ _ (f `max` f')) in H2; [|lia]. congruence.
Qed.

Lemma read_children h f l t :
  read (S f) h (RRef l) = Some t →
  (∃ es ts, h !! l = Some (CArr es) ∧ t = VArr ts
            ∧ Forall2 (λ e t, read f h e = Some t) es ts)
  ∨ (∃ ps kts, h !! l = Some (CObj ps) ∧ t = VObj kts
               ∧ Forall2 (λ p kt, kt.1 = p.1 ∧ read f h p.2 = Some kt.2) ps kts).
Proof.
  rewrite read_ref. destruct (h !! l) as [[es|ps]|]; [| |done].
  - destruct (mapM _ es) as [ts|] eqn:Hm; [|done]. intros [= <-].
    left. exists es, ts. by apply mapM_Some in Hm.
  - destruct (mapM _ ps) as [kts|] eqn:Hm; [|done]. intros [= <-].
    right. exists ps, kts. split; [done|]. split; [done|].
    apply mapM_Some in Hm. eapply Forall2_impl; [exact Hm|].
    intros [k v] [k' t']. simpl. destruct (read f h v); [|done]. by intros [= <- <-].
Qed.

Lemma read_arr h f l es ts :
  h !! l = Some (CArr es) → Forall2 (λ e t, read f h e = Some t) es ts →
  read (S f) h (RRef l) = Some (VArr ts).
Proof.
  intros Hl Hall. rewrite read_ref, Hl.
  assert (mapM (read f h) es = Some ts) as ->; [|done]. by apply mapM_Some.
Qed.

Lemma read_obj h f l ps kts :
  h !! l = Some (CObj ps) →
  Forall2 (λ p kt, kt.1 = p.1 ∧ read f h p.2 = Some kt.2) ps kts →
  read (S f) h (RRef l) = Some (VObj kts).
Proof.
  intros Hl Hall. rewrite read_ref, Hl.
  match goal with |- VObj <$> ?m = _ => assert (m = Some kts) as ->; [|done] end.
  apply mapM_Some. eapply Forall2_impl; [exact Hall|].
  intros [k v] [k' t'] [Hk Hv]. simpl in *. subst. by rewrite Hv.
Qed.

Lemma depth_elem x elems :
  x ∈ elems → (depth x ≤ foldr (λ x n, Nat.max (depth x) n) 0 elems)%nat.
Proof. induction 1; simpl; lia. Qed.

Lemma depth_prop (kx : string * value) props :
  kx ∈ props → (depth kx.2 ≤ foldr (λ kx n, Nat.max (depth kx.2) n) 0 props)%nat.
Proof. induction 1; simpl; lia. Qed.

Lemma nodes_elem x elems :
  x ∈ elems → (nodes x ≤ foldr (λ x n, (nodes x + n)%nat) 0 elems)%nat.
Proof. induction 1; simpl; lia. Qed.

Lemma nodes_prop (kx : string * value) props :
  kx ∈ props → (nodes kx.2 ≤ foldr (λ kx n, (nodes kx.2 + n)%nat) 0 props)%nat.
Proof. induction 1; simpl; lia. Qed.

(** Fuel equal to the depth of the tree is enough. *)
Lemma read_depth h f : ∀ v t, read f h v = Some t → read (depth t) h v = Some t.
Proof.
  induction f as [|f IH]; intros v t Hr;
    destruct v as [| |b|q|s|l]; try (injection Hr as <-; reflexivity); try done.
  apply read_children in Hr as [(es & ts & Hl & -> & Hall)|(ps & kts & Hl & -> & Hall)].
  - cbn [depth]. apply read_arr with es; [done|].
    apply Forall2_same_length_lookup. split; [by eapply Forall2_length|].
    intros i e t He Ht.
    pose proof (Forall2_lookup_lr _ _ _ _ _ _ Hall He Ht) as Hr.
    apply IH in Hr. eapply read_fuel_mono; [exact Hr|].
    apply depth_elem. by eapply list_elem_of_lookup_2.
  - cbn [depth]. apply read_obj with ps; [done|].
    apply Forall2_same_length_lookup. split; [by eapply Forall2_length|].
    intros i p kt Hp Hkt.
    destruct (Forall2_lookup_lr _ _ _ _ _ _ Hall Hp Hkt) as [Hk Hr].
    split; [done|]. apply IH in Hr. eapply read_fuel_mono; [exact Hr|].
    apply (depth_prop kt). by eapply list_elem_of_lookup_2.
Qed.

(** A tree read from the store is no deeper than the store has cells:
    the cells on a branch are pairwise distinct, since a cell cannot
    stand for a tree and for a proper subtree of it. *)
Lemma read_depth_bound h f : ∀ v t (A : gset loc),
  read f h v = Some t →
  A ⊆ dom h →
  (∀ a, a ∈ A → ∃ fa ta, read fa h (RRef a) = Some ta ∧ (nodes t < nodes ta)%nat) →
  (depth t + size A ≤ size h)%nat.
Proof.
  induction f as [|f IH]; intros v t A Hr HA Hanc.
  all: assert (size A ≤ size h)%nat as HsA
    by (rewrite <- size_dom; by apply subseteq_size).
  all: destruct v as [| |b|q|s|l]; try (injection Hr as <-; simpl; lia); try done.
  assert (l ∉ A) as HlA.
  { intros Hin. destruct (Hanc _ Hin) as (fa & ta & Hra & Hlt).
    pose proof (read_det _ _ _ _ _ _ Hr Hra). subst. lia. }
  assert (l ∈ dom h) as Hldom.
  { apply elem_of_dom. rewrite read_ref in Hr. destruct (h !! l); [eauto|done]. }
  assert ({[l]} ∪ A ⊆ dom h) as HA'
    by (apply union_subseteq; split; [by apply singleton_subseteq_l|done]).
  assert (size ({[l]} ∪ A) = S (size A)) as Hsz.
  { rewrite size_union by set_solver. by rewrite size_singleton. }
  pose proof (subseteq_size _ _ HA') as Hle. rewrite Hsz, size_dom in Hle.
  pose proof Hr as Hr0.
  apply read_children in Hr as [(es & ts & Hl & -> & Hall)|(ps & kts & Hl & -> & Hall)].
  - cbn [depth].
    assert (∀ x, x ∈ ts → depth x + S (size A) ≤ size h)%nat as Hch.
    { intros x Hx. apply list_elem_of_lookup in Hx as [i Hx].
      destruct (Forall2_lookup_r _ _ _ _ _ Hall Hx) as (e & He & Hre).
      rewrite <- Hsz. apply (IH e x); [done..|].
      intros a [->%elem_of_singleton|Ha]%elem_of_union.
      - exists (S f), (VArr ts). split; [done|]. cbn [nodes].
        assert (nodes x ≤ foldr (λ x n, (nodes x + n)%nat) 0 ts)%nat
          by (apply nodes_elem; by eapply list_elem_of_lookup_2). lia.
      - destruct (Hanc _ Ha) as (fa & ta & Hra & Hlt). exists fa, ta. split; [done|].
        cbn [nodes] in Hlt.
        assert (nodes x ≤ foldr (λ x n, (nodes x + n)%nat) 0 ts)%nat
          by (apply nodes_elem; by eapply list_elem_of_lookup_2). lia. }
    clear -Hch Hle. induction ts as [|x ts IHts]; simpl; [lia|].
    assert (depth x + S (size A) ≤ size h)%nat by (apply Hch; left).
    assert (S (foldr (λ x n, depth x `max` n) 0 ts) + size A ≤ size h)%nat
      by (apply IHts; intros; apply Hch; by right). lia.
  - cbn [depth].
    assert (∀ kx, kx ∈ kts → depth kx.2 + S (size A) ≤ size h)%nat as Hch.
    { intros kx Hx. apply list_elem_of_lookup in Hx as [i Hx].
      destruct (Forall2_lookup_r _ _ _ _ _ Hall Hx) as (p & Hp & _ & Hre).
      rewrite <- Hsz. apply (IH p.2 kx.2); [done..|].
      intros a [->%elem_of_singleton|Ha]%elem_of_union.
      - exists (S f), (VObj kts). split; [done|]. cbn [nodes].
        assert (nodes kx.2 ≤ foldr (λ kx n, (nodes kx.2 + n)%nat) 0 kts)%nat
          by (apply (nodes_prop kx); by eapply list_elem_of_lookup_2). lia.
      - destruct (Hanc _ Ha) as (fa & ta & Hra & Hlt). exists fa, ta. split; [done|].
        cbn [nodes] in Hlt.
        assert (nodes kx.2 ≤ foldr (λ kx n, (nodes kx.2 + n)%nat) 0 kts)%nat
          by (apply (nodes_prop kx); by eapply list_elem_of_lookup_2). lia. }
    clear -Hch Hle. induction kts as [|x ts IHts]; simpl; [lia|].
    assert (depth x.2 + S (size A) ≤ size h)%nat by (apply Hch; left).
    assert (S (foldr (λ kx n, depth kx.2 `max` n) 0 ts) + size A ≤ size h)%nat
      by (apply IHts; intros; apply Hch; by right). lia.
Qed.

(** Whatever fuel reads a tree, the fuel of [tree_of] reads it. *)
Lemma represents_tree_of h v t : represents h v t → tree_of h v = Some t.
Proof.
  intros [f Hr]. unfold tree_of.
  assert (depth t + size (∅ : gset loc) ≤ size h)%nat as Hb
    by (apply (read_depth_bound h f v t ∅ Hr); set_solver).
  rewrite size_empty in Hb. apply read_depth in Hr.
  eapply read_fuel_mono; [exact Hr|lia].
Qed.

(** **** Trees held in cells of their own *)

Lemma sep_list_impl {A B} (P Q : gset loc → A → B → Prop) F la lb :
  sep_list P F la lb →
  (∀ F' a b, F' ⊆ F → a ∈ la → b ∈ lb → P F' a b → Q F' a b) →
  sep_list Q F la lb.
Proof.
  induction 1 as [|F1 F2 a b la lb HP Hrest IH Hdisj]; intros Himpl; constructor.
  - apply Himpl; [set_solver|left|left|done].
  - apply IH. intros F' a' b' HF' Ha Hb. apply Himpl; [set_solver|by right|by right].
  - done.
Qed.

Lemma owns_frame h h' : ∀ t F v,
  owns h F v t → (∀ l, l ∈ F → h' !! l = h !! l) → owns h' F v t.
Proof.
  induction t as [| |b|q|s|elems IH|props IH] using value_induction;
    intros F v Ho Hsame; inversion Ho as [| | | | |l es ? F0 Hl Hch HlF|l ps ? F0 Hl Hch HlF];
    subst; try constructor.
  - apply owns_arr with es; [| |done].
    + rewrite Hsame; [done|]. apply elem_of_union_l. by apply elem_of_singleton.
    + eapply sep_list_impl; [done|]. intros F' a b HF' _ Hb Hab.
      rewrite Forall_forall in IH. apply IH; [done..|]. intros. apply Hsame. set_solver.
  - apply owns_obj with ps; [| |done].
    + rewrite Hsame; [done|]. apply elem_of_union_l. by apply elem_of_singleton.
    + eapply sep_list_impl; [done|]. intros F' a b HF' _ Hb [Hk Hab]. split; [done|].
      rewrite Forall_forall in IH. apply (IH b); [done..|]. intros. apply Hsame. set_solver.
Qed.

Lemma sep_list_length {A B} (P : gset loc → A → B → Prop) F la lb :
  sep_list P F la lb → length la = length lb.
Proof. induction 1; simpl; congruence. Qed.

(** An element of a separated list, and what the others own. *)
Lemma sep_list_lookup {A B} (P : gset loc → A → B → Prop) F la lb :
  sep_list P F la lb → ∀ i a b,
  la !! i = Some a → lb !! i = Some b →
  ∃ Fi Fo, P Fi a b ∧ Fi ## Fo ∧ Fi ⊆ F ∧ Fo ⊆ F
    ∧ ∀ j a' b', j ≠ i → la !! j = Some a' → lb !! j = Some b' →
        ∃ Fj, Fj ⊆ Fo ∧ P Fj a' b'.
Proof.
  induction 1 as [|F1 F2 a0 b0 la lb HP Hrest IH Hdisj]; intros i a b Ha Hb; [done|].
  destruct i as [|i]; simpl in *.
  - injection Ha as <-. injection Hb as <-. exists F1, F2.
    split; [done|]. split; [done|]. split; [set_solver|]. split; [set_solver|].
    intros [|j] a' b' Hj Ha' Hb'; [done|]. simpl in *.
    destruct (IH j a' b' Ha' Hb') as (Fj & Fo & HPj & _ & HFj & _). eauto.
  - destruct (IH i a b Ha Hb) as (Fi & Fo & HPi & Hd & HFi & HFo & Hothers).
    exists Fi, (F1 ∪ Fo). split; [done|]. split; [set_solver|].
    split; [set_solver|]. split; [set_solver|].
    intros [|j] a' b' Hj Ha' Hb'; simpl in *.
    + injection Ha' as <-. injection Hb' as <-. exists F1. split; [set_solver|done].
    + destruct (Hothers j a' b') as (Fj & HFj & HPj); [congruence|done..|].
      exists Fj. split; [set_solver|done].
Qed.

Lemma sep_list_Forall2 {A B} (P : gset loc → A → B → Prop) F la lb :
  sep_list P F la lb → Forall2 (λ a b, ∃ F', F' ⊆ F ∧ P F' a b) la lb.
Proof.
  induction 1 as [|F1 F2 a0 b0 la lb HP Hrest IH Hdisj]; constructor.
  - exists F1. split; [set_solver|done].
  - eapply Forall2_impl; [exact IH|]. intros a b (F' & HF' & HP'). exists F'.
    split; [set_solver|done].
Qed.

Lemma owns_dom h : ∀ t F v, owns h F v t → F ⊆ dom h.
Proof.
  induction t as [| |b|q|s|elems IH|props IH] using value_induction;
    intros F v Ho; inversion Ho as [| | | | |l es ? F0 Hl Hch HlF|l ps ? F0 Hl Hch HlF];
    subst; try set_solver.
  - apply union_subseteq. split.
    + apply singleton_subseteq_l, elem_of_dom. eauto.
    + clear -IH Hch. induction Hch as [|F1 F2 a b la lb HP Hrest IHl Hdisj]; [set_solver|].
      inversion IH; subst. apply union_subseteq. split; eauto.
  - apply union_subseteq. split.
    + apply singleton_subseteq_l, elem_of_dom. eauto.
    + clear -IH Hch. induction Hch as [|F1 F2 a b la lb [_ HP] Hrest IHl Hdisj]; [set_solver|].
      inversion IH; subst. apply union_subseteq. split; eauto.
Qed.

Lemma represents_prim h v t :
  (∀ l, v ≠ RRef l) → represents h v t ↔ read 0 h v = Some t.
Proof.
  intros Hv. split; [|by exists 0%nat].
  intros [f Hr]. destruct v; try (by destruct f). by destruct (Hv l).
Qed.

Lemma represents_common_fuel {A} h (g : A → ref_value) (l : list A) (ts : list value) :
  Forall2 (λ a t, represents h (g a) t) l ts →
  ∃ f, Forall2 (λ a t, read f h (g a) = Some t) l ts.
Proof.
  induction 1 as [|a t l ts [f1 Hr] Hrest [f2 IH]]; [by exists 0%nat|].
  exists (Nat.max f1 f2). constructor.
  - eapply read_fuel_mono; [exact Hr|lia].
  - eapply Forall2_impl; [exact IH|]. intros a' t' Hr'.
    eapply read_fuel_mono; [exact Hr'|lia].
Qed.

Lemma represents_arr h l es ts :
  h !! l = Some (CArr es) → Forall2 (represents h) es ts →
  represents h (RRef l) (VArr ts).
Proof.
  intros Hl Hall. destruct (represents_common_fuel h id es ts Hall) as [f Hf].
  exists (S f). by apply read_arr with es.
Qed.

Lemma represents_obj h l ps kts :
  h !! l = Some (CObj ps) →
  Forall2 (λ p kt, p.1 = kt.1 ∧ represents h p.2 kt.2) ps kts →
  represents h (RRef l) (VObj kts).
Proof.
  intros Hl Hall.
  destruct (represents_common_fuel h snd ps kts.*2) as [f Hf].
  { apply Forall2_fmap_r. eapply Forall2_impl; [exact Hall|]. by intros ? ? [_ ?]. }
  exists (S f). apply read_obj with ps; [done|].
  apply Forall2_fmap_r in Hf.
  apply Forall2_same_length_lookup. split; [by eapply Forall2_length|].
  intros i p kt Hp Hkt.
  destruct (Forall2_lookup_lr _ _ _ _ _ _ Hall Hp Hkt) as [Hk _].
  split; [done|]. by apply (Forall2_lookup_lr _ _ _ _ _ _ Hf Hp Hkt).
Qed.

Lemma owns_represents h : ∀ t F v, owns h F v t → represents h v t.
Proof.
  induction t as [| |b|q|s|elems IH|props IH] using value_induction;
    intros F v Ho; inversion Ho as [| | | | |l es ? F0 Hl Hch HlF|l ps ? F0 Hl Hch HlF];
    subst; try (by exists 0%nat).
  - apply represents_arr with es; [done|].
    apply sep_list_Forall2 in Hch.
    apply Forall2_same_length_lookup. split; [by eapply Forall2_length|].
    intros i e t He Ht.
    destruct (Forall2_lookup_lr _ _ _ _ _ _ Hch He Ht) as (F' & _ & Ho').
    rewrite Forall_forall in IH. eapply IH; [|done]. by eapply list_elem_of_lookup_2.
  - apply represents_obj with ps; [done|].
    apply sep_list_Forall2 in Hch.
    apply Forall2_same_length_lookup. split; [by eapply Forall2_length|].
    intros i p kt Hp Hkt.
    destruct (Forall2_lookup_lr _ _ _ _ _ _ Hch Hp Hkt) as (F' & _ & Hk & Ho').
    split; [done|]. rewrite Forall_forall in IH. eapply (IH kt); [|done].
    by eapply list_elem_of_lookup_2.
Qed.

Lemma alloc_cell_spec c h l h' :
  alloc_cell c h = (l, h') → h !! l = None ∧ h' = <[l := c]> h.
Proof.
  intros [= <- <-]. split; [|done]. apply not_elem_of_dom, is_fresh.
Qed.

(** [alloc] builds a separated tree out of new cells. *)
Lemma alloc_owns : ∀ t h r h',
  alloc t h = (r, h') →
  ∃ F, owns h' F r t ∧ F ## dom h ∧ F ⊆ dom h'
       ∧ ∀ l c, h !! l = Some c → h' !! l = Some c.
Proof.
  induction t as [| |b|q|s|elems IH|props IH] using value_induction;
    intros h r h'; try (intros [= <- <-]; exists ∅; split; [constructor|set_solver]).
  - rewrite alloc_arr.
    assert (∀ h rs h1, alloc_list elems h = (rs, h1) →
              ∃ F, sep_list (owns h1) F rs elems ∧ F ## dom h ∧ F ⊆ dom h1
                   ∧ ∀ l c, h !! l = Some c → h1 !! l = Some c) as Hlist.
    { clear h r h'. induction elems as [|x l IHl]; intros h rs h1; simpl.
      - intros [= <- <-]. exists ∅. split; [constructor|set_solver].
      - inversion IH as [|? ? IHx IHl']; subst.
        destruct (alloc x h) as [r1 h2] eqn:E1.
        destruct (alloc_list l h2) as [rs2 h3] eqn:E2. intros [= <- <-].
        destruct (IHx _ _ _ E1) as (F1 & Ho1 & Hd1 & Hs1 & Hsub1).
        destruct (IHl IHl' _ _ _ E2) as (F2 & Ho2 & Hd2 & Hs2 & Hsub2).
        exists (F1 ∪ F2). split; [|split; [|split]].
        + constructor; [|done|set_solver].
          eapply owns_frame; [exact Ho1|]. intros l0 Hl0.
          apply Hs1, elem_of_dom in Hl0 as [c Hc]. by rewrite Hc, (Hsub2 _ _ Hc).
        + assert (dom h ⊆ dom h2).
          { intros l0 [c Hc]%elem_of_dom. apply elem_of_dom. eauto. }
          set_solver.
        + assert (dom h2 ⊆ dom h3).
          { intros l0 [c Hc]%elem_of_dom. apply elem_of_dom. eauto. }
          set_solver.
        + eauto. }
    destruct (alloc_list elems h) as [rs h1] eqn:E.
    destruct (Hlist _ _ _ E) as (F & Hsep & Hd & Hs & Hsub).
    destruct (alloc_cell (CArr rs) h1) as [l h2] eqn:E2. intros [= <- <-].
    apply alloc_cell_spec in E2 as [Hfresh ->].
    assert (l ∉ F) as HlF.
    { intros Hin. apply Hs, elem_of_dom in Hin as [c Hc]. congruence. }
    exists ({[l]} ∪ F). split; [|split; [|split]].
    + apply owns_arr with rs; [by rewrite lookup_insert_eq| |done].
      eapply sep_list_impl; [exact Hsep|]. intros F' a b HF' _ _ Hab.
      eapply owns_frame; [exact Hab|]. intros l0 Hl0.
      rewrite lookup_insert_ne; [done|]. set_solver.
    + assert (l ∉ dom h).
      { intros [c Hc]%elem_of_dom. apply Hsub in Hc. congruence. }
      set_solver.
    + rewrite dom_insert. set_solver.
    + intros l0 c Hc. rewrite lookup_insert_ne; [by apply Hsub|].
      intros ->. apply Hsub in Hc. congruence.
  - rewrite alloc_obj.
    assert (∀ h rs h1, alloc_props props h = (rs, h1) →
              ∃ F, sep_list (λ F p kt, p.1 = kt.1 ∧ owns h1 F p.2 kt.2) F rs props
                   ∧ F ## dom h ∧ F ⊆ dom h1
                   ∧ ∀ l c, h !! l = Some c → h1 !! l = Some c) as Hlist.
    { clear h r h'. induction props as [|[k x] l IHl]; intros h rs h1; simpl.
      - intros [= <- <-]. exists ∅. split; [constructor|set_solver].
      - inversion IH as [|? ? IHx IHl']; subst. simpl in IHx.
        destruct (alloc x h) as [r1 h2] eqn:E1.
        destruct (alloc_props l h2) as [rs2 h3] eqn:E2. intros [= <- <-].
        destruct (IHx _ _ _ E1) as (F1 & Ho1 & Hd1 & Hs1 & Hsub1).
        destruct (IHl IHl' _ _ _ E2) as (F2 & Ho2 & Hd2 & Hs2 & Hsub2).
        exists (F1 ∪ F2). split; [|split; [|split]].
        + constructor; [|done|set_solver]. split; [done|]. simpl.
          eapply owns_frame; [exact Ho1|]. intros l0 Hl0.
          apply Hs1, elem_of_dom in Hl0 as [c Hc]. by rewrite Hc, (Hsub2 _ _ Hc).
        + assert (dom h ⊆ dom h2).
          { intros l0 [c Hc]%elem_of_dom. apply elem_of_dom. eauto. }
          set_solver.
        + assert (dom h2 ⊆ dom h3).
          { intros l0 [c Hc]%elem_of_dom. apply elem_of_dom. eauto. }
          set_solver.
        + eauto. }
    destruct (alloc_props props h) as [rs h1] eqn:E.
    destruct (Hlist _ _ _ E) as (F & Hsep & Hd & Hs & Hsub).
    destruct (alloc_cell (CObj rs) h1) as [l h2] eqn:E2. intros [= <- <-].
    apply alloc_cell_spec in E2 as [Hfresh ->].
    assert (l ∉ F) as HlF.
    { intros Hin. apply Hs, elem_of_dom in Hin as [c Hc]. congruence. }
    exists ({[l]} ∪ F). split; [|split; [|split]].
    + apply owns_obj with rs; [by rewrite lookup_insert_eq| |done].
      eapply sep_list_impl; [exact Hsep|]. intros F' a b HF' _ _ [Hk Hab]. split; [done|].
      eapply owns_frame; [exact Hab|]. intros l0 Hl0.
      rewrite lookup_insert_ne; [done|]. set_solver.
    + assert (l ∉ dom h).
      { intros [c Hc]%elem_of_dom. apply Hsub in Hc. congruence. }
      set_solver.
    + rewrite dom_insert. set_solver.
    + intros l0 c Hc. rewrite lookup_insert_ne; [by apply Hsub|].
      intros ->. apply Hsub in Hc. congruence.
Qed.

Lemma key_index_lookup k keys i :
  key_index k keys = Some i → keys !! i = Some k.
Proof.
  revert i. induction keys as [|k' keys IH]; intros i; simpl; [done|].
  destruct (String.eqb_spec k k') as [->|Hne]; [by intros [= <-]|].
  destruct (key_index k keys) as [j|]; simpl; [|done]. intros [= <-]. by apply IH.
Qed.

Lemma lookup_prop_index {V} k (l : list (string * V)) :
  lookup_prop k l = i ← key_index k l.*1; snd <$> l !! i.
Proof.
  induction l as [|[k' x] l IH]; [done|].
  rewrite fmap_cons. cbn [lookup_prop key_index fst].
  destruct (String.eqb k k'); [reflexivity|]. rewrite IH.
  destruct (key_index k l.*1); reflexivity.
Qed.

Lemma replace_prop_index {V} k (y : V) (l : list (string * V)) :
  replace_prop k y l =
    match key_index k l.*1 with
    | Some i => <[i := (k, y)]> l
    | None => l
    end.
Proof.
  induction l as [|[k' x] l IH]; [done|].
  rewrite fmap_cons. cbn [replace_prop key_index fst].
  destruct (String.eqb_spec k k') as [->|Hne]; [reflexivity|]. rewrite IH.
  destruct (key_index k l.*1); reflexivity.
Qed.

Lemma remove_prop_index {V} k (l : list (string * V)) :
  remove_prop k l =
    match key_index k l.*1 with
    | Some i => delete i l
    | None => l
    end.
Proof.
  induction l as [|[k' x] l IH]; [done|].
  rewrite fmap_cons. cbn [remove_prop key_index fst].
  destruct (String.eqb_spec k k') as [->|Hne]; [reflexivity|]. rewrite IH.
  destruct (key_index k l.*1); reflexivity.
Qed.

Lemma has_own_index {V} k (l : list (string * V)) :
  has_own k l = match key_index k l.*1 with Some _ => true | None => false end.
Proof.
  unfold has_own. rewrite lookup_prop_index.
  destruct (key_index k l.*1) as [i|] eqn:Hi; [|done].
  apply key_index_lookup in Hi. rewrite list_lookup_fmap in Hi. simpl.
  by destruct (l !! i).
Qed.

(** Two property tables that carry the same keys in the same order. *)
Lemma aligned_keys {V W} (R : V → W → Prop) (ps : list (string * V)) (kts : list (string * W)) :
  Forall2 (λ p kt, p.1 = kt.1 ∧ R p.2 kt.2) ps kts → ps.*1 = kts.*1.
Proof.
  induction 1 as [|[k x] [k' y] ps kts [Hk _] _ IH]; [done|].
  rewrite !fmap_cons. simpl in *. by rewrite Hk, IH.
Qed.

(** *** What the traversal reads and writes, at both levels *)

Lemma owns_container h Fall l c :
  owns h Fall (RRef l) c →
  (∃ es ts F, c = VArr ts ∧ h !! l = Some (CArr es)
      ∧ sep_list (owns h) F es ts ∧ (l ∉ F) ∧ Fall = {[l]} ∪ F)
  ∨ (∃ ps kts F, c = VObj kts ∧ h !! l = Some (CObj ps)
      ∧ sep_list (λ F p kt, p.1 = kt.1 ∧ owns h F p.2 kt.2) F ps kts
      ∧ (l ∉ F) ∧ Fall = {[l]} ∪ F).
Proof.
  inversion 1 as [| | | | |? es ts F Hl Hch HlF|? ps kts F Hl Hch HlF]; subst.
  - left. by exists es, ts, F.
  - right. by exists ps, kts, F.
Qed.

Lemma owns_ref h F cur c :
  owns h F cur c → not_container c = false → ∃ l, cur = RRef l.
Proof. inversion 1; subst; try done; eauto. Qed.

Lemma owns_prim_container h F cur c :
  owns h F cur c → not_container c = true → container h cur = None.
Proof. inversion 1; subst; done. Qed.

Lemma owns_nullish h F v t :
  owns h F v t →
  Store.is_undefined v || Store.is_null v = JS.is_undefined t || JS.is_null t.
Proof. inversion 1; subst; done. Qed.

Lemma represents_after h h' F v t :
  owns h F v t → (∀ x, x ∈ F → h' !! x = h !! x) → represents h' v t.
Proof. intros Ho Hsame. eapply owns_represents, owns_frame; eauto. Qed.

(** Descending into an existing entry: the entry is owned apart from
    its siblings, and once it stands for [t'] the parent stands for
    [put_back c k t']. *)
Lemma parent_after_child h Fall l c k child_t :
  owns h Fall (RRef l) c →
  JS.get_own c k = Ret child_t →
  JS.is_undefined child_t || JS.is_null child_t = false →
  ∃ cell child_v Fi,
    h !! l = Some cell ∧ Store.get_own cell k = Ret child_v
    ∧ owns h Fi child_v child_t ∧ Fi ⊆ Fall ∧ (l ∉ Fi)
    ∧ ∀ h' t',
        (∀ x, x ∈ Fall → x ∉ Fi → h' !! x = h !! x) →
        represents h' child_v t' →
        represents h' (RRef l) (put_back c k t').
Proof.
  intros Ho Hg Hn.
  pose proof (owns_dom _ _ _ _ Ho) as Hdom.
  destruct (owns_container _ _ _ _ Ho)
    as [(es & ts & F & -> & Hl & Hch & HlF & ->)|(ps & kts & F & -> & Hl & Hch & HlF & ->)].
  - simpl in Hg. exists (CArr es). simpl.
    pose proof (sep_list_length _ _ _ _ Hch) as Hlen.
    destruct (String.eqb k "length") eqn:Ek.
    + injection Hg as <-. rewrite Hlen. eexists _, ∅.
      split; [done|]. split; [done|]. split; [constructor|].
      split; [set_solver|]. split; [set_solver|].
      intros h' t' Hsame _.
      assert (array_index k = None) as ->.
      { apply String.eqb_eq in Ek. by subst k. }
      apply represents_after with h ({[l]} ∪ F); [done|]. intros. apply Hsame; set_solver.
    + destruct (array_index k) as [i|]; [|done].
      destruct (ts !! i) as [t|] eqn:Ht; simpl in Hg; injection Hg as <-; [|done].
      destruct (lookup_lt_is_Some_2 es i) as [e He].
      { rewrite Hlen. by eapply lookup_lt_Some. }
      destruct (sep_list_lookup _ _ _ _ Hch i e t He Ht)
        as (Fi & Fo & Hoi & Hdisj & HFi & HFo & Hothers).
      exists e, Fi. rewrite He. split; [done|]. split; [done|]. split; [done|].
      split; [set_solver|]. split; [set_solver|].
      intros h' t' Hsame Hrep. apply represents_arr with es.
      { rewrite Hsame; [done|set_solver..]. }
      apply Forall2_same_length_lookup. split; [by rewrite length_insert|].
      intros j e' t'' He' Ht'. destruct (decide (j = i)) as [->|Hji].
      * rewrite list_lookup_insert_eq in Ht' by (by eapply lookup_lt_Some).
        congruence.
      * rewrite list_lookup_insert_ne in Ht' by done.
        destruct (Hothers j e' t'' Hji He' Ht') as (Fj & HFj & Hoj).
        apply represents_after with h Fj; [done|]. intros. apply Hsame; set_solver.
  - simpl in Hg. exists (CObj ps). simpl.
    apply sep_list_Forall2 in Hch as Hall.
    assert (ps.*1 = kts.*1) as Hkeys.
    { eapply (aligned_keys (λ _ _, True)), Forall2_impl; [exact Hall|].
      by intros ? ? (? & _ & ? & _). }
    destruct (lookup_prop k kts) as [t|] eqn:Ht.
    2:{ destruct (inherited k); [done|]. by injection Hg as <-. }
    injection Hg as <-. rewrite lookup_prop_index in Ht.
    rewrite lookup_prop_index, Hkeys.
    destruct (key_index k kts.*1) as [i|] eqn:Hi; [|done]. simpl in Ht |- *.
    destruct (kts !! i) as [kt|] eqn:Hkt; [|done]. injection Ht as <-.
    destruct (lookup_lt_is_Some_2 ps i) as [p Hp].
    { rewrite (sep_list_length _ _ _ _ Hch). by eapply lookup_lt_Some. }
    destruct (sep_list_lookup _ _ _ _ Hch i p kt Hp Hkt)
      as (Fi & Fo & [Hk Hoi] & Hdisj & HFi & HFo & Hothers).
    exists p.2, Fi. rewrite Hp. split; [done|]. split; [done|]. split; [done|].
    split; [set_solver|]. split; [set_solver|].
    intros h' t' Hsame Hrep. apply represents_obj with ps.
    { rewrite Hsame; [done|set_solver..]. }
    rewrite replace_prop_index, Hi.
    apply Forall2_same_length_lookup. split.
    { rewrite length_insert. by eapply sep_list_length. }
    intros j p' kt' Hp' Hkt'. destruct (decide (j = i)) as [->|Hji].
    * rewrite list_lookup_insert_eq in Hkt' by (by eapply lookup_lt_Some).
      injection Hkt' as <-. simpl. assert (p' = p) as -> by congruence.
      split; [|done]. apply key_index_lookup in Hi.
      rewrite list_lookup_fmap, Hkt in Hi. simpl in Hi. congruence.
    * rewrite list_lookup_insert_ne in Hkt' by done.
      destruct (Hothers j p' kt' Hji Hp' Hkt') as (Fj & HFj & Hkj & Hoj).
      split; [done|].
      apply represents_after with h Fj; [done|]. intros. apply Hsame; set_solver.
Qed.

Lemma array_store_insert {V} (hole x y : V) i l :
  <[i := y]> (array_store hole i x l) = array_store hole i y l.
Proof.
  unfold array_store. destruct (Nat.ltb_spec i (length l)).
  - by rewrite list_insert_insert_eq.
  - rewrite insert_app_r_alt by done. f_equal.
    rewrite insert_app_r_alt by (rewrite length_replicate; lia). f_equal.
    rewrite length_replicate, Nat.sub_diag. done.
Qed.

Lemma Forall2_array_store {V W} (R : V → W → Prop) hv hw i x y l k :
  Forall2 R l k → R hv hw → R x y →
  Forall2 R (array_store hv i x l) (array_store hw i y k).
Proof.
  intros Hall Hh Hxy. unfold array_store. rewrite (Forall2_length _ _ _ Hall).
  destruct (_ <? _)%nat; [by apply Forall2_insert|].
  repeat apply Forall2_app; [done|by apply Forall2_replicate|by constructor].
Qed.

Lemma key_index_app_new k keys :
  key_index k keys = None → key_index k (keys ++ [k]) = Some (length keys).
Proof.
  induction keys as [|k' keys IH]; simpl.
  - by rewrite String.eqb_refl.
  - destruct (String.eqb k k'); [done|].
    destruct (key_index k keys); [done|]. intros _. by rewrite IH.
Qed.

Lemma represents_mono h h' v t :
  (∀ l c, h !! l = Some c → h' !! l = Some c) → represents h v t → represents h' v t.
Proof. intros Hsub [f Hr]. exists f. by eapply read_mono. Qed.

Lemma represents_inv h v t :
  represents h v t →
  match v with
  | RUndef => t = VUndef
  | RNull => t = VNull
  | RBool b => t = VBool b
  | RNum q => t = VNum q
  | RStr s => t = VStr s
  | RRef l =>
      (∃ es ts, h !! l = Some (CArr es) ∧ t = VArr ts ∧ Forall2 (represents h) es ts)
      ∨ (∃ ps kts, h !! l = Some (CObj ps) ∧ t = VObj kts
           ∧ Forall2 (λ p kt, p.1 = kt.1 ∧ represents h p.2 kt.2) ps kts)
  end.
Proof.
  intros [f Hr]. destruct v as [| |b|q|s|l]; try (destruct f; by injection Hr as <-).
  destruct f as [|f]; [done|].
  apply read_children in Hr as [(es & ts & Hl & -> & Hall)|(ps & kts & Hl & -> & Hall)].
  - left. exists es, ts. split; [done|]. split; [done|].
    eapply Forall2_impl; [exact Hall|]. intros. by exists f.
  - right. exists ps, kts. split; [done|]. split; [done|].
    eapply Forall2_impl; [exact Hall|]. intros ? ? [? ?]. split; [done|]. by exists f.
Qed.

Lemma tree_represents h v t : represents h v t → Store.tree h v = Ret t.
Proof. intros Hr. unfold tree. by rewrite (represents_tree_of _ _ _ Hr). Qed.

(** The coercions and tests of the store read what the ones on trees
    read. *)
Lemma to_property_key_represents h v t :
  represents h v t → Store.to_property_key h v = lift h (JS.to_property_key t).
Proof. intros Hr. unfold Store.to_property_key. by rewrite (tree_represents _ _ _ Hr). Qed.

Lemma to_number_represents h v t :
  represents h v t → Store.to_number h v = lift h (JS.to_number t).
Proof. intros Hr. unfold Store.to_number. by rewrite (tree_represents _ _ _ Hr). Qed.

Lemma normalize_represents h v t :
  represents h v t →
  represents h (Store.normalizePropertyKey v) (Patcher.normalizePropertyKey t).
Proof.
  intros Hr. pose proof (represents_inv _ _ _ Hr) as Hinv.
  destruct v as [| |b|q|s|l]; subst; try done.
  - simpl. destruct (_ && _); by exists 0%nat.
  - by destruct Hinv as [(? & ? & _ & -> & _)|(? & ? & _ & -> & _)].
Qed.

Lemma Number_isInteger_represents h v t :
  represents h v t → Store.Number_isInteger v = JS.Number_isInteger t.
Proof.
  intros Hr. pose proof (represents_inv _ _ _ Hr) as Hinv.
  destruct v as [| |b|q|s|l]; subst; try done.
  by destruct Hinv as [(? & ? & _ & -> & _)|(? & ? & _ & -> & _)].
Qed.

Lemma strict_eq_int_represents h v t z :
  represents h v t → Store.strict_eq_int v z = JS.strict_eq_int t z.
Proof.
  intros Hr. pose proof (represents_inv _ _ _ Hr) as Hinv.
  destruct v as [| |b|q|s|l]; subst; try done.
  by destruct Hinv as [(? & ? & _ & -> & _)|(? & ? & _ & -> & _)].
Qed.

Lemma is_null_represents h v t :
  represents h v t → Store.is_null v = JS.is_null t.
Proof.
  intros Hr. pose proof (represents_inv _ _ _ Hr) as Hinv.
  destruct v as [| |b|q|s|l]; subst; try done.
  by destruct Hinv as [(? & ? & _ & -> & _)|(? & ? & _ & -> & _)].
Qed.

(** **** Cells and containers *)

Lemma represents_cell h l cell t :
  h !! l = Some cell → cell_rep h cell t → represents h (RRef l) t.
Proof.
  intros Hl Hc. destruct cell, t; try done.
  - by eapply represents_arr.
  - by eapply represents_obj.
Qed.

Lemma owns_cell h Fall l c :
  owns h Fall (RRef l) c →
  ∃ cell, h !! l = Some cell ∧ l ∈ Fall
    ∧ ∀ h', (∀ x, x ∈ Fall → x ≠ l → h' !! x = h !! x) → cell_rep h' cell c.
Proof.
  intros Ho. destruct (owns_container _ _ _ _ Ho)
    as [(es & ts & F & -> & Hl & Hch & HlF & ->)|(ps & kts & F & -> & Hl & Hch & HlF & ->)].
  - exists (CArr es). split; [done|]. split; [set_solver|]. intros h' Hsame. simpl.
    eapply Forall2_impl; [exact (sep_list_Forall2 _ _ _ _ Hch)|].
    intros e t (F' & HF' & Ho'). apply represents_after with h F'; [done|].
    intros x Hx. apply Hsame; set_solver.
  - exists (CObj ps). split; [done|]. split; [set_solver|]. intros h' Hsame. simpl.
    eapply Forall2_impl; [exact (sep_list_Forall2 _ _ _ _ Hch)|].
    intros e t (F' & HF' & Hk & Ho'). split; [done|].
    apply represents_after with h F'; [done|].
    intros x Hx. apply Hsame; set_solver.
Qed.

Lemma aligned_has_own {V W} (R : V → W → Prop) k ps kts :
  Forall2 (λ p kt, p.1 = kt.1 ∧ R p.2 kt.2) ps kts → has_own k ps = has_own k kts.
Proof. intros H. by rewrite !has_own_index, (aligned_keys _ _ _ H). Qed.

Lemma aligned_replace_prop {V W} (R : V → W → Prop) k x y ps kts :
  Forall2 (λ p kt, p.1 = kt.1 ∧ R p.2 kt.2) ps kts → R x y →
  Forall2 (λ p kt, p.1 = kt.1 ∧ R p.2 kt.2) (replace_prop k x ps) (replace_prop k y kts).
Proof.
  intros H Hxy. rewrite !replace_prop_index, (aligned_keys _ _ _ H).
  destruct (key_index _ _); [|done]. by apply Forall2_insert.
Qed.

Lemma aligned_remove_prop {V W} (R : V → W → Prop) k ps kts :
  Forall2 (λ p kt, p.1 = kt.1 ∧ R p.2 kt.2) ps kts →
  Forall2 (λ p kt, p.1 = kt.1 ∧ R p.2 kt.2) (remove_prop k ps) (remove_prop k kts).
Proof.
  intros H. rewrite !remove_prop_index, (aligned_keys _ _ _ H).
  destruct (key_index _ _); [|done]. by apply Forall2_delete.
Qed.

Lemma aligned_lookup_prop {V W} (R : V → W → Prop) k ps kts :
  Forall2 (λ p kt, p.1 = kt.1 ∧ R p.2 kt.2) ps kts →
  option_Forall2 R (lookup_prop k ps) (lookup_prop k kts).
Proof.
  induction 1 as [|[k1 x] [k2 y] ps kts [Hk Hxy] _ IH]; simpl in *; [constructor|].
  subst k2. destruct (String.eqb k k1); [by constructor|done].
Qed.

Lemma replace_prop_twice {V} k (x y : V) props :
  replace_prop k y (replace_prop k x props) = replace_prop k y props.
Proof.
  induction props as [|[k' z] props IH]; simpl; [done|].
  destruct (String.eqb k k') eqn:E; simpl; rewrite E; [done|]. by rewrite IH.
Qed.

Lemma replace_prop_app_new {V} k (x y : V) props :
  has_own k props = false →
  replace_prop k y (props ++ [(k, x)]) = props ++ [(k, y)].
Proof.
  unfold has_own. induction props as [|[k' z] props IH]; simpl.
  - by rewrite String.eqb_refl.
  - destruct (String.eqb k k'); [done|]. intros H. by rewrite IH.
Qed.

Lemma nullish_represents h v t :
  represents h v t →
  Store.is_undefined v || Store.is_null v = JS.is_undefined t || JS.is_null t.
Proof.
  intros Hr. pose proof (represents_inv _ _ _ Hr) as Hinv.
  destruct v as [| |b|q|s|l]; subst; try done.
  by destruct Hinv as [(? & ? & _ & -> & _)|(? & ? & _ & -> & _)].
Qed.

(** [obj[k]] read, at both levels. *)
Lemma get_own_corr h cell c k t :
  cell_rep h cell c → JS.get_own c k = Ret t →
  ∃ v, Store.get_own cell k = Ret v ∧ represents h v t.
Proof.
  intros Hc Hg. destruct cell as [es|ps], c as [| | | | |ts|kts]; try done; simpl in *.
  - rewrite (Forall2_length _ _ _ Hc). destruct (String.eqb k "length").
    + injection Hg as <-. eexists. split; [done|]. by exists 0%nat.
    + destruct (array_index k) as [i|]; [|done]. injection Hg as <-.
      eexists. split; [done|].
      destruct (proj1 (Forall2_lookup _ _ _) Hc i) as [e t' He|]; simpl; [done|by exists 0%nat].
  - destruct (aligned_lookup_prop _ k _ _ Hc) as [v t' Hvt|].
    + injection Hg as <-. eauto.
    + destruct (inherited k); [done|]. injection Hg as <-.
      eexists. split; [done|]. by exists 0%nat.
Qed.

(** [obj[k] = v], at both levels: the store [h] is the one of the
    assignment, [h'] any store in which the slots and [v] stand for
    what they stood for. *)
Lemma set_own_corr h h' cell c k v t c' :
  cell_rep h' cell c → represents h v t → represents h' v t →
  JS.set_own c k t = Ret c' →
  ∃ cell', Store.set_own h cell k v = Ret cell' ∧ cell_rep h' cell' c'.
Proof.
  intros Hc Hv Hv' Hs. destruct cell as [es|ps], c as [| | | | |ts|kts]; try done; simpl in *.
  - destruct (String.eqb k "length").
    + unfold Store.array_set_length, JS.array_set_length in *.
      rewrite (to_number_represents _ _ _ Hv).
      destruct (JS.to_number t) as [[q|]| |]; simpl in *; try done.
      destruct (_ && _); [|done]. injection Hs as <-.
      eexists. split; [done|]. simpl. apply Forall2_resize; [by exists 0%nat|done].
    + destruct (array_index k) as [i|]; [|done]. injection Hs as <-.
      eexists. split; [done|]. simpl. apply Forall2_array_store; [done|by exists 0%nat|done].
  - rewrite (aligned_has_own _ k _ _ Hc). destruct (has_own k kts).
    + injection Hs as <-. eexists. split; [done|]. simpl. by apply aligned_replace_prop.
    + destruct (String.eqb k "__proto__"); [done|]. injection Hs as <-.
      eexists. split; [done|]. simpl. apply Forall2_app; [done|]. by constructor.
Qed.

(** Creating a missing segment: the slot [k] holds the new cell [n],
    and once [n] stands for [t'] the parent stands for
    [put_back o k t']. *)
Lemma create_corr h1 h' cell c k n child created o :
  cell_rep h' cell c →
  JS.get_own c k = Ret child → JS.is_undefined child || JS.is_null child = true →
  JS.set_own c k created = Ret o →
  ∃ cell', Store.set_own h1 cell k (RRef n) = Ret cell'
    ∧ ∀ t', represents h' (RRef n) t' → cell_rep h' cell' (put_back o k t').
Proof.
  intros Hc Hg Hn Hs. destruct cell as [es|ps], c as [| | | | |ts|kts]; try done; simpl in *.
  - destruct (String.eqb k "length"); [by injection Hg as <-|].
    destruct (array_index k) as [i|] eqn:Hi; [|done]. injection Hs as <-.
    eexists. split; [done|]. intros t' Ht'. simpl. rewrite Hi, array_store_insert.
    apply Forall2_array_store; [done|by exists 0%nat|done].
  - rewrite (aligned_has_own _ k _ _ Hc). destruct (has_own k kts) eqn:Hown.
    + injection Hs as <-. eexists. split; [done|]. intros t' Ht'. simpl.
      rewrite replace_prop_twice. by apply aligned_replace_prop.
    + destruct (String.eqb k "__proto__"); [done|]. injection Hs as <-.
      eexists. split; [done|]. intros t' Ht'. simpl.
      rewrite replace_prop_app_new by done. apply Forall2_app; [done|]. by constructor.
Qed.

(** The final update, at both levels. *)
Lemma final_corr h hb Fall l c key_v key_t nv_v nv_t c' :
  owns h Fall (RRef l) c →
  represents hb key_v key_t → represents hb nv_v nv_t →
  (∀ x y, hb !! x = Some y → h !! x = Some y) →
  Fall ## dom hb →
  Patcher.apply_final c key_t nv_t = Ret c' →
  ∃ cell h', h !! l = Some cell
    ∧ Store.apply_final h l cell key_v nv_v = Ret h'
    ∧ (∀ x, x ≠ l → h' !! x = h !! x)
    ∧ represents h' (RRef l) c'.
Proof.
  intros Ho Hkey Hnv Hsub Hdisj Hfin.
  destruct (owns_cell _ _ _ _ Ho) as (cell & Hl & HlF & Hold).
  assert (hb !! l = None) as Hlb.
  { apply not_elem_of_dom. set_solver. }
  assert (∀ h', (∀ x, x ≠ l → h' !! x = h !! x) →
            ∀ v t, represents hb v t → represents h' v t) as Hbase.
  { intros h' Hsame v t. apply represents_mono. intros x y Hx.
    rewrite Hsame; [by apply Hsub|]. intros ->. congruence. }
  assert (∀ h', (∀ x, x ≠ l → h' !! x = h !! x) → cell_rep h' cell c) as Hold'.
  { intros h' Hsame. apply Hold. intros. by apply Hsame. }
  assert (∀ cell' c',
            (∀ h', (∀ x, x ≠ l → h' !! x = h !! x) → cell_rep h' cell' c') →
            (∀ x, x ≠ l → <[l := cell']> h !! x = h !! x)
            ∧ represents (<[l := cell']> h) (RRef l) c') as Hinst.
  { intros cell' c'' Hc. split; [intros; by rewrite lookup_insert_ne|].
    eapply represents_cell; [apply lookup_insert_eq|].
    apply Hc. intros. by rewrite lookup_insert_ne. }
  assert (represents h (RRef l) c) as Hsame0 by (by eapply owns_represents).
  assert (represents h key_v key_t) as Hkey' by (by apply (Hbase h)).
  assert (represents h nv_v nv_t) as Hnv' by (by apply (Hbase h)).
  exists cell. pose proof (Hold' h (λ _ _, eq_refl)) as Hc0.
  destruct cell as [es|ps], c as [| | | | |ts|kts]; try done; simpl in Hfin |- *.
  - rewrite !(strict_eq_int_represents _ _ _ _ Hkey).
    destruct (JS.strict_eq_int key_t (-1)).
    { injection Hfin as <-. eexists. split; [done|]. split; [done|].
      apply Hinst. intros h' Hsame. simpl. apply Forall2_app; [by apply (Hold' h')|].
      constructor; [by apply Hbase|constructor]. }
    destruct (JS.strict_eq_int key_t (-2)).
    { pose proof (represents_inv _ _ _ Hnv) as Hinv.
      destruct nv_v as [| |b|q|s|ln]; subst; simpl in *;
        try (injection Hfin as <-; by exists h).
      destruct Hinv as [(items & its & Hln & -> & Hall)|(ps & kts & Hln & -> & Hall)].
      - rewrite (Hsub _ _ Hln). simpl. injection Hfin as <-.
        eexists. split; [done|]. split; [done|].
        apply Hinst. intros h' Hsame. simpl. apply Forall2_app; [by apply (Hold' h')|].
        eapply Forall2_impl; [exact Hall|]. intros. by apply Hbase.
      - rewrite (Hsub _ _ Hln). simpl. injection Hfin as <-. by exists h. }
    rewrite (is_null_represents _ _ _ Hnv). destruct (JS.is_null nv_t).
    { rewrite (to_number_represents _ _ _ Hkey').
      destruct (JS.to_number key_t) as [[q|]| |]; simpl in *; try done.
      2:{ injection Hfin as <-. by exists h. }
      rewrite (Forall2_length _ _ _ Hc0).
      destruct (_ && _).
      - injection Hfin as <-. eexists. split; [done|]. split; [done|].
        apply Hinst. intros h' Hsame. simpl. apply Forall2_delete. by apply (Hold' h').
      - injection Hfin as <-. by exists h. }
    rewrite (to_property_key_represents _ _ _ Hkey').
    destruct (JS.to_property_key key_t) as [k| |]; simpl in *; try done.
    destruct (set_own_corr h h (CArr es) (VArr ts) k nv_v nv_t c' Hc0 Hnv' Hnv' Hfin)
      as (cell' & Hset & _).
    simpl in Hset. rewrite Hset. simpl.
    eexists. split; [done|]. split; [done|].
    apply Hinst. intros h' Hsame.
    destruct (set_own_corr h h' (CArr es) (VArr ts) k nv_v nv_t c'
                (Hold' h' Hsame) Hnv' (Hbase h' Hsame _ _ Hnv) Hfin)
      as (cell'' & Hset' & Hc''). simpl in Hset'. congruence.
  - rewrite (to_property_key_represents _ _ _ Hkey').
    destruct (JS.to_property_key key_t) as [k| |]; simpl in *; try done.
    rewrite (is_null_represents _ _ _ Hnv). destruct (JS.is_null nv_t).
    { injection Hfin as <-. eexists. split; [done|]. split; [done|].
      apply Hinst. intros h' Hsame. simpl. apply aligned_remove_prop. by apply (Hold' h'). }
    destruct (set_own_corr h h (CObj ps) (VObj kts) k nv_v nv_t c' Hc0 Hnv' Hnv' Hfin)
      as (cell' & Hset & _).
    simpl in Hset. rewrite Hset. simpl.
    eexists. split; [done|]. split; [done|].
    apply Hinst. intros h' Hsame.
    destruct (set_own_corr h h' (CObj ps) (VObj kts) k nv_v nv_t c'
                (Hold' h' Hsame) Hnv' (Hbase h' Hsame _ _ Hnv) Hfin)
      as (cell'' & Hset' & Hc''). simpl in Hset'. congruence.
Qed.

(** The traversal, at both levels: on a separately owned [cur] standing
    for [c], with the update array standing in a part [hb] of the store
    apart from it, the store-level traversal returns whenever the
    value-level one does, touches only cells of [cur] and new cells, and
    leaves [cur] standing for the value-level result. *)
Lemma descend_sim hb : ∀ ops ops_t h F cur c r,
  owns h F cur c →
  Forall2 (represents hb) ops ops_t →
  (∀ x y, hb !! x = Some y → h !! x = Some y) →
  F ## dom hb →
  Patcher.descend c ops_t = Ret r →
  ∃ h' b, Store.descend h cur ops = Ret (h', b)
    ∧ (∀ x, x ∈ dom h → x ∉ F → h' !! x = h !! x)
    ∧ match r with
      | Some c' => b = true ∧ represents h' cur c'
      | None => b = false
      end.
Proof.
  induction ops as [|key ops IH]; intros ops_t h F cur c r Ho Hops Hsub Hdisj Hd.
  { apply Forall2_nil_inv_l in Hops as ->. injection Hd as <-. by exists h, false. }
  apply Forall2_cons_inv_l in Hops as (key_t & ops_t' & Hkey & Hops & ->).
  destruct ops as [|next ops].
  { apply Forall2_nil_inv_l in Hops as ->. injection Hd as <-. by exists h, false. }
  apply Forall2_cons_inv_l in Hops as (next_t & rest_t & Hnext & Hrest & ->).
  pose proof (normalize_represents _ _ _ Hkey) as Hnkey.
  destruct ops as [|x ops].
  - (* the final update *)
    apply Forall2_nil_inv_l in Hrest as ->. rewrite descend_final in Hd.
    destruct (not_container c) eqn:Hnc.
    { injection Hd as <-. exists h, false. simpl.
      by rewrite (owns_prim_container _ _ _ _ Ho Hnc). }
    destruct (owns_ref _ _ _ _ Ho Hnc) as [l ->].
    destruct (Patcher.apply_final c _ next_t) as [c'| |] eqn:Hfin; try done.
    injection Hd as <-.
    destruct (final_corr _ _ _ _ _ _ _ _ _ _ Ho Hnkey Hnext Hsub Hdisj Hfin)
      as (cell & h' & Hl & Hfin' & Hsame & Hrep).
    exists h', true. simpl. rewrite Hl. simpl. rewrite Hfin'. simpl.
    split; [done|]. split; [|done].
    intros y _ Hy. apply Hsame. intros ->.
    destruct (owns_cell _ _ _ _ Ho) as (_ & _ & HlF & _). done.
  - (* one step of the path *)
    apply Forall2_cons_inv_l in Hrest as (x_t & rest_t' & Hx & Hrest & ->).
    assert (Forall2 (represents hb) (next :: x :: ops) (next_t :: x_t :: rest_t'))
      as Hall by (by repeat constructor).
    rewrite descend_step in Hd by done. rewrite store_descend_step by done.
    cbv zeta in Hd |- *.
    destruct (not_container c) eqn:Hnc.
    { injection Hd as <-. exists h, false.
      by rewrite (owns_prim_container _ _ _ _ Ho Hnc). }
    destruct (owns_ref _ _ _ _ Ho Hnc) as [l ->].
    destruct (owns_cell _ _ _ _ Ho) as (cell & Hl & HlF & Hold).
    pose proof (owns_dom _ _ _ _ Ho) as Hdom.
    cbn [container]. rewrite Hl. cbn [fmap option_fmap option_map].
    assert (represents h (Store.normalizePropertyKey key)
              (Patcher.normalizePropertyKey key_t)) as Hnkey'.
    { by eapply represents_mono. }
    rewrite (to_property_key_represents _ _ _ Hnkey').
    apply bind_Ret in Hd as (k & Hk & Hd). rewrite Hk. cbn [lift mbind res_bind].
    apply bind_Ret in Hd as (child_t & Hget & Hd).
    apply bind_Ret in Hd as ([parent_t child_t'] & Hstep & Hd).
    destruct (JS.is_undefined child_t || JS.is_null child_t) eqn:Hnull.
    + (* the segment is created *)
      apply bind_Ret in Hstep as (o & Hset & Hstep). injection Hstep as <- <-.
      assert (cell_rep h cell c) as Hc0 by (apply Hold; done).
      destruct (get_own_corr _ _ _ _ _ Hc0 Hget) as (child_v & Hget' & Hchild).
      rewrite Hget'. cbn [mbind res_bind]. rewrite (nullish_represents _ _ _ Hchild), Hnull.
      rewrite (Number_isInteger_represents _ _ _ Hnext).
      set (created := if JS.Number_isInteger next_t then VArr [] else VObj []) in *.
      set (cc := if JS.Number_isInteger next_t then CArr [] else CObj []).
      destruct (alloc_cell cc h) as [n h1] eqn:Halloc.
      apply alloc_cell_spec in Halloc as [Hn ->].
      assert (n ≠ l) as Hnl by congruence.
      assert (JS.is_null created || JS.is_undefined created = false) as Hcn.
      { unfold created. by destruct (JS.Number_isInteger next_t). }
      rewrite Hcn in Hd.
      apply bind_Ret in Hd as (r' & Hrec & Hd).
      destruct (create_corr (<[n := cc]> h) h cell c k n _ _ _ Hc0 Hget Hnull Hset)
        as (cell' & Hset' & _).
      cbv beta iota zeta. rewrite Hset'. cbn [mbind res_bind Store.is_null Store.is_undefined orb].
      set (h2 := <[l := cell']> (<[n := cc]> h)).
      assert (owns h2 ({[n]} ∪ ∅) (RRef n) created) as Hon.
      { assert (h2 !! n = Some cc) as Hn2.
        { unfold h2. rewrite lookup_insert_ne by done. apply lookup_insert_eq. }
        unfold created, cc in *. destruct (JS.Number_isInteger next_t).
        - apply owns_arr with []; [done|constructor|set_solver].
        - apply owns_obj with []; [done|constructor|set_solver]. }
      assert (hb !! l = None) as Hlb.
      { apply not_elem_of_dom. set_solver. }
      assert (∀ x y, hb !! x = Some y → h2 !! x = Some y) as Hsub2.
      { intros y z Hy. unfold h2.
        rewrite lookup_insert_ne by congruence.
        rewrite lookup_insert_ne; [by apply Hsub|].
        intros ->. apply Hsub in Hy. congruence. }
      assert (({[n]} ∪ ∅ : gset loc) ## dom hb) as Hdisj2.
      { assert (n ∉ dom hb); [|set_solver].
        intros [z Hz]%elem_of_dom. apply Hsub in Hz. congruence. }
      destruct (IH _ _ _ _ _ _ Hon Hall
                  Hsub2 Hdisj2 Hrec) as (h' & b & Hrec' & Hsame & Hres).
      exists h', b. split; [exact Hrec'|].
      assert (∀ y, y ∈ dom h → y ≠ l → h' !! y = h !! y) as Hsame'.
      { intros y Hy Hyl. assert (y ≠ n).
        { intros ->. apply elem_of_dom in Hy as [? ?]. congruence. }
        rewrite Hsame.
        - unfold h2. by rewrite !lookup_insert_ne.
        - unfold h2. rewrite !dom_insert. set_solver.
        - set_solver. }
      split.
      { intros y Hy HyF. apply Hsame'; [done|]. intros ->. done. }
      destruct r' as [child'|]; injection Hd as <-; [|done].
      destruct Hres as [-> Hrep]. split; [done|].
      assert (cell_rep h' cell c) as Hc'.
      { apply Hold. intros y Hy Hyl. apply Hsame'; [|done]. by apply Hdom. }
      destruct (create_corr (<[n := cc]> h) h' cell c k n _ _ _ Hc' Hget Hnull Hset)
        as (cell'' & Hset'' & Hput).
      assert (cell'' = cell') as -> by congruence.
      eapply represents_cell; [|by apply Hput].
      rewrite Hsame.
      * unfold h2. apply lookup_insert_eq.
      * unfold h2. rewrite !dom_insert. set_solver.
      * set_solver.
    + (* the segment exists *)
      injection Hstep as <- <-.
      destruct (parent_after_child _ _ _ _ _ _ Ho Hget Hnull)
        as (cell0 & child_v & Fi & Hl0 & Hget' & Hoi & HFi & HlFi & Hput).
      assert (cell0 = cell) as -> by congruence.
      rewrite Hget'. cbn [mbind res_bind]. rewrite (owns_nullish _ _ _ _ Hoi), Hnull.
      cbn [mbind res_bind].
      rewrite (orb_comm (Store.is_null child_v)), (owns_nullish _ _ _ _ Hoi), Hnull.
      rewrite orb_comm, Hnull in Hd.
      apply bind_Ret in Hd as (r' & Hrec & Hd).
      assert (Fi ## dom hb) as Hdisji by set_solver.
      destruct (IH _ _ _ _ _ _ Hoi Hall
                  Hsub Hdisji Hrec) as (h' & b & Hrec' & Hsame & Hres).
      exists h', b. split; [exact Hrec'|]. split.
      { intros y Hy HyF. apply Hsame; [done|set_solver]. }
      destruct r' as [child'|]; injection Hd as <-; [|done].
      destruct Hres as [-> Hrep]. split; [done|].
      apply Hput; [|done]. intros y Hy HyFi. apply Hsame; [|done]. by apply Hdom.
Qed.

(** Line 94: a document that is not a plain object is replaced by an
    empty one. *)
Lemma init_cases Dt :
  let cs := if negb (truthy Dt) || negb (typeof_object Dt) || Array_isArray Dt
            then VObj [] else Dt in
  (∃ kts, Dt = VObj kts ∧ cs = Dt) ∨ ((∀ kts, Dt ≠ VObj kts) ∧ cs = VObj []).
Proof.
  destruct Dt as [| |b|q|s|ts|kts]; simpl; try by right.
  - right. by destruct b.
  - right. by destruct (Qnum q =? 0).
  - right. by destruct (String.eqb s "").
  - left. by exists kts.
Qed.

(** The two embeddings of [applyStateUpdate] agree: when the document
    and the update array of a store stand for the trees [Dt] and [opt],
    and the function on trees returns [R], the function on the store
    returns a value that stands for [R] in the store it leaves, in
    which the document and the update array stand for the trees they
    stood for and every cell of the store it was given is as it was.
    For an update of two elements or more the value returned is the
    document itself when the path is turned back, and a cell that was
    not in the store otherwise. *)
Theorem applyStateUpdate_simulation h D op Dt opt R :
  represents h D Dt → represents h op opt →
  Patcher.applyStateUpdate Dt opt = Ret R →
  ∃ r h', Store.applyStateUpdate h D op = Ret (r, h')
    ∧ represents h' r R ∧ represents h' D Dt ∧ represents h' op opt
    ∧ (∀ l c, h !! l = Some c → h' !! l = Some c)
    ∧ (∀ ops, opt = VArr ops → (2 ≤ length ops)%nat →
         (blocked (working_copy Dt) ops → r = D)
         ∧ (¬ blocked (working_copy Dt) ops → ∃ l, r = RRef l ∧ h !! l = None)).
Proof.
  intros HD Hop Happ. unfold Store.applyStateUpdate.
  pose proof (represents_inv _ _ _ Hop) as Hinv.
  destruct op as [| |b|q|s|lo]; subst; cbn [container]; simpl in Happ;
    try (injection Happ as <-; by exists D, h).
  destruct Hinv as [(ops & ops_t & Hlo & -> & Hops)|(ps & kts & Hlo & -> & _)].
  2:{ rewrite Hlo. cbn [fmap option_fmap option_map]. simpl in Happ.
      injection Happ as <-. by exists D, h. }
  rewrite Hlo. simpl in Happ. cbn [fmap option_fmap option_map].
  rewrite (Forall2_length _ _ _ Hops).
  destruct (Nat.ltb_spec (length ops_t) 2) as [Hshort|Hlen].
  { injection Happ as <-. exists D, h. do 5 (split; [done|]).
    intros ops' [= <-] Hlen'. lia. }
  fold (working_copy Dt).
  set (cs_t := if negb (truthy Dt) || negb (typeof_object Dt) || Array_isArray Dt
               then VObj [] else Dt) in *.
  assert (∃ cs h0, (if needs_init h D
                    then let '(l, h) := alloc_cell (CObj []) h in (RRef l, h)
                    else (D, h)) = (cs, h0)
                   ∧ represents h0 cs cs_t
                   ∧ (∀ x y, h !! x = Some y → h0 !! x = Some y)
                   ∧ (cs = D ∨ cs_t = VObj [])
                   ∧ ∃ props, cs_t = VObj props)
    as (cs & h0 & -> & Hcs & Hsub0 & Hinput & props & Hprops).
  { assert (∀ t, (∀ kts, t ≠ VObj kts) → represents h D t → needs_init h D = true) as Hinit.
    { intros t Ht Hr. pose proof (represents_inv _ _ _ Hr) as Hi. unfold needs_init.
      destruct D as [| |b|q|s|l]; try done. simpl.
      destruct Hi as [(? & ? & -> & _)|(? & kts & _ & -> & _)]; [done|by destruct (Ht kts)]. }
    assert (∃ l0 h0, alloc_cell (CObj []) h = (l0, h0)
                     ∧ represents h0 (RRef l0) (VObj [])
                     ∧ ∀ x y, h !! x = Some y → h0 !! x = Some y) as (l0 & h0 & Ha & Hr0 & Hs0).
    { destruct (alloc_cell (CObj []) h) as [l0 h0] eqn:Ha. exists l0, h0.
      apply alloc_cell_spec in Ha as [Hfresh ->]. split; [done|]. split.
      - apply represents_obj with []; [apply lookup_insert_eq|constructor].
      - intros x y Hx. rewrite lookup_insert_ne; [done|congruence]. }
    destruct (init_cases Dt) as [(kts & -> & Hcs)|[Hno Hcs]]; fold cs_t in Hcs; rewrite Hcs.
    - pose proof (represents_inv _ _ _ HD) as Hi. unfold needs_init.
      destruct D as [| |b|q|s|l]; try done. cbn [container].
      destruct Hi as [(? & ? & _ & ? & _)|(ps & ? & -> & _)]; [done|].
      cbn [fmap option_fmap option_map].
      exists (RRef l), h. by eauto 10.
    - rewrite (Hinit _ Hno HD), Ha. exists (RRef l0), h0. by eauto 10. }
  apply bind_Ret in Happ as (st & Hclone & Happ).
  apply bind_Ret in Happ as (r & Hd & Happ). injection Happ as <-.
  assert (st = working_copy Dt) as Hst.
  { unfold working_copy. fold cs_t. rewrite Hprops in Hclone |- *. by injection Hclone as <-. }
  unfold Store.json_clone. rewrite (represents_tree_of _ _ _ Hcs), Hclone.
  cbn [lift mbind res_bind].
  destruct (alloc st h0) as [state h1] eqn:Halloc.
  destruct (alloc_owns _ _ _ _ Halloc) as (F & Hown & HF & _ & Hsub1).
  assert (Forall2 (represents h0) ops ops_t) as Hops0.
  { eapply Forall2_impl; [exact Hops|]. intros. by eapply represents_mono. }
  destruct (descend_sim h0 _ _ _ _ _ _ _ Hown Hops0 Hsub1 HF Hd)
    as (h' & b & Hd' & Hsame & Hres).
  rewrite Hd'. cbn [mbind res_bind].
  assert (∀ x y, h0 !! x = Some y → h' !! x = Some y) as Hsub'.
  { intros x y Hx. rewrite Hsame; [by apply Hsub1| |].
    - apply elem_of_dom. eexists. by apply Hsub1.
    - assert (x ∈ dom h0) by (apply elem_of_dom; eauto). set_solver. }
  assert (∀ x y, h !! x = Some y → h' !! x = Some y) as Hsub.
  { intros. by apply Hsub', Hsub0. }
  eexists _, h'. split; [done|]. split; [|split; [|split; [|split]]].
  - destruct r as [c'|]; simpl.
    + by destruct Hres as [-> ?].
    + rewrite Hres. by apply (represents_mono h0 h').
  - by apply (represents_mono h h').
  - by apply (represents_mono h h').
  - done.
  - intros ops' [= <-] _. rewrite <- Hst. split.
    + intros Hb. apply (descend_blocked _ _ Hlen) in Hb. rewrite Hb in Hd.
      injection Hd as <-. rewrite Hres. destruct Hinput as [->|Hempty]; [done|].
      exfalso. rewrite Hempty in Hclone. injection Hclone as <-.
      apply (not_blocked_empty ops_t). by apply (descend_blocked _ _ Hlen).
    + intros Hnb. destruct r as [c'|].
      2:{ destruct Hnb. by apply (descend_blocked _ _ Hlen). }
      destruct Hres as [-> _].
      assert (not_container st = false) as Hnc.
      { rewrite Hprops in Hclone. by injection Hclone as <-. }
      destruct (owns_ref _ _ _ _ Hown Hnc) as [ls ->].
      destruct (owns_cell _ _ _ _ Hown) as (_ & _ & HlsF & _).
      exists ls. split; [done|].
      destruct (h !! ls) as [c0|] eqn:E; [|done].
      apply Hsub0 in E. assert (ls ∈ dom h0) by (apply elem_of_dom; eauto). set_solver.
Qed.

(** In particular, for every document and every update array built in
    a store of their own: the call on the store returns whenever the
    function on trees does, its result stands for the tree that one
    returns, and the document stands for the tree it stood for. *)
Corollary applyStateUpdate_on_trees Dt opt R D h0 op h :
  alloc Dt ∅ = (D, h0) → alloc opt h0 = (op, h) →
  Patcher.applyStateUpdate Dt opt = Ret R →
  ∃ r h', Store.applyStateUpdate h D op = Ret (r, h')
    ∧ represents h' r R ∧ represents h' D Dt.
Proof.
  intros HaD Haop Happ.
  destruct (alloc_owns _ _ _ _ HaD) as (FD & HoD & _ & _ & _).
  destruct (alloc_owns _ _ _ _ Haop) as (Fop & Hoop & _ & _ & Hsub).
  apply owns_represents in HoD, Hoop.
  apply (represents_mono _ _ _ _ Hsub) in HoD.
  destruct (applyStateUpdate_simulation _ _ _ _ _ _ HoD Hoop Happ)
    as (r & h' & Hret & Hr & HD' & _).
  by exists r, h'.
Qed.

(** C4. [applyStateUpdate] does not mutate the document it is given:
    whether the call returns or raises, every cell the store had
    before it is unchanged, so the input reads back as the same tree.
    For an update that is not an array of two elements or more the
    call returns the input itself and leaves the store untouched.  For
    an update of two elements or more, on a document and an update
    that stand for trees: when the path of the update comes to a value
    that is no container the call returns the input itself; otherwise
    it returns a new object, one that was not in the store before,
    which stands for the updated tree. *)
Theorem C4_input_not_mutated h D op :
  (∀ r h', Store.applyStateUpdate h D op = Ret (r, h') →
     (∀ l c, h !! l = Some c → h' !! l = Some c)
     ∧ (∀ fuel t, read fuel h D = Some t → read fuel h' D = Some t)
     ∧ (r = D ∨ ∃ l, r = RRef l ∧ h !! l = None))
  ∧ (∀ e h', Store.applyStateUpdate h D op = Throw (e, h') →
       (∀ l c, h !! l = Some c → h' !! l = Some c)
       ∧ (∀ fuel t, read fuel h D = Some t → read fuel h' D = Some t))
  ∧ ((∀ l ops, container h op = Some (l, CArr ops) → (length ops < 2)%nat) →
     Store.applyStateUpdate h D op = Ret (D, h))
  ∧ (∀ Dt ops R,
       represents h D Dt → represents h op (VArr ops) → (2 ≤ length ops)%nat →
       Patcher.applyStateUpdate Dt (VArr ops) = Ret R →
       ∃ r h', Store.applyStateUpdate h D op = Ret (r, h')
         ∧ represents h' r R
         ∧ (blocked (working_copy Dt) ops → r = D)
         ∧ (¬ blocked (working_copy Dt) ops → ∃ l, r = RRef l ∧ h !! l = None)).
Proof.
  destruct (applyStateUpdate_frame h D op) as [Hret Hraise].
  split; [|split; [|split]].
  - intros r h' Happ. destruct (Hret r h' Happ) as [Hframe Hr].
    split; [done|]. split; [|done]. intros fuel t. by apply read_mono.
  - intros e h' Happ. pose proof (Hraise e h' Happ) as Hframe.
    split; [done|]. intros fuel t. by apply read_mono.
  - intros Hshort. unfold Store.applyStateUpdate.
    destruct (container h op) as [[lo [ops|ps]]|] eqn:Hop; try done.
    specialize (Hshort _ _ eq_refl).
    by destruct (Nat.ltb_spec (length ops) 2) as [_|?]; [|lia].
  - intros Dt ops R HD Hop Hlen Happ.
    destruct (applyStateUpdate_simulation _ _ _ _ _ _ HD Hop Happ)
      as (r & h' & Hstore & Hr & _ & _ & _ & Hkind).
    exists r, h'. split; [done|]. split; [done|]. by apply Hkind.
Qed.

Lemma C4_input_not_mutated_witness :
  let doc := VObj [("a"%string, VArr [VInt 1; VInt 2])] in
  let ops := [VStr "a"; VInt (-1); VInt 3] in
  let a := alloc doc ∅ in
  let b := alloc (VArr ops) a.2 in
  ∃ r h' l,
    Store.applyStateUpdate b.2 a.1 b.1 = Ret (r, h')
    ∧ r = RRef l ∧ b.2 !! l = None
    ∧ read 2 h' a.1 = Some doc
    ∧ represents h' r (VObj [("a"%string, VArr [VInt 1; VInt 2; VInt 3])]).
Proof.
  intros doc ops a b.
  destruct (C4_input_not_mutated b.2 a.1 b.1) as (Hret & _ & _ & Hnew).
  destruct (Hnew doc ops (VObj [("a"%string, VArr [VInt 1; VInt 2; VInt 3])]))
    as (r & h' & Happ & Hrep & _ & Hfresh).
  - by exists 2%nat.
  - by exists 1%nat.
  - simpl. lia.
  - reflexivity.
  - destruct Hfresh as (l & -> & Hl).
    { intros Hb. apply descend_blocked in Hb; [|simpl; lia]. discriminate Hb. }
    destruct (Hret _ _ Happ) as (_ & Hread & _).
    exists (RRef l), h', l. repeat split; try done. by apply Hread.
Defined.

End Simulation.

(** *** Registry and router *)
Section RegistryRouter.
Import Registry Router.

Lemma deliver_trace key ev w w' : deliver key ev w = Ret w' → trace w' = trace w.
Proof.
  destruct ev; simpl; try (by intros [= <-]).
  destruct (messageHandler _ _ _); simpl; try done. by intros [= <-].
Qed.

Lemma deliver_all_trace key evs : ∀ w w',
  deliver_all key evs w = Ret w' → trace w' = trace w.
Proof.
  induction evs as [|ev evs IH]; intros w w'; simpl; [by intros [= <-]|].
  destruct (deliver key ev w) as [w1| |] eqn:Hd; cbn [mbind res_bind]; try done.
  intros Hrest. rewrite (IH _ _ Hrest). by eapply deliver_trace.
Qed.

(** A connection attempt issues no HTTP request. *)
Lemma getFAHConnection_no_http i h p t o w r w' :
  getFAHConnection i h p t o w = (r, w') →
  ∃ evs, trace w' = trace w ++ evs ∧ existsb is_http evs = false.
Proof.
  unfold getFAHConnection.
  destruct (fahConnections w !! conn_key i h p) as [conn|] eqn:Hc.
  - destruct (is_open (sock_state conn)).
    + intros [= <- <-]. exists []. by rewrite app_nil_r.
    + destruct o; intros [= <- <-]; simpl; rewrite <- ?app_assoc; eauto.
  - destruct o; intros [= <- <-]; simpl; rewrite <- ?app_assoc; eauto.
Qed.

Lemma fahWebSocketCommand_no_http i h p command data e w r w' :
  fahWebSocketCommand i h p command data e w = Ret (r, w') →
  ∃ evs, trace w' = trace w ++ evs ∧ existsb is_http evs = false.
Proof.
  unfold fahWebSocketCommand.
  destruct (getFAHConnection i h p (now e) (handshake e) w) as [[err|ws] w1] eqn:Hg;
    apply getFAHConnection_no_http in Hg as (evs & Hevs & Hno).
  - destruct (_ || _); intros [= <- <-]; eauto.
  - destruct (deliver_all _ _ _) as [w2| |] eqn:Hd; cbn [mbind res_bind]; try done.
    apply deliver_all_trace in Hd. simpl in Hd.
    destruct (truthy _); intros [= <- <-]; rewrite Hd, Hevs, <- app_assoc;
      eexists; (split; [reflexivity|]); rewrite existsb_app, Hno; reflexivity.
Qed.

Lemma fahWebSocketCommand_no_state i h p command data e w r w' ws w1 :
  getFAHConnection i h p (now e) (handshake e) w = (inr ws, w1) →
  fahWebSocketCommand i h p command data e w = Ret (r, w') →
  truthy (currentDocument (conn_key i h p) w') = false →
  r = Failure "No machine state available".
Proof.
  unfold fahWebSocketCommand. intros ->.
  destruct (deliver_all _ _ _) as [w2| |] eqn:Hd; cbn [mbind res_bind]; try done.
  destruct (truthy (currentDocument _ w2)) eqn:Ht; intros [= <- <-]; [|done].
  congruence.
Qed.

Lemma fahRequest_command i h p endpoint method data e w :
  reads_document endpoint = false →
  fahRequest i h p endpoint method data e w =
    let '(command, commandData) :=
      if String.eqb endpoint "pause" || String.eqb endpoint "unpause" then
        ("state"%string,
         VObj [("state"%string,
                VStr (if String.eqb endpoint "pause" then "pause" else "fold"))])
      else (endpoint, if truthy data then data else VObj []) in
    rw ← fahWebSocketCommand i h p command commandData e w;
    if succeeded rw.1 then Ret rw
    else Ret (http_fallback h p endpoint method data e rw.2).
Proof.
  intros Hr. unfold fahRequest. rewrite Hr.
  destruct (_ || _); destruct (fahWebSocketCommand _ _ _ _ _ _ _) as [[r w1]| |];
    reflexivity.
Qed.

(** C1, as the code has it.  [fahWebSocketCommand] issues no HTTP
    request, and when the socket was obtained but no document is there
    after the settle delay it returns the failure "No machine state
    available" as data; the push-config route, which calls it directly,
    therefore never reaches the HTTP fallback.  [fahRequest], for
    [pause] and [unpause], continues with the HTTP fallback after every
    unsuccessful command result, this failure included. *)
Theorem C1_no_state_failure :
  (∀ i h p command data e w r w',
     fahWebSocketCommand i h p command data e w = Ret (r, w') →
     (∃ evs, trace w' = trace w ++ evs ∧ existsb is_http evs = false)
     ∧ (∀ ws w1,
          getFAHConnection i h p (now e) (handshake e) w = (inr ws, w1) →
          truthy (currentDocument (conn_key i h p) w') = false →
          r = Failure "No machine state available"))
  ∧ (∀ instances instanceId reqBody e w resp w',
       proxy_route instances instanceId "config" "POST" reqBody e w = Ret (resp, w') →
       ∃ evs, trace w' = trace w ++ evs ∧ existsb is_http evs = false)
  ∧ (∀ i h p endpoint method data e w error w1,
       endpoint = "pause"%string ∨ endpoint = "unpause"%string →
       fahWebSocketCommand i h p "state"
         (VObj [("state"%string,
                VStr (if String.eqb endpoint "pause" then "pause" else "fold"))]) e w
         = Ret (Failure error, w1) →
       fahRequest i h p endpoint method data e w
         = Ret (http_fallback h p endpoint method data e w1)).
Proof.
  split; [|split].
  - intros i h p command data e w r w' Hcmd. split.
    + by eapply fahWebSocketCommand_no_http.
    + intros ws w1 Hg. by eapply fahWebSocketCommand_no_state.
  - intros instances instanceId reqBody e w resp w'. unfold proxy_route.
    destruct (find_instance instances instanceId) as [inst|].
    2:{ intros [= <- <-]. exists []. by rewrite app_nil_r. }
    destruct (negb (inst_enabled inst)).
    { intros [= <- <-]. exists []. by rewrite app_nil_r. }
    cbn [String.eqb Ascii.eqb Bool.eqb andb].
    destruct (match get_own reqBody "config" with Throw _ => Unmodelled | r => r end)
      as [config| |]; cbn [mbind res_bind]; try done.
    destruct (negb (truthy config)).
    { intros [= <- <-]. exists []. by rewrite app_nil_r. }
    destruct (fahWebSocketCommand _ _ _ _ _ _ _) as [[r w1]| |] eqn:Hcmd;
      cbn [mbind res_bind]; try done.
    apply fahWebSocketCommand_no_http in Hcmd.
    destruct r; by intros [= <- <-].
  - intros i h p endpoint method data e w error w1 Hep Hcmd.
    rewrite fahRequest_command by (by destruct Hep as [-> | ->]).
    assert (String.eqb endpoint "pause" || String.eqb endpoint "unpause" = true) as ->
      by (by destruct Hep as [-> | ->]).
    by rewrite Hcmd.
Qed.

Lemma C1_no_state_failure_witness :
  ∃ w',
    fahWebSocketCommand "local" "127.0.0.1" 7396 "config"
      (VObj [("config"%string, VObj [("cpus"%string, VInt 4)])])
      refusing_daemon idle_world
    = Ret (Failure "No machine state available", w')
    ∧ existsb is_http (trace w') = false.
Proof.
  destruct C1_no_state_failure as [Hcmd _].
  destruct (fahWebSocketCommand "local" "127.0.0.1" 7396 "config"
              (VObj [("config"%string, VObj [("cpus"%string, VInt 4)])])
              refusing_daemon idle_world) as [[r w']| |] eqn:Heq;
    [|vm_compute in Heq; discriminate..].
  destruct (Hcmd _ _ _ _ _ _ _ _ _ Heq) as [(evs & Htr & Hno) Hstate].
  exists w'. split.
  - f_equal. f_equal. eapply Hstate; [reflexivity|].
    vm_compute in Heq. injection Heq as <- <-. reflexivity.
  - simpl in Htr. by rewrite Htr.
Defined.

(** Pausing a daemon that accepts the socket but sends no state: the
    router goes on to the three HTTP URLs, and what it returns is the
    failure of the last of them. *)
Lemma C1_counterexample :
  ∃ r w',
    fahRequest "local" "127.0.0.1" 7396 "pause" "POST" (VObj [])
      refusing_daemon idle_world = Ret (r, w')
    ∧ r = Failure "Connection refused or timed out"
    ∧ filter (λ ev, is_http ev = true) (trace w') =
        [ HttpRequest "POST" "http://127.0.0.1:7396/api/pause" (Some (VObj []));
          HttpRequest "POST" "http://127.0.0.1:7396/pause" (Some (VObj []));
          HttpRequest "POST" "http://127.0.0.1:7396/api/v1/pause" (Some (VObj [])) ].
Proof. eexists _, _. split; [vm_compute; reflexivity|]. split; reflexivity. Qed.

Lemma try_urls_trace all method data e : ∀ todo w ro w',
  try_urls all todo method data e w = (ro, w') →
  ∃ evs, trace w' = trace w ++ evs ∧ forallb is_http evs = true.
Proof.
  induction todo as [|url todo IH]; simpl; intros w ro w'.
  - intros [= <- <-]. exists []. by rewrite app_nil_r.
  - set (w1 := emit _ w).
    assert (∃ evs, trace w1 = trace w ++ evs ∧ forallb is_http evs = true) as Hone
      by (by eexists [_]).
    destruct (http e url) as [d|code resp msg]; [by intros [= <- <-]|].
    destruct (_ =? _)%nat.
    + destruct (_ || _); [by intros [= <- <-]|].
      destruct resp as [[? ?]|]; by intros [= <- <-].
    + intros (evs & Hevs & Hall)%IH. subst w1. simpl in Hevs.
      rewrite <- app_assoc in Hevs. eexists. split; [exact Hevs|]. done.
Qed.

Lemma http_fallback_trace h p endpoint method data e w r w' :
  http_fallback h p endpoint method data e w = (r, w') →
  ∃ evs, trace w' = trace w ++ evs ∧ forallb is_http evs = true.
Proof.
  unfold http_fallback. destruct (try_urls _ _ _ _ _ _) as [ro w1] eqn:Ht.
  apply try_urls_trace in Ht. by destruct ro; intros [= <- <-].
Qed.

(** C8. Once the socket is there, [pause] sends the command frame
    [{cmd: "state", time, state: "pause"}] and [unpause] sends
    [{cmd: "state", time, state: "fold"}], and no other frame goes out
    on the socket after it. *)
Theorem C8_pause_resume_mapping i h p endpoint method data e w r w' ws w1 :
  endpoint = "pause"%string ∨ endpoint = "unpause"%string →
  getFAHConnection i h p (now e) (handshake e) w = (inr ws, w1) →
  fahRequest i h p endpoint method data e w = Ret (r, w') →
  ∃ evs,
    trace w' =
      trace w1
      ++ WsSend (sock_id ws)
           (VObj [("cmd"%string, VStr "state"); ("time"%string, VStr (now e));
                  ("state"%string,
                   VStr (if String.eqb endpoint "pause" then "pause" else "fold"))])
         :: evs
    ∧ forallb is_http evs = true.
Proof.
  intros Hep Hg. rewrite fahRequest_command by (by destruct Hep as [-> | ->]).
  assert (String.eqb endpoint "pause" || String.eqb endpoint "unpause" = true) as ->
    by (by destruct Hep as [-> | ->]).
  unfold fahWebSocketCommand. rewrite Hg.
  destruct (deliver_all _ _ _) as [w2| |] eqn:Hd; cbn [mbind res_bind]; try done.
  apply deliver_all_trace in Hd. simpl in Hd.
  assert (command_request "state" (now e)
            (VObj [("state"%string,
                    VStr (if String.eqb endpoint "pause" then "pause" else "fold"))])
          = VObj [("cmd"%string, VStr "state"); ("time"%string, VStr (now e));
                  ("state"%string,
                   VStr (if String.eqb endpoint "pause" then "pause" else "fold"))])
    as Hreq by reflexivity.
  rewrite Hreq in Hd.
  destruct (truthy (currentDocument _ w2)); cbn [mbind res_bind succeeded fst snd].
  - intros [= <- <-]. by exists [].
  - destruct (http_fallback _ _ _ _ _ _ _) as [r3 w3] eqn:Hf. intros [= <- <-].
    apply http_fallback_trace in Hf as (evs & Hevs & Hall).
    exists evs. by rewrite Hevs, Hd, <- app_assoc.
Qed.

Lemma C8_pause_resume_mapping_witness :
  ∃ evs r w',
    fahRequest "local" "127.0.0.1" 7396 "unpause" "POST" (VObj [])
      refusing_daemon idle_world = Ret (r, w')
    ∧ trace w' =
        [ NewWebSocket "ws://127.0.0.1:7396/api/websocket";
          WsSend 0 (logEnableRequest "2024-01-01T00:00:00.000Z");
          WsSend 0 (VObj [("cmd"%string, VStr "state");
                          ("time"%string, VStr "2024-01-01T00:00:00.000Z");
                          ("state"%string, VStr "fold")]) ] ++ evs.
Proof.
  destruct (fahRequest "local" "127.0.0.1" 7396 "unpause" "POST" (VObj [])
              refusing_daemon idle_world) as [[r w']| |] eqn:Heq;
    [|vm_compute in Heq; discriminate..].
  destruct (C8_pause_resume_mapping "local" "127.0.0.1" 7396 "unpause" "POST" (VObj [])
              refusing_daemon idle_world r w'
              {| sock_id := 0; sock_state := OPEN |}
              (getFAHConnection "local" "127.0.0.1" 7396 (now refusing_daemon)
                 (handshake refusing_daemon) idle_world).2)
    as (evs & Htr & _); [by right | reflexivity | exact Heq |].
  exists evs, r, w'. split; [reflexivity|]. exact Htr.
Defined.

(** C9. After a close or an error event of the transport, the
    registry holds neither the connection nor the document of the key:
    the document reads as absent, and the next [getFAHConnection] for
    the key starts a new WebSocket handshake, registers the new socket
    when it opens, and finds no document. *)
Theorem C9_teardown_clears_registry i h p ev w :
  ev = CloseEvent ∨ ev = ErrorEvent →
  ∃ w',
    deliver (conn_key i h p) ev w = Ret w'
    ∧ fahConnections w' !! conn_key i h p = None
    ∧ machineData w' !! conn_key i h p = None
    ∧ currentDocument (conn_key i h p) w' = VUndef
    ∧ ∀ t outcome,
        let rw := getFAHConnection i h p t outcome w' in
        (∃ evs, trace rw.2 = trace w' ++ NewWebSocket (ws_url h p) :: evs)
        ∧ machineData rw.2 !! conn_key i h p = None
        ∧ match rw.1 with
          | inr ws =>
              outcome = Opened
              ∧ fahConnections rw.2 !! conn_key i h p = Some ws
              ∧ sock_id ws = length (trace w')
          | inl _ => outcome ≠ Opened
          end.
Proof.
  intros Hev. exists (forget (conn_key i h p) w).
  split; [by destruct Hev as [-> | ->]|].
  assert (fahConnections (forget (conn_key i h p) w) !! conn_key i h p = None) as Hc
    by apply lookup_delete_eq.
  assert (machineData (forget (conn_key i h p) w) !! conn_key i h p = None) as Hm
    by apply lookup_delete_eq.
  split; [done|]. split; [done|]. split; [unfold currentDocument; by rewrite Hm|].
  intros t outcome rw. subst rw. unfold getFAHConnection. rewrite Hc.
  destruct outcome; simpl; (split; [eexists; by rewrite <- ?app_assoc|]);
    (split; [done|]).
  - split; [done|]. by rewrite lookup_insert_eq.
  - done.
  - done.
Qed.

Lemma C9_teardown_clears_registry_witness :
  ∃ w',
    deliver (conn_key "local" "127.0.0.1" 7396) CloseEvent
      {| fahConnections :=
           {[ conn_key "local" "127.0.0.1" 7396 := {| sock_id := 0; sock_state := OPEN |} ]};
         machineData :=
           {[ conn_key "local" "127.0.0.1" 7396 := VObj [("info"%string, VObj [])] ]};
         trace := [NewWebSocket (ws_url "127.0.0.1" 7396)] |} = Ret w'
    ∧ currentDocument (conn_key "local" "127.0.0.1" 7396) w' = VUndef.
Proof.
  destruct (C9_teardown_clears_registry "local" "127.0.0.1" 7396 CloseEvent
              {| fahConnections :=
                   {[ conn_key "local" "127.0.0.1" 7396 :=
                        {| sock_id := 0; sock_state := OPEN |} ]};
                 machineData :=
                   {[ conn_key "local" "127.0.0.1" 7396 := VObj [("info"%string, VObj [])] ]};
                 trace := [NewWebSocket (ws_url "127.0.0.1" 7396)] |})
    as (w' & Hd & _ & _ & Hdoc & _); [by left|].
  exists w'. by split.
Defined.

End RegistryRouter.

(** ** Further properties of the code *)

(** *** More about the patcher *)
Section PatcherMore.
Import Notions.

Lemma replace_hyphens_length s : String.length (replace_hyphens s) = String.length s.
Proof. induction s as [|c s IH]; simpl; congruence. Qed.

Lemma replace_hyphens_id s : has_hyphen s = false → replace_hyphens s = s.
Proof.
  induction s as [|c s IH]; simpl; [done|].
  destruct (Ascii.eqb c hyphen); simpl; [done|]. intros H. by rewrite IH.
Qed.

Lemma normalize_idem key :
  normalizePropertyKey (normalizePropertyKey key) = normalizePropertyKey key.
Proof.
  destruct key as [| |b|q|s|l|p]; try done. simpl.
  destruct (_ && _) eqn:E; simpl; [|by rewrite E].
  rewrite replace_hyphens_length, E.
  by rewrite (replace_hyphens_id _ (has_hyphen_replace s)).
Qed.

(** X1. [normalizePropertyKey] is idempotent.  On a string it keeps the
    length; a string of 1 to 16 units comes back without a hyphen, a
    longer one and the empty one as they are; and anything that is not
    a string comes back as it is. *)
Theorem X1_normalizePropertyKey_idempotent key :
  normalizePropertyKey (normalizePropertyKey key) = normalizePropertyKey key
  ∧ (∀ s, key = VStr s →
       ∃ s', normalizePropertyKey key = VStr s'
             ∧ String.length s' = String.length s
             ∧ ((String.length s ≤ 16)%nat → has_hyphen s' = false)
             ∧ ((16 < String.length s)%nat → s' = s))
  ∧ ((∀ s, key ≠ VStr s) → normalizePropertyKey key = key).
Proof.
  split; [apply normalize_idem|]. split.
  - intros s ->. simpl.
    destruct (Nat.ltb_spec 0 (String.length s)) as [Hpos|Hz];
      destruct (Nat.leb_spec (String.length s) 16) as [Hle|Hgt]; simpl.
    + exists (replace_hyphens s). split; [done|].
      split; [apply replace_hyphens_length|]. split; [|lia].
      intros _. apply has_hyphen_replace.
    + exists s. split; [done|]. split; [done|]. split; [lia|done].
    + exists s. split; [done|]. split; [done|]. split; [|lia].
      intros _. apply has_hyphen_short. lia.
    + lia.
  - intros Hns. destruct key; try done. by destruct (Hns s).
Qed.

Lemma X1_normalizePropertyKey_idempotent_witness :
  normalizePropertyKey (VStr "work-unit") = VStr "work_unit"
  ∧ normalizePropertyKey (VStr "a-key-longer-than-16") = VStr "a-key-longer-than-16"
  ∧ normalizePropertyKey (VInt (-1)) = VInt (-1).
Proof.
  destruct (X1_normalizePropertyKey_idempotent (VStr "a-key-longer-than-16"))
    as (_ & Hstr & _).
  destruct (Hstr _ eq_refl) as (s' & Hs' & _ & _ & Hlong).
  destruct (X1_normalizePropertyKey_idempotent (VInt (-1))) as (_ & _ & Hother).
  split; [reflexivity|]. split.
  - rewrite Hs'. f_equal. apply Hlong. simpl. lia.
  - apply Hother. discriminate.
Defined.

Lemma applyStateUpdate_obj D ops R :
  (2 ≤ length ops)%nat → applyStateUpdate D (VArr ops) = Ret R →
  ∃ props, R = VObj props.
Proof.
  intros Hlen. unfold applyStateUpdate.
  destruct (Nat.ltb_spec (length ops) 2) as [?|_]; [lia|].
  destruct (init_state D) as [props ->]. cbn [JS.json_clone mbind res_bind].
  destruct (descend _ ops) as [[c'|]| |] eqn:Hd; cbn [mbind res_bind default];
    try done; intros [= <-]; [|by eauto].
  apply descend_kind in Hd. simpl in Hd. destruct c'; try done. eauto.
Qed.

(** X2. Whatever [applyStateUpdate] is given as document, what it
    returns for an update of two elements or more is a plain object. *)
Theorem X2_result_is_plain_object D ops R :
  (2 ≤ length ops)%nat → applyStateUpdate D (VArr ops) = Ret R →
  ∃ props, R = VObj props.
Proof. apply applyStateUpdate_obj. Qed.

Lemma X2_result_is_plain_object_witness :
  ∃ props, applyStateUpdate (VArr [VInt 1; VInt 2]) (VArr [VInt 0; VStr "x"])
           = Ret (VObj props).
Proof.
  destruct (X2_result_is_plain_object (VArr [VInt 1; VInt 2]) [VInt 0; VStr "x"]
              (VObj [("0"%string, VStr "x")])) as [props Hp];
    [simpl; lia|reflexivity|].
  exists props. rewrite <- Hp. reflexivity.
Defined.

(** **** Tables and paths *)

Lemma lookup_replace_prop_ne {V} k k' (x : V) props :
  k' ≠ k → lookup_prop k' (replace_prop k x props) = lookup_prop k' props.
Proof.
  intros Hne. induction props as [|[k0 y] l IH]; simpl; [done|].
  destruct (String.eqb k k0) eqn:E; simpl.
  - apply String.eqb_eq in E. subst k0.
    by destruct (String.eqb_spec k' k).
  - by rewrite IH.
Qed.

Lemma lookup_prop_app_ne {V} k k' (x : V) props :
  k' ≠ k → lookup_prop k' (props ++ [(k, x)]) = lookup_prop k' props.
Proof.
  intros Hne. induction props as [|[k0 y] l IH]; simpl.
  - by destruct (String.eqb_spec k' k).
  - by rewrite IH.
Qed.

Lemma has_own_false {V} k (props : list (string * V)) :
  has_own k props = false ↔ lookup_prop k props = None.
Proof. unfold has_own. by destruct (lookup_prop k props). Qed.

Lemma remove_prop_app_new {V} k (x : V) props :
  lookup_prop k props = None → remove_prop k (props ++ [(k, x)]) = props.
Proof.
  induction props as [|[k0 y] l IH]; simpl.
  - by rewrite String.eqb_refl.
  - destruct (String.eqb k k0); [done|]. intros H. by rewrite IH.
Qed.

Lemma replace_prop_replace {V} k (x y : V) props :
  replace_prop k y (replace_prop k x props) = replace_prop k y props.
Proof.
  induction props as [|[k' z] props IH]; simpl; [done|].
  destruct (String.eqb k k') eqn:E; simpl; rewrite E; [done|]. by rewrite IH.
Qed.

Lemma put_back_put_back cur k x y :
  put_back (put_back cur k x) k y = put_back cur k y.
Proof.
  destruct cur as [| |b|q|s|l|p]; simpl; try done.
  - destruct (array_index k) as [i|] eqn:E; simpl; rewrite ?E; [|done].
    by rewrite list_insert_insert_eq.
  - by rewrite replace_prop_replace.
Qed.

Lemma resolve_cons cur key path target :
  resolve cur (key :: path) = Some target →
  ∃ k child,
    not_container cur = false
    ∧ to_property_key (normalizePropertyKey key) = Ret k
    ∧ get_own cur k = Ret child
    ∧ is_undefined child || is_null child = false
    ∧ resolve child path = Some target.
Proof.
  simpl. destruct (not_container cur) eqn:Hc; [done|].
  destruct (to_property_key _) as [k| |] eqn:Hk; try done.
  destruct (get_own cur k) as [child| |] eqn:Hg; try done.
  destruct (_ || _) eqn:E; [done|]. intros H. by exists k, child.
Qed.

Lemma resolve_child_not_num path : ∀ cur target,
  resolve cur path = Some target → not_container target = false →
  ∀ n, cur ≠ VNum n.
Proof.
  intros cur target Hres Hc n ->. destruct path as [|key path]; simpl in Hres.
  - by injection Hres as <-.
  - done.
Qed.

Lemma plug_plug path : ∀ cur target a b,
  resolve cur path = Some target → not_container target = false →
  plug (plug cur path a) path b = plug cur path b.
Proof.
  induction path as [|key path IH]; intros cur target a b Hres Hc; [done|].
  apply resolve_cons in Hres as (k & child & Hcur & Hk & Hg & Hn & Hres).
  simpl. rewrite Hk, Hg.
  rewrite (get_put_back cur k child) by
    (done || by eapply resolve_child_not_num).
  by rewrite put_back_put_back, (IH child target).
Qed.

Lemma plug_obj path props new :
  (path = [] → ∃ p, new = VObj p) → ∃ props', plug (VObj props) path new = VObj props'.
Proof.
  destruct path as [|key path]; simpl.
  - intros H. destruct (H eq_refl) as [p ->]. eauto.
  - intros _. destruct (to_property_key _) as [k| |]; eauto.
    destruct (lookup_prop k props) as [child|]; simpl; eauto.
    destruct (inherited k); simpl; eauto.
Qed.

Lemma is_json_arr elems : is_json (VArr elems) = true ↔ Forall (λ x, is_json x = true) elems.
Proof.
  simpl. induction elems as [|x l IH]; simpl.
  - split; [constructor|done].
  - rewrite andb_true_iff, Forall_cons, IH. done.
Qed.

Lemma is_json_obj props :
  is_json (VObj props) = true ↔ Forall (λ kx, is_json kx.2 = true) props.
Proof.
  simpl. induction props as [|[k x] l IH]; simpl.
  - split; [constructor|done].
  - rewrite andb_true_iff, Forall_cons, IH. done.
Qed.

Lemma is_json_put_back cur k x :
  is_json cur = true → is_json x = true → is_json (put_back cur k x) = true.
Proof.
  intros Hc Hx. destruct cur as [| |b|q|s|l|p]; simpl put_back; try done.
  - destruct (array_index k) as [i|]; [|done].
    apply is_json_arr. apply is_json_arr in Hc. by apply Forall_insert.
  - apply is_json_obj. apply is_json_obj in Hc.
    induction Hc as [|[k0 y] l Hy Hl IH]; simpl; [constructor|].
    destruct (String.eqb k k0); constructor; done.
Qed.

Lemma is_json_get_own cur k child :
  is_json cur = true → get_own cur k = Ret child →
  is_undefined child = true ∨ is_json child = true.
Proof.
  intros Hc. destruct cur as [| |b|q|s|l|p]; simpl; try done.
  - destruct (String.eqb k "length"); [intros [= <-]; by right|].
    destruct (array_index k) as [i|]; [|done]. intros [= <-].
    destruct (l !! i) as [x|] eqn:E; simpl; [|by left]. right.
    apply is_json_arr in Hc. rewrite Forall_forall in Hc.
    apply Hc. by eapply list_elem_of_lookup_2.
  - destruct (lookup_prop k p) as [x|] eqn:E.
    + intros [= <-]. right. apply is_json_obj in Hc. rewrite Forall_forall in Hc.
      apply lookup_prop_elem in E as [k' Hin]. by apply (Hc (k', x)).
    + destruct (inherited k); [done|]. intros [= <-]. by left.
Qed.

Lemma is_json_plug path : ∀ cur target new,
  is_json cur = true → resolve cur path = Some target → is_json new = true →
  is_json (plug cur path new) = true.
Proof.
  induction path as [|key path IH]; intros cur target new Hc Hres Hn; [done|].
  apply resolve_cons in Hres as (k & child & Hcur & Hk & Hg & Hnn & Hres).
  simpl. rewrite Hk, Hg. apply is_json_put_back; [done|].
  destruct (is_json_get_own _ _ _ Hc Hg) as [Hu|Hj]; [by rewrite Hu in Hnn|].
  by apply (IH child target).
Qed.

Lemma plug_nil_eq cur new : plug cur [] new = new.
Proof. done. Qed.

(** X3. Setting a key of a map and reading it back.  When the path of
    an update ends at a map and the value is not null, the document
    returned has the value under the normalized key, every other key of
    that map as before, and one entry more exactly when the key was not
    there. *)
Theorem X3_set_then_get props path entries s k v :
  is_json (VObj props) = true →
  resolve (VObj props) path = Some (VObj entries) →
  normalizePropertyKey (VStr s) = VStr k →
  is_null v = false →
  has_own k entries = true ∨ k ≠ "__proto__"%string →
  ∃ entries',
    applyStateUpdate (VObj props) (VArr (path ++ [VStr s; v]))
      = Ret (plug (VObj props) path (VObj entries'))
    ∧ resolve (plug (VObj props) path (VObj entries')) path = Some (VObj entries')
    ∧ lookup_prop k entries' = Some v
    ∧ (∀ k', k' ≠ k → lookup_prop k' entries' = lookup_prop k' entries)
    ∧ length entries' =
        if has_own k entries then length entries else S (length entries).
Proof.
  intros Hj Hres Hk Hv Hok.
  rewrite (apply_path _ _ _ _ _ Hj Hres) by done. rewrite Hk.
  cbn [apply_final to_property_key to_string mbind res_bind]. rewrite Hv.
  cbn [set_own]. destruct (has_own k entries) eqn:Hown.
  - exists (replace_prop k v entries). cbn [mbind res_bind].
    split; [done|]. split; [by apply (resolve_plug _ _ _ _ Hres)|].
    split; [by apply lookup_replace_prop|].
    split; [intros; by apply lookup_replace_prop_ne|].
    clear. induction entries as [|[k0 y] l IH]; simpl; [done|].
    destruct (String.eqb k k0); simpl; congruence.
  - destruct Hok as [?|Hne]; [done|].
    destruct (String.eqb_spec k "__proto__") as [?|_]; [done|].
    exists (entries ++ [(k, v)]). cbn [mbind res_bind].
    split; [done|]. split; [by apply (resolve_plug _ _ _ _ Hres)|].
    apply has_own_false in Hown.
    split; [by apply lookup_prop_app_new|].
    split; [intros; by apply lookup_prop_app_ne|].
    rewrite length_app. simpl. lia.
Qed.

Lemma X3_set_then_get_witness :
  ∃ entries',
    applyStateUpdate
      (VObj [("config"%string, VObj [("user"%string, VStr "anon")])])
      (VArr [VStr "config"; VStr "on-idle"; VBool true])
    = Ret (VObj [("config"%string, VObj entries')])
    ∧ lookup_prop "on_idle" entries' = Some (VBool true)
    ∧ lookup_prop "user" entries' = Some (VStr "anon").
Proof.
  destruct (X3_set_then_get [("config"%string, VObj [("user"%string, VStr "anon")])]
              [VStr "config"] [("user"%string, VStr "anon")] "on-idle" "on_idle"
              (VBool true) eq_refl eq_refl eq_refl eq_refl)
    as (entries' & Happ & Hres & Hget & Hothers & _); [by right|].
  exists entries'. split; [|split; [done|]].
  - etrans; [exact Happ|]. reflexivity.
  - by rewrite Hothers.
Defined.

Lemma is_json_resolve path : ∀ cur target,
  is_json cur = true → resolve cur path = Some target → is_json target = true.
Proof.
  induction path as [|key path IH]; intros cur target Hj Hres.
  - by injection Hres as <-.
  - apply resolve_cons in Hres as (k & child & _ & _ & Hg & Hn & Hres).
    destruct (is_json_get_own _ _ _ Hj Hg) as [Hu|Hc]; [by rewrite Hu in Hn|].
    by apply (IH child).
Qed.

Lemma apply_path_json props path target key v R :
  is_json (VObj props) = true →
  resolve (VObj props) path = Some target → not_container target = false →
  apply_final target (normalizePropertyKey key) v = Ret R →
  not_container R = false → is_json R = true →
  ∃ props',
    applyStateUpdate (VObj props) (VArr (path ++ [key; v])) = Ret (VObj props')
    ∧ VObj props' = plug (VObj props) path R
    ∧ is_json (VObj props') = true
    ∧ resolve (VObj props') path = Some R.
Proof.
  intros Hj Hres Hc Hfin HR HjR.
  rewrite (apply_path _ _ _ _ _ Hj Hres Hc), Hfin. cbn [mbind res_bind].
  destruct (plug_obj path props R) as [props' Hp].
  { intros ->. injection Hres as <-. pose proof (apply_final_kind _ _ _ _ Hc Hfin) as Hk.
    destruct R; try done. eauto. }
  exists props'. rewrite Hp. split; [done|]. split; [done|].
  rewrite <- Hp. split; [by eapply is_json_plug|by eapply resolve_plug].
Qed.

Lemma is_json_app l1 l2 :
  is_json (VArr l1) = true → is_json (VArr l2) = true → is_json (VArr (l1 ++ l2)) = true.
Proof. rewrite !is_json_arr. apply Forall_app_2. Qed.

Lemma is_json_props_app p1 p2 :
  is_json (VObj p1) = true → is_json (VObj p2) = true → is_json (VObj (p1 ++ p2)) = true.
Proof. rewrite !is_json_obj. apply Forall_app_2. Qed.

(** X4. An update is undone by the matching delete.  Setting a key
    that a map does not have and then deleting it, or appending to a
    list and then deleting the last index, gives back the document the
    pair started from. *)
Theorem X4_set_then_delete props path :
  is_json (VObj props) = true →
  (∀ entries s k v,
     resolve (VObj props) path = Some (VObj entries) →
     normalizePropertyKey (VStr s) = VStr k →
     lookup_prop k entries = None → k ≠ "__proto__"%string →
     is_null v = false → is_json v = true →
     ∃ D1, applyStateUpdate (VObj props) (VArr (path ++ [VStr s; v])) = Ret D1
           ∧ D1 ≠ VObj props
           ∧ applyStateUpdate D1 (VArr (path ++ [VStr s; VNull])) = Ret (VObj props))
  ∧ (∀ elems v,
       resolve (VObj props) path = Some (VArr elems) → is_json v = true →
       ∃ D1, applyStateUpdate (VObj props) (VArr (path ++ [VInt (-1); v])) = Ret D1
             ∧ D1 ≠ VObj props
             ∧ applyStateUpdate D1
                 (VArr (path ++ [VInt (Z.of_nat (length elems)); VNull]))
               = Ret (VObj props)).
Proof.
  intros Hj. split.
  - intros entries s k v Hres Hk Habs Hproto Hv Hjv.
    assert (is_json (VObj entries) = true) as Hje.
    { by apply (is_json_resolve _ _ _ Hj Hres). }
    destruct (apply_path_json props path (VObj entries) (VStr s) v
                (VObj (entries ++ [(k, v)])) Hj Hres eq_refl)
      as (props1 & Happ1 & Hp1 & Hj1 & Hres1); [| done | |].
    { rewrite Hk. cbn [apply_final to_property_key to_string mbind res_bind].
      rewrite Hv. cbn [set_own]. apply has_own_false in Habs. rewrite Habs.
      by destruct (String.eqb_spec k "__proto__"). }
    { apply is_json_props_app; [done|]. simpl. by rewrite Hjv. }
    exists (VObj props1). split; [done|]. split.
    { intros Heq. rewrite Heq in Hres1. rewrite Hres in Hres1.
      injection Hres1 as Hl. apply (f_equal length) in Hl.
      rewrite length_app in Hl. simpl in Hl. lia. }
    rewrite (apply_path _ _ _ _ _ Hj1 Hres1) by done. rewrite Hk.
    cbn [apply_final to_property_key to_string mbind res_bind is_null delete_own].
    rewrite remove_prop_app_new by done. rewrite Hp1.
    rewrite (plug_plug _ _ _ _ _ Hres) by done.
    by rewrite (plug_id _ _ _ Hres).
  - intros elems v Hres Hjv.
    assert (is_json (VArr elems) = true) as Hje.
    { by apply (is_json_resolve _ _ _ Hj Hres). }
    destruct (apply_path_json props path (VArr elems) (VInt (-1)) v
                (VArr (elems ++ [v])) Hj Hres eq_refl)
      as (props1 & Happ1 & Hp1 & Hj1 & Hres1); [done | done | |].
    { apply is_json_app; [done|]. simpl. by rewrite Hjv. }
    exists (VObj props1). split; [done|]. split.
    { intros Heq. rewrite Heq in Hres1. rewrite Hres in Hres1.
      injection Hres1 as Hl. apply (f_equal length) in Hl.
      rewrite length_app in Hl. simpl in Hl. lia. }
    rewrite (apply_path _ _ _ _ _ Hj1 Hres1) by done.
    change (normalizePropertyKey (VInt (Z.of_nat (length elems))))
      with (VInt (Z.of_nat (length elems))).
    rewrite apply_final_delete_index.
    rewrite decide_True by (rewrite length_app; simpl; lia).
    cbn [mbind res_bind].
    assert (delete (length elems) (elems ++ [v]) = elems) as ->.
    { clear. induction elems as [|x l IH]; simpl; [done|]. by rewrite IH. }
    rewrite Hp1, (plug_plug _ _ _ _ _ Hres) by done.
    by rewrite (plug_id _ _ _ Hres).
Qed.

Lemma X4_set_then_delete_witness :
  apply_all (VObj [("units"%string, VArr [VInt 7])])
    [ VArr [VStr "units"; VInt (-1); VInt 8];
      VArr [VStr "units"; VInt 1; VNull];
      VArr [VStr "paused"; VBool true];
      VArr [VStr "paused"; VNull] ]
  = Ret (VObj [("units"%string, VArr [VInt 7])]).
Proof.
  destruct (X4_set_then_delete [("units"%string, VArr [VInt 7])] [VStr "units"] eq_refl)
    as [_ Hlist].
  destruct (Hlist [VInt 7] (VInt 8) eq_refl eq_refl) as (D1 & Ha & _ & Hb).
  destruct (X4_set_then_delete [("units"%string, VArr [VInt 7])] [] eq_refl)
    as [Hmap _].
  destruct (Hmap [("units"%string, VArr [VInt 7])] "paused"%string "paused"%string
              (VBool true) eq_refl eq_refl eq_refl) as (D2 & Hc & _ & Hd);
    [done..|].
  cbn [apply_all].
  change (VArr [VStr "units"; VInt (-1); VInt 8])
    with (VArr ([VStr "units"] ++ [VInt (-1); VInt 8])).
  rewrite Ha. cbn [mbind res_bind].
  change (VArr [VStr "units"; VInt 1; VNull])
    with (VArr ([VStr "units"] ++ [VInt (Z.of_nat (length [VInt 7])); VNull])).
  rewrite Hb. cbn [mbind res_bind].
  change (VArr [VStr "paused"; VBool true]) with (VArr ([] ++ [VStr "paused"; VBool true])).
  rewrite Hc. cbn [mbind res_bind].
  change (VArr [VStr "paused"; VNull]) with (VArr ([] ++ [VStr "paused"; VNull])).
  rewrite Hd. reflexivity.
Defined.

Lemma apply_final_bulk elems items :
  apply_final (VArr elems) (normalizePropertyKey (VInt (-2))) (VArr items)
  = Ret (VArr (elems ++ items)).
Proof. reflexivity. Qed.

(** X5. A bulk append is the appends of its elements, one by one: the
    update with final key -2 and a list returns what the updates with
    final key -1 return when applied in order, one for each element. *)
Theorem X5_bulk_append_is_appends path items : ∀ props elems,
  is_json (VObj props) = true → is_json (VArr items) = true →
  resolve (VObj props) path = Some (VArr elems) →
  apply_all (VObj props) (List.map (λ v, VArr (path ++ [VInt (-1); v])) items)
  = applyStateUpdate (VObj props) (VArr (path ++ [VInt (-2); VArr items])).
Proof.
  induction items as [|v items IH]; intros props elems Hj Hji Hres.
  - rewrite (apply_path _ _ _ _ _ Hj Hres) by done.
    cbn [apply_all List.map]. rewrite apply_final_bulk. cbn [mbind res_bind].
    by rewrite app_nil_r, (plug_id _ _ _ Hres).
  - apply is_json_arr, Forall_cons in Hji as [Hjv Hji]. apply is_json_arr in Hji.
    pose proof (is_json_resolve _ _ _ Hj Hres) as Hje.
    destruct (apply_path_json props path (VArr elems) (VInt (-1)) v
                (VArr (elems ++ [v])) Hj Hres eq_refl)
      as (props1 & Happ1 & Hp1 & Hj1 & Hres1); [done | done | |].
    { apply is_json_app; [done|]. simpl. by rewrite Hjv. }
    cbn [apply_all List.map]. rewrite Happ1. cbn [mbind res_bind].
    rewrite (IH props1 (elems ++ [v]) Hj1 Hji Hres1).
    rewrite (apply_path _ _ _ _ _ Hj1 Hres1), (apply_path _ _ _ _ _ Hj Hres) by done.
    rewrite !apply_final_bulk. cbn [mbind res_bind].
    rewrite Hp1, (plug_plug _ _ _ _ _ Hres) by done.
    by rewrite <- app_assoc.
Qed.

Lemma X5_bulk_append_is_appends_witness :
  apply_all (VObj [("log"%string, VArr [VStr "a"])])
    [ VArr [VStr "log"; VInt (-1); VStr "b"]; VArr [VStr "log"; VInt (-1); VStr "c"] ]
  = Ret (VObj [("log"%string, VArr [VStr "a"; VStr "b"; VStr "c"])])
  ∧ applyStateUpdate (VObj [("log"%string, VArr [VStr "a"])])
      (VArr [VStr "log"; VInt (-2); VArr [VStr "b"; VStr "c"]])
    = Ret (VObj [("log"%string, VArr [VStr "a"; VStr "b"; VStr "c"])]).
Proof.
  pose proof (X5_bulk_append_is_appends [VStr "log"] [VStr "b"; VStr "c"]
                [("log"%string, VArr [VStr "a"])] [VStr "a"] eq_refl eq_refl eq_refl)
    as Heq.
  split; [|reflexivity]. etrans; [exact Heq|]. reflexivity.
Defined.

Lemma Number_isInteger_normalize key :
  Number_isInteger (normalizePropertyKey key) = Number_isInteger key.
Proof. destruct key; try done. simpl. by destruct (_ && _). Qed.

Lemma descend_normalized keys v : ∀ cur,
  descend cur (List.map normalizePropertyKey keys ++ [v]) = descend cur (keys ++ [v]).
Proof.
  induction keys as [|k keys IH]; intros cur; [done|].
  destruct keys as [|k2 keys].
  { cbn [List.map app]. by rewrite !descend_final, normalize_idem. }
  cbn [List.map app]. cbn [List.map app] in IH.
  rewrite !descend_step by (by destruct keys).
  cbv zeta. rewrite normalize_idem, Number_isInteger_normalize.
  destruct (not_container cur); [done|].
  destruct (to_property_key _) as [key| |]; cbn [mbind res_bind]; try done.
  destruct (get_own cur key) as [child| |]; cbn [mbind res_bind]; try done.
  destruct (is_undefined child || is_null child).
  - destruct (set_own cur key _) as [o| |]; cbn [mbind res_bind]; try done.
    destruct (_ || _); [done|]. by rewrite IH.
  - cbn [mbind res_bind]. destruct (_ || _); [done|]. by rewrite IH.
Qed.

(** X6. Keys that differ only in hyphens and underscores address the
    same entry: an update whose keys have been normalized beforehand
    returns what the update itself returns. *)
Theorem X6_normalized_keys_address_the_same_entry D keys v :
  applyStateUpdate D (VArr (List.map normalizePropertyKey keys ++ [v]))
  = applyStateUpdate D (VArr (keys ++ [v])).
Proof.
  unfold applyStateUpdate. rewrite !length_app, length_map.
  destruct (_ <? _)%nat; [done|].
  destruct (JS.json_clone _) as [state| |]; cbn [mbind res_bind]; try done.
  by rewrite descend_normalized.
Qed.

Lemma X6_normalized_keys_address_the_same_entry_witness :
  applyStateUpdate (VObj [("work_unit"%string, VInt 1)]) (VArr [VStr "work-unit"; VInt 2])
  = Ret (VObj [("work_unit"%string, VInt 2)])
  ∧ applyStateUpdate (VObj [("work_unit"%string, VInt 1)]) (VArr [VStr "work_unit"; VInt 2])
    = Ret (VObj [("work_unit"%string, VInt 2)]).
Proof.
  pose proof (X6_normalized_keys_address_the_same_entry
                (VObj [("work_unit"%string, VInt 1)]) [VStr "work-unit"] (VInt 2)) as Heq.
  split; [|exact (eq_trans Heq eq_refl)]. reflexivity.
Defined.

(** **** Assigning to an index *)

Lemma array_store_length {V} (hole x : V) i l :
  length (array_store hole i x l) = Nat.max (length l) (S i).
Proof.
  unfold array_store. destruct (Nat.ltb_spec i (length l)).
  - rewrite length_insert. lia.
  - rewrite !length_app, length_replicate. simpl. lia.
Qed.

Lemma array_store_lookup {V} (hole x : V) i l :
  array_store hole i x l !! i = Some x.
Proof.
  unfold array_store. destruct (Nat.ltb_spec i (length l)).
  - by apply list_lookup_insert_eq.
  - rewrite lookup_app_r by done. rewrite lookup_app_r by (rewrite length_replicate; lia).
    rewrite length_replicate. by replace (i - length l - (i - length l))%nat with 0%nat by lia.
Qed.

Lemma array_store_lookup_old {V} (hole x : V) i j l :
  j ≠ i → (j < length l)%nat → array_store hole i x l !! j = l !! j.
Proof.
  intros Hne Hj. unfold array_store. destruct (Nat.ltb_spec i (length l)).
  - by apply list_lookup_insert_ne.
  - by apply lookup_app_l.
Qed.

Lemma array_store_lookup_hole {V} (hole x : V) i j l :
  (length l ≤ j < i)%nat → array_store hole i x l !! j = Some hole.
Proof.
  intros Hj. unfold array_store. destruct (Nat.ltb_spec i (length l)); [lia|].
  rewrite lookup_app_r by lia. rewrite lookup_app_l by (rewrite length_replicate; lia).
  apply lookup_replicate_2. lia.
Qed.

Lemma array_index_length : array_index "length" = None.
Proof. reflexivity. Qed.

(** X7. Assigning to an index of a list.  When the path of an update
    ends at a list, the final key is an index and the value is not
    null, the element at the index is the value afterwards; the
    elements the list had at other indices stay; and an index past the
    end makes the list that long, the positions in between being
    holes. *)
Theorem X7_set_list_index props path elems (i : nat) v :
  is_json (VObj props) = true →
  resolve (VObj props) path = Some (VArr elems) →
  Z.of_nat i < 2 ^ 32 - 1 → is_null v = false →
  ∃ elems',
    applyStateUpdate (VObj props) (VArr (path ++ [VInt (Z.of_nat i); v]))
      = Ret (plug (VObj props) path (VArr elems'))
    ∧ resolve (plug (VObj props) path (VArr elems')) path = Some (VArr elems')
    ∧ length elems' = Nat.max (length elems) (S i)
    ∧ elems' !! i = Some v
    ∧ (∀ j, j ≠ i → (j < length elems)%nat → elems' !! j = elems !! j)
    ∧ (∀ j, (length elems ≤ j < i)%nat → elems' !! j = Some VUndef).
Proof.
  intros Hj Hres Hi Hv. exists (array_store VUndef i v elems).
  rewrite (apply_path _ _ _ _ _ Hj Hres) by done.
  change (normalizePropertyKey (VInt (Z.of_nat i))) with (VInt (Z.of_nat i)).
  unfold apply_final. rewrite !strict_eq_int_VInt.
  destruct (Z.eqb_spec (Z.of_nat i) (-1)); [lia|].
  destruct (Z.eqb_spec (Z.of_nat i) (-2)); [lia|].
  rewrite Hv, to_property_key_VInt by lia. cbn [mbind res_bind set_own].
  pose proof (array_index_pretty i Hi) as Hidx.
  destruct (String.eqb_spec (pretty (Z.of_nat i)) "length") as [Heq|_].
  { rewrite Heq in Hidx. by rewrite array_index_length in Hidx. }
  rewrite Hidx. split; [done|].
  split; [by apply (resolve_plug _ _ _ _ Hres)|].
  split; [apply array_store_length|]. split; [apply array_store_lookup|].
  split; [intros; by apply array_store_lookup_old|].
  intros; by apply array_store_lookup_hole.
Qed.

Lemma X7_set_list_index_witness :
  ∃ elems',
    applyStateUpdate (VObj [("slots"%string, VArr [VStr "a"])])
                     (VArr [VStr "slots"; VInt 3; VStr "d"])
    = Ret (VObj [("slots"%string, VArr elems')])
    ∧ length elems' = 4%nat
    ∧ elems' !! 3%nat = Some (VStr "d")
    ∧ elems' !! 0%nat = Some (VStr "a")
    ∧ elems' !! 2%nat = Some VUndef.
Proof.
  destruct (X7_set_list_index [("slots"%string, VArr [VStr "a"])] [VStr "slots"]
              [VStr "a"] 3 (VStr "d") eq_refl eq_refl)
    as (elems' & Happ & _ & Hlen & Hi & Hold & Hhole); [done..|].
  exists elems'. split; [etrans; [exact Happ|]; reflexivity|].
  split; [exact Hlen|]. split; [exact Hi|].
  split; [apply (Hold 0%nat); simpl; lia|apply (Hhole 2%nat); simpl; lia].
Defined.

(** X8. Deleting from a list by a number.  With the null value and a
    number other than -1 and -2 as final key, the element at the integer
    part of the number is removed when the number is at least 0 and
    below the length; for every other number, the negative ones
    included, the document comes back as it was. *)
Theorem X8_delete_list_by_number props path elems q :
  is_json (VObj props) = true →
  resolve (VObj props) path = Some (VArr elems) →
  num_eqb q (-1) = false → num_eqb q (-2) = false →
  applyStateUpdate (VObj props) (VArr (path ++ [VNum q; VNull])) =
    Ret (if (0 <=? floor q) && (floor q <? Z.of_nat (length elems))
         then plug (VObj props) path (VArr (delete (Z.to_nat (floor q)) elems))
         else VObj props).
Proof.
  intros Hj Hres H1 H2. rewrite (apply_path _ _ _ _ _ Hj Hres) by done.
  cbn [normalizePropertyKey apply_final strict_eq_int]. rewrite H1, H2.
  cbn [is_null to_number mbind res_bind].
  destruct (_ && _); cbn [mbind res_bind]; [done|].
  by rewrite (plug_id _ _ _ Hres).
Qed.

Lemma X8_delete_list_by_number_witness :
  applyStateUpdate (VObj [("q"%string, VArr [VStr "x"; VStr "y"])])
                   (VArr [VStr "q"; VNum (3 # 2); VNull])
  = Ret (VObj [("q"%string, VArr [VStr "x"])])
  ∧ applyStateUpdate (VObj [("q"%string, VArr [VStr "x"; VStr "y"])])
                     (VArr [VStr "q"; VInt (-3); VNull])
    = Ret (VObj [("q"%string, VArr [VStr "x"; VStr "y"])]).
Proof.
  split.
  - exact (X8_delete_list_by_number [("q"%string, VArr [VStr "x"; VStr "y"])]
             [VStr "q"] [VStr "x"; VStr "y"] (3 # 2) eq_refl eq_refl eq_refl eq_refl).
  - exact (X8_delete_list_by_number [("q"%string, VArr [VStr "x"; VStr "y"])]
             [VStr "q"] [VStr "x"; VStr "y"] (inject_Z (-3)) eq_refl eq_refl eq_refl eq_refl).
Defined.

End PatcherMore.

(** *** More about the registry and the router *)
Section RegistryMore.
Import Registry Router Notions.

Lemma messageHandler_cases key frame md md' :
  messageHandler key frame md = Ret md' →
  md' = md
  ∨ ∃ doc, md' = <[key := doc]> md
      ∧ ((∃ props, frame = Some (VObj props) ∧ doc = VObj props)
         ∨ ∃ ops cs stateCopy,
             frame = Some (VArr ops)
             ∧ cs = (let c := default VUndef (md !! key) in
                     if negb (truthy c) || negb (typeof_object c) then VObj [] else c)
             ∧ JS.json_clone cs = Ret stateCopy
             ∧ applyStateUpdate stateCopy (VArr ops) = Ret doc
             ∧ truthy doc = true).
Proof.
  destruct frame as [data|]; simpl; [|intros [= <-]; by left].
  set (cs := if _ : bool then VObj [] else default VUndef (md !! key)).
  destruct data as [| |b|q|s|ops|props]; cbn [Array_isArray truthy typeof_object andb];
    try (rewrite ?andb_false_r; intros [= <-]; by left).
  - destruct (JS.json_clone cs) as [stateCopy| |] eqn:Hc; cbn [mbind res_bind];
      try (intros [= <-]; by left).
    destruct (applyStateUpdate stateCopy (VArr ops)) as [doc| |] eqn:Hu;
      cbn [mbind res_bind]; try (intros [= <-]; by left).
    destruct (truthy doc) eqn:Ht; intros [= <-]; [|by left].
    right. exists doc. split; [done|]. right. by exists ops, cs, stateCopy.
  - intros [= <-]. right. exists (VObj props). split; [done|]. left. by exists props.
Qed.

Lemma json_clone_obj props c : JS.json_clone (VObj props) = Ret c → ∃ p, c = VObj p.
Proof. intros [= <-]. simpl. eauto. Qed.

Lemma messageHandler_obj key frame md md' :
  map_Forall (λ _ doc, ∃ p, doc = VObj p) md →
  messageHandler key frame md = Ret md' →
  map_Forall (λ _ doc, ∃ p, doc = VObj p) md'.
Proof.
  intros Hmd Hm.
  destruct (messageHandler_cases _ _ _ _ Hm) as [->|(doc & -> & Hdoc)]; [done|].
  apply map_Forall_insert_2; [|done].
  destruct Hdoc as [(props & _ & ->)|(ops & cs & stateCopy & _ & Hcs & Hc & Hu & _)];
    [by eauto|].
  assert (∃ p, cs = VObj p) as [p ->].
  { subst cs. destruct (md !! key) as [d|] eqn:E; simpl; [|by eauto].
    destruct (Hmd _ _ E) as [p ->]. simpl. eauto. }
  apply json_clone_obj in Hc as [p' ->].
  destruct (Nat.lt_ge_cases (length ops) 2) as [Hlt|Hge].
  - unfold applyStateUpdate in Hu.
    destruct (Nat.ltb_spec (length ops) 2); [|lia]. injection Hu as <-. eauto.
  - by eapply applyStateUpdate_obj.
Qed.

(** X9. Every document of the table is a plain object, whatever
    frames arrive: a table that holds plain objects only still does
    after [messageHandler] has been run on any sequence of frames. *)
Theorem X9_stored_documents_are_plain_objects key frames : ∀ md md',
  map_Forall (λ _ doc, ∃ props, doc = VObj props) md →
  fold_frames key frames md = Ret md' →
  map_Forall (λ _ doc, ∃ props, doc = VObj props) md'.
Proof.
  induction frames as [|f frames IH]; intros md md' Hmd; simpl.
  - by intros [= <-].
  - destruct (messageHandler key f md) as [md1| |] eqn:Hm; cbn [mbind res_bind]; try done.
    apply IH. by eapply messageHandler_obj.
Qed.

Lemma X9_stored_documents_are_plain_objects_witness :
  ∃ md', fold_frames "local:127.0.0.1:7396"
           [Some (VArr []); Some (VStr "hello"); None;
            Some (VArr [VStr "units"; VInt (-1); VObj [("id"%string, VInt 1)]])] ∅
         = Ret md'
         ∧ map_Forall (λ _ doc, ∃ props, doc = VObj props) md'.
Proof.
  eexists. split; [reflexivity|].
  eapply (X9_stored_documents_are_plain_objects "local:127.0.0.1:7396"
            [Some (VArr []); Some (VStr "hello"); None;
             Some (VArr [VStr "units"; VInt (-1); VObj [("id"%string, VInt 1)]])] ∅).
  - apply map_Forall_empty.
  - reflexivity.
Defined.

(** X10. The frames of one connection leave the documents of the
    others alone: running [messageHandler] for a key on any sequence of
    frames changes no entry of the table under another key. *)
Theorem X10_frames_touch_their_own_key key frames : ∀ md md' k,
  fold_frames key frames md = Ret md' → k ≠ key → md' !! k = md !! k.
Proof.
  induction frames as [|f frames IH]; intros md md' k; simpl.
  - by intros [= <-].
  - destruct (messageHandler key f md) as [md1| |] eqn:Hm; cbn [mbind res_bind]; try done.
    intros Hf Hk. rewrite (IH _ _ _ Hf Hk).
    destruct (messageHandler_cases _ _ _ _ Hm) as [->|(doc & -> & _)]; [done|].
    by rewrite lookup_insert_ne.
Qed.

Lemma X10_frames_touch_their_own_key_witness :
  ∃ md', fold_frames "a:10.0.0.1:7396"
           [Some (VObj [("paused"%string, VBool true)])]
           {[ "b:10.0.0.2:7396"%string := VObj [("paused"%string, VBool false)] ]}
         = Ret md'
         ∧ md' !! "b:10.0.0.2:7396"%string
           = Some (VObj [("paused"%string, VBool false)]).
Proof.
  eexists. split; [reflexivity|].
  rewrite (X10_frames_touch_their_own_key "a:10.0.0.1:7396"
             [Some (VObj [("paused"%string, VBool true)])]
             {[ "b:10.0.0.2:7396"%string := VObj [("paused"%string, VBool false)] ]}
             _ "b:10.0.0.2:7396" eq_refl); [reflexivity|done].
Defined.

Lemma getFAHConnection_machineData i h p t o w r w1 :
  getFAHConnection i h p t o w = (r, w1) →
  machineData w !! conn_key i h p = None →
  machineData w1 !! conn_key i h p = None.
Proof.
  unfold getFAHConnection. intros Hg Hnone.
  destruct (fahConnections w !! conn_key i h p) as [conn|] eqn:Hc.
  - destruct (is_open (sock_state conn)).
    + by injection Hg as <- <-.
    + destruct o; injection Hg as <- <-; simpl; by rewrite lookup_delete_eq.
  - destruct o; injection Hg as <- <-; done.
Qed.

(** X11. An update frame of fewer than two elements still counts as
    state: arriving when the key has no document, it makes the empty
    object the document of the key, so that a command sent on an empty
    table and answered by such a frame alone reports success with the
    empty object as data. *)
Theorem X11_short_update_frame_creates_document ops :
  (length ops < 2)%nat →
  (∀ key md, md !! key = None →
     messageHandler key (Some (VArr ops)) md = Ret (<[key := VObj []]> md))
  ∧ (∀ i h p command data e w,
       machineData w !! conn_key i h p = None →
       handshake e = Opened →
       arrivals e = [Message (Some (VArr ops))] →
       ∃ w', fahWebSocketCommand i h p command data e w = Ret (Success (VObj []), w')).
Proof.
  intros Hlen.
  assert (∀ key md, md !! key = None →
            messageHandler key (Some (VArr ops)) md = Ret (<[key := VObj []]> md)) as Hmh.
  { intros key md Hnone. unfold messageHandler. rewrite Hnone.
    cbn [default truthy negb orb Array_isArray JS.json_clone json_value mbind res_bind].
    unfold applyStateUpdate. by destruct (Nat.ltb_spec (length ops) 2); [|lia]. }
  split; [exact Hmh|].
  intros i h p command data e w Hnone Hopen Harr. unfold fahWebSocketCommand.
  destruct (getFAHConnection i h p (now e) (handshake e) w) as [[err|ws] w1] eqn:Hg.
  { exfalso. revert Hg. rewrite Hopen. unfold getFAHConnection.
    destruct (fahConnections w !! conn_key i h p) as [conn|];
      [destruct (is_open (sock_state conn))|]; discriminate. }
  pose proof (getFAHConnection_machineData _ _ _ _ _ _ _ _ Hg Hnone) as Hnone1.
  rewrite Harr. cbn [deliver_all deliver emit machineData].
  rewrite (Hmh _ _ Hnone1). cbn [mbind res_bind].
  unfold currentDocument. cbn [machineData]. rewrite lookup_insert_eq.
  cbn [default truthy]. eauto.
Qed.

Lemma X11_short_update_frame_creates_document_witness :
  ∃ w', fahWebSocketCommand "local" "127.0.0.1" 7396 "state"
          (VObj [("state"%string, VStr "pause")])
          {| now := "2024-01-01T00:00:00.000Z"; handshake := Opened;
             arrivals := [Message (Some (VArr []))];
             http := λ _, HttpFail None None "unused" |}
          idle_world
        = Ret (Success (VObj []), w').
Proof.
  destruct (X11_short_update_frame_creates_document [] ltac:(simpl; lia)) as [_ Hcmd].
  apply Hcmd; reflexivity.
Defined.

(** X12. A connection that has been obtained is reused: as long as
    nothing happens to the socket, asking again for the connection of
    the same key gives the same socket and does nothing to the outside
    or to the tables, however a handshake would have ended. *)
Theorem X12_connection_is_reused i h p t o w ws w1 :
  getFAHConnection i h p t o w = (inr ws, w1) →
  ∀ t' o', getFAHConnection i h p t' o' w1 = (inr ws, w1).
Proof.
  unfold getFAHConnection.
  destruct (fahConnections w !! conn_key i h p) as [conn|] eqn:Hc.
  - destruct (is_open (sock_state conn)) eqn:Ho.
    + intros [= <- <-] t' o'. by rewrite Hc, Ho.
    + destruct o; intros [= <- <-] t' o'; simpl. by rewrite lookup_insert_eq.
  - destruct o; intros [= <- <-] t' o'; simpl. by rewrite lookup_insert_eq.
Qed.

Lemma X12_connection_is_reused_witness :
  ∃ ws w1,
    getFAHConnection "local" "127.0.0.1" 7396 "2024-01-01T00:00:00.000Z" Opened idle_world
    = (inr ws, w1)
    ∧ getFAHConnection "local" "127.0.0.1" 7396 "2024-01-01T00:00:05.000Z"
        ConnectTimeout w1 = (inr ws, w1)
    ∧ length (trace w1) = 2%nat.
Proof.
  eexists _, _. split; [reflexivity|]. split; [|reflexivity].
  apply (X12_connection_is_reused "local" "127.0.0.1" 7396
           "2024-01-01T00:00:00.000Z" Opened idle_world). reflexivity.
Defined.

(** X13. A connection found closed is dropped together with its
    document before anything else: whatever the new handshake does, the
    key has no document afterwards, exactly one WebSocket is created for
    the key's URL, the key names the new socket if the handshake opened
    it and no socket otherwise, and the entries of the other keys are
    as they were. *)
Theorem X13_stale_connection_is_dropped i h p t o w conn :
  fahConnections w !! conn_key i h p = Some conn →
  is_open (sock_state conn) = false →
  let rw := getFAHConnection i h p t o w in
  machineData rw.2 !! conn_key i h p = None
  ∧ (∃ evs, trace rw.2 = trace w ++ NewWebSocket (ws_url h p) :: evs
            ∧ Forall (λ ev, ∀ url, ev ≠ NewWebSocket url) evs)
  ∧ match rw.1 with
    | inr ws => o = Opened ∧ fahConnections rw.2 !! conn_key i h p = Some ws
                ∧ sock_state ws = OPEN
    | inl _ => o ≠ Opened ∧ fahConnections rw.2 !! conn_key i h p = None
    end
  ∧ ∀ k, k ≠ conn_key i h p →
      fahConnections rw.2 !! k = fahConnections w !! k
      ∧ machineData rw.2 !! k = machineData w !! k.
Proof.
  intros Hc Ho rw. subst rw. unfold getFAHConnection. rewrite Hc, Ho.
  destruct o; simpl.
  - split; [apply lookup_delete_eq|]. split.
    { eexists. rewrite <- app_assoc. split; [done|]. by repeat constructor. }
    split; [by rewrite lookup_insert_eq|].
    intros k Hk. by rewrite lookup_insert_ne, !lookup_delete_ne.
  - split; [apply lookup_delete_eq|]. split.
    { exists []. split; [done|]. constructor. }
    split; [split; [done|apply lookup_delete_eq]|].
    intros k Hk. by rewrite !lookup_delete_ne.
  - split; [apply lookup_delete_eq|]. split.
    { eexists. rewrite <- app_assoc. split; [done|]. by repeat constructor. }
    split; [split; [done|apply lookup_delete_eq]|].
    intros k Hk. by rewrite !lookup_delete_ne.
Qed.

Lemma X13_stale_connection_is_dropped_witness :
  let w := {| fahConnections :=
                {[ conn_key "local" "127.0.0.1" 7396 :=
                     {| sock_id := 0; sock_state := CLOSED |} ]};
              machineData :=
                {[ conn_key "local" "127.0.0.1" 7396 := VObj [("info"%string, VObj [])] ]};
              trace := [NewWebSocket (ws_url "127.0.0.1" 7396)] |} in
  machineData
    (getFAHConnection "local" "127.0.0.1" 7396 "2024-01-01T00:00:00.000Z" Opened w).2
    !! conn_key "local" "127.0.0.1" 7396 = None.
Proof.
  intros w.
  destruct (X13_stale_connection_is_dropped "local" "127.0.0.1" 7396
              "2024-01-01T00:00:00.000Z" Opened w {| sock_id := 0; sock_state := CLOSED |})
    as (Hdoc & _); [reflexivity..|]. exact Hdoc.
Defined.

(** **** The HTTP fallback *)

Lemma string_length_app s1 s2 :
  String.length (s1 +:+ s2) = (String.length s1 + String.length s2)%nat.
Proof. induction s1 as [|c s1 IH]; [reflexivity|simpl; congruence]. Qed.

Lemma fallback_urls_distinct h p endpoint u1 u2 u3 :
  fallback_urls h p endpoint = [u1; u2; u3] → u1 ≠ u2 ∧ u1 ≠ u3 ∧ u2 ≠ u3.
Proof.
  unfold fallback_urls. intros [= <- <- <-].
  repeat split; intros Heq; apply (f_equal String.length) in Heq;
    rewrite !string_length_app in Heq; simpl in Heq; lia.
Qed.

(** What [try_urls] answers for the failure of the last URL. *)
Lemma try_urls_last endpoints url method data e w code response message :
  http e url = HttpFail code response message →
  indexOf url endpoints = (length endpoints - 1)%nat →
  try_urls endpoints [url] method data e w =
    (Some (Failure
             (if bool_decide (code = Some "ECONNREFUSED"%string)
                 || bool_decide (code = Some "ETIMEDOUT"%string)
              then "Connection refused or timed out"
              else match response with
                   | Some (status, statusText) =>
                       "HTTP " +:+ pretty status +:+ ": " +:+ statusText
                   | None => message
                   end)),
     emit (HttpRequest method url (if truthy data then Some data else None)) w).
Proof.
  intros Hh Hidx. simpl. rewrite Hh, Hidx, Nat.eqb_refl.
  destruct (_ || _); [done|]. by destruct response as [[? ?]|].
Qed.

(** X14. The HTTP fallback asks the three URLs in the order [/api/],
    [/], [/api/v1/] and stops at the first that answers: the result
    is the data of that answer and no later URL is asked.  Only when
    all three have failed is the result a failure, and it is the
    failure of the last URL; the closing "All connection attempts
    failed" is never returned for want of an answer. *)
Theorem X14_fallback_stops_at_first_answer h p endpoint method data e w :
  let base := "http://" +:+ h +:+ ":" +:+ pretty p in
  let u1 := base +:+ "/api/" +:+ endpoint in
  let u2 := base +:+ "/" +:+ endpoint in
  let u3 := base +:+ "/api/v1/" +:+ endpoint in
  let req u := HttpRequest method u (if truthy data then Some data else None) in
  let rw := http_fallback h p endpoint method data e w in
  fahConnections rw.2 = fahConnections w ∧ machineData rw.2 = machineData w
  ∧ match http e u1, http e u2, http e u3 with
    | HttpOk d, _, _ => rw.1 = Success d ∧ trace rw.2 = trace w ++ [req u1]
    | HttpFail _ _ _, HttpOk d, _ =>
        rw.1 = Success d ∧ trace rw.2 = trace w ++ [req u1; req u2]
    | HttpFail _ _ _, HttpFail _ _ _, HttpOk d =>
        rw.1 = Success d ∧ trace rw.2 = trace w ++ [req u1; req u2; req u3]
    | HttpFail _ _ _, HttpFail _ _ _, HttpFail code response message =>
        trace rw.2 = trace w ++ [req u1; req u2; req u3]
        ∧ rw.1 = Failure
                   (if bool_decide (code = Some "ECONNREFUSED"%string)
                       || bool_decide (code = Some "ETIMEDOUT"%string)
                    then "Connection refused or timed out"
                    else match response with
                         | Some (status, statusText) =>
                             "HTTP " +:+ pretty status +:+ ": " +:+ statusText
                         | None => message
                         end)
    end.
Proof.
  intros base u1 u2 u3 req rw. subst rw. unfold http_fallback.
  change (fallback_urls h p endpoint) with [u1; u2; u3].
  destruct (fallback_urls_distinct h p endpoint u1 u2 u3 eq_refl) as (H12 & H13 & H23).
  clearbody u1 u2 u3. clear base.
  assert (indexOf u1 [u1; u2; u3] = 0%nat) as Hi1.
  { cbn [indexOf]. by rewrite String.eqb_refl. }
  assert (indexOf u2 [u1; u2; u3] = 1%nat) as Hi2.
  { cbn [indexOf]. destruct (String.eqb_spec u2 u1); [by subst|]. by rewrite String.eqb_refl. }
  assert (indexOf u3 [u1; u2; u3] = 2%nat) as Hi3.
  { cbn [indexOf]. destruct (String.eqb_spec u3 u1); [by subst|].
    destruct (String.eqb_spec u3 u2); [by subst|]. by rewrite String.eqb_refl. }
  cbn [try_urls]. rewrite Hi1, Hi2, Hi3. cbn [length Nat.sub Nat.eqb].
  destruct (http e u1) as [d1|c1 r1 m1]; [simpl; by rewrite <- ?app_assoc|].
  destruct (http e u2) as [d2|c2 r2 m2]; [simpl; by rewrite <- ?app_assoc|].
  destruct (http e u3) as [d3|c3 r3 m3]; [simpl; by rewrite <- ?app_assoc|].
  destruct (_ || _); [simpl; by rewrite <- ?app_assoc|].
  destruct r3 as [[st txt]|]; simpl; by rewrite <- ?app_assoc.
Qed.

Lemma X14_fallback_stops_at_first_answer_witness :
  let e := {| now := "2024-01-01T00:00:00.000Z"; handshake := ConnectTimeout;
              arrivals := [];
              http := λ url, if String.eqb url "http://10.0.0.5:7396/info"
                             then HttpOk (VObj [("version"%string, VStr "7.6")])
                             else HttpFail None (Some (404, "Not Found"%string))
                                    "Request failed" |} in
  http_fallback "10.0.0.5" 7396 "info" "GET" VNull e idle_world
  = (Success (VObj [("version"%string, VStr "7.6")]),
     {| fahConnections := ∅; machineData := ∅;
        trace := [HttpRequest "GET" "http://10.0.0.5:7396/api/info" None;
                  HttpRequest "GET" "http://10.0.0.5:7396/info" None] |}).
Proof.
  intros e.
  pose proof (X14_fallback_stops_at_first_answer "10.0.0.5" 7396 "info" "GET" VNull e
                idle_world) as (Hc & Hm & Hres).
  cbv zeta in Hres. 
  destruct (http_fallback "10.0.0.5" 7396 "info" "GET" VNull e idle_world) as [r [c m t]].
  simpl in Hc, Hm, Hres. destruct Hres as [-> ->]. by rewrite Hc, Hm.
Defined.

(** **** The command frame *)

Lemma lookup_define_prop k k' (v : value) props :
  lookup_prop k (define_prop k' v props) =
    if String.eqb k k' then Some v else lookup_prop k props.
Proof.
  unfold define_prop. destruct (has_own k' props) eqn:Hown.
  - destruct (String.eqb_spec k k') as [->|Hne].
    + by apply lookup_replace_prop.
    + by apply lookup_replace_prop_ne.
  - apply has_own_false in Hown. destruct (String.eqb_spec k k') as [->|Hne].
    + by apply lookup_prop_app_new.
    + by apply lookup_prop_app_ne.
Qed.

Lemma lookup_prop_None {V} k (props : list (string * V)) :
  k ∉ props.*1 → lookup_prop k props = None.
Proof.
  induction props as [|[k' x] l IH]; simpl; [done|].
  intros Hnotin. apply not_elem_of_cons in Hnotin as [Hne Hnotin].
  destruct (String.eqb_spec k k'); [done|]. by apply IH.
Qed.

Lemma lookup_foldl_define k props : ∀ init,
  NoDup props.*1 →
  lookup_prop k (foldl (λ acc kv, define_prop kv.1 kv.2 acc) init props) =
    match lookup_prop k props with
    | Some v => Some v
    | None => lookup_prop k init
    end.
Proof.
  induction props as [|[k' x] l IH]; intros init Hnd; [done|].
  apply NoDup_cons in Hnd as [Hnotin Hnd]. simpl in Hnotin.
  cbn [foldl fst snd lookup_prop].
  rewrite (IH _ Hnd), lookup_define_prop.
  destruct (String.eqb_spec k k') as [->|Hne]; [|done].
  by rewrite (lookup_prop_None _ _ Hnotin).
Qed.

(** X15. The fields of the data are copied over the command frame: a
    [cmd] or a [time] field of the data replaces the command name or
    the time stamp the router has put there, and every other field of
    the data goes into the frame as it is.  This frame is what
    [fahWebSocketCommand] sends, right after the connection is
    there. *)
Theorem X15_data_fields_override_the_command command :
  (∀ t props,
     NoDup props.*1 →
     ∃ frame, command_request command t (VObj props) = VObj frame
       ∧ lookup_prop "cmd" frame = Some (default (VStr command) (lookup_prop "cmd" props))
       ∧ lookup_prop "time" frame = Some (default (VStr t) (lookup_prop "time" props))
       ∧ ∀ k, k ≠ "cmd"%string → k ≠ "time"%string →
           lookup_prop k frame = lookup_prop k props)
  ∧ (∀ i h p data e w ws w1 r w',
       getFAHConnection i h p (now e) (handshake e) w = (inr ws, w1) →
       fahWebSocketCommand i h p command data e w = Ret (r, w') →
       trace w' = trace w1 ++ [WsSend (sock_id ws) (command_request command (now e) data)]).
Proof.
  split.
  - intros t props Hnd. eexists. split; [reflexivity|].
    cbn [spread_source]. rewrite !lookup_foldl_define by done.
    split; [by destruct (lookup_prop "cmd" props)|].
    split; [by destruct (lookup_prop "time" props)|].
    intros k Hc Ht. rewrite !lookup_foldl_define by done.
    destruct (lookup_prop k props); [done|]. simpl.
    destruct (String.eqb_spec k "cmd"); [done|].
    by destruct (String.eqb_spec k "time").
  - intros i h p data e w ws w1 r w' Hg. unfold fahWebSocketCommand. rewrite Hg.
    destruct (deliver_all _ _ _) as [w2| |] eqn:Hd; cbn [mbind res_bind]; try done.
    apply deliver_all_trace in Hd. simpl in Hd.
    destruct (truthy _); intros [= <- <-]; done.
Qed.

Lemma X15_data_fields_override_the_command_witness :
  command_request "dump" "2024-01-01T00:00:00.000Z"
    (VObj [("cmd"%string, VStr "restart"); ("unit"%string, VInt 3)])
  = VObj [("cmd"%string, VStr "restart");
          ("time"%string, VStr "2024-01-01T00:00:00.000Z");
          ("unit"%string, VInt 3)].
Proof.
  destruct (X15_data_fields_override_the_command "dump") as [Hframe _].
  destruct (Hframe "2024-01-01T00:00:00.000Z"
              [("cmd"%string, VStr "restart"); ("unit"%string, VInt 3)])
    as (frame & Heq & _).
  { apply (bool_decide_unpack _). reflexivity. }
  rewrite Heq. injection Heq as <-. reflexivity.
Defined.

(** X16. Without a connection no command goes out.  When the
    connection cannot be obtained, [fahWebSocketCommand] returns a
    failure, sends no frame on any socket, and leaves the key without a
    registered socket; a handshake that timed out or was refused is
    reported as "Connection refused or timed out". *)
Theorem X16_no_connection_no_command i h p command data e w err w1 :
  getFAHConnection i h p (now e) (handshake e) w = (inl err, w1) →
  ∃ msg,
    fahWebSocketCommand i h p command data e w = Ret (Failure msg, w1)
    ∧ fahConnections w1 !! conn_key i h p = None
    ∧ (∃ evs, trace w1 = trace w ++ evs ∧ Forall (λ ev, ∀ s f, ev ≠ WsSend s f) evs)
    ∧ (handshake e = ConnectTimeout
       ∨ err_code err = Some "ECONNREFUSED"%string →
       msg = "Connection refused or timed out"%string).
Proof.
  intros Hg. unfold fahWebSocketCommand. rewrite Hg.
  exists (if bool_decide (err_code err = Some "ECONNREFUSED"%string)
             || includes "timeout" (err_message err)
          then "Connection refused or timed out"%string else err_message err).
  split; [by destruct (_ || _)|].
  revert Hg. unfold getFAHConnection.
  destruct (fahConnections w !! conn_key i h p) as [conn|] eqn:Hc;
    [destruct (is_open (sock_state conn)); [done|]|];
    destruct (handshake e) eqn:Hh; try done; intros [= <- <-]; simpl;
    rewrite ?lookup_delete_eq, ?Hc;
    (split; [done|]);
    (split; [eexists; rewrite <- ?app_assoc; split; [done|]; by repeat constructor|]);
    intros [?|Hcode]; try done; by rewrite ?Hcode.
Qed.

Lemma X16_no_connection_no_command_witness :
  fahWebSocketCommand "local" "127.0.0.1" 7396 "state"
    (VObj [("state"%string, VStr "pause")])
    {| now := "2024-01-01T00:00:00.000Z"; handshake := ConnectTimeout;
       arrivals := []; http := λ _, HttpFail None None "unused" |}
    idle_world
  = Ret (Failure "Connection refused or timed out",
         {| fahConnections := ∅; machineData := ∅;
            trace := [NewWebSocket "ws://127.0.0.1:7396/api/websocket"; WsClose 0] |}).
Proof.
  destruct (X16_no_connection_no_command "local" "127.0.0.1" 7396 "state"
              (VObj [("state"%string, VStr "pause")])
              {| now := "2024-01-01T00:00:00.000Z"; handshake := ConnectTimeout;
                 arrivals := []; http := λ _, HttpFail None None "unused" |}
              idle_world timeout_error
              {| fahConnections := ∅; machineData := ∅;
                 trace := [NewWebSocket "ws://127.0.0.1:7396/api/websocket"; WsClose 0] |}
              eq_refl) as (msg & Heq & _ & _ & Hmsg).
  rewrite Heq, Hmsg; [reflexivity|by left].
Defined.

End RegistryMore.

(** *** More about the patcher on the store *)
Section StoreMore.
Import Store Repr.
#[local] Set Warnings "-clear-no-such-hyp".

Lemma tree_of_prim h v t :
  (∀ l, v ≠ RRef l) → read 0 h v = Some t → tree h v = Ret t.
Proof.
  intros Hv Hr. apply tree_represents. by exists 0%nat.
Qed.

(** X17. The value an update installs is not copied.  When the
    document is a plain object and the update is a key and a value that
    is itself an object or a list, the document returned is a new
    object whose entry under the normalized key is the very cell the
    update array holds, and that cell is as it was. *)
Theorem X17_installed_value_is_shared h ld props t lo s k lv cv :
  h !! ld = Some (CObj props) →
  represents h (RRef ld) t →
  h !! lo = Some (CArr [RStr s; RRef lv]) →
  h !! lv = Some cv →
  Store.normalizePropertyKey (RStr s) = RStr k →
  k ≠ "__proto__"%string →
  ∃ ls ps h',
    Store.applyStateUpdate h (RRef ld) (RRef lo) = Ret (RRef ls, h')
    ∧ h !! ls = None
    ∧ h' !! ls = Some (CObj ps)
    ∧ lookup_prop k ps = Some (RRef lv)
    ∧ h' !! lv = Some cv.
Proof.
  intros Hld Hrep Hlo Hlv Hk Hproto.
  unfold Store.applyStateUpdate. cbn [container]. rewrite Hlo.
  cbn [fmap option_fmap option_map length Nat.ltb Nat.leb].
  unfold needs_init. cbn [container]. rewrite Hld. cbn [fmap option_fmap option_map].
  unfold Store.json_clone. rewrite (represents_tree_of _ _ _ Hrep).
  pose proof (represents_inv _ _ _ Hrep) as [(? & ? & Hl' & _)|(ps0 & kts & _ & -> & _)];
    [congruence|].
  cbn [JS.json_clone lift mbind res_bind].
  destruct (alloc (json_value (VObj kts)) h) as [state h1] eqn:Halloc.
  destruct (alloc_owns _ _ _ _ Halloc) as (F & Hown & HF & _ & Hsub).
  destruct (alloc_object _ _ _ _ Halloc) as [ls ->].
  destruct (owns_cell _ _ _ _ Hown) as (cell & Hls & HlsF & Hcell).
  assert (∃ rs, cell = CObj rs) as [rs ->].
  { specialize (Hcell h1 (λ _ _ _, eq_refl)). destruct cell; [done|]. eauto. }
  assert (h !! ls = None) as Hfresh.
  { apply not_elem_of_dom. set_solver. }
  cbn [Store.descend container]. rewrite Hls. cbn [fmap option_fmap option_map].
  rewrite Hk. unfold Store.apply_final, Store.to_property_key.
  rewrite (tree_of_prim h1 (RStr k) (VStr k)) by done.
  cbn [lift mbind res_bind JS.to_property_key to_string Store.is_null Store.set_own].
  destruct (has_own k rs) eqn:Hown'.
  - cbn [mbind res_bind]. eexists ls, _, _. split; [done|]. split; [done|].
    split; [apply lookup_insert_eq|]. split; [by apply lookup_replace_prop|].
    rewrite lookup_insert_ne by congruence. by apply Hsub.
  - destruct (String.eqb_spec k "__proto__"); [done|].
    cbn [mbind res_bind]. eexists ls, _, _. split; [done|]. split; [done|].
    split; [apply lookup_insert_eq|].
    split; [apply lookup_prop_app_new; by apply has_own_false|].
    rewrite lookup_insert_ne by congruence. by apply Hsub.
Qed.

Lemma X17_installed_value_is_shared_witness :
  let h : store :=
    {[ 1%positive := CObj [("paused"%string, RBool false)];
       2%positive := CArr [RStr "work-unit"; RRef 3%positive];
       3%positive := CObj [("id"%string, RNum 7)] ]} in
  ∃ ls ps h',
    Store.applyStateUpdate h (RRef 1%positive) (RRef 2%positive) = Ret (RRef ls, h')
    ∧ h' !! ls = Some (CObj ps)
    ∧ lookup_prop "work_unit" ps = Some (RRef 3%positive).
Proof.
  intros h.
  destruct (X17_installed_value_is_shared h 1%positive
              [("paused"%string, RBool false)]
              (VObj [("paused"%string, VBool false)])
              2%positive "work-unit" "work_unit" 3%positive
              (CObj [("id"%string, RNum 7)]))
    as (ls & ps & h' & Happ & _ & Hcell & Hlook & _);
    [reflexivity|by exists 1%nat|reflexivity|reflexivity|reflexivity|done|].
  by exists ls, ps, h'.
Defined.

End StoreMore.

(** *** Table cells of the Extreme Overclocking page *)
Section EocCells.
Import Builtins Notions Eoc.

Lemma has_tag_no_gt s : has_gt s = false → has_tag s = false.
Proof.
  induction s as [|c s IH]; simpl; [done|].
  intros [Hc Hs]%orb_false_elim. rewrite Hs, (IH Hs). by rewrite andb_false_r.
Qed.

Lemma strip_from_no_tag s : ∀ inside, has_tag (strip_from inside s) = false.
Proof.
  induction s as [|c s IH]; intros inside; simpl; [by destruct inside|].
  destruct inside.
  - destruct (Ascii.eqb c ">"); apply IH.
  - destruct (Ascii.eqb c "<") eqn:Ec.
    + destruct (has_gt s) eqn:Hgt; [apply IH|].
      simpl. by rewrite Ec, Hgt, (has_tag_no_gt _ Hgt).
    + simpl. by rewrite Ec, IH.
Qed.

Lemma strip_tags_id s : has_tag s = false → strip_tags s = s.
Proof.
  unfold strip_tags. induction s as [|c s IH]; simpl; [done|].
  intros [Hc Hs]%orb_false_elim. destruct (Ascii.eqb c "<").
  - simpl in Hc. by rewrite Hc.
  - by rewrite (IH Hs).
Qed.

Lemma strip_from_length s : ∀ inside,
  (String.length (strip_from inside s) ≤ String.length s)%nat.
Proof.
  induction s as [|c s IH]; intros inside; simpl; [by destruct inside|].
  destruct inside.
  - destruct (Ascii.eqb c ">"); etrans; [apply IH|lia|apply IH|lia].
  - destruct (Ascii.eqb c "<").
    + destruct (has_gt s); [etrans; [apply IH|lia]|done].
    + simpl. specialize (IH false). lia.
Qed.

Lemma has_gt_app s t : has_gt (s +:+ t) = has_gt s || has_gt t.
Proof.
  induction s as [|c s IH]; [done|]. simpl. by rewrite IH, orb_assoc.
Qed.

Lemma strip_from_inside t rest :
  has_gt t = false →
  strip_from true (t +:+ String ">" rest) = strip_from false rest.
Proof.
  induction t as [|c t IH]; [done|]. simpl.
  intros [Hc Ht]%orb_false_elim. rewrite Hc. by apply IH.
Qed.

Lemma strip_from_outside a rest :
  (∀ c, c ∈ String.list_ascii_of_string a → c ≠ "<"%char) →
  strip_from false (a +:+ rest) = a +:+ strip_from false rest.
Proof.
  induction a as [|c a IH]; [done|]. simpl. intros Hno.
  destruct (Ascii.eqb_spec c "<") as [->|_].
  { exfalso. apply (Hno "<"%char); [left|done]. }
  rewrite IH; [done|]. intros c' Hc'. apply Hno. by right.
Qed.

(** X18. Stripping the tags of a cell leaves no tag behind: in what
    [replace(/<[^>]*>/g, '')] returns no [<] is followed by a [>], so
    stripping again changes nothing; a text without a tag comes back
    as it is; and in a text that starts with a tag-free stretch, then
    a tag, the stretch is kept and the tag is gone. *)
Theorem X18_strip_tags_leaves_no_tag s :
  has_tag (strip_tags s) = false
  ∧ strip_tags (strip_tags s) = strip_tags s
  ∧ (has_tag s = false → strip_tags s = s)
  ∧ (String.length (strip_tags s) ≤ String.length s)%nat
  ∧ (∀ a t rest,
       (∀ c, c ∈ String.list_ascii_of_string a → c ≠ "<"%char) →
       has_gt t = false →
       s = a +:+ String "<" (t +:+ String ">" rest) →
       strip_tags s = a +:+ strip_tags rest).
Proof.
  split; [apply strip_from_no_tag|].
  split; [apply strip_tags_id, strip_from_no_tag|].
  split; [apply strip_tags_id|]. split; [apply strip_from_length|].
  intros a t rest Ha Ht ->. unfold strip_tags.
  rewrite strip_from_outside by done. f_equal.
  cbn [strip_from]. cbn [Ascii.eqb Bool.eqb].
  rewrite has_gt_app. cbn [has_gt Ascii.eqb Bool.eqb orb]. rewrite orb_true_r.
  by apply strip_from_inside.
Qed.

Lemma X18_strip_tags_leaves_no_tag_witness :
  strip_tags "<td align=right><b>1,234</b></td>" = "1,234"%string
  ∧ strip_tags "3 < 5" = "3 < 5"%string.
Proof.
  destruct (X18_strip_tags_leaves_no_tag "3 < 5") as (_ & _ & Hid & _).
  split; [reflexivity|]. by apply Hid.
Defined.

(** **** Reading a number *)

Lemma digit_of_range c d :
  digit_of c = Some d → (48 ≤ N_of_ascii c ≤ 57)%N ∧ d = (N_of_ascii c - 48)%N.
Proof.
  unfold digit_of. destruct (N.leb_spec 48 (N_of_ascii c)); [|done].
  destruct (N.leb_spec (N_of_ascii c) 57); [|done]. simpl. intros [= <-]. lia.
Qed.

Lemma digit_in_10 c : digit_in 10 c = digit_of c.
Proof.
  unfold digit_in, digit_of.
  destruct (N.leb_spec 48 (N_of_ascii c)), (N.leb_spec (N_of_ascii c) 57); simpl;
    repeat match goal with
           | |- context[(?a <=? ?b)%N] => destruct (N.leb_spec a b); simpl
           | |- context[(?a <? ?b)%N] => destruct (N.ltb_spec a b); simpl
           end; try done; lia.
Qed.

Lemma leading_parse s : ∀ acc m,
  parse_digits acc s = Some m → leading_digits 10 (Some acc) s = Some m.
Proof.
  induction s as [|c s IH]; intros acc m; simpl; [done|].
  rewrite digit_in_10. destruct (digit_of c) as [d|]; [|done]. apply IH.
Qed.

Lemma leading_parse_start s n :
  s ≠ ""%string → parse_digits 0 s = Some n → leading_digits 10 None s = Some n.
Proof.
  destruct s as [|c s]; [done|]. intros _. simpl. rewrite digit_in_10.
  destruct (digit_of c) as [d|]; [|done]. apply leading_parse.
Qed.

Lemma digit_not_blank c d : digit_of c = Some d → is_white_space c = false.
Proof.
  intros [Hr _]%digit_of_range. unfold is_white_space.
  destruct (N.leb_spec 9 (N_of_ascii c)); destruct (N.leb_spec (N_of_ascii c) 13);
    destruct (N.eqb_spec (N_of_ascii c) 32); destruct (N.eqb_spec (N_of_ascii c) 160);
    simpl; try done; lia.
Qed.

Lemma digit_not_char c d (x : ascii) :
  digit_of c = Some d → (N_of_ascii x < 48 ∨ 57 < N_of_ascii x)%N → Ascii.eqb c x = false.
Proof.
  intros [Hr _]%digit_of_range Hx. destruct (Ascii.eqb_spec c x) as [->|]; [lia|done].
Qed.

Lemma parseInt_string_digits s n :
  s ≠ ""%string → parse_digits 0 s = Some n → (n < 2 ^ 53)%N →
  parseInt_string s = Ret (Some (inject_Z (Z.of_N n))).
Proof.
  intros Hne Hp Hn. destruct s as [|c s]; [done|].
  pose proof Hp as Hp0. simpl in Hp0.
  destruct (digit_of c) as [d|] eqn:Hd; [|done].
  unfold parseInt_string. cbn [trim_start].
  rewrite (digit_not_blank _ _ Hd).
  rewrite (digit_not_char _ _ "-"%char Hd), (digit_not_char _ _ "+"%char Hd)
    by (left; vm_compute; done).
  assert ((match s with
           | String x s' =>
               if Ascii.eqb c "0" && (Ascii.eqb x "x" || Ascii.eqb x "X")
               then (16%N, s') else (10%N, String c s)
           | EmptyString => (10%N, String c s)
           end) = (10%N, String c s)) as Hradix.
  { destruct s as [|x s']; [done|]. simpl in Hp0.
    destruct (digit_of x) as [dx|] eqn:Hx; [|done].
    rewrite (digit_not_char _ _ "x"%char Hx), (digit_not_char _ _ "X"%char Hx)
      by (right; vm_compute; done).
    by rewrite andb_false_r. }
  rewrite Hradix, (leading_parse_start (String c s) n) by done.
  by destruct (N.ltb_spec n (2 ^ 53)); [|lia].
Qed.

Lemma parseInt_string_pretty (n : N) :
  (n < 2 ^ 53)%N → parseInt_string (pretty n) = Ret (Some (inject_Z (Z.of_N n))).
Proof.
  intros Hn. apply parseInt_string_digits; [apply pretty_N_nonempty| |done].
  apply parse_digits_pretty.
Qed.

Lemma parseInt_string_nan s :
  (∀ c rest, trim_start s = String c rest →
     digit_of c = None ∧ c ≠ "+"%char ∧ c ≠ "-"%char) →
  parseInt_string s = Ret None.
Proof.
  intros Hs. unfold parseInt_string. destruct (trim_start s) as [|c rest]; [done|].
  destruct (Hs c rest eq_refl) as (Hd & Hplus & Hminus).
  destruct (Ascii.eqb_spec c "-"); [done|]. destruct (Ascii.eqb_spec c "+"); [done|].
  assert (Ascii.eqb c "0" = false) as H0.
  { destruct (Ascii.eqb_spec c "0") as [->|]; [done|done]. }
  assert ((match rest with
           | String x s' =>
               if Ascii.eqb c "0" && (Ascii.eqb x "x" || Ascii.eqb x "X")
               then (16%N, s') else (10%N, String c rest)
           | EmptyString => (10%N, String c rest)
           end) = (10%N, String c rest)) as ->.
  { destruct rest; [done|]. by rewrite H0. }
  cbn [leading_digits]. by rewrite digit_in_10, Hd.
Qed.

(** X19. The numbers read from the cells.  A cell whose text, commas
    removed, is the decimal numeral of a natural number below 2^53
    reads as that number, tags, blanks and thousands separators
    notwithstanding; and a cell whose text, blanks aside, starts with
    anything but a digit or a sign, the empty text included, reads
    as 0: the NaN of [parseInt] is replaced. *)
Theorem X19_cell_numbers :
  (∀ text (n : N),
     (n < 2 ^ 53)%N → remove_commas text = pretty n →
     cell_number text = Ret (inject_Z (Z.of_N n)))
  ∧ (∀ cell (n : N),
       (n < 2 ^ 53)%N → trim (remove_commas (strip_tags cell)) = pretty n →
       cell_count cell = Ret (inject_Z (Z.of_N n)))
  ∧ (∀ text,
       (∀ c rest, trim_start (remove_commas text) = String c rest →
          digit_of c = None ∧ c ≠ "+"%char ∧ c ≠ "-"%char) →
       cell_number text = Ret 0%Q)
  ∧ (∀ cell,
       (∀ c rest, trim_start (trim (remove_commas (strip_tags cell))) = String c rest →
          digit_of c = None ∧ c ≠ "+"%char ∧ c ≠ "-"%char) →
       cell_count cell = Ret 0%Q).
Proof.
  assert (∀ n : N, number_or (Some (inject_Z (Z.of_N n))) 0 = inject_Z (Z.of_N n)) as Hor.
  { intros n. unfold number_or. simpl. destruct (Z.eqb_spec (Z.of_N n) 0) as [->|]; done. }
  split; [|split; [|split]].
  - intros text n Hn Heq. unfold cell_number.
    rewrite Heq, parseInt_string_pretty by done. cbn [mbind res_bind]. by rewrite Hor.
  - intros cell n Hn Heq. unfold cell_count.
    rewrite Heq, parseInt_string_pretty by done. cbn [mbind res_bind]. by rewrite Hor.
  - intros text Hs. unfold cell_number. by rewrite parseInt_string_nan.
  - intros cell Hs. unfold cell_count. by rewrite parseInt_string_nan.
Qed.

Lemma X19_cell_numbers_witness :
  cell_number "1,234,567" = Ret (inject_Z 1234567)
  ∧ cell_count "<td align=right> 12,345 </td>" = Ret (inject_Z 12345)
  ∧ cell_number "N/A" = Ret 0%Q
  ∧ cell_count "<td>  </td>" = Ret 0%Q.
Proof.
  destruct X19_cell_numbers as (Hnum & Hcount & Hnan & Hnan').
  split; [|split; [|split]].
  - apply (Hnum "1,234,567" 1234567%N); [done|reflexivity].
  - apply (Hcount "<td align=right> 12,345 </td>" 12345%N); [done|reflexivity].
  - apply Hnan. intros c rest [= <- <-]. by repeat split.
  - apply Hnan'. intros c rest Heq. vm_compute in Heq. discriminate.
Defined.

End EocCells.

(** *** The endpoints answered from the document *)
Section EndpointsProps.
Import Registry Router Builtins Notions Endpoints.

Lemma prefix_append s x : String.prefix s (s +:+ x) = true.
Proof.
  induction s as [|a s IH]; [by destruct x|]. simpl.
  by destruct (ascii_dec a a).
Qed.

Lemma queue_is_read x :
  String.prefix "queue/" ("queue/" +:+ x) = true
  ∧ String.eqb ("queue/" +:+ x) "log" = false
  ∧ String.eqb ("queue/" +:+ x) "" = false
  ∧ reads_document ("queue/" +:+ x) = true.
Proof.
  split; [apply prefix_append|]. split; [done|]. split; [done|].
  unfold reads_document. by rewrite prefix_append.
Qed.

Lemma split_digits s : ∀ acc m,
  parse_digits acc s = Some m → split "/" s = [s].
Proof.
  induction s as [|c s IH]; intros acc m; simpl; [done|].
  destruct (digit_of c) as [d|] eqn:Hd; [|done]. intros Hp.
  rewrite (digit_not_char _ _ "/"%char Hd) by (left; vm_compute; done).
  by rewrite (IH _ _ Hp).
Qed.

Lemma queue_segment (n : N) :
  split "/" ("queue/" +:+ pretty n) !! 1%nat = Some (pretty n).
Proof.
  change (split "/" ("queue/" +:+ pretty n))
    with ("queue"%string :: split "/" (pretty n)).
  by rewrite (split_digits _ _ _ (parse_digits_pretty n)).
Qed.

Lemma member_slot u : is_null u = false → is_undefined u = false →
  ∃ v, member u "slot" = Ret v
       ∧ ∀ n, strict_eq_num v (Some n) = in_slot n u.
Proof.
  intros Hn Hu. destruct u as [| |b|q|s|l|props]; try done;
    try (exists VUndef; split; [done|]; done).
  unfold member. cbn [existsb data_names String.eqb Ascii.eqb Bool.eqb orb negb].
  eexists. split; [done|]. intros n. simpl.
  destruct (lookup_prop "slot" props) as [[]|]; done.
Qed.

Lemma filter_slot_spec n us :
  Forall (λ u, is_null u = false ∧ is_undefined u = false) us →
  filter_slot (Some n) us = Ret (List.filter (in_slot n) us).
Proof.
  induction 1 as [|u us [Hn Hu] _ IH]; [done|]. cbn [filter_slot List.filter].
  rewrite Hu. destruct (member_slot u Hn Hu) as (v & -> & Hv).
  cbn [mbind res_bind]. rewrite IH. cbn [mbind res_bind]. by rewrite Hv.
Qed.

Lemma member_obj name props :
  existsb (String.eqb name) data_names = true →
  member (VObj props) name = Ret (default VUndef (lookup_prop name props)).
Proof. intros H. unfold member. by rewrite H. Qed.

(** X20. [queue/N] answers with the work units of slot N.  When the
    document of the key is there and lists its units, the endpoint
    [queue/N] returns, in their order, exactly the units whose [slot]
    is the number N, and [units] returns them all; a document without
    units gives the empty list; and nothing is sent to the daemon, the
    tables staying as they are. *)
Theorem X20_queue_returns_the_units_of_the_slot i h p method data e e' w props :
  machineData w !! conn_key i h p = Some (VObj props) →
  (∀ us (n : N),
     lookup_prop "units" props = Some (VArr us) →
     Forall (λ u, is_null u = false ∧ is_undefined u = false) us →
     (n < 2 ^ 53)%N →
     fahRequest i h p ("queue/" +:+ pretty n) method data e e' w
       = Ret (Success (VArr (List.filter (in_slot (inject_Z (Z.of_N n))) us)), w)
     ∧ fahRequest i h p "units" method data e e' w = Ret (Success (VArr us), w))
  ∧ (lookup_prop "units" props = None →
     (∀ n : N, (n < 2 ^ 53)%N →
        fahRequest i h p ("queue/" +:+ pretty n) method data e e' w
          = Ret (Success (VArr []), w))
     ∧ fahRequest i h p "units" method data e e' w = Ret (Success (VArr []), w)).
Proof.
  intros Hdoc.
  assert (∀ n : N, (n < 2 ^ 53)%N →
            fahRequest i h p ("queue/" +:+ pretty n) method data e e' w =
              match read_units ("queue/" +:+ pretty n) (VObj props) with
              | Ret d => Ret (Success d, w)
              | Throw _ => Ret (http_fallback h p ("queue/" +:+ pretty n) method data e w)
              | Unmodelled => Unmodelled
              end) as Hq.
  { intros n Hn. unfold fahRequest.
    destruct (queue_is_read (pretty n)) as (Hpre & Hlog & Hempty & Hreads).
    rewrite Hreads, Hempty, Hlog. cbn [negb mbind res_bind]. rewrite Hdoc.
    unfold read_stored. by rewrite Hlog, Hpre. }
  assert (fahRequest i h p "units" method data e e' w =
            match read_units "units" (VObj props) with
            | Ret d => Ret (Success d, w)
            | Throw _ => Ret (http_fallback h p "units" method data e w)
            | Unmodelled => Unmodelled
            end) as Hu.
  { unfold fahRequest. cbn [reads_document String.eqb Ascii.eqb Bool.eqb String.prefix
                              orb negb mbind res_bind].
    by rewrite Hdoc. }
  assert (∀ n : N, (n < 2 ^ 53)%N →
            parseInt (match split "/" ("queue/" +:+ pretty n) !! 1%nat with
                      | Some seg => VStr seg
                      | None => VUndef
                      end) = Ret (Some (inject_Z (Z.of_N n)))) as Hparse.
  { intros n Hn. rewrite queue_segment. unfold parseInt. cbn [to_string mbind res_bind].
    by apply parseInt_string_pretty. }
  split.
  - intros us n Hus Hall Hn. split.
    + rewrite (Hq n Hn). unfold read_units. rewrite member_obj by done. rewrite Hus.
      cbn [default from_option id or_else truthy mbind res_bind].
      rewrite prefix_append, (Hparse n Hn). cbn [mbind res_bind].
      by rewrite filter_slot_spec.
    + rewrite Hu. unfold read_units. rewrite member_obj by done. by rewrite Hus.
  - intros Hnone. split.
    + intros n Hn. rewrite (Hq n Hn). unfold read_units.
      rewrite member_obj by done. rewrite Hnone.
      cbn [default from_option id or_else truthy mbind res_bind].
      by rewrite prefix_append, (Hparse n Hn).
    + rewrite Hu. unfold read_units. rewrite member_obj by done. by rewrite Hnone.
Qed.

Lemma X20_queue_returns_the_units_of_the_slot_witness :
  let doc := VObj [("units"%string,
                    VArr [VObj [("id"%string, VStr "u1"); ("slot"%string, VInt 0)];
                          VObj [("id"%string, VStr "u2"); ("slot"%string, VInt 1)];
                          VObj [("id"%string, VStr "u3"); ("slot"%string, VInt 0)]])] in
  let w := {| fahConnections := ∅;
              machineData := {[ conn_key "local" "127.0.0.1" 7396 := doc ]};
              trace := [] |} in
  fahRequest "local" "127.0.0.1" 7396 "queue/0" "GET" VNull
    refusing_daemon refusing_daemon w
  = Ret (Success (VArr [VObj [("id"%string, VStr "u1"); ("slot"%string, VInt 0)];
                        VObj [("id"%string, VStr "u3"); ("slot"%string, VInt 0)]]), w).
Proof.
  intros doc w.
  destruct (X20_queue_returns_the_units_of_the_slot "local" "127.0.0.1" 7396 "GET" VNull
              refusing_daemon refusing_daemon w
              [("units"%string,
                VArr [VObj [("id"%string, VStr "u1"); ("slot"%string, VInt 0)];
                      VObj [("id"%string, VStr "u2"); ("slot"%string, VInt 1)];
                      VObj [("id"%string, VStr "u3"); ("slot"%string, VInt 0)]])]
              eq_refl) as [Hunits _].
  destruct (Hunits _ 0%N eq_refl) as [Hq _]; [by repeat constructor|done|].
  exact Hq.
Defined.

(** **** The slots of the groups *)

Lemma insert_by_index_none props :
  Forall (λ kv : string * value, array_index kv.1 = None) props →
  enumerate props = props.
Proof.
  intros Hall. unfold enumerate.
  assert (foldr (λ (kv : string * value) acc,
                   match array_index kv.1 with
                   | Some i => insert_by_index (i, kv.2) acc
                   | None => acc
                   end) [] props = []) as ->.
  { induction Hall as [|kv l Hkv _ IH]; [done|]. simpl. by rewrite Hkv. }
  simpl. induction Hall as [|kv l Hkv _ IH]; [done|]. simpl. by rewrite Hkv, IH.
Qed.

Lemma push_slots_spec groups : ∀ acc,
  Forall (λ g, ∃ gp, g = VObj gp
                     ∧ (lookup_prop "slots" gp = None
                        ∨ ∃ ss, lookup_prop "slots" gp = Some (VArr ss))) groups →
  push_slots acc groups = Ret (acc ++ concat (List.map group_slots groups)).
Proof.
  induction groups as [|g groups IH]; intros acc Hall.
  - simpl. by rewrite app_nil_r.
  - apply Forall_cons in Hall as [(gp & -> & Hs) Hall]. cbn [push_slots].
    rewrite member_obj by done. cbn [List.map concat group_slots].
    destruct Hs as [Hs|[ss Hs]]; rewrite Hs; cbn [default from_option id mbind res_bind truthy spread].
    + by rewrite (IH _ Hall).
    + by rewrite (IH _ Hall), app_assoc.
Qed.

(** X21. [slots] answers with the slots of all groups.  When the
    document of the key is there and its groups are plain objects under
    names that are no array indices, the endpoint returns the slots the
    groups list, group after group in the order of the groups; a
    document without groups gives the empty list; and nothing is sent
    to the daemon. *)
Theorem X21_slots_are_those_of_the_groups i h p method data e e' w props :
  machineData w !! conn_key i h p = Some (VObj props) →
  (∀ groups,
     lookup_prop "groups" props = Some (VObj groups) →
     Forall (λ kg : string * value,
               array_index kg.1 = None
               ∧ ∃ gp, kg.2 = VObj gp
                   ∧ (lookup_prop "slots" gp = None
                      ∨ ∃ ss, lookup_prop "slots" gp = Some (VArr ss))) groups →
     fahRequest i h p "slots" method data e e' w
       = Ret (Success (VArr (concat (List.map group_slots groups.*2))), w))
  ∧ (lookup_prop "groups" props = None →
     fahRequest i h p "slots" method data e e' w = Ret (Success (VArr []), w)).
Proof.
  intros Hdoc.
  assert (fahRequest i h p "slots" method data e e' w =
            match read_slots (VObj props) with
            | Ret d => Ret (Success d, w)
            | Throw _ => Ret (http_fallback h p "slots" method data e w)
            | Unmodelled => Unmodelled
            end) as Hs.
  { unfold fahRequest. cbn [reads_document String.eqb Ascii.eqb Bool.eqb String.prefix
                              orb negb mbind res_bind].
    by rewrite Hdoc. }
  split.
  - intros groups Hg Hall. rewrite Hs. unfold read_slots.
    rewrite member_obj by done. rewrite Hg.
    cbn [default from_option id or_else truthy for_in_values mbind res_bind].
    rewrite insert_by_index_none by (eapply Forall_impl; [exact Hall|]; by intros ? [? _]).
    rewrite (push_slots_spec _ []); [done|].
    apply Forall_fmap. eapply Forall_impl; [exact Hall|]. by intros ? [_ ?].
  - intros Hnone. rewrite Hs. unfold read_slots.
    rewrite member_obj by done. by rewrite Hnone.
Qed.

Lemma X21_slots_are_those_of_the_groups_witness :
  let doc := VObj [("groups"%string,
                    VObj [("cpu"%string,
                           VObj [("slots"%string, VArr [VStr "s0"; VStr "s1"])]);
                          ("idle"%string, VObj [("config"%string, VObj [])]);
                          ("gpu"%string, VObj [("slots"%string, VArr [VStr "s2"])])])] in
  let w := {| fahConnections := ∅;
              machineData := {[ conn_key "local" "127.0.0.1" 7396 := doc ]};
              trace := [] |} in
  fahRequest "local" "127.0.0.1" 7396 "slots" "GET" VNull
    refusing_daemon refusing_daemon w
  = Ret (Success (VArr [VStr "s0"; VStr "s1"; VStr "s2"]), w).
Proof.
  intros doc w.
  destruct (X21_slots_are_those_of_the_groups "local" "127.0.0.1" 7396 "GET" VNull
              refusing_daemon refusing_daemon w
              [("groups"%string,
                VObj [("cpu"%string,
                       VObj [("slots"%string, VArr [VStr "s0"; VStr "s1"])]);
                      ("idle"%string, VObj [("config"%string, VObj [])]);
                      ("gpu"%string, VObj [("slots"%string, VArr [VStr "s2"])])])]
              eq_refl) as [Hgroups _].
  apply (Hgroups _ eq_refl).
  repeat constructor; simpl; eauto.
Defined.

(** **** No fallback for the reads *)

Lemma no_http_refl (w : world) :
  ∃ evs, trace w = trace w ++ evs ∧ existsb is_http evs = false.
Proof. exists []. by rewrite app_nil_r. Qed.

Lemma no_http_trans (w1 w2 w3 : world) :
  (∃ evs, trace w2 = trace w1 ++ evs ∧ existsb is_http evs = false) →
  (∃ evs, trace w3 = trace w2 ++ evs ∧ existsb is_http evs = false) →
  ∃ evs, trace w3 = trace w1 ++ evs ∧ existsb is_http evs = false.
Proof.
  intros (evs1 & H1 & Hn1) (evs2 & H2 & Hn2). exists (evs1 ++ evs2).
  rewrite H2, H1, <- app_assoc. split; [done|].
  by rewrite existsb_app, Hn1, Hn2.
Qed.

Lemma await_state_no_http i h p endpoint e w r w' :
  await_state i h p endpoint e w = Ret (r, w') →
  (∃ evs, trace w' = trace w ++ evs ∧ existsb is_http evs = false)
  ∧ (∀ err w1, getFAHConnection i h p (now e) (handshake e) w = (inl err, w1) →
               r = Failure (err_message err) ∧ w' = w1)
  ∧ (∀ ws w1, getFAHConnection i h p (now e) (handshake e) w = (inr ws, w1) →
              truthy (currentDocument (conn_key i h p) w') = false →
              r = Failure "Timeout waiting for initial state").
Proof.
  unfold await_state.
  destruct (getFAHConnection i h p (now e) (handshake e) w) as [[err|ws] w1] eqn:Hg.
  - intros [= <- <-]. split; [by eapply getFAHConnection_no_http|].
    split; [by intros ? ? [= <- <-]|done].
  - destruct (deliver_all _ _ w1) as [w2| |] eqn:Hd; cbn [mbind res_bind]; try done.
    pose proof (deliver_all_trace _ _ _ _ Hd) as Htr.
    assert (∃ evs, trace w2 = trace w ++ evs ∧ existsb is_http evs = false) as Hno.
    { rewrite Htr. by eapply getFAHConnection_no_http. }
    destruct (truthy (currentDocument _ w2)) eqn:Ht.
    + destruct (read_arrived _ _) as [d| |]; try done. intros [= <- <-].
      split; [done|]. split; [done|]. intros ? ? _ Hf. congruence.
    + intros [= <- <-]. split; [done|]. split; [done|]. done.
Qed.

(** X22. The endpoints answered from the document do not fall back
    to HTTP.  When a read endpoint finds no document, it connects and
    waits: a connection that cannot be made gives the failure of the
    transport, a wait in which no document arrives gives "Timeout
    waiting for initial state", and no HTTP request is issued either
    way.  An HTTP request goes out only after the document that is
    there when the endpoint looks for it has made the read raise. *)
Theorem X22_reads_do_not_fall_back i h p endpoint method data e e' w r w' :
  reads_document endpoint = true →
  fahRequest i h p endpoint method data e e' w = Ret (r, w') →
  ((∃ evs, trace w' = trace w ++ evs ∧ existsb is_http evs = false)
   ∨ ∃ wc doc err,
       (if String.eqb endpoint "log" then enable_log i h p e w else Ret w) = Ret wc
       ∧ machineData wc !! conn_key i h p = Some doc
       ∧ read_stored endpoint doc = Throw err)
  ∧ (endpoint ≠ "log"%string → machineData w !! conn_key i h p = None →
     (∃ evs, trace w' = trace w ++ evs ∧ existsb is_http evs = false)
     ∧ (∀ err w1, getFAHConnection i h p (now e) (handshake e) w = (inl err, w1) →
                  r = Failure (err_message err) ∧ w' = w1)
     ∧ (∀ ws w1, getFAHConnection i h p (now e) (handshake e) w = (inr ws, w1) →
                 truthy (currentDocument (conn_key i h p) w') = false →
                 r = Failure "Timeout waiting for initial state")).
Proof.
  intros Hreads. unfold fahRequest. rewrite Hreads. cbn [negb].
  destruct (String.eqb_spec endpoint "") as [->|Hne].
  { intros Ha. split; [left; by eapply await_state_no_http|].
    intros _ _. by eapply await_state_no_http. }
  destruct (String.eqb_spec endpoint "log") as [->|Hlog].
  - destruct (enable_log i h p e w) as [wc| |] eqn:Hen; cbn [mbind res_bind]; try done.
    assert (∃ evs, trace wc = trace w ++ evs ∧ existsb is_http evs = false) as Hno.
    { revert Hen. unfold enable_log.
      destruct (getFAHConnection i h p (now e) (handshake e) w) as [[err|ws] w1] eqn:Hg;
        intros Hd; apply deliver_all_trace in Hd; rewrite Hd.
      - by eapply getFAHConnection_no_http.
      - destruct (getFAHConnection_no_http _ _ _ _ _ _ _ _ Hg) as (evs & Hevs & Hn).
        exists (evs ++ [WsSend (sock_id ws) (logEnableRequest (now e))]).
        simpl. rewrite Hevs, <- app_assoc. split; [done|].
        by rewrite existsb_app, Hn. }
    intros Hres. split; [|done].
    destruct (machineData wc !! conn_key i h p) as [doc|] eqn:Hdoc.
    + destruct (read_stored "log" doc) as [d|err|] eqn:Hread; try done.
      * injection Hres as <- <-. by left.
      * right. by exists wc, doc, err.
    + left. eapply no_http_trans; [exact Hno|]. by eapply await_state_no_http.
  - cbn [mbind res_bind]. intros Hres. split.
    + destruct (machineData w !! conn_key i h p) as [doc|] eqn:Hdoc.
      * destruct (read_stored endpoint doc) as [d|err|] eqn:Hread; try done.
        -- injection Hres as <- <-. left. apply no_http_refl.
        -- right. exists w, doc, err.
           by destruct (String.eqb_spec endpoint "log").
      * left. by eapply await_state_no_http.
    + intros _ Hnone. rewrite Hnone in Hres. by eapply await_state_no_http.
Qed.

Lemma X22_reads_do_not_fall_back_witness :
  fahRequest "local" "127.0.0.1" 7396 "info" "GET" VNull
    {| now := "2024-01-01T00:00:00.000Z";
       handshake := ConnectError {| err_code := Some "ECONNREFUSED"%string;
                                    err_message := "connect ECONNREFUSED 127.0.0.1:7396" |};
       arrivals := [];
       http := λ _, HttpOk (VObj [("version"%string, VStr "7.6")]) |}
    refusing_daemon idle_world
  = Ret (Failure "connect ECONNREFUSED 127.0.0.1:7396",
         {| fahConnections := ∅; machineData := ∅;
            trace := [NewWebSocket "ws://127.0.0.1:7396/api/websocket"] |}).
Proof.
  set (e := {| now := "2024-01-01T00:00:00.000Z";
               handshake := ConnectError
                 {| err_code := Some "ECONNREFUSED"%string;
                    err_message := "connect ECONNREFUSED 127.0.0.1:7396" |};
               arrivals := [];
               http := λ _, HttpOk (VObj [("version"%string, VStr "7.6")]) |}).
  destruct (fahRequest "local" "127.0.0.1" 7396 "info" "GET" VNull e refusing_daemon
              idle_world) as [[r w']| |] eqn:Heq; [|vm_compute in Heq; discriminate..].
  destruct (X22_reads_do_not_fall_back "local" "127.0.0.1" 7396 "info" "GET" VNull e
              refusing_daemon idle_world r w' eq_refl Heq) as [_ Hnone].
  destruct (Hnone ltac:(done) eq_refl) as (_ & Herr & _).
  destruct (Herr _ _ eq_refl) as [-> ->]. reflexivity.
Defined.

End EndpointsProps.

(** *** The list of instances *)
Section InstancesProps.
Import Router Builtins Notions Instances.

Lemma member_id i :
  readable i = true →
  ∃ v, member i "id" = Ret v ∧ ∀ id, strict_eq_str v id = id_is id i.
Proof.
  intros Hr. destruct i as [| |b|q|s|l|props]; try done;
    try (exists VUndef; split; [done|]; done).
  unfold member. cbn [existsb data_names String.eqb Ascii.eqb Bool.eqb orb negb].
  eexists. split; [done|]. intros id. simpl.
  destruct (lookup_prop "id" props) as [[]|]; done.
Qed.

Lemma without_local_spec l :
  Forall (λ i, readable i = true) l →
  without_local l = Ret (List.filter (λ i, negb (id_is "local" i)) l).
Proof.
  induction 1 as [|i l Hi _ IH]; [done|]. cbn [without_local List.filter].
  destruct (member_id i Hi) as (v & -> & Hv). cbn [mbind res_bind].
  rewrite IH. cbn [mbind res_bind]. rewrite Hv. by destruct (id_is "local" i).
Qed.

Lemma filter_all {A} (f : A → bool) l :
  Forall (λ x, f x = true) l → List.filter f l = l.
Proof. induction 1 as [|x l Hx _ IH]; [done|]. simpl. by rewrite Hx, IH. Qed.

Lemma findIndex_none id l :
  Forall (λ i, readable i = true ∧ id_is id i = false) l →
  findIndex_by_id id l = Ret None.
Proof.
  induction 1 as [|i l [Hr Hi] _ IH]; [done|]. cbn [findIndex_by_id].
  destruct (member_id i Hr) as (v & -> & Hv). cbn [mbind res_bind].
  by rewrite Hv, Hi, IH.
Qed.

Lemma findIndex_first id before x after :
  Forall (λ i, readable i = true ∧ id_is id i = false) before →
  readable x = true → id_is id x = true →
  findIndex_by_id id (before ++ x :: after) = Ret (Some (length before)).
Proof.
  intros Hb Hr Hx. induction Hb as [|i l [Hri Hi] _ IH]; cbn [app findIndex_by_id].
  - destruct (member_id x Hr) as (v & -> & Hv). cbn [mbind res_bind]. by rewrite Hv, Hx.
  - destruct (member_id i Hri) as (v & -> & Hv). cbn [mbind res_bind].
    by rewrite Hv, Hi, IH.
Qed.

Lemma find_first id before x after :
  Forall (λ i, readable i = true ∧ id_is id i = false) before →
  readable x = true → id_is id x = true →
  find_by_id id (before ++ x :: after) = Ret (Some x).
Proof.
  intros Hb Hr Hx. induction Hb as [|i l [Hri Hi] _ IH]; cbn [app find_by_id].
  - destruct (member_id x Hr) as (v & -> & Hv). cbn [mbind res_bind]. by rewrite Hv, Hx.
  - destruct (member_id i Hri) as (v & -> & Hv). cbn [mbind res_bind].
    by rewrite Hv, Hi, IH.
Qed.

Lemma saveInstances_instances written st st' :
  saveInstances written st = Ret st' → instances st' = instances st.
Proof.
  unfold saveInstances. destruct (without_local _); intros [= <-]; done.
Qed.

Lemma post_instance_head reqBody now_ms written st resp st' loc rest :
  instances st = loc :: rest →
  post_instance reqBody now_ms written st = Ret (resp, st') →
  ∃ rest', instances st' = loc :: rest'.
Proof.
  intros Hst. unfold post_instance.
  destruct (member reqBody "name") as [name| |]; cbn [mbind res_bind]; try done.
  destruct (member reqBody "host") as [host| |]; cbn [mbind res_bind]; try done.
  destruct (member reqBody "port") as [port| |]; cbn [mbind res_bind]; try done.
  destruct (_ || _); [intros [= <- <-]; by eauto|].
  destruct (int_to_string now_ms) as [stamp| |]; cbn [mbind res_bind]; try done.
  destruct (parseInt _) as [parsed| |]; cbn [mbind res_bind]; try done.
  destruct (saveInstances _ _) as [st1| |] eqn:Hs; cbn [mbind res_bind]; try done.
  intros [= <- <-]. apply saveInstances_instances in Hs. rewrite Hs. simpl.
  rewrite Hst. simpl. eauto.
Qed.

Lemma delete_instance_head id written st resp st' loc rest :
  instances st = loc :: rest → readable loc = true → id_is "local" loc = true →
  delete_instance id written st = Ret (resp, st') →
  ∃ rest', instances st' = loc :: rest'.
Proof.
  intros Hst Hr Hloc. unfold delete_instance. rewrite Hst. cbn [findIndex_by_id].
  destruct (member_id loc Hr) as (v & Hm & Hv). rewrite Hm. cbn [mbind res_bind].
  rewrite Hv. destruct (id_is id loc) eqn:Hid.
  - cbn [mbind res_bind]. simpl. rewrite Hm. cbn [mbind res_bind]. rewrite Hv, Hloc.
    intros [= <- <-]. rewrite Hst. eauto.
  - destruct (findIndex_by_id id rest) as [[j|]| |]; cbn [mbind res_bind option_map];
      try done; [|intros [= <- <-]; rewrite Hst; by eauto].
    change ((loc :: rest) !! S j) with (rest !! j).
    destruct (member (default VUndef (rest !! j)) "id") as [found| |];
      cbn [mbind res_bind]; try done.
    destruct (strict_eq_str found "local");
      [intros [= <- <-]; rewrite Hst; by eauto|].
    destruct (saveInstances _ _) as [st1| |] eqn:Hs; cbn [mbind res_bind]; try done.
    intros [= <- <-]. apply saveInstances_instances in Hs. rewrite Hs. simpl. eauto.
Qed.

(** X23. The local instance cannot be removed.  Whatever requests are
    served on the list of instances, and whatever the file holds when
    it is loaded, the list keeps the local instance it starts with as
    its first element; a request to delete the id [local] is refused
    with status 400 and changes nothing. *)
Theorem X23_local_instance_is_kept loc :
  readable loc = true → id_is "local" loc = true →
  (∀ rs st st' rest,
     instances st = loc :: rest → serve_all rs st = Ret st' →
     ∃ rest', instances st' = loc :: rest')
  ∧ (∀ st st' rest,
       instances st = loc :: rest → loadInstances st = Ret st' →
       ∃ rest', instances st' = loc :: rest')
  ∧ (∀ st written rest,
       instances st = loc :: rest →
       delete_instance "local" written st
       = Ret ({| status := 400;
                 body := VObj [("error"%string, VStr "Cannot remove local instance")] |},
              st)).
Proof.
  intros Hr Hloc. split; [|split].
  - induction rs as [|r rs IH]; intros st st' rest Hst; simpl.
    + intros [= <-]. eauto.
    + destruct (serve r st) as [[resp st1]| |] eqn:Hserve; cbn [mbind res_bind]; try done.
      assert (∃ rest1, instances st1 = loc :: rest1) as [rest1 Hst1].
      { destruct r; simpl in Hserve.
        - by eapply post_instance_head.
        - by eapply delete_instance_head. }
      by apply (IH st1 st' rest1).
  - intros st st' rest Hst. unfold loadInstances.
    destruct (file st) as [| |[saved|]]; try (intros [= <-]; by eauto).
    rewrite Hst.
    assert (find_by_id "local" (loc :: rest) = Ret (Some loc)) as ->
      by (by apply (find_first "local" [] loc rest)).
    cbn [mbind res_bind default from_option id].
    destruct saved as [| |b|q|s|elems|props]; try (intros [= <-]; by eauto).
    destruct (without_local elems) as [kept| |]; cbn [mbind res_bind];
      try done; intros [= <-]; simpl; eauto.
  - intros st written rest Hst. unfold delete_instance. rewrite Hst.
    assert (findIndex_by_id "local" (loc :: rest) = Ret (Some 0%nat)) as ->
      by (by apply (findIndex_first "local" [] loc rest)).
    cbn [mbind res_bind]. simpl.
    destruct (member_id loc Hr) as (v & -> & Hv). cbn [mbind res_bind].
    by rewrite Hv, Hloc.
Qed.

Lemma X23_local_instance_is_kept_witness :
  ∃ st' rest',
    serve_all
      [ Post (VObj [("name"%string, VStr "rig"); ("host"%string, VStr "10.0.0.5")])
             1700000000000 Written;
        Delete "local" Written ]
      {| instances := initial; file := Missing |} = Ret st'
    ∧ instances st' = local_instance :: rest'
    ∧ length rest' = 1%nat.
Proof.
  destruct (X23_local_instance_is_kept local_instance eq_refl eq_refl) as (Hserve & _ & _).
  destruct (serve_all
              [ Post (VObj [("name"%string, VStr "rig"); ("host"%string, VStr "10.0.0.5")])
                     1700000000000 Written;
                Delete "local" Written ]
              {| instances := initial; file := Missing |}) as [st'| |] eqn:Heq;
    [|vm_compute in Heq; discriminate..].
  destruct (Hserve _ {| instances := initial; file := Missing |} _ [] eq_refl Heq)
    as [rest' Hrest].
  exists st', rest'. split; [done|]. split; [done|].
  vm_compute in Heq. injection Heq as <-. by injection Hrest as <-.
Defined.

(** X24. What is saved loads back.  After a successful save the file
    holds the instances other than the local one, and loading that file
    into a server that has just started, with the local instance only,
    gives the list that was saved: the local instance first, the others
    after it in their order. *)
Theorem X24_saved_instances_load_back others other_file :
  Forall (λ i, is_json i = true ∧ readable i = true ∧ id_is "local" i = false) others →
  ∃ saved,
    saveInstances Written {| instances := local_instance :: others; file := other_file |}
      = Ret {| instances := local_instance :: others; file := saved |}
    ∧ saved = Holds (Some (VArr others))
    ∧ loadInstances {| instances := initial; file := saved |}
      = Ret {| instances := local_instance :: others; file := saved |}.
Proof.
  intros Hall. exists (Holds (Some (VArr others))).
  assert (Forall (λ i, readable i = true) others) as Hread
    by (eapply Forall_impl; [exact Hall|]; by intros ? (_ & ? & _)).
  assert (List.filter (λ i, negb (id_is "local" i)) others = others) as Hkeep.
  { apply filter_all. eapply Forall_impl; [exact Hall|]. by intros ? (_ & _ & ->). }
  split; [|split; [done|]].
  - unfold saveInstances. cbn [instances file].
    rewrite without_local_spec by (by constructor).
    cbn [List.filter]. change (id_is "local" local_instance) with true. cbn [negb].
    rewrite Hkeep, json_value_id; [done|].
    apply is_json_arr. eapply Forall_impl; [exact Hall|]. by intros ? (? & _).
  - unfold loadInstances. cbn [instances file initial find_by_id].
    change (member local_instance "id") with (Ret (VStr "local") : res value).
    cbn [mbind res_bind strict_eq_str String.eqb Ascii.eqb Bool.eqb].
    rewrite without_local_spec, Hkeep by done. done.
Qed.

Lemma X24_saved_instances_load_back_witness :
  let rig := VObj [("id"%string, VStr "instance-1700000000000");
                   ("name"%string, VStr "rig"); ("host"%string, VStr "10.0.0.5");
                   ("port"%string, VInt 7396); ("enabled"%string, VBool true)] in
  loadInstances {| instances := initial; file := Holds (Some (VArr [rig])) |}
  = Ret {| instances := [local_instance; rig]; file := Holds (Some (VArr [rig])) |}.
Proof.
  intros rig.
  destruct (X24_saved_instances_load_back [rig] Missing) as (saved & _ & -> & Hload).
  { by repeat constructor. }
  exact Hload.
Defined.

(** X25. Deleting an instance removes the first one with the id and
    no other.  The request for an id other than [local] answers 404
    and changes nothing when no instance has the id; otherwise it
    removes the first instance with the id, keeps the others in their
    order, and saves them. *)
Theorem X25_delete_removes_the_first_match iid written st :
  (∀ before x after,
     instances st = before ++ x :: after →
     Forall (λ i, readable i = true ∧ id_is iid i = false) before →
     readable x = true → id_is iid x = true → id_is "local" x = false →
     Forall (λ i, readable i = true) after →
     ∃ saved,
       delete_instance iid written st
       = Ret ({| status := 200; body := VObj [("success"%string, VBool true)] |},
              {| instances := before ++ after; file := saved |})
       ∧ (written = Written →
          saved = Holds (Some (json_value
                   (VArr (List.filter (λ i, negb (id_is "local" i)) (before ++ after)))))))
  ∧ (Forall (λ i, readable i = true ∧ id_is iid i = false) (instances st) →
     delete_instance iid written st
     = Ret ({| status := 404;
               body := VObj [("error"%string, VStr "Instance not found")] |}, st)).
Proof.
  split.
  - intros before x after Hst Hb Hrx Hx Hloc Ha.
    assert (Forall (λ i, readable i = true) (before ++ after)) as Hrest.
    { apply Forall_app. split; [|done].
      eapply Forall_impl; [exact Hb|]. by intros ? [? _]. }
    eexists. unfold delete_instance. rewrite Hst.
    rewrite (findIndex_first _ _ _ _ Hb Hrx Hx). cbn [mbind res_bind].
    rewrite list_lookup_middle by done. cbn [default from_option id].
    destruct (member_id x Hrx) as (v & Hm & Hv).
    rewrite Hm. cbn [mbind res_bind]. rewrite Hv, Hloc.
    assert (delete (length before) (before ++ x :: after) = before ++ after) as ->.
    { clear. induction before as [|b l IH]; simpl; [done|]. by rewrite IH. }
    unfold saveInstances. cbn [instances file].
    rewrite without_local_spec by done. cbn [mbind res_bind].
    split; [done|]. by intros ->.
  - intros Hall. unfold delete_instance. by rewrite (findIndex_none _ _ Hall).
Qed.

Lemma X25_delete_removes_the_first_match_witness :
  let rig n := VObj [("id"%string, VStr "instance-1"); ("name"%string, VStr n)] in
  delete_instance "instance-1" Written
    {| instances := [local_instance; rig "a"; rig "b"]; file := Missing |}
  = Ret ({| status := 200; body := VObj [("success"%string, VBool true)] |},
         {| instances := [local_instance; rig "b"];
            file := Holds (Some (VArr [rig "b"])) |}).
Proof.
  intros rig.
  destruct (X25_delete_removes_the_first_match "instance-1" Written
              {| instances := [local_instance; rig "a"; rig "b"]; file := Missing |})
    as [Hfirst _].
  destruct (Hfirst [local_instance] (rig "a") [rig "b"] eq_refl) as (saved & Hdel & Hsaved);
    [by repeat constructor|done|done|done|by repeat constructor|].
  rewrite Hdel, (Hsaved eq_refl). reflexivity.
Defined.

(** X26. Adding an instance and removing it again.  A request to add
    an instance that names a name and a host appends the new instance,
    whose id is [instance-] followed by the time of the request in
    milliseconds, and answers with it; when no instance had that id
    before, a request to delete the id then gives back the list as it
    was before the addition.  Without a port in the request the new
    instance has port 7396. *)
Theorem X26_add_then_remove reqBody name host port parsed now_ms written st :
  member reqBody "name" = Ret name → truthy name = true →
  member reqBody "host" = Ret host → truthy host = true →
  member reqBody "port" = Ret port →
  parseInt (if is_undefined port then VInt 7396 else port) = Ret parsed →
  Z.abs now_ms < 2 ^ 53 →
  Forall (λ i, readable i = true ∧ id_is ("instance-" +:+ pretty now_ms) i = false)
    (instances st) →
  ∃ new saved,
    post_instance reqBody now_ms written st
    = Ret ({| status := 200; body := new |},
           {| instances := instances st ++ [new]; file := saved |})
    ∧ new = VObj [("id"%string, VStr ("instance-" +:+ pretty now_ms));
                  ("name"%string, name); ("host"%string, host);
                  ("port"%string, VNum (number_or parsed 7396));
                  ("enabled"%string, VBool true)]
    ∧ (is_undefined port = true → number_or parsed 7396 = 7396%Q)
    ∧ ∀ written', ∃ saved',
        delete_instance ("instance-" +:+ pretty now_ms) written'
          {| instances := instances st ++ [new]; file := saved |}
        = Ret ({| status := 200; body := VObj [("success"%string, VBool true)] |},
               {| instances := instances st; file := saved' |}).
Proof.
  intros Hname Tname Hhost Thost Hport Hparsed Hnow Hall.
  assert (Forall (λ i, readable i = true) (instances st)) as Hread
    by (eapply Forall_impl; [exact Hall|]; by intros ? [? _]).
  set (new := VObj [("id"%string, VStr ("instance-" +:+ pretty now_ms));
                    ("name"%string, name); ("host"%string, host);
                    ("port"%string, VNum (number_or parsed 7396));
                    ("enabled"%string, VBool true)]).
  assert (readable new = true) as Hrnew by done.
  assert (id_is ("instance-" +:+ pretty now_ms) new = true) as Hidnew.
  { unfold new, id_is. cbn [lookup_prop String.eqb Ascii.eqb Bool.eqb andb].
    simpl. by rewrite String.eqb_refl. }
  assert (Forall (λ i, readable i = true) (instances st ++ [new])) as Hread'.
  { apply Forall_app. split; [done|]. by constructor. }
  destruct (without_local (instances st ++ [new])) as [kept| |] eqn:Hkept;
    [|by rewrite without_local_spec in Hkept..].
  exists new. eexists. split; [|split; [done|split]].
  - unfold post_instance. rewrite Hname, Hhost, Hport. cbn [mbind res_bind].
    rewrite Tname, Thost. cbn [negb orb]. unfold int_to_string.
    destruct (Z.ltb_spec (Z.abs now_ms) (2 ^ 53)) as [_|]; [|lia].
    cbn [mbind res_bind]. rewrite Hparsed. cbn [mbind res_bind].
    unfold saveInstances. cbn [instances file]. fold new. rewrite Hkept.
    cbn [mbind res_bind]. reflexivity.
  - intros Hu. rewrite Hu in Hparsed. by injection Hparsed as <-.
  - intros written'. eexists. unfold delete_instance. cbn [instances file].
    rewrite (findIndex_first _ _ _ _ Hall Hrnew Hidnew). cbn [mbind res_bind].
    rewrite list_lookup_middle by done. cbn [default from_option id].
    destruct (member_id new Hrnew) as (v & Hm & Hv). rewrite Hm. cbn [mbind res_bind].
    rewrite Hv. change (id_is "local" new) with false. cbv iota.
    assert (delete (length (instances st)) (instances st ++ [new]) = instances st) as ->.
    { generalize (instances st). clear.
      induction l as [|b l IH]; simpl; [done|]. by rewrite IH. }
    unfold saveInstances. cbn [instances file].
    rewrite without_local_spec by done. cbn [mbind res_bind]. reflexivity.
Qed.

Lemma X26_add_then_remove_witness :
  ∃ new saved,
    post_instance (VObj [("name"%string, VStr "rig"); ("host"%string, VStr "10.0.0.5")])
      1700000000000 Written {| instances := initial; file := Missing |}
    = Ret ({| status := 200; body := new |},
           {| instances := [local_instance; new]; file := saved |})
    ∧ ∃ saved',
        delete_instance "instance-1700000000000" Written
          {| instances := [local_instance; new]; file := saved |}
        = Ret ({| status := 200; body := VObj [("success"%string, VBool true)] |},
               {| instances := initial; file := saved' |}).
Proof.
  destruct (X26_add_then_remove
              (VObj [("name"%string, VStr "rig"); ("host"%string, VStr "10.0.0.5")])
              (VStr "rig") (VStr "10.0.0.5") VUndef (Some 7396%Q) 1700000000000 Written
              {| instances := initial; file := Missing |})
    as (new & saved & Hpost & _ & _ & Hdel);
    [reflexivity|reflexivity|reflexivity|reflexivity|reflexivity|reflexivity|
     reflexivity|by repeat constructor|].
  exists new, saved. split; [exact Hpost|]. exact (Hdel Written).
Defined.

End InstancesProps.

(** *** Updates one after the other, on the store *)
Section StoreSequence.
Import Store Repr Notions.

(** X27. A sequence of updates on shared objects computes what it
    computes on trees.  When the document and the update arrays of a
    store stand for trees, and applying the updates one after the other
    to the tree returns [R], then applying them one after the other in
    the store returns a value that stands for [R]; no cell the store
    had is changed on the way, so the first document and every update
    array stand for the trees they stood for. *)
Theorem X27_updates_in_sequence ops : ∀ h D Dt opts R,
  represents h D Dt → Forall2 (represents h) ops opts →
  apply_all Dt opts = Ret R →
  ∃ r h', apply_all_store h D ops = Ret (r, h')
    ∧ represents h' r R ∧ represents h' D Dt
    ∧ Forall2 (represents h') ops opts
    ∧ (∀ l c, h !! l = Some c → h' !! l = Some c).
Proof.
  induction ops as [|op ops IH]; intros h D Dt opts R HD Hops Happ.
  - apply Forall2_nil_inv_l in Hops as ->. injection Happ as <-.
    exists D, h. by repeat split.
  - apply Forall2_cons_inv_l in Hops as (opt & opts' & Hop & Hops & ->).
    cbn [apply_all] in Happ.
    destruct (Patcher.applyStateUpdate Dt opt) as [R1| |] eqn:H1;
      cbn [mbind res_bind] in Happ; try done.
    destruct (applyStateUpdate_simulation _ _ _ _ _ _ HD Hop H1)
      as (r1 & h1 & Hstep & Hr1 & HD1 & Hop1 & Hsub1 & _).
    assert (Forall2 (represents h1) ops opts') as Hops1.
    { eapply Forall2_impl; [exact Hops|]. intros. by eapply represents_mono. }
    destruct (IH _ _ _ _ _ Hr1 Hops1 Happ) as (r & h' & Hrest & Hr & _ & Hops' & Hsub).
    exists r, h'. cbn [apply_all_store]. rewrite Hstep. cbn [mbind res_bind].
    split; [done|]. split; [done|].
    split; [by eapply represents_mono|].
    split; [|by auto].
    constructor; [by eapply represents_mono|done].
Qed.

Lemma X27_updates_in_sequence_witness :
  let h : store :=
    {[ 1%positive := CObj [("paused"%string, RBool false)];
       2%positive := CArr [RStr "units"; RNum 0; RRef 3%positive];
       3%positive := CObj [("id"%string, RNum 7)];
       4%positive := CArr [RStr "units"; RNum 0; RStr "id"; RNum 8] ]} in
  ∃ r h',
    apply_all_store h (RRef 1%positive) [RRef 2%positive; RRef 4%positive] = Ret (r, h')
    ∧ represents h' r
        (VObj [("paused"%string, VBool false);
               ("units"%string, VArr [VObj [("id"%string, VInt 8)]])])
    ∧ h' !! 3%positive = Some (CObj [("id"%string, RNum 7)]).
Proof.
  intros h.
  destruct (X27_updates_in_sequence [RRef 2%positive; RRef 4%positive] h (RRef 1%positive)
              (VObj [("paused"%string, VBool false)])
              [VArr [VStr "units"; VInt 0; VObj [("id"%string, VInt 7)]];
               VArr [VStr "units"; VInt 0; VStr "id"; VInt 8]]
              (VObj [("paused"%string, VBool false);
                     ("units"%string, VArr [VObj [("id"%string, VInt 8)]])]))
    as (r & h' & Happ & Hr & _ & _ & Hsub);
    [by exists 1%nat
    |repeat constructor; [by exists 2%nat|by exists 1%nat]
    |reflexivity|].
  exists r, h'. split; [done|]. split; [done|]. by apply Hsub.
Defined.

End StoreSequence.
